(** * The aisdi maps: TreeMap (TreeMap.h) and HashMap (HashMap.h)

    A shallow embedding of the two class templates and of their iterators.
    Objects live in a store indexed by their address, tree nodes in a heap
    indexed by pointers; a method is a computation over that state which
    returns, throws [std::out_of_range], or has undefined behaviour. *)
From stdpp Require Import base decidable option list numbers strings gmap sorting.
Set Warnings "-clear-no-such-hyp,-notation-incompatible-prefix".

(** ** Exceptions, results and the state monad of the methods *)

(** The one exception type the library throws, with its [what()] text, and
    the string literals of the [throw] expressions. *)
Inductive exception := out_of_range (what : string).

Definition Iterator_out_of_range : string := "Iterator out of range".
Definition Index_out_of_range : string := "Index out of range".
Definition Map_does_not_contain_key : string := "Map does not contain key: ".

(** A method call on a state [S]: it returns [a] in state [s], leaves by an
    exception in state [s], dereferences a null, dangling or singular
    pointer/iterator ([Undefined]), or exhausts the bound of a loop. *)
Inductive result (S A : Type) : Type :=
| Ok (a : A) (s : S)
| Throw (e : exception) (s : S)
| Undefined
| OutOfFuel.
Arguments Ok {S A} a s.
Arguments Throw {S A} e s.
Arguments Undefined {S A}.
Arguments OutOfFuel {S A}.

Definition M (S A : Type) : Type := S → result S A.

Definition ret {S A} (a : A) : M S A := λ s, Ok a s.

Definition bind {S A B} (m : M S A) (f : A → M S B) : M S B :=
  λ s, match m s with
       | Ok a s' => f a s'
       | Throw e s' => Throw e s'
       | Undefined => Undefined
       | OutOfFuel => OutOfFuel
       end.

Definition throw {S A} (e : exception) : M S A := λ s, Throw e s.
Definition undefined {S A} : M S A := λ _, Undefined.
Definition out_of_fuel {S A} : M S A := λ _, OutOfFuel.
Definition get {S} : M S S := λ s, Ok s s.
Definition put {S} (s : S) : M S unit := λ _, Ok tt s.

(** Dereferencing: [None] is a pointer or iterator that designates nothing. *)
Definition deref {S A} (o : option A) : M S A :=
  match o with Some a => ret a | None => undefined end.

(** A computation on a local object [t : T] (an iterator) run inside a
    method on [S]; an exception that escapes destroys the local object. *)
Definition run_local {S T A} (m : M T A) (t : T) : M S (A * T) :=
  λ s, match m t with
       | Ok a t' => Ok (a, t') s
       | Throw e _ => Throw e s
       | Undefined => Undefined
       | OutOfFuel => OutOfFuel
       end.

(** What a call did, its final state left out. *)
Inductive outcome (A : Type) : Type :=
| Returned (a : A)
| Thrown (e : exception)
| Failed.
Arguments Returned {A} a.
Arguments Thrown {A} e.
Arguments Failed {A}.

Definition outcome_of {S A} (r : result S A) : outcome A :=
  match r with
  | Ok a _ => Returned a
  | Throw e _ => Thrown e
  | Undefined | OutOfFuel => Failed
  end.

(** The call that has this outcome and leaves the state [s] as it is. *)
Definition unchanged {S A} (o : outcome A) (s : S) : result S A :=
  match o with
  | Returned a => Ok a s
  | Thrown e => Throw e s
  | Failed => Undefined
  end.

Notation "x <- m ;; k" := (bind m (λ x, k))
  (at level 100, m at level 99, k at level 200, right associativity).
Notation "m ;;; k" := (bind m (λ _, k))
  (at level 100, k at level 200, right associativity).

(** [std::size_t] arithmetic is modulo 2^64. *)
Definition size_t_wrap (z : Z) : Z := z mod 2 ^ 64.

(** [n] times [++size]. *)
Definition add_size (n : nat) (z : Z) : Z := Nat.iter n (λ z, size_t_wrap (z + 1)) z.

(** Addresses of map objects. *)
Abbreviation loc := positive.

(** The value a list of pairs gives to a key when the pairs are assigned
    one after the other: that of the last pair with this key. *)
Fixpoint last_value {K V : Type} `{!EqDecision K} (l : list (K * V)) (k : K) : option V :=
  match l with
  | [] => None
  | kv :: l' =>
      match last_value l' k with
      | Some x => Some x
      | None => if bool_decide (kv.1 = k) then Some kv.2 else None
      end
  end.

(** * HashMap.h *)
Module HashMap.
Section HashMap.
Context {K V : Type} `{!EqDecision K, !EqDecision V}.
(** [std::hash<key_type>{}(key)] and [mapped_type{}]. *)
Variable hash : K → N.
Variable default_value : V.
(** [literal + key] for a string literal and a [key_type], the argument of
    [std::out_of_range] in [findOrThrow] and [remove]; [None] where the
    expression has no defined value. *)
Variable plus_key : string → K → option string.

Definition MAP_SIZE : nat := 11.
Abbreviation value_type := (K * V)%type.

(** [std::array<std::list<value_type>, MAP_SIZE> buckets; size_type size]. *)
Record HashMap := mkHashMap { buckets : list (list value_type); size : Z }.

(** [HashMap() : size(0) {}]: the array member is default-initialised. *)
Definition HashMap_new : HashMap := mkHashMap (replicate MAP_SIZE []) 0%Z.

(** A [std::list] iterator: the list it walks (as the index of its bucket)
    and the element it designates, [None] for the past-the-end sentinel. *)
Record valueTypeIterator := mkListIterator { bucket_of : nat; offset : option nat }.

#[global] Instance valueTypeIterator_eq_dec : EqDecision valueTypeIterator.
Proof. solve_decision. Defined.

Definition list_begin (b : nat) (l : list value_type) : valueTypeIterator :=
  mkListIterator b (match l with [] => None | _ :: _ => Some 0 end).
Definition list_end (b : nat) : valueTypeIterator := mkListIterator b None.

(** [++it] and [--it] on a list iterator of the list [l]. *)
Definition list_inc {St} (l : list value_type) (i : valueTypeIterator) : M St valueTypeIterator :=
  match offset i with
  | Some n =>
      if bool_decide (n < length l) then
        ret (mkListIterator (bucket_of i) (if bool_decide (S n < length l) then Some (S n) else None))
      else undefined
  | None => undefined
  end.

Definition list_dec {St} (l : list value_type) (i : valueTypeIterator) : M St valueTypeIterator :=
  match offset i with
  | Some (S n) => if bool_decide (S n < length l) then ret (mkListIterator (bucket_of i) (Some n)) else undefined
  | Some 0 => undefined
  | None => match l with
            | [] => undefined
            | _ :: _ => ret (mkListIterator (bucket_of i) (Some (length l - 1)))
            end
  end.

Definition list_deref {St} (l : list value_type) (i : valueTypeIterator) : M St value_type :=
  match offset i with
  | Some n => deref (l !! n)
  | None => undefined
  end.

(** [*bucket] for a [bucketIterator] into the array [bs]. *)
Definition at_bucket {St} (bs : list (list value_type)) (bucket : nat) : M St (list value_type) :=
  deref (bs !! bucket).

(** [std::find_if(first, last, pred)] over one list. *)
Fixpoint find_if (pred : value_type → bool) (l : list value_type) : option nat :=
  match l with
  | [] => None
  | v :: l' => if pred v then Some 0 else S <$> find_if pred l'
  end.

Definition findBucket (key : K) : nat := N.to_nat (hash key mod N.of_nat MAP_SIZE).

Definition findInBucket {St} (bs : list (list value_type)) (bucket : nat) (key : K) : M St valueTypeIterator :=
  l <- at_bucket bs bucket ;;
  ret (mkListIterator bucket (find_if (λ v, bool_decide (v.1 = key)) l)).

(** ** ConstIterator: [buckets] (a reference, passed as the array it refers
    to), [currentBucket], [iter]. *)
Record ConstIterator := mkConstIterator { currentBucket : nat; iter : valueTypeIterator }.

#[global] Instance ConstIterator_eq_dec : EqDecision ConstIterator.
Proof. solve_decision. Defined.

Definition iterator_eq (a b : ConstIterator) : bool :=
  bool_decide (currentBucket a = currentBucket b) && bool_decide (iter a = iter b).

Definition isEnd (it : ConstIterator) : bool :=
  bool_decide (iter it = list_end (MAP_SIZE - 1)).

Fixpoint next_loop (fuel : nat) (bs : list (list value_type)) : M ConstIterator unit :=
  match fuel with
  | 0 => out_of_fuel
  | S fuel' =>
      it <- get ;;
      _ <- at_bucket bs (currentBucket it) ;;
      if bool_decide (iter it = list_end (currentBucket it))
         && bool_decide (currentBucket it ≠ MAP_SIZE - 1)
      then
        l <- at_bucket bs (S (currentBucket it)) ;;
        put (mkConstIterator (S (currentBucket it)) (list_begin (S (currentBucket it)) l)) ;;;
        next_loop fuel' bs
      else ret tt
  end.

Definition next (bs : list (list value_type)) : M ConstIterator unit :=
  next_loop (S MAP_SIZE) bs.

(** The constructor [ConstIterator(buckets, currentBucket, iter)]. *)
Definition ConstIterator_new {St} (bs : list (list value_type)) (bucket : nat) (i : valueTypeIterator)
  : M St ConstIterator :=
  _ <- at_bucket bs bucket ;;
  r <- run_local
      (if bool_decide (i = list_end bucket) then next bs else ret tt)
      (mkConstIterator bucket i) ;;
  ret r.2.

Definition operator_inc (bs : list (list value_type)) : M ConstIterator unit :=
  it <- get ;;
  if isEnd it then throw (out_of_range Index_out_of_range)
  else
    l <- at_bucket bs (bucket_of (iter it)) ;;
    i <- list_inc l (iter it) ;;
    put (mkConstIterator (currentBucket it) i) ;;;
    next bs.

Fixpoint dec_loop (fuel : nat) (bs : list (list value_type)) : M ConstIterator unit :=
  match fuel with
  | 0 => out_of_fuel
  | S fuel' =>
      it <- get ;;
      l <- at_bucket bs (currentBucket it) ;;
      if (match l with [] => true | _ :: _ => false end)
         && bool_decide (currentBucket it ≠ 0)
      then
        put (mkConstIterator (currentBucket it - 1) (iter it)) ;;;
        dec_loop fuel' bs
      else ret tt
  end.

Definition operator_dec (bs : list (list value_type)) : M ConstIterator unit :=
  it <- get ;;
  l <- at_bucket bs (currentBucket it) ;;
  if bool_decide (iter it = list_begin (currentBucket it) l) then
    dec_loop (S MAP_SIZE) bs ;;;
    it <- get ;;
    l <- at_bucket bs (currentBucket it) ;;
    match l with
    | [] => throw (out_of_range Iterator_out_of_range)
    | _ :: _ =>
        i <- list_dec l (list_end (currentBucket it)) ;;
        put (mkConstIterator (currentBucket it) i)
    end
  else
    l' <- at_bucket bs (bucket_of (iter it)) ;;
    i <- list_dec l' (iter it) ;;
    put (mkConstIterator (currentBucket it) i).

Definition operator_deref (bs : list (list value_type)) : M ConstIterator value_type :=
  it <- get ;;
  if isEnd it then throw (out_of_range Iterator_out_of_range)
  else
    l <- at_bucket bs (bucket_of (iter it)) ;;
    list_deref l (iter it).

(** ** The methods of HashMap, on the object [*this] *)

Definition isEmpty : M HashMap bool :=
  m <- get ;; ret (bool_decide (size m = 0%Z)).

Definition getSize : M HashMap Z :=
  m <- get ;; ret (size m).

(** A [mapped_type&]: the [second] of an element of a bucket. *)
Record reference := mkReference { ref_bucket : nat; ref_offset : nat }.

Definition operator_index (key : K) : M HashMap reference :=
  m <- get ;;
  let bucket := findBucket key in
  found <- findInBucket (buckets m) bucket key ;;
  l <- at_bucket (buckets m) bucket ;;
  if bool_decide (found = list_end bucket) then
    put (mkHashMap (<[bucket := l ++ [(key, default_value)]]> (buckets m))
                   (size_t_wrap (size m + 1)%Z)) ;;;
    ret (mkReference bucket (length l))
  else
    i <- deref (offset found) ;;
    ret (mkReference bucket i).

(** Reading and writing through a [mapped_type&]. *)
Definition load (r : reference) : M HashMap V :=
  m <- get ;;
  l <- at_bucket (buckets m) (ref_bucket r) ;;
  v <- deref (l !! ref_offset r) ;;
  ret v.2.

Definition store (r : reference) (x : V) : M HashMap unit :=
  m <- get ;;
  l <- at_bucket (buckets m) (ref_bucket r) ;;
  v <- deref (l !! ref_offset r) ;;
  put (mkHashMap (<[ref_bucket r := <[ref_offset r := (v.1, x)]> l]> (buckets m)) (size m)).

Definition findOrThrow (key : K) : M HashMap value_type :=
  m <- get ;;
  let bucket := findBucket key in
  l <- at_bucket (buckets m) bucket ;;
  let bucket_it := mkListIterator bucket (find_if (λ v, bool_decide (v.1 = key)) l) in
  if bool_decide (bucket_it = list_end bucket) then
    what <- deref (plus_key Map_does_not_contain_key key) ;;
    throw (out_of_range what)
  else list_deref l bucket_it.

Definition valueOf (key : K) : M HashMap V :=
  v <- findOrThrow key ;; ret v.2.

Definition find (key : K) : M HashMap ConstIterator :=
  m <- get ;;
  let bucket := findBucket key in
  found <- findInBucket (buckets m) bucket key ;;
  ConstIterator_new (buckets m) bucket found.

(** [bucket->erase(pos)]. *)
Definition erase (bucket : nat) (pos : valueTypeIterator) : M HashMap unit :=
  m <- get ;;
  l <- at_bucket (buckets m) bucket ;;
  if bool_decide (bucket_of pos = bucket) then
    i <- deref (offset pos) ;;
    if bool_decide (i < length l) then
      put (mkHashMap (<[bucket := delete i l]> (buckets m)) (size m))
    else undefined
  else undefined.

Definition decrement_size : M HashMap unit :=
  m <- get ;; put (mkHashMap (buckets m) (size_t_wrap (size m - 1)%Z)).

Definition remove (key : K) : M HashMap unit :=
  m <- get ;;
  let bucket := findBucket key in
  found <- findInBucket (buckets m) bucket key ;;
  if bool_decide (found = list_end bucket) then
    what <- deref (plus_key Map_does_not_contain_key key) ;;
    throw (out_of_range what)
  else
    erase bucket found ;;;
    decrement_size.

Definition cbegin : M HashMap ConstIterator :=
  m <- get ;;
  l <- at_bucket (buckets m) 0 ;;
  ConstIterator_new (buckets m) 0 (list_begin 0 l).

Definition cend : M HashMap ConstIterator :=
  m <- get ;;
  ConstIterator_new (buckets m) (MAP_SIZE - 1) (list_end (MAP_SIZE - 1)).

Definition remove_at (it : ConstIterator) : M HashMap unit :=
  e <- cend ;;
  if iterator_eq it e then throw (out_of_range Iterator_out_of_range)
  else
    erase (currentBucket it) (iter it) ;;;
    decrement_size.

Definition operator_eq (other : HashMap) : M HashMap bool :=
  m <- get ;;
  if bool_decide (size m ≠ size other) then ret false
  else ret (bool_decide (buckets m = buckets other)).

Definition operator_neq (other : HashMap) : M HashMap bool :=
  b <- operator_eq other ;; ret (negb b).

(** ** Iteration

    The loop of a range-based [for], for stating what the iterators do. *)
(** The pairs met by [for (it = begin(); it != end(); ++it) ... *it ...]. *)
Fixpoint traverse_loop {St} (fuel : nat) (bs : list (list value_type)) (it last : ConstIterator)
  : M St (list value_type) :=
  match fuel with
  | 0 => out_of_fuel
  | S fuel' =>
      if iterator_eq it last then ret []
      else
        v <- run_local (operator_deref bs) it ;;
        r <- run_local (operator_inc bs) it ;;
        rest <- traverse_loop fuel' bs r.2 last ;;
        ret (v.1 :: rest)
  end.

Definition traverse : M HashMap (list value_type) :=
  m <- get ;;
  b <- cbegin ;;
  e <- cend ;;
  traverse_loop (S (length (concat (buckets m)))) (buckets m) b e.

(** The iterator at the pair [j] of the bucket [b], and the one [end()]
    returns. *)
Definition at_pair (b j : nat) : ConstIterator :=
  mkConstIterator b (mkListIterator b (Some j)).

Definition end_iterator : ConstIterator :=
  mkConstIterator (MAP_SIZE - 1) (list_end (MAP_SIZE - 1)).

(** Where [next()] stops when it starts at the beginning of the bucket [b],
    with [n] buckets after it. *)
Fixpoint first_pair (n : nat) (bs : list (list value_type)) (b : nat) : ConstIterator :=
  match bs !! b with
  | Some (_ :: _) => at_pair b 0
  | _ => match n with
         | 0 => end_iterator
         | S n' => first_pair n' bs (S b)
         end
  end.

(** From [it], [operator*] and [operator++] yield the pairs [vs] one after
    the other and arrive at [end()]. *)
Fixpoint walk (bs : list (list value_type)) (it : ConstIterator) (vs : list value_type) : Prop :=
  match vs with
  | [] => it = end_iterator
  | v :: vs' =>
      it ≠ end_iterator
      ∧ operator_deref bs it = Ok v it
      ∧ ∃ it', operator_inc bs it = Ok tt it' ∧ walk bs it' vs'
  end.

(** ** The invariant of the data model

    The array has [MAP_SIZE] buckets and a key is stored only in the bucket
    [findBucket] selects for it. *)
Definition wf (m : HashMap) : Prop :=
  length (buckets m) = MAP_SIZE
  ∧ ∀ i l kv, buckets m !! i = Some l → kv ∈ l → findBucket kv.1 = i.

(** The pairs of the map, bucket after bucket, and its keys. *)
Definition entries (m : HashMap) : list value_type := concat (buckets m).
Definition keys (m : HashMap) : list K := (entries m).*1.

(** ** Objects: the store of HashMap objects, by address *)

Definition object_at (this : loc) : M (gmap loc HashMap) HashMap :=
  w <- get ;; deref (w !! this).

(** A method of the object at [this]. *)
Definition on {A} (this : loc) (m : M HashMap A) : M (gmap loc HashMap) A :=
  λ w, match w !! this with
       | None => Undefined
       | Some o =>
           match m o with
           | Ok a o' => Ok a (<[this := o']> w)
           | Throw e o' => Throw e (<[this := o']> w)
           | Undefined => Undefined
           | OutOfFuel => OutOfFuel
           end
       end.

(** Storage at [this] receives a newly constructed object. *)
Definition new_at (this : loc) (o : HashMap) : M (gmap loc HashMap) unit :=
  λ w, Ok tt (<[this := o]> w).

Definition set_size (z : Z) : M HashMap unit :=
  m <- get ;; put (mkHashMap (buckets m) z).

(** [std::for_each(first, last, f)] over the iterators of the object at [other]. *)
Fixpoint for_each (fuel : nat) (other : loc) (first last : ConstIterator)
    (f : value_type → M (gmap loc HashMap) unit) : M (gmap loc HashMap) unit :=
  match fuel with
  | 0 => out_of_fuel
  | S fuel' =>
      if iterator_eq first last then ret tt
      else
        o <- object_at other ;;
        v <- run_local (operator_deref (buckets o)) first ;;
        f v.1 ;;;
        o' <- object_at other ;;
        r <- run_local (operator_inc (buckets o')) first ;;
        for_each fuel' other r.2 last f
  end.

(** [fill(begin, end)]: the iterators walk the buckets of [other]. *)
Definition fill (this other : loc) (first last : ConstIterator) : M (gmap loc HashMap) unit :=
  o <- object_at other ;;
  for_each (S (length (concat (buckets o)))) other first last
    (λ value, r <- on this (operator_index value.1) ;; on this (store r value.2)).

(** [HashMap()], [HashMap(std::initializer_list<value_type>)],
    [HashMap(const HashMap&)], [HashMap(HashMap&&)]. *)
Definition HashMap_default (this : loc) : M (gmap loc HashMap) unit :=
  new_at this HashMap_new.

Fixpoint insert_list (l : list value_type) : M HashMap unit :=
  match l with
  | [] => ret tt
  | v :: l' => r <- operator_index v.1 ;; store r v.2 ;;; insert_list l'
  end.

Definition HashMap_of_list (this : loc) (l : list value_type) : M (gmap loc HashMap) unit :=
  new_at this HashMap_new ;;;
  on this (insert_list l).

Definition HashMap_copy (this other : loc) : M (gmap loc HashMap) unit :=
  new_at this HashMap_new ;;;
  b <- on other cbegin ;;
  e <- on other cend ;;
  fill this other b e.

(** [this->buckets = std::move(other.buckets)]: every list of [other] is
    moved from, which leaves it empty. *)
Definition move_buckets (this other : loc) : M (gmap loc HashMap) unit :=
  o <- object_at other ;;
  on this (m <- get ;; put (mkHashMap (buckets o) (size m))) ;;;
  on other (m <- get ;; put (mkHashMap ((λ _, []) <$> buckets m) (size m))).

(** The members of the new object are default-initialised before the body
    runs; [size] is indeterminate until the body assigns it. *)
Definition HashMap_move (this other : loc) : M (gmap loc HashMap) unit :=
  new_at this HashMap_new ;;;
  move_buckets this other ;;;
  o <- object_at other ;;
  on this (set_size (size o)).

Definition operator_assign (this other : loc) : M (gmap loc HashMap) unit :=
  if bool_decide (this = other) then ret tt
  else
    on this (set_size 0%Z) ;;;
    b <- on other cbegin ;;
    e <- on other cend ;;
    fill this other b e.

Definition operator_move_assign (this other : loc) : M (gmap loc HashMap) unit :=
  if bool_decide (this = other) then ret tt
  else
    o <- object_at other ;;
    on this (set_size (size o)) ;;;
    move_buckets this other.

End HashMap.
End HashMap.

(** [std::hash<int>]: the identity conversion to [std::size_t]. *)
Definition hash_int (k : Z) : N := Z.to_N (k mod 2 ^ 64).

Fixpoint string_drop (n : nat) (s : string) : string :=
  match n, s with
  | S n', String _ s' => string_drop n' s'
  | _, _ => s
  end.

(** [literal + key] for an [int] key is pointer arithmetic: the literal
    decays to a [const char *], which is moved by [key] chars. The text read
    from there is the rest of the literal while the pointer stays inside it
    (its terminating zero included), and nothing defined otherwise. *)
Definition plus_int (literal : string) (key : Z) : option string :=
  if bool_decide (0 ≤ key ≤ Z.of_nat (String.length literal))%Z
  then Some (string_drop (Z.to_nat key) literal) else None.

(** [literal + key] for a [std::string] key: the concatenation. *)
Definition plus_string (literal key : string) : option string :=
  Some (literal +:+ key).

(** * TreeMap.h *)
Module TreeMap.
Section TreeMap.
Context {K V : Type} `{!EqDecision K, !EqDecision V}.
(** [a < b] on [key_type] (the code writes [b > a]) and [mapped_type()]. *)
Context (lt : relation K) `{!RelDecision lt}.
Variable default_value : V.

(** [node_pointer]: the address of a [TreeNode] on the heap. *)
Definition node_pointer : Type := positive.
Abbreviation value_type := (K * V)%type.

Record TreeNode := mkTreeNode {
  val : value_type;
  parent : option node_pointer;
  leftChild : option node_pointer;
  rightChild : option node_pointer;
  height : Z
}.

Definition key (n : TreeNode) : K := (val n).1.
Definition value (n : TreeNode) : V := (val n).2.

(** [node_pointer root; size_type size]. *)
Record TreeMap := mkTreeMap { root : option node_pointer; size : Z }.

(** The heap of nodes and the store of TreeMap objects. *)
Record world := mkWorld {
  nodes : gmap node_pointer TreeNode;
  objects : gmap loc TreeMap
}.

(** [*p] for a node pointer: null and freed pointers designate nothing. *)
Definition node_at (p : option node_pointer) : M world TreeNode :=
  w <- get ;;
  match p with
  | None => undefined
  | Some a => deref (nodes w !! a)
  end.

Definition set_node (a : node_pointer) (n : TreeNode) : M world unit :=
  _ <- node_at (Some a) ;;
  w <- get ;;
  put (mkWorld (<[a := n]> (nodes w)) (objects w)).

(** [new TreeNode(...)] returns an address that is not in use. *)
Definition new_node (n : TreeNode) : M world node_pointer :=
  w <- get ;;
  let a := fresh (dom (nodes w)) in
  put (mkWorld (<[a := n]> (nodes w)) (objects w)) ;;;
  ret a.

(** [delete p] for a non-null [p]. *)
Definition delete_node (a : node_pointer) : M world unit :=
  _ <- node_at (Some a) ;;
  w <- get ;;
  put (mkWorld (delete a (nodes w)) (objects w)).

Definition this_map (this : loc) : M world TreeMap :=
  w <- get ;; deref (objects w !! this).

Definition set_map (this : loc) (m : TreeMap) : M world unit :=
  _ <- this_map this ;;
  w <- get ;;
  put (mkWorld (nodes w) (<[this := m]> (objects w))).

Definition set_root (this : loc) (p : option node_pointer) : M world unit :=
  m <- this_map this ;; set_map this (mkTreeMap p (size m)).

Definition set_size (this : loc) (z : Z) : M world unit :=
  m <- this_map this ;; set_map this (mkTreeMap (root m) z).

(** Storage at [this] receives a newly constructed object. *)
Definition new_at (this : loc) (m : TreeMap) : M world unit :=
  w <- get ;; put (mkWorld (nodes w) (<[this := m]> (objects w))).

(** A [node_pointer *]: [&root], [&p->leftChild] or [&p->rightChild]. *)
Inductive slot :=
| root_slot
| leftChild_slot (p : node_pointer)
| rightChild_slot (p : node_pointer).

Definition read_slot (this : loc) (s : slot) : M world (option node_pointer) :=
  match s with
  | root_slot => m <- this_map this ;; ret (root m)
  | leftChild_slot p => n <- node_at (Some p) ;; ret (leftChild n)
  | rightChild_slot p => n <- node_at (Some p) ;; ret (rightChild n)
  end.

Definition write_slot (this : loc) (s : slot) (q : option node_pointer) : M world unit :=
  match s with
  | root_slot => set_root this q
  | leftChild_slot p =>
      n <- node_at (Some p) ;;
      set_node p (mkTreeNode (val n) (parent n) q (rightChild n) (height n))
  | rightChild_slot p =>
      n <- node_at (Some p) ;;
      set_node p (mkTreeNode (val n) (parent n) (leftChild n) q (height n))
  end.

(** The bound of every loop over the nodes: one more than the heap holds. *)
Definition loop_bound (w : world) : nat := S (base.size (nodes w)).

Definition isEmpty (this : loc) : M world bool :=
  m <- this_map this ;; ret (bool_decide (size m = 0%Z)).

Definition getSize (this : loc) : M world Z :=
  m <- this_map this ;; ret (size m).

(** ** operator[] *)

Fixpoint index_loop (fuel : nat) (this : loc) (k : K) (node : slot) (par : option node_pointer)
  : M world (slot * option node_pointer) :=
  match fuel with
  | 0 => out_of_fuel
  | S fuel' =>
      cur <- read_slot this node ;;
      match cur with
      | None => ret (node, par)
      | Some c =>
          n <- node_at (Some c) ;;
          if bool_decide (key n ≠ k) then
            if bool_decide (lt k (key n))
            then index_loop fuel' this k (leftChild_slot c) (Some c)
            else index_loop fuel' this k (rightChild_slot c) (Some c)
          else ret (node, par)
      end
  end.

(** The result is a [mapped_type&]: the [second] of the node's pair. *)
Definition operator_index (this : loc) (k : K) : M world node_pointer :=
  m <- this_map this ;;
  match root m with
  | None =>
      a <- new_node (mkTreeNode (k, default_value) None None None 0) ;;
      set_root this (Some a) ;;;
      m' <- this_map this ;;
      set_size this (size_t_wrap (size m' + 1)%Z) ;;;
      ret a
  | Some _ =>
      w <- get ;;
      r <- index_loop (loop_bound w) this k root_slot None ;;
      cur <- read_slot this r.1 ;;
      match cur with
      | Some c => ret c
      | None =>
          a <- new_node (mkTreeNode (k, default_value) r.2 None None 0) ;;
          write_slot this r.1 (Some a) ;;;
          m' <- this_map this ;;
          set_size this (size_t_wrap (size m' + 1)%Z) ;;;
          ret a
      end
  end.

(** Reading and writing through a [mapped_type&]. *)
Definition load (r : node_pointer) : M world V :=
  n <- node_at (Some r) ;; ret (value n).

Definition store (r : node_pointer) (x : V) : M world unit :=
  n <- node_at (Some r) ;;
  set_node r (mkTreeNode (key n, x) (parent n) (leftChild n) (rightChild n) (height n)).

(** ** findNode, minElement, maxElement *)

Fixpoint findNode_loop (fuel : nat) (k : K) (currentNode : option node_pointer)
  : M world (option node_pointer) :=
  match fuel with
  | 0 => out_of_fuel
  | S fuel' =>
      match currentNode with
      | None => ret None
      | Some c =>
          n <- node_at (Some c) ;;
          if bool_decide (key n ≠ k) then
            if bool_decide (lt k (key n))
            then findNode_loop fuel' k (leftChild n)
            else findNode_loop fuel' k (rightChild n)
          else ret (Some c)
      end
  end.

Definition findNode (this : loc) (k : K) : M world (option node_pointer) :=
  m <- this_map this ;;
  w <- get ;;
  findNode_loop (loop_bound w) k (root m).

(** [while (element->leftChild != nullptr) element = element->leftChild]. *)
Fixpoint leftmost_loop (fuel : nat) (element : node_pointer) : M world node_pointer :=
  match fuel with
  | 0 => out_of_fuel
  | S fuel' =>
      n <- node_at (Some element) ;;
      match leftChild n with
      | None => ret element
      | Some l => leftmost_loop fuel' l
      end
  end.

Fixpoint rightmost_loop (fuel : nat) (element : node_pointer) : M world node_pointer :=
  match fuel with
  | 0 => out_of_fuel
  | S fuel' =>
      n <- node_at (Some element) ;;
      match rightChild n with
      | None => ret element
      | Some r => rightmost_loop fuel' r
      end
  end.

Definition minElement (this : loc) : M world (option node_pointer) :=
  m <- this_map this ;;
  w <- get ;;
  match root m with
  | None => ret None
  | Some r => e <- leftmost_loop (loop_bound w) r ;; ret (Some e)
  end.

Definition maxElement (this : loc) : M world (option node_pointer) :=
  m <- this_map this ;;
  w <- get ;;
  match root m with
  | None => ret None
  | Some r => e <- rightmost_loop (loop_bound w) r ;; ret (Some e)
  end.

(** ** ConstIterator: [parent] (the map it walks) and [currentNode] *)
Record ConstIterator := mkConstIterator { it_parent : loc; currentNode : option node_pointer }.

Definition iterator_eq (a b : ConstIterator) : bool :=
  bool_decide (currentNode a = currentNode b).

Definition cbegin (this : loc) : M world ConstIterator :=
  e <- minElement this ;; ret (mkConstIterator this e).

Definition cend (this : loc) : M world ConstIterator :=
  ret (mkConstIterator this None).

(** [while (c->parent != nullptr && c->parent->rightChild == c) c = c->parent]. *)
Fixpoint ascend_right_loop (fuel : nat) (c : node_pointer) : M world node_pointer :=
  match fuel with
  | 0 => out_of_fuel
  | S fuel' =>
      n <- node_at (Some c) ;;
      match parent n with
      | None => ret c
      | Some p =>
          pn <- node_at (Some p) ;;
          if bool_decide (rightChild pn = Some c) then ascend_right_loop fuel' p else ret c
      end
  end.

Fixpoint ascend_left_loop (fuel : nat) (c : node_pointer) : M world node_pointer :=
  match fuel with
  | 0 => out_of_fuel
  | S fuel' =>
      n <- node_at (Some c) ;;
      match parent n with
      | None => ret c
      | Some p =>
          pn <- node_at (Some p) ;;
          if bool_decide (leftChild pn = Some c) then ascend_left_loop fuel' p else ret c
      end
  end.

(** [operator++]: the iterator is returned as advanced. *)
Definition operator_inc (it : ConstIterator) : M world ConstIterator :=
  match currentNode it with
  | None => throw (out_of_range Iterator_out_of_range)
  | Some c =>
      w <- get ;;
      n <- node_at (Some c) ;;
      match rightChild n with
      | Some r =>
          e <- leftmost_loop (loop_bound w) r ;;
          ret (mkConstIterator (it_parent it) (Some e))
      | None =>
          c' <- ascend_right_loop (loop_bound w) c ;;
          n' <- node_at (Some c') ;;
          ret (mkConstIterator (it_parent it) (parent n'))
      end
  end.

Definition operator_dec (it : ConstIterator) : M world ConstIterator :=
  empty <- isEmpty (it_parent it) ;;
  if (empty : bool) then throw (out_of_range Iterator_out_of_range)
  else
    match currentNode it with
    | None =>
        e <- maxElement (it_parent it) ;;
        ret (mkConstIterator (it_parent it) e)
    | Some c =>
        w <- get ;;
        n <- node_at (Some c) ;;
        match leftChild n with
        | Some l =>
            e <- rightmost_loop (loop_bound w) l ;;
            ret (mkConstIterator (it_parent it) (Some e))
        | None =>
            c' <- ascend_left_loop (loop_bound w) c ;;
            n' <- node_at (Some c') ;;
            match parent n' with
            | None => throw (out_of_range Iterator_out_of_range)
            | Some p => ret (mkConstIterator (it_parent it) (Some p))
            end
        end
    end.

Definition operator_deref (it : ConstIterator) : M world value_type :=
  match currentNode it with
  | None => throw (out_of_range Iterator_out_of_range)
  | Some c => n <- node_at (Some c) ;; ret (val n)
  end.

(** ** find, valueOf, remove *)

Definition find (this : loc) (k : K) : M world ConstIterator :=
  p <- findNode this k ;; ret (mkConstIterator this p).

Definition valueOf (this : loc) (k : K) : M world V :=
  it <- find this k ;;
  v <- operator_deref it ;;
  ret v.2.

Definition remove_at (this : loc) (it : ConstIterator) : M world unit :=
  e <- cend this ;;
  if iterator_eq it e then throw (out_of_range Iterator_out_of_range)
  else
    nodeToDelete <- deref (currentNode it) ;;
    n <- node_at (Some nodeToDelete) ;;
    nodeToDeleteParentPtr <-
      match parent n with
      | None => ret root_slot
      | Some p =>
          pn <- node_at (Some p) ;;
          if bool_decide (leftChild pn = Some nodeToDelete)
          then ret (leftChild_slot p) else ret (rightChild_slot p)
      end ;;
    (if bool_decide (leftChild n = None) && bool_decide (rightChild n = None) then
       write_slot this nodeToDeleteParentPtr None
     else
       let branch := if bool_decide (rightChild n = None) then leftChild n else rightChild n in
       b <- deref branch ;;
       bn <- node_at branch ;;
       set_node b (mkTreeNode (val bn) (parent n) (leftChild bn) (rightChild bn) (height bn)) ;;;
       write_slot this nodeToDeleteParentPtr branch) ;;;
    delete_node nodeToDelete ;;;
    m <- this_map this ;;
    set_size this (size_t_wrap (size m - 1)%Z).

Definition remove (this : loc) (k : K) : M world unit :=
  it <- find this k ;; remove_at this it.

(** ** operator==: [for (auto &val : other)] with its early return *)
Fixpoint eq_loop (fuel : nat) (this : loc) (it last : ConstIterator) : M world bool :=
  match fuel with
  | 0 => out_of_fuel
  | S fuel' =>
      if iterator_eq it last then ret true
      else
        v <- operator_deref it ;;
        x <- valueOf this v.1 ;;
        if bool_decide (x ≠ v.2) then ret false
        else
          it' <- operator_inc it ;;
          eq_loop fuel' this it' last
  end.

Definition operator_eq (this other : loc) : M world bool :=
  m <- this_map this ;;
  o <- this_map other ;;
  if bool_decide (size m ≠ size o) then ret false
  else
    b <- cbegin other ;;
    e <- cend other ;;
    w <- get ;;
    eq_loop (loop_bound w) this b e.

Definition operator_neq (this other : loc) : M world bool :=
  b <- operator_eq this other ;; ret (negb b).

(** ** clear and fill *)
Fixpoint clear_loop (fuel : nat) (it last : ConstIterator) : M world unit :=
  match fuel with
  | 0 => out_of_fuel
  | S fuel' =>
      if iterator_eq it last then ret tt
      else
        node <- deref (currentNode it) ;;
        it' <- operator_inc it ;;
        delete_node node ;;;
        clear_loop fuel' it' last
  end.

Definition clear (this : loc) : M world unit :=
  b <- cbegin this ;;
  e <- cend this ;;
  w <- get ;;
  clear_loop (loop_bound w) b e ;;;
  set_root this None ;;;
  set_size this 0%Z.

(** [std::for_each(first, last, f)]. *)
Fixpoint for_each (fuel : nat) (first last : ConstIterator) (f : value_type → M world unit)
  : M world unit :=
  match fuel with
  | 0 => out_of_fuel
  | S fuel' =>
      if iterator_eq first last then ret tt
      else
        v <- operator_deref first ;;
        f v ;;;
        first' <- operator_inc first ;;
        for_each fuel' first' last f
  end.

Definition fill (this other : loc) : M world unit :=
  b <- cbegin other ;;
  e <- cend other ;;
  w <- get ;;
  for_each (loop_bound w) b e
    (λ v, r <- operator_index this v.1 ;; store r v.2).

(** The pairs met by [for (it = begin(); it != end(); ++it) ... *it ...]. *)
Fixpoint traverse_loop (fuel : nat) (it last : ConstIterator) : M world (list value_type) :=
  match fuel with
  | 0 => out_of_fuel
  | S fuel' =>
      if iterator_eq it last then ret []
      else
        v <- operator_deref it ;;
        it' <- operator_inc it ;;
        rest <- traverse_loop fuel' it' last ;;
        ret (v :: rest)
  end.

Definition traverse (this : loc) : M world (list value_type) :=
  b <- cbegin this ;;
  e <- cend this ;;
  w <- get ;;
  traverse_loop (loop_bound w) b e.

(** The pairs met by [for (it = end(); it != begin(); ) { --it; ... *it ... }]. *)
Fixpoint traverse_back_loop (fuel : nat) (it first : ConstIterator)
  : M world (list value_type) :=
  match fuel with
  | 0 => out_of_fuel
  | S fuel' =>
      if iterator_eq it first then ret []
      else
        it' <- operator_dec it ;;
        v <- operator_deref it' ;;
        rest <- traverse_back_loop fuel' it' first ;;
        ret (v :: rest)
  end.

Definition traverse_back (this : loc) : M world (list value_type) :=
  b <- cbegin this ;;
  e <- cend this ;;
  w <- get ;;
  traverse_back_loop (loop_bound w) e b.

(** A sequence of insertions [this->operator[](k)], the references dropped. *)
Fixpoint insert_keys (this : loc) (ks : list K) : M world unit :=
  match ks with
  | [] => ret tt
  | k :: ks' => _ <- operator_index this k ;; insert_keys this ks'
  end.

(** ** Constructors and assignment *)
Definition TreeMap_default (this : loc) : M world unit :=
  new_at this (mkTreeMap None 0).

Fixpoint insert_list (this : loc) (l : list value_type) : M world unit :=
  match l with
  | [] => ret tt
  | v :: l' => r <- operator_index this v.1 ;; store r v.2 ;;; insert_list this l'
  end.

Definition TreeMap_of_list (this : loc) (l : list value_type) : M world unit :=
  TreeMap_default this ;;;
  insert_list this l.

Definition TreeMap_copy (this other : loc) : M world unit :=
  TreeMap_default this ;;;
  fill this other.

(** The members of the new object are indeterminate until the body assigns
    them. *)
Definition TreeMap_move (this other : loc) : M world unit :=
  o <- this_map other ;;
  new_at this (mkTreeMap (root o) (size o)) ;;;
  set_root other None.

Definition operator_assign (this other : loc) : M world unit :=
  if bool_decide (this = other) then ret tt
  else
    clear this ;;;
    fill this other.

Definition operator_move_assign (this other : loc) : M world unit :=
  if bool_decide (this = other) then ret tt
  else
    clear this ;;;
    o <- this_map other ;;
    set_root this (root o) ;;;
    o' <- this_map other ;;
    set_size this (size o') ;;;
    set_root other None.

(** [~TreeMap()]: [clear()], then the storage of the object is released. *)
Definition TreeMap_destructor (this : loc) : M world unit :=
  clear this ;;;
  w <- get ;;
  put (mkWorld (nodes w) (delete this (objects w))).

(** ** The tree a heap holds, for stating what the methods do

    [Node l a kv r]: the node at address [a] holds the pair [kv], its
    children are the roots of [l] and [r]. *)
Inductive tree :=
| Leaf
| Node (l : tree) (a : node_pointer) (kv : value_type) (r : tree).

#[global] Instance tree_eq_dec : EqDecision tree.
Proof. solve_decision. Defined.

Definition root_ptr (t : tree) : option node_pointer :=
  match t with Leaf => None | Node _ a _ _ => Some a end.

(** The heap [h] holds [t] below a node [par] ([None] above the root): each
    node has the fields the constructor and [operator[]] give it. *)
Fixpoint is_tree (h : gmap node_pointer TreeNode) (par : option node_pointer) (t : tree) : Prop :=
  match t with
  | Leaf => True
  | Node l a kv r =>
      h !! a = Some (mkTreeNode kv par (root_ptr l) (root_ptr r) 0)
      ∧ is_tree h (Some a) l ∧ is_tree h (Some a) r
  end.

(** Addresses and pairs in order: left subtree, node, right subtree. *)
Fixpoint ptrs (t : tree) : list node_pointer :=
  match t with Leaf => [] | Node l a _ r => ptrs l ++ a :: ptrs r end.

Fixpoint entries (t : tree) : list value_type :=
  match t with Leaf => [] | Node l _ kv r => entries l ++ kv :: entries r end.

Definition keys (t : tree) : list K := (entries t).*1.

Fixpoint tree_height (t : tree) : nat :=
  match t with Leaf => 0 | Node l _ _ r => S (tree_height l `max` tree_height r) end.

(** The ordering invariant of the data model. *)
Fixpoint bst (t : tree) : Prop :=
  match t with
  | Leaf => True
  | Node l _ kv r =>
      Forall (λ x, lt x kv.1) (keys l) ∧ Forall (λ x, lt kv.1 x) (keys r) ∧ bst l ∧ bst r
  end.

(** The object at [this] is a well-formed map whose nodes are those of [t]. *)
Definition wf (w : world) (this : loc) (t : tree) : Prop :=
  (∃ sz, objects w !! this = Some (mkTreeMap (root_ptr t) sz))
  ∧ is_tree (nodes w) None t ∧ NoDup (ptrs t) ∧ bst t.

(** The search of [findNode] and of [operator[]], on the tree. *)
Fixpoint lookup_tree (k : K) (t : tree) : option node_pointer :=
  match t with
  | Leaf => None
  | Node l a kv r =>
      if bool_decide (kv.1 ≠ k) then
        if bool_decide (lt k kv.1) then lookup_tree k l else lookup_tree k r
      else Some a
  end.

Fixpoint insertion_point (k : K) (s : slot) (par : option node_pointer) (t : tree)
  : slot * option node_pointer :=
  match t with
  | Leaf => (s, par)
  | Node l a kv r =>
      if bool_decide (kv.1 ≠ k) then
        if bool_decide (lt k kv.1)
        then insertion_point k (leftChild_slot a) (Some a) l
        else insertion_point k (rightChild_slot a) (Some a) r
      else (s, par)
  end.

(** The tree after [operator[]] has put a new node at address [a']. *)
Fixpoint insert_tree (a' : node_pointer) (k : K) (t : tree) : tree :=
  match t with
  | Leaf => Node Leaf a' (k, default_value) Leaf
  | Node l a kv r =>
      if bool_decide (kv.1 ≠ k) then
        if bool_decide (lt k kv.1)
        then Node (insert_tree a' k l) a kv r
        else Node l a kv (insert_tree a' k r)
      else t
  end.

(** The tree after a store of [x] through the reference to the node [p]. *)
Fixpoint update_tree (p : node_pointer) (x : V) (t : tree) : tree :=
  match t with
  | Leaf => Leaf
  | Node l a kv r =>
      Node (update_tree p x l) a (if bool_decide (a = p) then (kv.1, x) else kv)
           (update_tree p x r)
  end.

(** The subtree whose root is the node at [a]. *)
Fixpoint subtree (a : node_pointer) (t : tree) : option tree :=
  match t with
  | Leaf => None
  | Node l b _ r =>
      if bool_decide (b = a) then Some t
      else match subtree a l with
           | Some s => Some s
           | None => subtree a r
           end
  end.

(** The tree after [remove] of the node at [a]: the branch that takes its
    place is the right subtree, or the left one where there is no right
    one. *)
Fixpoint remove_tree (a : node_pointer) (t : tree) : tree :=
  match t with
  | Leaf => Leaf
  | Node l b kv r =>
      if bool_decide (b = a) then (if bool_decide (r = Leaf) then l else r)
      else Node (remove_tree a l) b kv (remove_tree a r)
  end.

(** The value [valueOf] reads for [k]. *)
Fixpoint tree_value (k : K) (t : tree) : option V :=
  match t with
  | Leaf => None
  | Node l _ kv r =>
      if bool_decide (kv.1 ≠ k) then
        if bool_decide (lt k kv.1) then tree_value k l else tree_value k r
      else Some kv.2
  end.

(** [operator==] along the pairs of [other]: the first key that [valueOf]
    does not find ends it by the exception, the first value that differs by
    [false]. *)
Fixpoint compare_pairs (t : tree) (kvs : list value_type) : outcome bool :=
  match kvs with
  | [] => Returned true
  | kv :: kvs' =>
      match tree_value kv.1 t with
      | None => Thrown (out_of_range Iterator_out_of_range)
      | Some x => if bool_decide (x ≠ kv.2) then Returned false else compare_pairs t kvs'
      end
  end.

(** Where [operator++] arrives when it climbs from [c]. *)
Definition climb (fuel : nat) (c : node_pointer) : M world (option node_pointer) :=
  c' <- ascend_right_loop fuel c ;;
  n' <- node_at (Some c') ;;
  ret (parent n').

Definition first_or (cs : list node_pointer) (exit : option node_pointer) : option node_pointer :=
  match cs with [] => exit | c :: _ => Some c end.

(** [operator++] leads from each node of [cs] to the next one, and from the
    last one to [exit]. *)
Fixpoint chain (w : world) (this : loc) (cs : list node_pointer) (exit : option node_pointer) : Prop :=
  match cs with
  | [] => True
  | c :: cs' =>
      operator_inc (mkConstIterator this (Some c)) w
      = Ok (mkConstIterator this (first_or cs' exit)) w
      ∧ chain w this cs' exit
  end.

(** No node of the tree has a right child. *)
Fixpoint right_free (t : tree) : bool :=
  match t with
  | Leaf => true
  | Node l _ _ r => bool_decide (r = Leaf) && right_free l
  end.

(** Where [operator--] arrives when it climbs from [c]; it throws where
    there is no such node. *)
Definition climb_left (fuel : nat) (c : node_pointer) : M world (option node_pointer) :=
  c' <- ascend_left_loop fuel c ;;
  n' <- node_at (Some c') ;;
  ret (parent n').

Definition last_or (cs : list node_pointer) (entry : option node_pointer) : option node_pointer :=
  match last cs with Some c => Some c | None => entry end.

(** [operator--] leads from each node of [cs] to the one before it, and
    from the first one to [entry]; it throws there when there is none. *)
Fixpoint chain_back (w : world) (this : loc) (entry : option node_pointer)
    (cs : list node_pointer) : Prop :=
  match cs with
  | [] => True
  | c :: cs' =>
      operator_dec (mkConstIterator this (Some c)) w
      = match entry with
        | Some e => Ok (mkConstIterator this (Some e)) w
        | None => Throw (out_of_range Iterator_out_of_range) w
        end
      ∧ chain_back w this (Some c) cs'
  end.

End TreeMap.
End TreeMap.

(** * Maps with [int] keys and values, for the examples

    The TreeMap object at address 1 after [TreeMap{...}] in an empty heap,
    and the HashMap after [HashMap{...}]. *)
Definition int_tree_world (l : list (Z * Z)) : TreeMap.world :=
  match TreeMap.TreeMap_of_list Z.lt 0%Z 1%positive l (TreeMap.mkWorld ∅ ∅) with
  | Ok _ w => w
  | _ => TreeMap.mkWorld ∅ ∅
  end.

Definition int_hash_map (l : list (Z * Z)) : HashMap.HashMap :=
  match HashMap.insert_list hash_int 0%Z l HashMap.HashMap_new with
  | Ok _ m => m
  | _ => HashMap.HashMap_new
  end.

(** The tree of [TreeMap{{5, 50}, {3, 30}, {8, 80}}]. *)
Definition tree_5_3_8 : TreeMap.tree :=
  TreeMap.Node (TreeMap.Node TreeMap.Leaf 2%positive (3, 30)%Z TreeMap.Leaf)
               1%positive (5, 50)%Z
               (TreeMap.Node TreeMap.Leaf 3%positive (8, 80)%Z TreeMap.Leaf).

(** Two TreeMaps in one heap: [TreeMap{{5, 50}, {3, 30}, {8, 80}}] at
    address 1 and [TreeMap{{3, 30}, {8, 80}, {5, 50}}] at address 2. *)
Definition two_tree_world : TreeMap.world :=
  match (TreeMap.TreeMap_of_list Z.lt 0%Z 1%positive [(5, 50); (3, 30); (8, 80)]%Z ;;;
         TreeMap.TreeMap_of_list Z.lt 0%Z 2%positive [(3, 30); (8, 80); (5, 50)]%Z)
          (TreeMap.mkWorld ∅ ∅) with
  | Ok _ w => w
  | _ => TreeMap.mkWorld ∅ ∅
  end.

Definition tree_3_8_5 : TreeMap.tree :=
  TreeMap.Node TreeMap.Leaf 4%positive (3, 30)%Z
    (TreeMap.Node (TreeMap.Node TreeMap.Leaf 6%positive (5, 50)%Z TreeMap.Leaf)
                  5%positive (8, 80)%Z TreeMap.Leaf).

(** [TreeMap{{5, 50}, {3, 30}}] at the address 1, a tree without a right
    child, and [TreeMap{{3, 30}, {8, 80}, {5, 50}}] at the address 2. *)
Definition spine_and_tree_world : TreeMap.world :=
  match (TreeMap.TreeMap_of_list Z.lt 0%Z 1%positive [(5, 50); (3, 30)]%Z ;;;
         TreeMap.TreeMap_of_list Z.lt 0%Z 2%positive [(3, 30); (8, 80); (5, 50)]%Z)
          (TreeMap.mkWorld ∅ ∅) with
  | Ok _ w => w
  | _ => TreeMap.mkWorld ∅ ∅
  end.

Definition tree_5_3 : TreeMap.tree :=
  TreeMap.Node (TreeMap.Node TreeMap.Leaf 2%positive (3, 30)%Z TreeMap.Leaf)
               1%positive (5, 50)%Z TreeMap.Leaf.

Definition tree_3_8_5_b : TreeMap.tree :=
  TreeMap.Node TreeMap.Leaf 3%positive (3, 30)%Z
    (TreeMap.Node (TreeMap.Node TreeMap.Leaf 5%positive (5, 50)%Z TreeMap.Leaf)
                  4%positive (8, 80)%Z TreeMap.Leaf).

(** The HashMap of [HashMap{{1, 10}, {12, 20}, {5, 50}}]: 1 and 12 share the
    bucket 1, 5 is alone in the bucket 5. *)
Definition hash_1_12_5 : HashMap.HashMap := int_hash_map [(1, 10); (12, 20); (5, 50)]%Z.

(** [HashMap{{1, 10}, {7, 70}}] at the address 1 and
    [HashMap{{1, 11}, {12, 20}}] at the address 2. *)
Definition two_hash_maps : gmap loc HashMap.HashMap :=
  <[2%positive := int_hash_map [(1, 11); (12, 20)]%Z]>
    {[1%positive := int_hash_map [(1, 10); (7, 70)]%Z]}.

(** [int] keys are totally ordered by [<]. *)
#[global] Instance Z_lt_trichotomy : Trichotomy Z.lt.
Proof. intros x y. lia. Qed.

(** * Facts about the result monad *)

Lemma bind_Ok {S A B} (m : M S A) (f : A → M S B) s a s' :
  m s = Ok a s' → bind m f s = f a s'.
Proof. intros H. unfold bind. by rewrite H. Qed.

Lemma bind_Throw {S A B} (m : M S A) (f : A → M S B) s e s' :
  m s = Throw e s' → bind m f s = Throw e s'.
Proof. intros H. unfold bind. by rewrite H. Qed.

Lemma bind_Ok_inv {S A B} (m : M S A) (f : A → M S B) s b s'' :
  bind m f s = Ok b s'' → ∃ a s', m s = Ok a s' ∧ f a s' = Ok b s''.
Proof. unfold bind. destruct (m s); naive_solver. Qed.

Lemma get_Ok {S} (s : S) : get s = Ok s s.
Proof. done. Qed.

Lemma ret_Ok {S A} (a : A) (s : S) : ret a s = Ok a s.
Proof. done. Qed.

Lemma deref_Some {S A} (a : A) (s : S) : deref (Some a) s = Ok a s.
Proof. done. Qed.

Lemma run_local_Ok {S T A} (c : M T A) (t t' : T) (a : A) (s : S) :
  c t = Ok a t' → run_local c t s = Ok (a, t') s.
Proof. intros H. unfold run_local. by rewrite H. Qed.

Lemma bind_ext {S A B} (c : M S A) (f g : A → M S B) s :
  (∀ a s', f a s' = g a s') → bind c f s = bind c g s.
Proof. intros H. unfold bind. by destruct (c s). Qed.

Lemma add_size_wrap n z : size_t_wrap z = z → add_size n z = size_t_wrap (z + Z.of_nat n).
Proof.
  unfold add_size, size_t_wrap. intros Hz. induction n as [|n IH]; simpl.
  - by rewrite Z.add_0_r.
  - rewrite IH. rewrite Zplus_mod_idemp_l. f_equal. lia.
Qed.

Create HintDb monad.
#[global] Hint Resolve get_Ok ret_Ok deref_Some : monad.

Lemma bind_assoc {S A B C} (m : M S A) (f : A → M S B) (g : B → M S C) s :
  bind (bind m f) g s = bind m (λ a, bind (f a) g) s.
Proof. unfold bind. by destruct (m s). Qed.

(** Run the binds whose first computation is known to return. *)
Ltac mrun :=
  repeat first [ rewrite bind_assoc | erewrite bind_Ok; [|solve [eauto with monad]] ].

(** * Facts about lists of pairs and about sizes *)
Section pairs.
Context {K V : Type} `{!EqDecision K}.
Implicit Types (l P Q pre post : list (K * V)) (k : K).

Lemma last_value_None l k : last_value l k = None ↔ k ∉ l.*1.
Proof.
  induction l as [|[k' v'] l IH]; simpl; [set_solver|].
  destruct (last_value l k) as [x|].
  - split; [done|]. intros Hn. apply not_elem_of_cons in Hn as [_ Hn].
    by apply IH in Hn.
  - case_bool_decide; simpl in *; [set_solver|].
    rewrite not_elem_of_cons. split; [|done]. intros _. split; [congruence|by apply IH].
Qed.

Lemma last_value_NoDup l k v : NoDup l.*1 → last_value l k = Some v ↔ (k, v) ∈ l.
Proof.
  induction l as [|[k' v'] l IH]; simpl; [set_solver|].
  intros [Hk' Hnd]%NoDup_cons. specialize (IH Hnd).
  destruct (last_value l k) as [x|] eqn:Hl.
  - rewrite elem_of_cons. split.
    + intros [= ->]. right. by apply IH.
    + intros [[= -> ->]|Hin]; [|by apply IH in Hin].
      apply last_value_None in Hk'. congruence.
  - apply last_value_None in Hl. rewrite elem_of_cons. case_bool_decide; simpl in *.
    + subst k'. split; [intros [= ->]; by left|].
      intros [[= ->]|Hin]; [done|]. destruct Hl. by apply (list_elem_of_fmap_2 fst _ (k, v)).
    + split; [done|]. intros [[= -> ->]|Hin]; [done|].
      destruct Hl. by apply (list_elem_of_fmap_2 fst _ (k, v)).
Qed.

Lemma NoDup_fst_agree l k v v' :
  NoDup l.*1 → (k, v) ∈ l → (k, v') ∈ l → v = v'.
Proof.
  induction l as [|[k0 v0] l IH]; simpl; [set_solver|].
  intros [Hk0 Hnd]%NoDup_cons [[= -> ->]|Hin]%elem_of_cons [[= ->]|Hin']%elem_of_cons.
  - done.
  - destruct Hk0. by apply (list_elem_of_fmap_2 fst _ (k0, v')).
  - simplify_eq. destruct Hk0. by apply (list_elem_of_fmap_2 fst _ (k0, v)).
  - by apply IH.
Qed.

Lemma replace_middle P Q k v x :
  NoDup (P ++ (k, v) :: Q).*1 →
  ∀ k' v', (k', v') ∈ P ++ (k, x) :: Q
           ↔ (k' = k ∧ v' = x) ∨ (k' ≠ k ∧ (k', v') ∈ P ++ (k, v) :: Q).
Proof.
  rewrite fmap_app, fmap_cons. intros Hnd k' v'.
  apply NoDup_app in Hnd as (_ & HP & [HQ _]%NoDup_cons). simpl in *.
  assert (∀ y, (k, y) ∉ P) as HP'.
  { intros y Hin. apply (HP k); [by apply (list_elem_of_fmap_2 fst _ (k, y))|set_solver]. }
  assert (∀ y, (k, y) ∉ Q) as HQ'.
  { intros y Hin. apply HQ. by apply (list_elem_of_fmap_2 fst _ (k, y)). }
  rewrite !elem_of_app, !elem_of_cons. split.
  - intros [Hin|[[= -> ->]|Hin]]; [|by left|].
    + right. split; [intros ->; by eapply HP'|by left].
    + right. split; [intros ->; by eapply HQ'|by right; right].
  - intros [[-> ->]|[Hne [Hin|[[= -> ->]|Hin]]]]; auto. done.
Qed.
Lemma last_value_app pre k v post :
  k ∉ post.*1 → last_value (pre ++ (k, v) :: post) k = Some v.
Proof.
  intros Hk. induction pre as [|kv pre IH].
  - cbn [app last_value fst snd]. apply last_value_None in Hk. rewrite Hk.
    by rewrite bool_decide_eq_true_2.
  - cbn [app last_value]. by rewrite IH.
Qed.

Lemma last_value_Some_elem l k v : last_value l k = Some v → (k, v) ∈ l.
Proof.
  induction l as [|[k' v'] l IH]; [done|]. cbn [last_value fst snd].
  destruct (last_value l k) as [x|].
  - intros [= ->]. right. by apply IH.
  - case_bool_decide; [|done]. intros [= ->]. subst k'. by left.
Qed.

Lemma concat_nil_replicate {A} (ls : list (list A)) :
  concat ls = [] → ls = replicate (length ls) [].
Proof.
  induction ls as [|x ls IH]; [done|]. simpl. intros [-> Hls]%app_eq_nil.
  by rewrite <- IH.
Qed.
End pairs.

Lemma add_size_add n1 n2 z : add_size (n1 + n2) z = add_size n1 (add_size n2 z).
Proof. unfold add_size. apply Nat.iter_add. Qed.

Lemma size_decrement n :
  size_t_wrap (size_t_wrap (Z.of_nat (S n)) - 1) = size_t_wrap (Z.of_nat n).
Proof. unfold size_t_wrap. rewrite Zminus_mod_idemp_l. f_equal. lia. Qed.

Lemma size_increment n :
  size_t_wrap (size_t_wrap (Z.of_nat n) + 1) = size_t_wrap (Z.of_nat (S n)).
Proof. unfold size_t_wrap. rewrite Zplus_mod_idemp_l. f_equal. lia. Qed.

Lemma bind_Undefined {S A B} (m : M S A) (f : A → M S B) s :
  m s = Undefined → bind m f s = Undefined.
Proof. intros H. unfold bind. by rewrite H. Qed.

(** * HashMap: lookups, insertions and removals by key *)
Module HashMapFacts.
Import HashMap.

(** ** Buckets as lists *)
Section buckets.
Context {K V : Type} `{!EqDecision K, !EqDecision V}.

Local Abbreviation HashMap := (@HashMap K V).
Implicit Types (m : HashMap) (l : list (K * V)) (k : K).

Lemma at_bucket_Some {St} (bs : list (list (K * V))) b l (s : St) :
  bs !! b = Some l → at_bucket bs b s = Ok l s.
Proof. intros H. unfold at_bucket. by rewrite H. Qed.

Hint Resolve at_bucket_Some : monad.

Lemma find_if_None k l :
  find_if (λ v, bool_decide (v.1 = k)) l = None ↔ k ∉ l.*1.
Proof.
  induction l as [|v l IH]; simpl; [set_solver|].
  case_bool_decide; [set_solver|].
  destruct (find_if _ l); simpl; rewrite not_elem_of_cons; naive_solver.
Qed.

Lemma find_if_Some k l i :
  find_if (λ v, bool_decide (v.1 = k)) l = Some i →
  ∃ v, l !! i = Some (k, v).
Proof.
  revert i. induction l as [|[k' v'] l IH]; simpl; [done|]. intros i.
  case_bool_decide; simpl in *.
  - intros [= <-]. subst. by eexists.
  - destruct (find_if _ l) as [j|]; simpl; [|done]. intros [= <-]. by apply IH.
Qed.

Lemma find_if_app_new k l x :
  find_if (λ v, bool_decide (v.1 = k)) l = None →
  find_if (λ v, bool_decide (v.1 = k)) (l ++ [(k, x)]) = Some (length l).
Proof.
  induction l as [|v l IH]; simpl.
  - by rewrite bool_decide_eq_true_2.
  - case_bool_decide; [done|]. destruct (find_if _ l) eqn:E; [done|].
    intros _. by rewrite IH.
Qed.

Lemma find_if_insert k l i v x :
  find_if (λ v, bool_decide (v.1 = k)) l = Some i → l !! i = Some v →
  find_if (λ v, bool_decide (v.1 = k)) (<[i := (v.1, x)]> l) = Some i.
Proof.
  revert i. induction l as [|v' l IH]; simpl; [done|]. intros i.
  case_bool_decide as Hv'.
  - intros [= <-] [= <-]. simpl. by rewrite bool_decide_eq_true_2.
  - destruct (find_if _ l) as [j|] eqn:E; simpl; [|done]. intros [= <-] Hj. simpl.
    rewrite bool_decide_eq_false_2 by done. by rewrite (IH j).
Qed.

Lemma elem_of_concat {A} (x : A) (ls : list (list A)) :
  x ∈ concat ls ↔ ∃ xs, x ∈ xs ∧ xs ∈ ls.
Proof.
  induction ls as [|xs ls IH]; simpl; [set_solver|].
  rewrite elem_of_app, IH. set_solver.
Qed.

Lemma keys_bucket m i l k :
  buckets m !! i = Some l → k ∈ l.*1 → k ∈ keys m.
Proof.
  intros Hl (kv & -> & Hin)%list_elem_of_fmap. unfold keys, entries.
  apply list_elem_of_fmap_2. apply elem_of_concat. exists l. split; [done|].
  by eapply list_elem_of_lookup_2.
Qed.

Lemma findInBucket_Ok {St} (bs : list (list (K * V))) b l k (s : St) :
  bs !! b = Some l →
  findInBucket bs b k s = Ok (mkListIterator b (find_if (λ v, bool_decide (v.1 = k)) l)) s.
Proof. intros H. unfold findInBucket. by mrun. Qed.

Lemma load_Ok m r l kv :
  buckets m !! ref_bucket r = Some l → l !! ref_offset r = Some kv →
  load r m = Ok kv.2 m.
Proof. intros Hl Hkv. unfold load. mrun. by rewrite Hkv. Qed.

Lemma store_Ok m r l kv x :
  buckets m !! ref_bucket r = Some l → l !! ref_offset r = Some kv →
  store r x m
  = Ok tt (mkHashMap (<[ref_bucket r := <[ref_offset r := (kv.1, x)]> l]> (buckets m)) (size m)).
Proof. intros Hl Hkv. unfold store. mrun. by rewrite Hkv. Qed.

End buckets.

#[local] Hint Resolve at_bucket_Some : monad.

(** ** Lookups and stores by key *)
Section lookup.
Context {K V : Type} `{!EqDecision K, !EqDecision V}.
Variable hash : K → N.
Variable plus_key : string → K → option string.

Local Abbreviation HashMap := (@HashMap K V).
Implicit Types (m : HashMap) (l : list (K * V)) (k : K).

Lemma findBucket_lt k : findBucket hash k < MAP_SIZE.
Proof.
  unfold findBucket, MAP_SIZE.
  pose proof (N.mod_upper_bound (hash k) (N.of_nat 11)). lia.
Qed.

Lemma bucket_exists m k :
  length (buckets m) = MAP_SIZE → ∃ l, buckets m !! findBucket hash k = Some l.
Proof.
  intros Hlen. pose proof (findBucket_lt k) as Hlt. rewrite <- Hlen in Hlt.
  destruct (lookup_lt_is_Some_2 _ _ Hlt) as [l Hl]. by exists l.
Qed.

Lemma keys_own_bucket m k l :
  wf hash m → buckets m !! findBucket hash k = Some l → k ∈ keys m → k ∈ l.*1.
Proof.
  intros [_ Hown] Hl (kv & -> & Hin)%list_elem_of_fmap.
  apply elem_of_concat in Hin as (l' & Hin & Hl').
  apply list_elem_of_lookup in Hl' as (i & Hi).
  pose proof (Hown _ _ _ Hi Hin) as <-. rewrite Hi in Hl. injection Hl as <-.
  by apply list_elem_of_fmap_2.
Qed.

(** For a key the map does not hold, [valueOf] and [remove] evaluate the
    argument of the exception and throw it. *)
Lemma hash_valueOf_absent m k :
  length (buckets m) = MAP_SIZE → k ∉ keys m →
  valueOf hash plus_key k m
  = match plus_key Map_does_not_contain_key k with
    | Some what => Throw (out_of_range what) m
    | None => Undefined
    end.
Proof.
  intros Hlen Hk. destruct (bucket_exists m k Hlen) as [l Hl].
  unfold valueOf, findOrThrow. mrun.
  assert (find_if (λ v, bool_decide (v.1 = k)) l = None) as ->.
  { apply find_if_None. intros Hin. apply Hk. by eapply keys_bucket. }
  rewrite bool_decide_eq_true_2 by done.
  by destruct (plus_key Map_does_not_contain_key k).
Qed.

Lemma hash_remove_absent m k :
  length (buckets m) = MAP_SIZE → k ∉ keys m →
  remove hash plus_key k m
  = match plus_key Map_does_not_contain_key k with
    | Some what => Throw (out_of_range what) m
    | None => Undefined
    end.
Proof.
  intros Hlen Hk. destruct (bucket_exists m k Hlen) as [l Hl].
  unfold remove. mrun. erewrite bind_Ok; [|by apply findInBucket_Ok].
  assert (find_if (λ v, bool_decide (v.1 = k)) l = None) as ->.
  { apply find_if_None. intros Hin. apply Hk. by eapply keys_bucket. }
  rewrite bool_decide_eq_true_2 by done.
  by destruct (plus_key Map_does_not_contain_key k).
Qed.

Lemma valueOf_Ok m k l i v :
  buckets m !! findBucket hash k = Some l →
  find_if (λ v, bool_decide (v.1 = k)) l = Some i → l !! i = Some (k, v) →
  valueOf hash plus_key k m = Ok v m.
Proof.
  intros Hl Hi Hv. unfold valueOf, findOrThrow. mrun. rewrite Hi.
  rewrite bool_decide_eq_false_2 by done. unfold list_deref. simpl. by rewrite Hv.
Qed.

Lemma hash_store_valueOf m k l i v x :
  buckets m !! findBucket hash k = Some l →
  find_if (λ v, bool_decide (v.1 = k)) l = Some i → l !! i = Some (k, v) →
  ∃ m', store (mkReference (findBucket hash k) i) x m = Ok tt m'
        ∧ valueOf hash plus_key k m' = Ok x m'.
Proof.
  intros Hl Hfind Hv. eexists. split; [by eapply store_Ok|].
  assert (findBucket hash k < length (buckets m)) by (by eapply lookup_lt_Some).
  assert (i < length l) by (by eapply lookup_lt_Some).
  eapply valueOf_Ok; simpl.
  - by rewrite list_lookup_insert_eq.
  - by apply (find_if_insert k l i (k, v) x).
  - by rewrite list_lookup_insert_eq.
Qed.

Lemma wf_new : wf hash (@HashMap_new K V).
Proof.
  split; [done|]. intros i l kv Hl Hin. unfold HashMap_new in Hl. cbn [buckets] in Hl.
  apply lookup_replicate in Hl as [-> _]. by apply elem_of_nil in Hin.
Qed.

Lemma wf_insert_bucket m b l l' z :
  wf hash m → buckets m !! b = Some l →
  (∀ kv, kv ∈ l' → findBucket hash kv.1 = b) →
  wf hash (mkHashMap (<[b := l']> (buckets m)) z).
Proof.
  intros [Hlen Hown] Hl Hl'. split; simpl.
  - by rewrite length_insert.
  - intros i l0 kv Hi Hin. destruct (decide (i = b)) as [->|Hne].
    + rewrite list_lookup_insert_eq in Hi by (by eapply lookup_lt_Some).
      injection Hi as <-. by apply Hl'.
    + rewrite list_lookup_insert_ne in Hi by done. by eapply Hown.
Qed.

Lemma wf_store m r l kv x :
  wf hash m → buckets m !! ref_bucket r = Some l → l !! ref_offset r = Some kv →
  wf hash (mkHashMap (<[ref_bucket r := <[ref_offset r := (kv.1, x)]> l]> (buckets m)) (size m)).
Proof.
  intros Hwf Hl Hkv. eapply wf_insert_bucket; [done|done|].
  intros kv' Hin. destruct Hwf as [_ Hown].
  apply list_elem_of_lookup in Hin as (j & Hj).
  destruct (decide (j = ref_offset r)) as [->|Hne].
  - rewrite list_lookup_insert_eq in Hj by (by eapply lookup_lt_Some).
    injection Hj as <-. simpl. eapply Hown; [done|]. by eapply list_elem_of_lookup_2.
  - rewrite list_lookup_insert_ne in Hj by done.
    eapply Hown; [done|]. by eapply list_elem_of_lookup_2.
Qed.

End lookup.

(** ** Insertion by [operator[]] *)
Section insertion.
Context {K V : Type} `{!EqDecision K, !EqDecision V}.
Variable hash : K → N.
Variable default_value : V.

Local Abbreviation HashMap := (@HashMap K V).
Implicit Types (m : HashMap) (l : list (K * V)) (k : K).

Lemma operator_index_absent m k l :
  buckets m !! findBucket hash k = Some l → k ∉ l.*1 →
  operator_index hash default_value k m
  = Ok (mkReference (findBucket hash k) (length l))
       (mkHashMap (<[findBucket hash k := l ++ [(k, default_value)]]> (buckets m))
                  (size_t_wrap (size m + 1))).
Proof.
  intros Hl Hk. unfold operator_index. mrun.
  erewrite bind_Ok; [|by apply findInBucket_Ok]. mrun.
  rewrite (proj2 (find_if_None k l) Hk). by rewrite bool_decide_eq_true_2.
Qed.

Lemma operator_index_present m k l i :
  buckets m !! findBucket hash k = Some l →
  find_if (λ v, bool_decide (v.1 = k)) l = Some i →
  operator_index hash default_value k m = Ok (mkReference (findBucket hash k) i) m.
Proof.
  intros Hl Hi. unfold operator_index. mrun.
  erewrite bind_Ok; [|by apply findInBucket_Ok]. mrun.
  rewrite Hi. by rewrite bool_decide_eq_false_2.
Qed.

Lemma hash_operator_index_spec m k :
  wf hash m →
  ∃ i m' v l,
    operator_index hash default_value k m = Ok (mkReference (findBucket hash k) i) m'
    ∧ wf hash m'
    ∧ buckets m' !! findBucket hash k = Some l
    ∧ find_if (λ v, bool_decide (v.1 = k)) l = Some i
    ∧ l !! i = Some (k, v)
    ∧ (k ∉ keys m →
         v = default_value
         ∧ size m' = size_t_wrap (size m + 1)
         ∧ ∃ l0, buckets m !! findBucket hash k = Some l0
                 ∧ buckets m' = <[findBucket hash k := l0 ++ [(k, default_value)]]> (buckets m))
    ∧ (k ∈ keys m → m' = m).
Proof.
  intros Hwf. pose proof Hwf as [Hlen Hown].
  destruct (bucket_exists hash m k Hlen) as [l Hl].
  destruct (find_if (λ v, bool_decide (v.1 = k)) l) as [i|] eqn:Hfind.
  - destruct (find_if_Some _ _ _ Hfind) as [v Hv].
    exists i, m, v, l. split; [by eapply operator_index_present|].
    split_and!; try done. intros Hk. destruct Hk. eapply keys_bucket; [done|].
    apply (list_elem_of_fmap_2 fst _ (k, v)). by eapply list_elem_of_lookup_2.
  - pose proof Hfind as Hk%find_if_None.
    eexists (length l), _, default_value, (l ++ [(k, default_value)]).
    split; [by eapply operator_index_absent|].
    assert (findBucket hash k < length (buckets m)) by (by eapply lookup_lt_Some).
    split; [|split; [|split; [|split; [|split]]]]; simpl.
    + eapply wf_insert_bucket; [done|done|].
      intros kv [Hin|Hin]%elem_of_app; [by eapply Hown|].
      by apply list_elem_of_singleton in Hin as ->.
    + by rewrite list_lookup_insert_eq.
    + by apply find_if_app_new.
    + by rewrite lookup_app_r, Nat.sub_diag.
    + intros _. split; [done|]. split; [done|]. by exists l.
    + intros Hin. destruct Hk. by eapply keys_own_bucket.
Qed.

Lemma wf_insert_list l m :
  wf hash m → ∃ m', insert_list hash default_value l m = Ok tt m' ∧ wf hash m'.
Proof.
  revert m. induction l as [|[k x] l IH]; intros m Hwf; simpl; [by exists m|].
  destruct (hash_operator_index_spec m k Hwf) as (i & m1 & v & l1 & Hrun & Hwf1 & Hl1 & _ & Hv & _).
  erewrite bind_Ok; [|exact Hrun].
  erewrite bind_Ok; [|by eapply store_Ok].
  apply IH. by apply (wf_store hash m1 (mkReference (findBucket hash k) i) l1 (k, v)).
Qed.

(** [this->operator[](k) = x] for a key the map does not hold. *)
Lemma insert_absent m k x l :
  buckets m !! findBucket hash k = Some l → k ∉ l.*1 →
  (r <- operator_index hash default_value k ;; store r x) m
  = Ok tt (mkHashMap (<[findBucket hash k := l ++ [(k, x)]]> (buckets m))
                     (size_t_wrap (size m + 1))).
Proof.
  intros Hl Hk.
  assert (findBucket hash k < length (buckets m)) by (by eapply lookup_lt_Some).
  erewrite bind_Ok; [|by apply operator_index_absent].
  erewrite (store_Ok _ _ (l ++ [(k, default_value)]) (k, default_value)); simpl.
  - rewrite list_insert_insert_eq. do 2 f_equal.
    rewrite insert_app_r_alt by done. by rewrite Nat.sub_diag.
  - by rewrite list_lookup_insert_eq.
  - by rewrite lookup_app_r, Nat.sub_diag.
Qed.

Lemma insert_list_cons k x l m :
  insert_list hash default_value ((k, x) :: l) m
  = ((r <- operator_index hash default_value k ;; store r x) ;;;
     insert_list hash default_value l) m.
Proof.
  symmetry.
  apply (bind_assoc (operator_index hash default_value k) (λ r, store r x)
           (λ _, insert_list hash default_value l)).
Qed.

Lemma insert_two_colliding k1 k2 x1 x2 :
  k1 ≠ k2 → findBucket hash k1 = findBucket hash k2 →
  insert_list hash default_value [(k1, x1); (k2, x2)] HashMap_new
  = Ok tt (mkHashMap (<[findBucket hash k1 := [(k1, x1); (k2, x2)]]> (replicate MAP_SIZE []))
                     (size_t_wrap (size_t_wrap (0 + 1) + 1))).
Proof.
  intros Hne Hb. pose proof (findBucket_lt hash k1) as Hlt.
  rewrite insert_list_cons. erewrite bind_Ok.
  2:{ apply (insert_absent _ _ _ []); [|set_solver].
      cbn [HashMap_new buckets]. by apply lookup_replicate_2. }
  rewrite insert_list_cons. erewrite bind_Ok.
  2:{ apply (insert_absent _ _ _ [(k1, x1)]); [|set_solver].
      cbn [HashMap_new buckets]. rewrite <- Hb.
      rewrite list_lookup_insert_eq; [done|]. by rewrite length_replicate. }
  cbn [HashMap_new buckets size app]. rewrite <- Hb. by rewrite list_insert_insert_eq.
Qed.

End insertion.

(** ** Objects in the store: the move constructor and the move assignment *)
Section objects.
Context {K V : Type} `{!EqDecision K, !EqDecision V}.

Local Abbreviation HashMap := (@HashMap K V).
Implicit Types (hw : gmap loc HashMap) (o : HashMap).

Lemma object_at_Some hw this o : hw !! this = Some o → object_at this hw = Ok o hw.
Proof. intros H. unfold object_at, bind, get, deref. by rewrite H. Qed.

Lemma on_Ok {A} hw this o (m : M HashMap A) a o' :
  hw !! this = Some o → m o = Ok a o' → on this m hw = Ok a (<[this := o']> hw).
Proof. intros H Hm. unfold on. by rewrite H, Hm. Qed.

Lemma HashMap_move_spec hw this other o :
  this ≠ other → hw !! other = Some o →
  ∃ hw', HashMap_move this other hw = Ok tt hw'
    ∧ hw' !! this = Some (mkHashMap (buckets o) (size o))
    ∧ hw' !! other = Some (mkHashMap ((λ _, []) <$> buckets o) (size o))
    ∧ ∀ c, c ≠ this → c ≠ other → hw' !! c = hw !! c.
Proof.
  intros Hne Ho. unfold HashMap_move, move_buckets, new_at.
  erewrite bind_Ok; [|reflexivity].
  rewrite !bind_assoc.
  erewrite bind_Ok; [|apply object_at_Some; by rewrite lookup_insert_ne].
  rewrite !bind_assoc.
  erewrite bind_Ok; [|eapply on_Ok; [apply lookup_insert_eq|reflexivity]].
  erewrite bind_Ok; [|eapply on_Ok; [by rewrite !lookup_insert_ne|reflexivity]].
  erewrite bind_Ok; [|apply object_at_Some; apply lookup_insert_eq].
  erewrite on_Ok; [|by rewrite lookup_insert_ne, lookup_insert_eq|reflexivity].
  eexists. split; [done|]. split_and!.
  - by rewrite lookup_insert_eq.
  - by rewrite lookup_insert_ne, lookup_insert_eq.
  - intros c Hc1 Hc2. by rewrite !lookup_insert_ne.
Qed.

Lemma operator_move_assign_spec hw this other o x :
  this ≠ other → hw !! other = Some o → hw !! this = Some x →
  ∃ hw', operator_move_assign this other hw = Ok tt hw'
    ∧ hw' !! this = Some (mkHashMap (buckets o) (size o))
    ∧ hw' !! other = Some (mkHashMap ((λ _, []) <$> buckets o) (size o))
    ∧ ∀ c, c ≠ this → c ≠ other → hw' !! c = hw !! c.
Proof.
  intros Hne Ho Hx. unfold operator_move_assign, move_buckets.
  rewrite bool_decide_eq_false_2 by done.
  erewrite bind_Ok; [|by apply object_at_Some].
  erewrite bind_Ok; [|eapply on_Ok; [done|reflexivity]].
  erewrite bind_Ok; [|apply object_at_Some; by rewrite lookup_insert_ne].
  erewrite bind_Ok; [|eapply on_Ok; [apply lookup_insert_eq|reflexivity]].
  erewrite on_Ok; [|by rewrite !lookup_insert_ne|reflexivity].
  eexists. split; [done|]. split_and!.
  - by rewrite lookup_insert_ne, lookup_insert_eq.
  - by rewrite lookup_insert_eq.
  - intros c Hc1 Hc2. by rewrite !lookup_insert_ne.
Qed.

End objects.

(** ** Iteration: [begin()], [operator++] and [operator*] walk the buckets *)
Section iteration.
Context {K V : Type} `{!EqDecision K, !EqDecision V}.

Local Abbreviation HashMap := (@HashMap K V).
Implicit Types (m : HashMap) (l : list (K * V)) (bs : list (list (K * V))) (k : K).

Lemma next_loop_pair fuel bs b j l :
  bs !! b = Some l →
  next_loop (S fuel) bs (at_pair b j) = Ok tt (at_pair b j).
Proof.
  intros Hl. simpl. unfold bind at 1. unfold get. cbn [currentBucket at_pair].
  mrun. by rewrite (bool_decide_eq_false_2 (_ = list_end b)).
Qed.

Lemma next_loop_begin n bs b l fuel :
  length bs = MAP_SIZE → b + n = MAP_SIZE - 1 → bs !! b = Some l → n < fuel →
  next_loop fuel bs (mkConstIterator b (list_begin b l)) = Ok tt (first_pair n bs b).
Proof.
  intros Hlen. revert b l fuel. induction n as [|n IH]; intros b l fuel Hb Hl Hf.
  - destruct fuel as [|fuel]; [lia|]. simpl. rewrite Hl.
    unfold bind at 1. unfold get. cbn [currentBucket iter]. mrun.
    assert (b = MAP_SIZE - 1) as -> by lia.
    rewrite (bool_decide_eq_false_2 (MAP_SIZE - 1 ≠ MAP_SIZE - 1)) by (by intros []).
    rewrite andb_false_r. by destruct l.
  - destruct fuel as [|fuel]; [lia|]. simpl. rewrite Hl.
    unfold bind at 1. unfold get. cbn [currentBucket iter]. mrun.
    destruct l as [|v l].
    + rewrite bool_decide_eq_true_2 by done.
      rewrite bool_decide_eq_true_2 by (unfold MAP_SIZE in *; lia).
      assert (S b < length bs) as Hlt by (rewrite Hlen; unfold MAP_SIZE in *; lia).
      destruct (lookup_lt_is_Some_2 _ _ Hlt) as [l' Hl'].
      cbn [andb]. mrun.
      apply IH; [unfold MAP_SIZE in *; lia|done|lia].
    + by rewrite (bool_decide_eq_false_2 (_ = list_end b)).
Qed.

Lemma cbegin_first m :
  length (buckets m) = MAP_SIZE →
  cbegin m = Ok (first_pair (MAP_SIZE - 1) (buckets m) 0) m.
Proof.
  intros Hlen.
  assert (0 < length (buckets m)) as Hlt by (rewrite Hlen; unfold MAP_SIZE; lia).
  destruct (lookup_lt_is_Some_2 _ _ Hlt) as [l Hl].
  unfold cbegin, ConstIterator_new. mrun. unfold next.
  destruct l as [|v l].
  - rewrite bool_decide_eq_true_2 by done.
    erewrite bind_Ok; [
      |apply run_local_Ok;
       apply (next_loop_begin (MAP_SIZE - 1) (buckets m) 0 []); [done..|unfold MAP_SIZE; lia]].
    done.
  - rewrite bool_decide_eq_false_2 by done.
    erewrite bind_Ok; [|by apply run_local_Ok]. simpl. by rewrite Hl.
Qed.

Lemma cend_end m :
  length (buckets m) = MAP_SIZE → cend m = Ok end_iterator m.
Proof.
  intros Hlen.
  assert (MAP_SIZE - 1 < length (buckets m)) as Hlt by (rewrite Hlen; unfold MAP_SIZE; lia).
  destruct (lookup_lt_is_Some_2 _ _ Hlt) as [l Hl].
  unfold cend, ConstIterator_new. mrun. unfold next.
  rewrite bool_decide_eq_true_2 by done.
  assert (next_loop (S MAP_SIZE) (buckets m) end_iterator = Ok tt end_iterator) as Hnext.
  { cbn [next_loop]. mrun. cbn [currentBucket iter end_iterator]. mrun.
    rewrite (bool_decide_eq_false_2 (MAP_SIZE - 1 ≠ MAP_SIZE - 1)) by (by intros []).
    by rewrite andb_false_r. }
  erewrite bind_Ok; [|apply run_local_Ok; exact Hnext]. done.
Qed.

Lemma deref_pair bs b j l v :
  bs !! b = Some l → l !! j = Some v →
  operator_deref bs (at_pair b j) = Ok v (at_pair b j).
Proof.
  intros Hl Hv. unfold operator_deref. mrun. unfold isEnd. cbn [at_pair iter bucket_of].
  rewrite bool_decide_eq_false_2 by done. mrun.
  unfold list_deref. cbn [offset]. by rewrite Hv.
Qed.

Lemma inc_pair_next bs b j l :
  bs !! b = Some l → S j < length l →
  operator_inc bs (at_pair b j) = Ok tt (at_pair b (S j)).
Proof.
  intros Hl Hj. unfold operator_inc. mrun. unfold isEnd. cbn [at_pair iter bucket_of].
  rewrite bool_decide_eq_false_2 by done. mrun.
  unfold list_inc. cbn [at_pair offset bucket_of currentBucket iter].
  rewrite !bool_decide_eq_true_2 by lia. mrun.
  by apply (next_loop_pair _ _ _ _ l).
Qed.

Lemma inc_pair_last n bs b j l :
  length bs = MAP_SIZE → bs !! b = Some l → S j = length l → b + n = MAP_SIZE - 1 →
  operator_inc bs (at_pair b j)
  = Ok tt (match n with 0 => end_iterator | S n' => first_pair n' bs (S b) end).
Proof.
  intros Hlen Hl Hj Hb. unfold operator_inc. mrun. unfold isEnd. cbn [at_pair iter bucket_of].
  rewrite bool_decide_eq_false_2 by done. mrun.
  unfold list_inc. cbn [at_pair offset bucket_of currentBucket iter].
  rewrite bool_decide_eq_true_2 by lia. rewrite bool_decide_eq_false_2 by lia. mrun.
  unfold next. destruct n as [|n].
  - assert (b = MAP_SIZE - 1) as -> by lia. simpl. unfold bind at 1. unfold get.
    cbn [currentBucket iter]. simpl in Hl. by mrun.
  - cbn [next_loop]. unfold bind at 1. unfold get. cbn [currentBucket iter]. mrun.
    rewrite bool_decide_eq_true_2 by done.
    rewrite bool_decide_eq_true_2 by (unfold MAP_SIZE in *; lia).
    assert (S b < length bs) as Hlt by (rewrite Hlen; unfold MAP_SIZE in *; lia).
    destruct (lookup_lt_is_Some_2 _ _ Hlt) as [l' Hl'].
    cbn [andb]. mrun.
    apply (next_loop_begin n); [done|unfold MAP_SIZE in *; lia|done|unfold MAP_SIZE in *; lia].
Qed.

Lemma iterator_eq_decide (a b : ConstIterator) : iterator_eq a b = bool_decide (a = b).
Proof.
  unfold iterator_eq. destruct a as [ba ia], b as [bb ib]. simpl.
  repeat case_bool_decide; simpl; congruence.
Qed.

(** Through the pairs of one bucket, from the pair [j] on. *)
Lemma walk_pairs bs b l after rest j :
  bs !! b = Some l →
  (∀ i, S i = length l → operator_inc bs (at_pair b i) = Ok tt after) →
  walk bs after rest → j < length l →
  walk bs (at_pair b j) (drop j l ++ rest).
Proof.
  intros Hl Hlast Hrest Hj. remember (length l - j) as k eqn:Hk.
  revert j Hj Hk. induction k as [|k IHk]; intros j Hj Hk; [lia|].
  destruct (lookup_lt_is_Some_2 l j Hj) as [v Hv].
  rewrite (drop_S _ _ _ Hv). cbn [app walk]. split; [done|].
  split; [by eapply deref_pair|].
  destruct (decide (S j = length l)) as [Hend|Hmore].
  - exists after. split; [by apply Hlast|]. by rewrite drop_ge by lia.
  - exists (at_pair b (S j)). split; [apply (inc_pair_next bs b j l); [done|lia]|].
    apply IHk; lia.
Qed.

(** Bucket after bucket, from the first pair at or after the bucket [b]. *)
Lemma walk_buckets n bs b :
  length bs = MAP_SIZE → b + n = MAP_SIZE - 1 →
  walk bs (first_pair n bs b) (concat (drop b bs)).
Proof.
  intros Hlen. revert b. induction n as [|n IH]; intros b Hb.
  - assert (b < length bs) as Hlt by (rewrite Hlen; unfold MAP_SIZE in *; lia).
    destruct (lookup_lt_is_Some_2 _ _ Hlt) as [l Hl].
    rewrite (drop_S _ _ _ Hl). cbn [first_pair concat]. rewrite Hl.
    rewrite (drop_ge bs (S b)) by (rewrite Hlen; unfold MAP_SIZE in *; lia).
    destruct l as [|v l]; [done|].
    apply (walk_pairs bs b (v :: l) end_iterator [] 0); [done| |done|simpl; lia].
    intros i Hi. by apply (inc_pair_last 0 bs b i (v :: l)).
  - assert (b < length bs) as Hlt by (rewrite Hlen; unfold MAP_SIZE in *; lia).
    destruct (lookup_lt_is_Some_2 _ _ Hlt) as [l Hl].
    rewrite (drop_S _ _ _ Hl). cbn [first_pair concat]. rewrite Hl.
    assert (walk bs (first_pair n bs (S b)) (concat (drop (S b) bs))) as Hrest.
    { apply IH. unfold MAP_SIZE in *. lia. }
    destruct l as [|v l]; [done|].
    apply (walk_pairs bs b (v :: l) (first_pair n bs (S b)) _ 0); [done| |done|simpl; lia].
    intros i Hi. by apply (inc_pair_last (S n) bs b i (v :: l)).
Qed.

Lemma walk_begin bs :
  length bs = MAP_SIZE → walk bs (first_pair (MAP_SIZE - 1) bs 0) (concat bs).
Proof. intros Hlen. by apply (walk_buckets (MAP_SIZE - 1) bs 0). Qed.

Lemma traverse_loop_walk {St} fuel bs it vs (s : St) :
  walk bs it vs → length vs < fuel →
  traverse_loop fuel bs it end_iterator s = Ok vs s.
Proof.
  revert it vs. induction fuel as [|fuel IH]; intros it vs Hw Hf; [lia|].
  simpl. rewrite iterator_eq_decide. destruct vs as [|v vs]; simpl in Hw.
  - by rewrite bool_decide_eq_true_2.
  - destruct Hw as (Hne & Hderef & it' & Hinc & Hw).
    rewrite bool_decide_eq_false_2 by done.
    erewrite bind_Ok; [|by apply run_local_Ok].
    erewrite bind_Ok; [|by apply run_local_Ok].
    erewrite bind_Ok; [done|]. apply IH; [done|simpl in Hf; lia].
Qed.

Lemma hash_traverse_spec m :
  length (buckets m) = MAP_SIZE → traverse m = Ok (entries m) m.
Proof.
  intros Hlen. unfold traverse. mrun.
  erewrite bind_Ok; [|by apply cbegin_first].
  erewrite bind_Ok; [|by apply cend_end].
  apply traverse_loop_walk; [by apply walk_begin|unfold entries; lia].
Qed.

End iteration.

(** ** The copy constructor *)
Section copy.
Context {K V : Type} `{!EqDecision K, !EqDecision V}.
Variable hash : K → N.
Variable default_value : V.

Local Abbreviation HashMap := (@HashMap K V).
Implicit Types (m o x : HashMap) (l : list (K * V)) (bs : list (list (K * V))) (k : K)
  (hw : gmap loc HashMap).

Lemma insert_list_app l1 l2 m :
  insert_list hash default_value (l1 ++ l2) m
  = (insert_list hash default_value l1 ;;; insert_list hash default_value l2) m.
Proof.
  revert m. induction l1 as [|[k x] l1 IH]; intros m; [done|].
  cbn [insert_list app]. rewrite bind_assoc.
  apply bind_ext. intros r m'. rewrite bind_assoc.
  apply bind_ext. intros _ m''. apply IH.
Qed.

(** Pairs of one bucket, inserted one after the other. *)
Lemma insert_list_bucket l m b l0 :
  buckets m !! b = Some l0 → (∀ v, v ∈ l → findBucket hash v.1 = b) →
  NoDup (l0 ++ l).*1 →
  insert_list hash default_value l m
  = Ok tt (mkHashMap (<[b := l0 ++ l]> (buckets m)) (add_size (length l) (size m))).
Proof.
  revert m l0. induction l as [|[k x] l IH]; intros m l0 Hl0 Hb Hnd.
  - simpl. rewrite app_nil_r, list_insert_id by done. by destruct m.
  - rewrite insert_list_cons.
    assert (findBucket hash k = b) as Hk by (apply (Hb (k, x)); set_solver).
    rewrite fmap_app, fmap_cons in Hnd.
    erewrite bind_Ok.
    2:{ apply (insert_absent hash default_value m k x l0); [by rewrite Hk|].
        apply NoDup_app in Hnd as (_ & Hd & _). intros Hin. apply (Hd _ Hin). set_solver. }
    rewrite Hk.
    assert (b < length (buckets m)) by (by eapply lookup_lt_Some).
    rewrite (IH _ (l0 ++ [(k, x)])); cbn [buckets size].
    + rewrite list_insert_insert_eq, <- app_assoc. do 2 f_equal.
      unfold add_size. cbn [length]. by rewrite Nat.iter_succ_r.
    + by rewrite list_lookup_insert_eq.
    + intros v Hv. apply Hb. set_solver.
    + rewrite <- app_assoc. cbn [app]. by rewrite fmap_app, fmap_cons.
Qed.

Lemma bucket_keys_NoDup m i l :
  NoDup (keys m) → buckets m !! i = Some l → NoDup l.*1.
Proof.
  unfold keys, entries. intros Hnd Hl.
  rewrite <- (take_drop_middle _ _ _ Hl), concat_app, concat_cons, !fmap_app in Hnd.
  apply NoDup_app in Hnd as (_ & _ & Hnd). by apply NoDup_app in Hnd as (Hnd & _).
Qed.

(** The pairs of a map, inserted into a new map in the order of the
    iteration, fill its buckets as they are in the map. *)
Lemma insert_list_buckets n bs b z :
  length bs = MAP_SIZE → b + n = MAP_SIZE →
  (∀ i l kv, bs !! i = Some l → kv ∈ l → findBucket hash kv.1 = i) →
  (∀ i l, bs !! i = Some l → NoDup l.*1) →
  insert_list hash default_value (concat (drop b bs))
    (mkHashMap (take b bs ++ replicate n []) z)
  = Ok tt (mkHashMap bs (add_size (length (concat (drop b bs))) z)).
Proof.
  intros Hlen Hbn Hown Hnd. revert b z Hbn. induction n as [|n IH]; intros b z Hbn.
  - rewrite drop_ge, take_ge by lia. simpl. by rewrite app_nil_r.
  - assert (b < length bs) as Hlt by lia.
    destruct (lookup_lt_is_Some_2 _ _ Hlt) as [l Hl].
    rewrite (drop_S _ _ _ Hl). cbn [concat]. rewrite insert_list_app.
    assert (length (take b bs) = b) as Htake by (rewrite length_take; lia).
    erewrite bind_Ok.
    2:{ apply (insert_list_bucket l _ b []); cbn [buckets app].
        - rewrite lookup_app_r by lia. by rewrite Htake, Nat.sub_diag.
        - intros v Hv. by eapply Hown.
        - by eapply Hnd. }
    cbn [buckets size app].
    assert (<[b := l]> (take b bs ++ replicate (S n) []) = take (S b) bs ++ replicate n [])
      as ->.
    { rewrite insert_app_r_alt by lia. rewrite Htake, Nat.sub_diag.
      rewrite (take_S_r _ _ _ Hl), <- app_assoc. done. }
    rewrite IH by lia. do 2 f_equal.
    unfold add_size. rewrite length_app, Nat.add_comm. by rewrite Nat.iter_add.
Qed.

Lemma insert_list_entries m :
  wf hash m → NoDup (keys m) →
  insert_list hash default_value (entries m) HashMap_new
  = Ok tt (mkHashMap (buckets m) (size_t_wrap (Z.of_nat (length (entries m))))).
Proof.
  intros [Hlen Hown] Hnd. unfold entries.
  pose proof (add_size_wrap (length (concat (buckets m))) 0 eq_refl) as Hsz.
  rewrite Z.add_0_l in Hsz. rewrite <- Hsz.
  apply (insert_list_buckets MAP_SIZE (buckets m) 0 0); [done|done|done|].
  intros i l Hl. by eapply bucket_keys_NoDup.
Qed.

(** [std::for_each] over a walk through [other], with the body of [fill]. *)
Lemma for_each_walk fuel hw this other o x x' it vs :
  this ≠ other → hw !! other = Some o → hw !! this = Some x →
  walk (buckets o) it vs →
  insert_list hash default_value vs x = Ok tt x' → length vs < fuel →
  for_each fuel other it end_iterator
    (λ value, r <- on this (operator_index hash default_value value.1) ;;
              on this (store r value.2)) hw
  = Ok tt (<[this := x']> hw).
Proof.
  intros Hne. revert hw x it vs.
  induction fuel as [|fuel IH]; intros hw x it vs Ho Hx Hw Hins Hf; [lia|].
  cbn [for_each]. rewrite iterator_eq_decide. destruct vs as [|v vs]; simpl in Hw.
  - rewrite bool_decide_eq_true_2 by done. injection Hins as <-.
    by rewrite insert_id.
  - destruct Hw as (Hit & Hderef & it' & Hinc & Hw).
    rewrite bool_decide_eq_false_2 by done.
    cbn [insert_list] in Hins.
    apply bind_Ok_inv in Hins as (r & xa & Hindex & Hins).
    apply bind_Ok_inv in Hins as ([] & xb & Hstore & Hins).
    erewrite bind_Ok; [|by apply object_at_Some].
    erewrite bind_Ok; [|by apply run_local_Ok].
    cbn [fst]. rewrite bind_assoc.
    erewrite bind_Ok; [|by eapply on_Ok].
    erewrite bind_Ok; [|eapply on_Ok; [apply lookup_insert_eq|done]].
    rewrite insert_insert_eq.
    erewrite bind_Ok; [|apply object_at_Some; by rewrite lookup_insert_ne].
    erewrite bind_Ok; [|by apply run_local_Ok].
    cbn [snd]. erewrite (IH _ xb it' vs); [by rewrite insert_insert_eq| | |done|done|].
    + by rewrite lookup_insert_ne.
    + apply lookup_insert_eq.
    + simpl in Hf. lia.
Qed.

Lemma HashMap_copy_spec hw this other o :
  this ≠ other → hw !! other = Some o → wf hash o → NoDup (keys o) →
  ∃ hw', HashMap_copy hash default_value this other hw = Ok tt hw'
    ∧ hw' !! this
      = Some (mkHashMap (buckets o) (size_t_wrap (Z.of_nat (length (entries o)))))
    ∧ hw' !! other = Some o
    ∧ ∀ c, c ≠ this → hw' !! c = hw !! c.
Proof.
  intros Hne Ho Hwf Hnd. pose proof Hwf as [Hlen _].
  unfold HashMap_copy, new_at, fill.
  erewrite bind_Ok; [|reflexivity].
  assert (<[this := HashMap_new]> hw !! other = Some o) as Ho'
    by (by rewrite lookup_insert_ne).
  erewrite bind_Ok; [|eapply on_Ok; [exact Ho'|by apply cbegin_first]].
  rewrite (insert_id _ _ _ Ho').
  erewrite bind_Ok; [|eapply on_Ok; [exact Ho'|by apply cend_end]].
  rewrite (insert_id _ _ _ Ho').
  erewrite bind_Ok; [|by apply object_at_Some].
  erewrite (for_each_walk _ _ this other o HashMap_new); [|done|done| | | |].
  - eexists. split; [done|]. rewrite insert_insert_eq. split_and!.
    + apply lookup_insert_eq.
    + by rewrite lookup_insert_ne.
    + intros c Hc. by rewrite lookup_insert_ne.
  - apply lookup_insert_eq.
  - by apply walk_begin.
  - by apply insert_list_entries.
  - unfold entries. lia.
Qed.

End copy.

(** ** Removal by key *)
Section hash_removal.
Context {K V : Type} `{!EqDecision K, !EqDecision V}.
Variable hash : K → N.
Variable plus_key : string → K → option string.

Local Abbreviation HashMap := (@HashMap K V).
Implicit Types (m : HashMap) (l : list (K * V)) (k : K).

Lemma remove_present m k l i :
  buckets m !! findBucket hash k = Some l →
  find_if (λ v, bool_decide (v.1 = k)) l = Some i →
  remove hash plus_key k m
  = Ok tt (mkHashMap (<[findBucket hash k := delete i l]> (buckets m))
                     (size_t_wrap (size m - 1))).
Proof.
  intros Hl Hi. destruct (find_if_Some _ _ _ Hi) as [v Hv].
  assert (i < length l) by (by eapply lookup_lt_Some).
  unfold remove. mrun. erewrite bind_Ok; [|by apply findInBucket_Ok].
  rewrite Hi. rewrite bool_decide_eq_false_2 by done.
  unfold erase. mrun. cbn [bucket_of offset].
  rewrite bool_decide_eq_true_2 by done. mrun.
  rewrite bool_decide_eq_true_2 by done. mrun. done.
Qed.

Lemma delete_keys_NoDup l i k v :
  NoDup l.*1 → l !! i = Some (k, v) → k ∉ (delete i l).*1.
Proof.
  intros Hnd Hi. rewrite <- (take_drop_middle _ _ _ Hi) in Hnd.
  rewrite fmap_app, fmap_cons in Hnd.
  apply NoDup_app in Hnd as (_ & Hd & Hnd). apply NoDup_cons in Hnd as (Hk & _).
  rewrite delete_take_drop, fmap_app. intros [Hin|Hin]%elem_of_app; [|done].
  apply (Hd _ Hin). set_solver.
Qed.

Lemma hash_remove_spec m k :
  wf hash m → k ∈ keys m →
  ∃ pre v post,
    buckets m !! findBucket hash k = Some (pre ++ (k, v) :: post)
    ∧ remove hash plus_key k m
      = Ok tt (mkHashMap (<[findBucket hash k := pre ++ post]> (buckets m))
                         (size_t_wrap (size m - 1)))
    ∧ wf hash (mkHashMap (<[findBucket hash k := pre ++ post]> (buckets m))
                         (size_t_wrap (size m - 1)))
    ∧ (k ∉ pre.*1)
    ∧ (NoDup (pre ++ (k, v) :: post).*1 →
       k ∉ keys (mkHashMap (<[findBucket hash k := pre ++ post]> (buckets m))
                           (size_t_wrap (size m - 1)))).
Proof.
  intros Hwf Hk. pose proof Hwf as [Hlen Hown].
  destruct (bucket_exists hash m k Hlen) as [l Hl].
  pose proof (keys_own_bucket hash m k l Hwf Hl Hk) as Hkl.
  destruct (find_if (λ v, bool_decide (v.1 = k)) l) as [i|] eqn:Hfind.
  2:{ by apply find_if_None in Hfind. }
  destruct (find_if_Some _ _ _ Hfind) as [v Hv].
  exists (take i l), v, (drop (S i) l).
  rewrite (take_drop_middle _ _ _ Hv), <- delete_take_drop.
  assert (wf hash (mkHashMap (<[findBucket hash k := delete i l]> (buckets m))
                             (size_t_wrap (size m - 1)))) as Hwf'.
  { eapply wf_insert_bucket; [done|done|]. intros kv Hin. eapply Hown; [done|].
    rewrite delete_take_drop in Hin. rewrite <- (take_drop_middle _ _ _ Hv). set_solver. }
  split; [done|]. split; [by apply remove_present|]. split; [done|]. split.
  - clear Hwf'. revert i Hfind Hv. clear Hl Hkl.
    induction l as [|[k' v'] l IH]; intros i Hfind Hv; [done|].
    simpl in Hfind. case_bool_decide as Hkk; simpl in *.
    + injection Hfind as <-. simpl. set_solver.
    + destruct (find_if _ l) as [j|] eqn:Hj; [|done]. injection Hfind as <-.
      simpl. rewrite not_elem_of_cons. split; [congruence|]. by apply (IH j).
  - intros Hnd Hin.
    assert (findBucket hash k < length (buckets m)) by (by eapply lookup_lt_Some).
    eapply (keys_own_bucket hash _ k (delete i l) Hwf') in Hin.
    + by eapply delete_keys_NoDup.
    + cbn [buckets]. by rewrite list_lookup_insert_eq.
Qed.

End hash_removal.

(** ** find and the removal by iterator *)
Section hash_find.
Context {K V : Type} `{!EqDecision K, !EqDecision V}.
Variable hash : K → N.
Variable plus_key : string → K → option string.

Local Abbreviation HashMap := (@HashMap K V).
Implicit Types (m : HashMap) (l : list (K * V)) (bs : list (list (K * V))) (k : K).

(** [next()] from the end of the bucket [b]. *)
Lemma next_loop_end n bs b l fuel :
  length bs = MAP_SIZE → b + n = MAP_SIZE - 1 → bs !! b = Some l → n < fuel →
  next_loop fuel bs (mkConstIterator b (list_end b))
  = Ok tt (match n with 0 => end_iterator | S n' => first_pair n' bs (S b) end).
Proof.
  intros Hlen Hb Hl Hf. destruct fuel as [|fuel]; [lia|].
  cbn [next_loop]. unfold bind at 1. unfold get. cbn [currentBucket iter]. mrun.
  rewrite bool_decide_eq_true_2 by done. destruct n as [|n].
  - assert (b = MAP_SIZE - 1) as -> by lia.
    rewrite (bool_decide_eq_false_2 (MAP_SIZE - 1 ≠ MAP_SIZE - 1)) by (by intros []).
    done.
  - rewrite bool_decide_eq_true_2 by (unfold MAP_SIZE in *; lia).
    assert (S b < length bs) as Hlt by (rewrite Hlen; unfold MAP_SIZE in *; lia).
    destruct (lookup_lt_is_Some_2 _ _ Hlt) as [l' Hl'].
    cbn [andb]. mrun.
    apply (next_loop_begin n); [done|unfold MAP_SIZE in *; lia|done|lia].
Qed.

Lemma first_pair_empty n bs b :
  length bs = MAP_SIZE → b + n = MAP_SIZE - 1 →
  (∀ i l, b ≤ i → bs !! i = Some l → l = []) →
  first_pair n bs b = end_iterator.
Proof.
  intros Hlen. revert b. induction n as [|n IH]; intros b Hb Hempty.
  - cbn [first_pair]. destruct (bs !! b) as [[|v l]|] eqn:Hl; try done.
    by specialize (Hempty b _ (Nat.le_refl _) Hl).
  - cbn [first_pair]. destruct (bs !! b) as [[|v l]|] eqn:Hl.
    + apply IH; [lia|]. intros i li Hi. apply Hempty. lia.
    + by specialize (Hempty b _ (Nat.le_refl _) Hl).
    + apply IH; [lia|]. intros i li Hi. apply Hempty. lia.
Qed.

Lemma first_pair_at n bs b i v l :
  length bs = MAP_SIZE → b + n = MAP_SIZE - 1 → b ≤ i → bs !! i = Some (v :: l) →
  (∀ j lj, b ≤ j < i → bs !! j = Some lj → lj = []) →
  first_pair n bs b = at_pair i 0.
Proof.
  intros Hlen. revert b. induction n as [|n IH]; intros b Hb Hi Hl Hempty.
  - assert (i < length bs) as Hlt by (by eapply lookup_lt_Some).
    assert (b = i) as -> by (unfold MAP_SIZE in *; lia).
    cbn [first_pair]. by rewrite Hl.
  - destruct (decide (b = i)) as [->|Hne].
    + cbn [first_pair]. by rewrite Hl.
    + cbn [first_pair]. destruct (bs !! b) as [[|v' l']|] eqn:Hl'.
      * apply IH; [lia|lia|done|]. intros j lj Hj. apply Hempty. lia.
      * assert (b ≤ b < i) as Hbi by lia. by specialize (Hempty b _ Hbi Hl').
      * apply IH; [lia|lia|done|]. intros j lj Hj. apply Hempty. lia.
Qed.

Lemma find_present m k l i :
  buckets m !! findBucket hash k = Some l →
  find_if (λ v, bool_decide (v.1 = k)) l = Some i →
  find hash k m = Ok (at_pair (findBucket hash k) i) m.
Proof.
  intros Hl Hi. unfold find. mrun.
  erewrite bind_Ok; [|by apply (findInBucket_Ok _ _ l)].
  unfold ConstIterator_new. mrun. rewrite Hi.
  rewrite bool_decide_eq_false_2 by done.
  by erewrite bind_Ok; [|by apply run_local_Ok].
Qed.

Lemma find_absent m k n :
  length (buckets m) = MAP_SIZE → k ∉ keys m → findBucket hash k + n = MAP_SIZE - 1 →
  find hash k m
  = Ok (match n with
        | 0 => end_iterator
        | S n' => first_pair n' (buckets m) (S (findBucket hash k))
        end) m.
Proof.
  intros Hlen Hk Hn. destruct (bucket_exists hash m k Hlen) as [l Hl].
  assert (find_if (λ v, bool_decide (v.1 = k)) l = None) as Hnone.
  { apply find_if_None. intros Hin. apply Hk. by eapply keys_bucket. }
  unfold find. mrun.
  erewrite bind_Ok; [|by apply (findInBucket_Ok _ _ l)].
  unfold ConstIterator_new. mrun. rewrite Hnone.
  rewrite bool_decide_eq_true_2 by done. unfold next.
  erewrite bind_Ok; [|apply run_local_Ok;
    apply (next_loop_end n _ _ l); [done..|unfold MAP_SIZE in *; lia]].
  done.
Qed.

Lemma remove_at_end m :
  length (buckets m) = MAP_SIZE →
  remove_at end_iterator m = Throw (out_of_range Iterator_out_of_range) m.
Proof.
  intros Hlen. unfold remove_at. erewrite bind_Ok; [|by apply cend_end]. done.
Qed.

Lemma remove_at_pair m b j l :
  length (buckets m) = MAP_SIZE → buckets m !! b = Some l → j < length l →
  remove_at (at_pair b j) m
  = Ok tt (mkHashMap (<[b := delete j l]> (buckets m)) (size_t_wrap (size m - 1))).
Proof.
  intros Hlen Hl Hj. unfold remove_at. erewrite bind_Ok; [|by apply cend_end].
  rewrite iterator_eq_decide, bool_decide_eq_false_2 by done.
  unfold erase. cbn [at_pair currentBucket iter bucket_of offset]. mrun.
  rewrite bool_decide_eq_true_2 by done. mrun.
  rewrite bool_decide_eq_true_2 by done. by mrun.
Qed.
End hash_find.

(** ** operator-- *)
Section hash_decrement.
Context {K V : Type} `{!EqDecision K, !EqDecision V}.

Local Abbreviation HashMap := (@HashMap K V).
Implicit Types (m : HashMap) (l : list (K * V)) (bs : list (list (K * V))) (k : K).

Lemma dec_pair_previous bs b j l :
  bs !! b = Some l → S j < length l →
  operator_dec bs (at_pair b (S j)) = Ok tt (at_pair b j).
Proof.
  intros Hl Hj. unfold operator_dec. mrun. cbn [at_pair currentBucket iter bucket_of]. mrun.
  rewrite bool_decide_eq_false_2 by (by destruct l). mrun.
  unfold list_dec. cbn [offset bucket_of].
  rewrite bool_decide_eq_true_2 by done. by mrun.
Qed.

(** The loop of [operator--] over the empty buckets, down from [b]. *)
Lemma dec_loop_back d : ∀ bs b b' i fuel,
  b' + d = b → d < fuel → b < length bs →
  (∀ j lj, b' < j ≤ b → bs !! j = Some lj → lj = []) →
  (b' = 0 ∨ ∃ v l, bs !! b' = Some (v :: l)) →
  dec_loop fuel bs (mkConstIterator b i) = Ok tt (mkConstIterator b' i).
Proof.
  induction d as [|d IH]; intros bs b b' i fuel Hb Hf Hlt Hempty Hstop.
  - assert (b' = b) as -> by lia. destruct fuel as [|fuel]; [lia|].
    cbn [dec_loop]. unfold bind at 1. unfold get. cbn [currentBucket iter].
    destruct (lookup_lt_is_Some_2 _ _ Hlt) as [l Hl]. mrun.
    destruct Hstop as [->|(v & l' & Hl')].
    + rewrite (bool_decide_eq_false_2 (0 ≠ 0)) by (by intros []). by rewrite andb_false_r.
    + rewrite Hl' in Hl. by injection Hl as <-.
  - destruct fuel as [|fuel]; [lia|].
    cbn [dec_loop]. unfold bind at 1. unfold get. cbn [currentBucket iter].
    destruct (lookup_lt_is_Some_2 _ _ Hlt) as [l Hl]. mrun.
    assert (l = []) as -> by (apply (Hempty b); [lia|done]).
    rewrite bool_decide_eq_true_2 by lia. cbn [andb]. mrun.
    apply IH; [lia|lia|lia| |done].
    intros j lj Hj. apply Hempty. lia.
Qed.

Lemma dec_pair_first bs b v l :
  bs !! b = Some (v :: l) →
  operator_dec bs (at_pair b 0) = Ok tt (at_pair b (length l)).
Proof.
  intros Hl. unfold operator_dec. mrun. cbn [at_pair currentBucket iter bucket_of]. mrun.
  rewrite bool_decide_eq_true_2 by done.
  cbn [dec_loop]. mrun. cbn [currentBucket]. mrun. cbn [andb]. mrun.
  cbn [currentBucket]. mrun.
  unfold list_dec. cbn [list_end offset bucket_of]. mrun.
  by replace (length (v :: l) - 1) with (length l) by (simpl; lia).
Qed.

Lemma dec_end_last bs b v l :
  length bs = MAP_SIZE → bs !! b = Some (v :: l) →
  (∀ j lj, b < j → bs !! j = Some lj → lj = []) →
  operator_dec bs end_iterator = Ok tt (at_pair b (length l)).
Proof.
  intros Hlen Hl Hempty.
  assert (b < length bs) as Hb by (by eapply lookup_lt_Some).
  assert (MAP_SIZE - 1 < length bs) as Hlt by (rewrite Hlen; unfold MAP_SIZE; lia).
  destruct (lookup_lt_is_Some_2 _ _ Hlt) as [l10 Hl10].
  unfold operator_dec. mrun. cbn [end_iterator currentBucket iter]. mrun.
  destruct (decide (b = MAP_SIZE - 1)) as [->|Hne].
  - rewrite Hl in Hl10. injection Hl10 as <-.
    rewrite bool_decide_eq_false_2 by done. cbn [list_end bucket_of]. mrun.
    unfold list_dec. cbn [offset bucket_of]. mrun.
    by replace (length (v :: l) - 1) with (length l) by (simpl; lia).
  - assert (l10 = []) as ->.
    { apply (Hempty (MAP_SIZE - 1)); [rewrite Hlen in Hb; unfold MAP_SIZE in *; lia|done]. }
    rewrite bool_decide_eq_true_2 by done.
    erewrite bind_Ok; [|apply (dec_loop_back (MAP_SIZE - 1 - b) bs (MAP_SIZE - 1) b);
      [rewrite Hlen in Hb; unfold MAP_SIZE in *; lia|unfold MAP_SIZE; lia|done| |eauto]].
    2:{ intros j lj Hj. apply Hempty. lia. }
    mrun. cbn [currentBucket]. mrun.
    unfold list_dec. cbn [list_end offset bucket_of]. mrun.
    by replace (length (v :: l) - 1) with (length l) by (simpl; lia).
Qed.

Lemma dec_end_empty bs :
  length bs = MAP_SIZE → (∀ j lj, bs !! j = Some lj → lj = []) →
  operator_dec bs end_iterator
  = Throw (out_of_range Iterator_out_of_range) (mkConstIterator 0 (list_end (MAP_SIZE - 1))).
Proof.
  intros Hlen Hempty.
  assert (MAP_SIZE - 1 < length bs) as Hlt by (rewrite Hlen; unfold MAP_SIZE; lia).
  destruct (lookup_lt_is_Some_2 _ _ Hlt) as [l10 Hl10].
  assert (0 < length bs) as Hlt0 by (rewrite Hlen; unfold MAP_SIZE; lia).
  destruct (lookup_lt_is_Some_2 _ _ Hlt0) as [l0 Hl0].
  pose proof (Hempty _ _ Hl10) as ->. pose proof (Hempty _ _ Hl0) as ->.
  unfold operator_dec. mrun. cbn [end_iterator currentBucket iter]. mrun.
  rewrite bool_decide_eq_true_2 by done.
  erewrite bind_Ok; [|apply (dec_loop_back (MAP_SIZE - 1) bs (MAP_SIZE - 1) 0);
      [unfold MAP_SIZE in *; lia|unfold MAP_SIZE; lia|done| |by left]].
  2:{ intros j lj _. apply Hempty. }
  mrun. cbn [currentBucket]. by mrun.
Qed.
End hash_decrement.

(** ** The pairs of the map under assignments and removals *)
Section invariant.
Context {K V : Type} `{!EqDecision K, !EqDecision V}.
Variable hash : K → N.
Variable default_value : V.
Variable plus_key : string → K → option string.

Local Abbreviation HashMap := (@HashMap K V).
Implicit Types (m : HashMap) (l : list (K * V)) (bs : list (list (K * V))) (k : K).

Lemma entries_split m b l i kv :
  buckets m !! b = Some l → l !! i = Some kv →
  ∃ P Q, entries m = P ++ kv :: Q
    ∧ (∀ y z, entries (mkHashMap (<[b := <[i := y]> l]> (buckets m)) z) = P ++ y :: Q)
    ∧ (∀ z, entries (mkHashMap (<[b := delete i l]> (buckets m)) z) = P ++ Q).
Proof.
  intros Hl Hkv.
  assert (b < length (buckets m)) as Hb by (by eapply lookup_lt_Some).
  assert (i < length l) as Hi by (by eapply lookup_lt_Some).
  exists (concat (take b (buckets m)) ++ take i l),
         (drop (S i) l ++ concat (drop (S b) (buckets m))).
  unfold entries. cbn [buckets]. split; [|split].
  - rewrite <- (take_drop_middle _ _ _ Hl) at 1.
    rewrite concat_app, concat_cons. rewrite <- (take_drop_middle _ _ _ Hkv) at 1.
    by rewrite <- !app_assoc.
  - intros y _. rewrite insert_take_drop by done.
    rewrite concat_app, concat_cons. rewrite insert_take_drop by done.
    by rewrite <- !app_assoc.
  - intros _. rewrite insert_take_drop by done.
    rewrite concat_app, concat_cons. rewrite delete_take_drop.
    by rewrite <- !app_assoc.
Qed.

Lemma entries_append m b l kv z :
  buckets m !! b = Some l →
  entries (mkHashMap (<[b := l ++ [kv]]> (buckets m)) z) ≡ₚ kv :: entries m.
Proof.
  intros Hl. assert (b < length (buckets m)) as Hb by (by eapply lookup_lt_Some).
  unfold entries. cbn [buckets]. rewrite insert_take_drop by done.
  rewrite <- (take_drop_middle _ _ _ Hl) at 3.
  rewrite !concat_app, !concat_cons.
  rewrite <- !app_assoc. cbn [app].
  by rewrite <- !Permutation_middle.
Qed.

Lemma valueOf_entry m k v :
  wf hash m → NoDup (keys m) → (k, v) ∈ entries m →
  valueOf hash plus_key k m = Ok v m.
Proof.
  intros Hwf Hnd Hin. pose proof Hwf as [Hlen Hown].
  destruct (bucket_exists hash m k Hlen) as [l Hl].
  assert (k ∈ keys m) as Hk by (by apply (list_elem_of_fmap_2 fst _ (k, v))).
  pose proof (keys_own_bucket hash m k l Hwf Hl Hk) as Hkl.
  destruct (find_if (λ v, bool_decide (v.1 = k)) l) as [i|] eqn:Hfind.
  2:{ by apply find_if_None in Hfind. }
  destruct (find_if_Some _ _ _ Hfind) as [v' Hv'].
  assert ((k, v') ∈ entries m) as Hin'.
  { apply elem_of_concat. exists l. split; [by eapply list_elem_of_lookup_2|].
    by eapply list_elem_of_lookup_2. }
  assert (v' = v) as -> by (by eapply (NoDup_fst_agree (entries m))).
  by eapply valueOf_Ok.
Qed.

(** The assignment [this->operator[](k) = x]. *)
Lemma assign_spec m k x :
  wf hash m → NoDup (keys m) →
  ∃ m',
    (r <- operator_index hash default_value k ;; store r x) m = Ok tt m'
    ∧ wf hash m' ∧ NoDup (keys m')
    ∧ (∀ k' v', (k', v') ∈ entries m'
                ↔ (k' = k ∧ v' = x) ∨ (k' ≠ k ∧ (k', v') ∈ entries m))
    ∧ (k ∈ keys m → size m' = size m ∧ length (entries m') = length (entries m))
    ∧ (k ∉ keys m →
       size m' = size_t_wrap (size m + 1) ∧ length (entries m') = S (length (entries m))).
Proof.
  intros Hwf Hnd. pose proof Hwf as [Hlen Hown].
  destruct (bucket_exists hash m k Hlen) as [l Hl].
  destruct (find_if (λ v, bool_decide (v.1 = k)) l) as [i|] eqn:Hfind.
  - destruct (find_if_Some _ _ _ Hfind) as [v Hv].
    destruct (entries_split m _ l i _ Hl Hv) as (P & Q & HE & HE' & _).
    assert (k ∈ keys m) as Hk.
    { unfold keys. rewrite HE, fmap_app, fmap_cons. set_solver. }
    eexists. split.
    { erewrite bind_Ok; [|by eapply operator_index_present].
      by apply (store_Ok m (mkReference (findBucket hash k) i) l (k, v)). }
    cbn [ref_bucket ref_offset fst].
    split; [by eapply (wf_store hash m (mkReference (findBucket hash k) i) l (k, v))|].
    unfold keys in *. rewrite HE'. rewrite HE in Hnd. split_and!.
    + by rewrite fmap_app, fmap_cons in *.
    + rewrite HE. by apply replace_middle.
    + intros _. split; [done|]. by rewrite HE, !length_app.
    + done.
  - apply find_if_None in Hfind.
    assert (k ∉ keys m) as Hk.
    { intros Hk. by apply Hfind, (keys_own_bucket hash m k l). }
    eexists. split; [by apply insert_absent|].
    pose proof (entries_append m _ l (k, x) (size_t_wrap (size m + 1)) Hl) as HE.
    split; [|split_and!].
    + eapply wf_insert_bucket; [done|done|].
      intros kv [Hin|Heq%list_elem_of_singleton]%elem_of_app; [|by subst].
      eapply Hown; [exact Hl|done].
    + unfold keys. rewrite HE, fmap_cons. by apply NoDup_cons.
    + intros k' v'. rewrite HE, elem_of_cons. split.
      * intros [[= -> ->]|Hin]; [by left|]. right. split; [|done].
        intros ->. apply Hk. by apply (list_elem_of_fmap_2 fst _ (k, v')).
      * intros [[-> ->]|[_ ?]]; auto.
    + done.
    + intros _. split; [done|]. by rewrite HE.
Qed.

(** The pairs of a list assigned one after the other. *)
Lemma insert_list_values l : ∀ m,
  wf hash m → NoDup (keys m) →
  ∃ m',
    insert_list hash default_value l m = Ok tt m'
    ∧ wf hash m' ∧ NoDup (keys m')
    ∧ (∀ k v, (k, v) ∈ entries m'
              ↔ last_value l k = Some v ∨ (last_value l k = None ∧ (k, v) ∈ entries m))
    ∧ length (entries m) ≤ length (entries m')
    ∧ size m' = add_size (length (entries m') - length (entries m)) (size m).
Proof.
  induction l as [|[k x] l IH]; intros m Hwf Hnd.
  - exists m. split; [done|]. split_and!; try done.
    + intros k v. simpl. naive_solver.
    + by rewrite Nat.sub_diag.
  - destruct (assign_spec m k x Hwf Hnd) as (m1 & Hrun1 & Hwf1 & Hnd1 & Hin1 & Hold & Hnew).
    destruct (IH m1 Hwf1 Hnd1) as (m' & Hrun & Hwf' & Hnd' & Hin' & Hle & Hsize).
    assert (length (entries m) ≤ length (entries m1)
            ∧ size m1 = add_size (length (entries m1) - length (entries m)) (size m))
      as [Hle1 Hsize1].
    { destruct (decide (k ∈ keys m)) as [Hk|Hk].
      - destruct (Hold Hk) as [-> ->]. split; [done|]. by rewrite Nat.sub_diag.
      - destruct (Hnew Hk) as [-> ->]. split; [lia|].
        by replace (S (length (entries m)) - length (entries m)) with 1 by lia. }
    exists m'. split.
    { rewrite insert_list_cons. by erewrite bind_Ok. }
    split; [done|]. split; [done|]. split_and!.
    + intros k' v'. rewrite Hin', Hin1. cbn [last_value fst snd].
      destruct (last_value l k') as [y|]; [naive_solver|].
      case_bool_decide; naive_solver.
    + lia.
    + rewrite Hsize, Hsize1, <- add_size_add. f_equal. lia.
Qed.

Lemma entries_new : entries (@HashMap_new K V) = [].
Proof. done. Qed.

Lemma HashMap_of_list_spec (hw : gmap loc HashMap) this l :
  ∃ m',
    HashMap_of_list hash default_value this l hw = Ok tt (<[this := m']> hw)
    ∧ wf hash m' ∧ NoDup (keys m')
    ∧ size m' = size_t_wrap (Z.of_nat (length (entries m')))
    ∧ ∀ k v, (k, v) ∈ entries m' ↔ last_value l k = Some v.
Proof.
  destruct (insert_list_values l HashMap_new (wf_new hash))
    as (m' & Hrun & Hwf & Hnd & Hin & _ & Hsize); [constructor|].
  exists m'. split.
  { unfold HashMap_of_list, new_at. erewrite bind_Ok; [|reflexivity].
    erewrite on_Ok; [|apply lookup_insert_eq|exact Hrun]. by rewrite insert_insert_eq. }
  split; [done|]. split; [done|]. split.
  - rewrite Hsize, entries_new. cbn [length size HashMap_new]. rewrite Nat.sub_0_r.
    pose proof (add_size_wrap (length (entries m')) 0 eq_refl) as Hw.
    by rewrite Z.add_0_l in Hw.
  - intros k v. rewrite Hin, entries_new. set_solver.
Qed.

(** What [erase] leaves. *)
Lemma erase_entries m b l i kv z :
  wf hash m → NoDup (keys m) → buckets m !! b = Some l → l !! i = Some kv →
  let m' := mkHashMap (<[b := delete i l]> (buckets m)) z in
  wf hash m' ∧ NoDup (keys m')
  ∧ length (entries m) = S (length (entries m'))
  ∧ ∀ kv', kv' ∈ entries m' ↔ kv' ∈ entries m ∧ kv'.1 ≠ kv.1.
Proof.
  intros Hwf Hnd Hl Hkv m'. pose proof Hwf as [Hlen Hown].
  destruct (entries_split m b l i kv Hl Hkv) as (P & Q & HE & _ & HE').
  specialize (HE' z). fold m' in HE'. split_and!.
  - eapply wf_insert_bucket; [done|done|]. intros kv' Hin. eapply Hown; [done|].
    rewrite delete_take_drop in Hin. rewrite <- (take_drop_middle _ _ _ Hkv). set_solver.
  - unfold keys in *. rewrite HE' . rewrite HE, fmap_app, fmap_cons in Hnd.
    rewrite fmap_app. apply NoDup_app in Hnd as (HP & HPQ & [_ HQ]%NoDup_cons).
    apply NoDup_app. split; [done|]. split; [|done]. set_solver.
  - rewrite HE, HE', !length_app. simpl. lia.
  - intros [k' v']. unfold keys in Hnd. rewrite HE in Hnd. rewrite HE, HE'.
    destruct kv as [k v]. pose proof (replace_middle P Q k v v Hnd k' v') as Hmid.
    rewrite fmap_app, fmap_cons in Hnd.
    apply NoDup_app in Hnd as (_ & HP & [HQ _]%NoDup_cons). simpl in *.
    rewrite !elem_of_app, !elem_of_cons. split.
    + intros [Hin|Hin].
      * split; [by left|]. intros ->. apply (HP k); [|set_solver].
        by apply (list_elem_of_fmap_2 fst _ (k, v')).
      * split; [by right; right|]. intros ->. apply HQ.
        by apply (list_elem_of_fmap_2 fst _ (k, v')).
    + intros [[Hin|[[= -> ->]|Hin]] Hne]; auto. done.
Qed.

End invariant.

(** ** The order of the pairs in the buckets *)
Section bucket_order.
Context {K V : Type} `{!EqDecision K, !EqDecision V}.
Variable hash : K → N.
Variable default_value : V.

Local Abbreviation HashMap := (@HashMap K V).
Implicit Types (m : HashMap) (l : list (K * V)) (bs : list (list (K * V))) (k : K).

Lemma insert_list_filter l : ∀ m,
  NoDup l.*1 → (∀ k, k ∈ l.*1 → k ∉ keys m) → length (buckets m) = MAP_SIZE →
  ∃ m',
    insert_list hash default_value l m = Ok tt m'
    ∧ length (buckets m') = MAP_SIZE
    ∧ size m' = add_size (length l) (size m)
    ∧ ∀ b l0, buckets m !! b = Some l0 →
        buckets m' !! b = Some (l0 ++ filter (λ kv, findBucket hash kv.1 = b) l).
Proof.
  induction l as [|[k x] l IH]; intros m Hnd Hnew Hlen.
  - exists m. split; [done|]. split; [done|]. split; [done|].
    intros b l0 Hl0. by rewrite filter_nil, app_nil_r.
  - rewrite fmap_cons in Hnd, Hnew. apply NoDup_cons in Hnd as [Hk Hnd].
    destruct (bucket_exists hash m k Hlen) as [lk Hlk].
    assert (k ∉ lk.*1) as Hklk.
    { intros Hin. apply (Hnew k); [set_solver|]. by eapply keys_bucket. }
    pose proof (insert_absent hash default_value m k x lk Hlk Hklk) as Hrun1.
    set (m1 := mkHashMap (<[findBucket hash k := lk ++ [(k, x)]]> (buckets m))
                         (size_t_wrap (size m + 1))) in *.
    destruct (IH m1 Hnd) as (m' & Hrun & Hlen' & Hsize & Hb).
    { intros k' Hk'. unfold keys, m1. rewrite entries_append by done.
      rewrite fmap_cons, not_elem_of_cons. split; [by intros ->|].
      apply Hnew. set_solver. }
    { unfold m1. cbn [buckets]. by rewrite length_insert. }
    exists m'. split.
    { rewrite insert_list_cons. by erewrite bind_Ok. }
    split; [done|]. split.
    { rewrite Hsize. unfold add_size, m1. cbn [length size]. by rewrite Nat.iter_succ_r. }
    intros b l0 Hl0. rewrite filter_cons. cbn [fst].
    assert (findBucket hash k < length (buckets m)) by (by eapply lookup_lt_Some).
    destruct (decide (findBucket hash k = b)) as [<-|Hne].
    + rewrite Hl0 in Hlk. injection Hlk as <-.
      rewrite (Hb _ (l0 ++ [(k, x)])); [by rewrite <- app_assoc|].
      unfold m1. cbn [buckets]. by rewrite list_lookup_insert_eq.
    + apply Hb. unfold m1. cbn [buckets]. by rewrite list_lookup_insert_ne.
Qed.

Lemma insert_list_new_buckets l :
  NoDup l.*1 →
  insert_list hash default_value l HashMap_new
  = Ok tt (mkHashMap ((λ b, filter (λ kv, findBucket hash kv.1 = b) l) <$> seq 0 MAP_SIZE)
                     (size_t_wrap (Z.of_nat (length l)))).
Proof.
  intros Hnd.
  destruct (insert_list_filter l HashMap_new Hnd) as (m' & Hrun & Hlen & Hsize & Hb);
    [set_solver|done|].
  rewrite Hrun. f_equal. destruct m' as [bs z]. cbn [buckets size] in *. f_equal.
  - apply list_eq. intros b. rewrite list_lookup_fmap.
    destruct (decide (b < MAP_SIZE)) as [Hlt|Hge].
    + rewrite lookup_seq_lt by done. cbn [fmap option_fmap option_map Nat.add].
      rewrite (Hb b []); [done|]. by apply lookup_replicate_2.
    + rewrite lookup_seq_ge by lia. rewrite lookup_ge_None_2; [done|lia].
  - rewrite Hsize. pose proof (add_size_wrap (length l) 0 eq_refl) as Hw.
    by rewrite Z.add_0_l in Hw.
Qed.
End bucket_order.

(** ** The copy assignment *)
Section hash_assignment.
Context {K V : Type} `{!EqDecision K, !EqDecision V}.
Variable hash : K → N.
Variable default_value : V.

Local Abbreviation HashMap := (@HashMap K V).
Implicit Types (m : HashMap) (l : list (K * V)) (bs : list (list (K * V))) (k : K).

Lemma hash_operator_assign_spec (hw : gmap loc HashMap) this other a o :
  this ≠ other → hw !! this = Some a → hw !! other = Some o →
  wf hash a → NoDup (keys a) → wf hash o → NoDup (keys o) →
  ∃ a',
    operator_assign hash default_value this other hw = Ok tt (<[this := a']> hw)
    ∧ wf hash a' ∧ NoDup (keys a')
    ∧ (∀ k v, (k, v) ∈ entries a'
              ↔ (k, v) ∈ entries o ∨ ((k ∉ keys o) ∧ (k, v) ∈ entries a))
    ∧ length (entries a) ≤ length (entries a')
    ∧ size a' = size_t_wrap (Z.of_nat (length (entries a') - length (entries a))).
Proof.
  intros Hne Ha Ho Hwfa Hnda Hwfo Hndo. pose proof Hwfo as [Hlen _].
  set (a0 := mkHashMap (buckets a) 0).
  assert (wf hash a0) as Hwf0 by done.
  destruct (insert_list_values hash default_value (entries o) a0 Hwf0 Hnda)
    as (a' & Hrun & Hwf' & Hnd' & Hin & Hle & Hsize).
  exists a'. split.
  { unfold operator_assign. rewrite bool_decide_eq_false_2 by done.
    erewrite bind_Ok; [|eapply on_Ok; [exact Ha|reflexivity]].
    fold a0.
    assert (<[this := a0]> hw !! other = Some o) as Ho'
      by (by rewrite lookup_insert_ne).
    erewrite bind_Ok; [|eapply on_Ok; [exact Ho'|by apply cbegin_first]].
    rewrite (insert_id _ _ _ Ho').
    erewrite bind_Ok; [|eapply on_Ok; [exact Ho'|by apply cend_end]].
    rewrite (insert_id _ _ _ Ho').
    unfold fill. erewrite bind_Ok; [|by apply object_at_Some].
    erewrite (for_each_walk hash default_value _ _ this other o a0 a');
      [by rewrite insert_insert_eq|done|done|apply lookup_insert_eq| |done|].
    - by apply walk_begin.
    - unfold entries. lia. }
  split; [done|]. split; [done|]. split_and!.
  - intros k v. rewrite Hin. change (entries a0) with (entries a).
    rewrite (last_value_NoDup _ _ _ Hndo), last_value_None. done.
  - done.
  - rewrite Hsize. change (entries a0) with (entries a). cbn [size a0].
    pose proof (add_size_wrap (length (entries a') - length (entries a)) 0 eq_refl) as Hw.
    by rewrite Z.add_0_l in Hw.
Qed.
End hash_assignment.

(** ** What [valueOf] and [find] return *)
Section outcomes.
Context {K V : Type} `{!EqDecision K, !EqDecision V}.
Variable hash : K → N.
Variable plus_key : string → K → option string.

Local Abbreviation HashMap := (@HashMap K V).
Implicit Types (m : HashMap) (l : list (K * V)) (bs : list (list (K * V))) (k : K).

(** What [valueOf] does depends on the pairs of the key only. *)
Lemma valueOf_outcome_ext m m' k :
  wf hash m → NoDup (keys m) → wf hash m' → NoDup (keys m') →
  (∀ v, (k, v) ∈ entries m' ↔ (k, v) ∈ entries m) →
  outcome_of (valueOf hash plus_key k m') = outcome_of (valueOf hash plus_key k m).
Proof.
  intros Hwf Hnd Hwf' Hnd' Hsame.
  destruct (decide (k ∈ keys m)) as [Hk|Hk].
  - apply list_elem_of_fmap in Hk as ([k0 v] & Hk0 & Hin). simpl in Hk0. subst k0.
    rewrite (valueOf_entry hash plus_key m k v) by done.
    by rewrite (valueOf_entry hash plus_key m' k v) by (done || by apply Hsame).
  - assert (k ∉ keys m') as Hk'.
    { intros Hin. apply list_elem_of_fmap in Hin as ([k0 v] & Hk0 & Hin).
      simpl in Hk0. subst k0. apply Hk. apply Hsame in Hin.
      by apply (list_elem_of_fmap_2 fst _ (k, v)). }
    rewrite !hash_valueOf_absent by (done || apply Hwf || apply Hwf').
    by destruct (plus_key _ _).
Qed.
Lemma find_absent_end m k :
  length (buckets m) = MAP_SIZE → k ∉ keys m →
  (∀ i l, findBucket hash k < i → buckets m !! i = Some l → l = []) →
  find hash k m = Ok end_iterator m.
Proof.
  intros Hlen Hk Hempty. pose proof (findBucket_lt hash k) as Hlt.
  rewrite (find_absent hash m k (MAP_SIZE - 1 - findBucket hash k)) by (done || lia).
  destruct (MAP_SIZE - 1 - findBucket hash k) as [|n] eqn:Hn; [done|].
  f_equal. apply first_pair_empty; [done|lia|].
  intros i l Hi. apply Hempty. lia.
Qed.

Lemma find_absent_later m k i v l :
  length (buckets m) = MAP_SIZE → k ∉ keys m →
  findBucket hash k < i → buckets m !! i = Some (v :: l) →
  (∀ j lj, findBucket hash k < j < i → buckets m !! j = Some lj → lj = []) →
  find hash k m = Ok (at_pair i 0) m.
Proof.
  intros Hlen Hk Hi Hl Hempty. pose proof (findBucket_lt hash k) as Hlt.
  rewrite (find_absent hash m k (MAP_SIZE - 1 - findBucket hash k)) by (done || lia).
  destruct (MAP_SIZE - 1 - findBucket hash k) as [|n] eqn:Hn.
  - apply lookup_lt_Some in Hl. lia.
  - rewrite (first_pair_at n _ _ i v l); [done|done|lia|lia|done|].
    intros j lj Hj. apply Hempty. lia.
Qed.
End outcomes.

(** ** Maps that hold the same pairs *)
Section equal_pairs.
Context {K V : Type} `{!EqDecision K, !EqDecision V}.
Variable hash : K → N.

Local Abbreviation HashMap := (@HashMap K V).
Implicit Types (m : HashMap) (l : list (K * V)) (k : K).

Lemma entry_own_bucket m i l kv :
  wf hash m → buckets m !! i = Some l → kv ∈ entries m → findBucket hash kv.1 = i → kv ∈ l.
Proof.
  intros [_ Hown] Hl Hin Hi. apply elem_of_concat in Hin as (xs & Hkv & Hxs).
  apply list_elem_of_lookup in Hxs as [j Hj]. pose proof (Hown j xs kv Hj Hkv) as Hj'.
  assert (j = i) as -> by congruence. congruence.
Qed.

Lemma bucket_entry m i l kv : buckets m !! i = Some l → kv ∈ l → kv ∈ entries m.
Proof.
  intros Hl Hkv. apply elem_of_concat. exists l. split; [done|].
  by eapply list_elem_of_lookup_2.
Qed.

(** Two maps without collisions that hold the same pairs have the same
    bucket array. *)
Lemma single_buckets_equal m other :
  wf hash m → wf hash other →
  Forall (λ l, length l ≤ 1) (buckets m) → Forall (λ l, length l ≤ 1) (buckets other) →
  (∀ kv, kv ∈ entries m ↔ kv ∈ entries other) → buckets m = buckets other.
Proof.
  intros Hwf1 Hwf2 H1 H2 Hsame. apply list_eq. intros i.
  assert (∀ a b : HashMap, wf hash a → wf hash b →
            Forall (λ l, length l ≤ 1) (buckets a) →
            (∀ kv, kv ∈ entries a → kv ∈ entries b) →
            ∀ l l', buckets a !! i = Some l → buckets b !! i = Some l' →
            ∀ kv, kv ∈ l → kv ∈ l') as Hsub.
  { intros a b Ha Hb Hone Hincl l l' Hl Hl' kv Hkv.
    eapply (entry_own_bucket b); [done|done| |].
    - apply Hincl. by eapply bucket_entry.
    - destruct Ha as [_ Hown]. by eapply Hown. }
  destruct (buckets m !! i) as [l|] eqn:El; destruct (buckets other !! i) as [l'|] eqn:El'.
  - f_equal.
    pose proof (Forall_lookup_1 _ _ _ _ H1 El) as Hlen.
    pose proof (Forall_lookup_1 _ _ _ _ H2 El') as Hlen'. simpl in Hlen, Hlen'.
    pose proof (Hsub m other Hwf1 Hwf2 H1 (λ kv, proj1 (Hsame kv)) l l' El El') as H12.
    pose proof (Hsub other m Hwf2 Hwf1 H2 (λ kv, proj2 (Hsame kv)) l' l El' El) as H21.
    destruct l as [|a [|? ?]], l' as [|b [|? ?]]; simpl in *; try lia; [done| | |].
    + specialize (H21 b). set_solver.
    + specialize (H12 a). set_solver.
    + specialize (H12 a). f_equal. set_solver.
  - apply lookup_lt_Some in El. apply lookup_ge_None in El'.
    destruct Hwf1 as [L1 _], Hwf2 as [L2 _]. lia.
  - apply lookup_lt_Some in El'. apply lookup_ge_None in El.
    destruct Hwf1 as [L1 _], Hwf2 as [L2 _]. lia.
  - done.
Qed.

End equal_pairs.
End HashMapFacts.

(** * TreeMap: the heap holds a search tree *)
Module TreeMapFacts.
Import TreeMap.
#[local] Opaque loop_bound.

(** ** Reading the heap: searches, iteration, stores *)
Section heap.
Context {K V : Type} `{!EqDecision K, !EqDecision V}.
Context (lt : relation K) `{!RelDecision lt}.

Local Abbreviation world := (@world K V).
Local Abbreviation tree := (@tree K V).
Implicit Types (w : world) (t : tree) (h : gmap node_pointer (@TreeNode K V)).

Lemma node_at_Some w a n :
  nodes w !! a = Some n → node_at (Some a) w = Ok n w.
Proof. intros H. unfold node_at, bind, get, deref. simpl. by rewrite H. Qed.

Lemma this_map_Some w this m :
  objects w !! this = Some m → this_map this w = Ok m w.
Proof. intros H. unfold this_map, bind, get, deref. simpl. by rewrite H. Qed.

Hint Resolve node_at_Some this_map_Some : monad.

Lemma is_tree_frame h h' par t :
  is_tree h par t → (∀ a, a ∈ ptrs t → h' !! a = h !! a) → is_tree h' par t.
Proof.
  revert par. induction t as [|l IHl a kv r IHr]; simpl; [done|].
  intros par (Ha & Hl & Hr) Heq. split_and!.
  - rewrite Heq; [done|]. set_solver.
  - apply IHl; [done|]. intros; apply Heq. set_solver.
  - apply IHr; [done|]. intros; apply Heq. set_solver.
Qed.

Lemma is_tree_allocated h par t a :
  is_tree h par t → a ∈ ptrs t → is_Some (h !! a).
Proof.
  revert par. induction t as [|l IHl b kv r IHr]; simpl; [set_solver|].
  intros par (Hb & Hl & Hr) Hin.
  apply elem_of_app in Hin as [Hin|Hin]; [eauto|].
  apply elem_of_cons in Hin as [->|Hin]; eauto.
Qed.

Lemma tree_height_ptrs t : tree_height t ≤ length (ptrs t).
Proof.
  induction t as [|l IHl a kv r IHr]; simpl; [done|].
  rewrite length_app. simpl. lia.
Qed.

Lemma ptrs_heap_size h par t :
  is_tree h par t → NoDup (ptrs t) → length (ptrs t) ≤ base.size h.
Proof.
  intros Ht Hnd.
  rewrite <- size_dom. unfold base.size, set_size. simpl.
  apply submseteq_length, NoDup_submseteq; [done|].
  intros a Ha. apply elem_of_elements, elem_of_dom.
  by eapply is_tree_allocated.
Qed.

Lemma tree_height_bound w par t :
  is_tree (nodes w) par t → NoDup (ptrs t) → tree_height t < loop_bound w.
Proof.
  intros Ht Hnd. change (loop_bound w) with (S (base.size (nodes w))).
  pose proof (tree_height_ptrs t). pose proof (ptrs_heap_size _ _ _ Ht Hnd). lia.
Qed.

Lemma findNode_loop_spec fuel k par t w :
  is_tree (nodes w) par t → tree_height t < fuel →
  findNode_loop lt fuel k (root_ptr t) w = Ok (lookup_tree lt k t) w.
Proof.
  revert par t. induction fuel as [|fuel IH]; intros par t Ht Hf; [lia|].
  destruct t as [|l a kv r]; simpl in *; [done|].
  destruct Ht as (Ha & Hl & Hr).
  mrun. unfold key. simpl.
  repeat case_bool_decide; try done.
  - eapply IH; [done|lia].
  - eapply IH; [done|lia].
Qed.

Lemma findNode_spec w this t k :
  wf lt w this t →
  findNode lt this k w = Ok (lookup_tree lt k t) w.
Proof.
  intros ([sz Hobj] & Ht & Hnd & _).
  unfold findNode. mrun. simpl.
  eapply findNode_loop_spec; [done|]. by eapply tree_height_bound.
Qed.

Lemma lookup_tree_None k t : k ∉ keys t → lookup_tree lt k t = None.
Proof.
  unfold keys. induction t as [|l IHl a kv r IHr]; simpl; [done|].
  rewrite fmap_app, fmap_cons. intros Hk.
  repeat case_bool_decide.
  - apply IHl. set_solver.
  - apply IHr. set_solver.
  - set_solver.
Qed.

Lemma lookup_tree_Some h par k t a :
  is_tree h par t → lookup_tree lt k t = Some a →
  a ∈ ptrs t ∧ ∃ n, h !! a = Some n ∧ key n = k ∧ val n ∈ entries t.
Proof.
  revert par. induction t as [|l IHl b kv r IHr]; simpl; [done|].
  intros par (Hb & Hl & Hr) Hlook.
  repeat case_bool_decide.
  - destruct (IHl _ Hl Hlook) as (? & n & ? & ? & ?). split; [set_solver|].
    exists n. set_solver.
  - destruct (IHr _ Hr Hlook) as (? & n & ? & ? & ?). split; [set_solver|].
    exists n. set_solver.
  - injection Hlook as <-. split; [set_solver|]. eexists. split; [done|]. unfold key. simpl.
    split; [by destruct (decide (kv.1 = k)) |set_solver].
Qed.

Lemma lookup_tree_keys h par t k a :
  is_tree h par t → lookup_tree lt k t = Some a → k ∈ keys t.
Proof.
  intros Ht Hlook. destruct (lookup_tree_Some _ _ _ _ _ Ht Hlook) as (_ & n & _ & <- & Hin).
  unfold keys, key. by apply list_elem_of_fmap_2.
Qed.

Lemma read_slot_root w this m :
  objects w !! this = Some m → read_slot this root_slot w = Ok (root m) w.
Proof. intros H. unfold read_slot. by mrun. Qed.

Lemma read_slot_left w this p n :
  nodes w !! p = Some n → read_slot this (leftChild_slot p) w = Ok (leftChild n) w.
Proof. intros H. unfold read_slot. by mrun. Qed.

Lemma read_slot_right w this p n :
  nodes w !! p = Some n → read_slot this (rightChild_slot p) w = Ok (rightChild n) w.
Proof. intros H. unfold read_slot. by mrun. Qed.

Lemma set_node_Ok w a n n' :
  nodes w !! a = Some n →
  set_node a n' w = Ok tt (mkWorld (<[a := n']> (nodes w)) (objects w)).
Proof. intros H. unfold set_node. by mrun. Qed.

Lemma write_slot_left w this p n q :
  nodes w !! p = Some n →
  write_slot this (leftChild_slot p) q w
  = Ok tt (mkWorld (<[p := mkTreeNode (val n) (parent n) q (rightChild n) (height n)]> (nodes w))
                   (objects w)).
Proof. intros H. unfold write_slot. mrun. by eapply set_node_Ok. Qed.

Lemma write_slot_right w this p n q :
  nodes w !! p = Some n →
  write_slot this (rightChild_slot p) q w
  = Ok tt (mkWorld (<[p := mkTreeNode (val n) (parent n) (leftChild n) q (height n)]> (nodes w))
                   (objects w)).
Proof. intros H. unfold write_slot. mrun. by eapply set_node_Ok. Qed.

Lemma new_node_Ok w n :
  new_node n w
  = Ok (fresh (dom (nodes w))) (mkWorld (<[fresh (dom (nodes w)) := n]> (nodes w)) (objects w)).
Proof. done. Qed.

Lemma fresh_node_None w : nodes w !! fresh (dom (nodes w)) = None.
Proof. apply not_elem_of_dom, is_fresh. Qed.

Lemma set_map_Ok w this m m' :
  objects w !! this = Some m →
  set_map this m' w = Ok tt (mkWorld (nodes w) (<[this := m']> (objects w))).
Proof. intros H. unfold set_map. by mrun. Qed.

Lemma set_root_Ok w this m p :
  objects w !! this = Some m →
  set_root this p w = Ok tt (mkWorld (nodes w) (<[this := mkTreeMap p (size m)]> (objects w))).
Proof. intros H. unfold set_root. mrun. by eapply set_map_Ok. Qed.

Lemma set_size_Ok w this m z :
  objects w !! this = Some m →
  set_size this z w = Ok tt (mkWorld (nodes w) (<[this := mkTreeMap (root m) z]> (objects w))).
Proof. intros H. unfold set_size. mrun. by eapply set_map_Ok. Qed.

Lemma index_loop_spec fuel this k s par t w :
  is_tree (nodes w) par t → read_slot this s w = Ok (root_ptr t) w → tree_height t < fuel →
  index_loop lt fuel this k s par w = Ok (insertion_point lt k s par t) w.
Proof.
  revert s par t. induction fuel as [|fuel IH]; intros s par t Ht Hs Hf; [lia|].
  destruct t as [|l a kv r]; simpl in *.
  - by mrun.
  - destruct Ht as (Ha & Hl & Hr). mrun. simpl. mrun. unfold key. simpl.
    repeat case_bool_decide; try done.
    + apply IH; [done| |lia]. by rewrite (read_slot_left _ _ _ _ Ha).
    + apply IH; [done| |lia]. by rewrite (read_slot_right _ _ _ _ Ha).
Qed.

Lemma insertion_point_read this k s par t w :
  is_tree (nodes w) par t → read_slot this s w = Ok (root_ptr t) w →
  read_slot this (insertion_point lt k s par t).1 w = Ok (lookup_tree lt k t) w.
Proof.
  revert s par. induction t as [|l IHl a kv r IHr]; intros s par Ht Hs; simpl in *; [done|].
  destruct Ht as (Ha & Hl & Hr).
  repeat case_bool_decide; try done.
  - apply IHl; [done|]. by rewrite (read_slot_left _ _ _ _ Ha).
  - apply IHr; [done|]. by rewrite (read_slot_right _ _ _ _ Ha).
Qed.

Lemma find_spec w this t k :
  wf lt w this t → find lt this k w = Ok (mkConstIterator this (lookup_tree lt k t)) w.
Proof. intros Hwf. unfold find. by erewrite bind_Ok; [|by apply findNode_spec]. Qed.

Lemma valueOf_absent w this t k :
  wf lt w this t → k ∉ keys t →
  valueOf lt this k w = Throw (out_of_range Iterator_out_of_range) w.
Proof.
  intros Hwf Hk. unfold valueOf. erewrite bind_Ok; [|by apply find_spec].
  by rewrite lookup_tree_None.
Qed.

Lemma remove_absent w this t k :
  wf lt w this t → k ∉ keys t →
  remove lt this k w = Throw (out_of_range Iterator_out_of_range) w.
Proof.
  intros Hwf Hk. unfold remove. erewrite bind_Ok; [|by apply find_spec].
  by rewrite lookup_tree_None.
Qed.

Lemma valueOf_lookup w this t k p n :
  wf lt w this t → lookup_tree lt k t = Some p → nodes w !! p = Some n →
  valueOf lt this k w = Ok (value n) w.
Proof.
  intros Hwf Hlook Hn. unfold valueOf. erewrite bind_Ok; [|by apply find_spec].
  rewrite Hlook. unfold operator_deref. cbn [currentNode]. by mrun.
Qed.

Lemma node_at_inv w p n w' :
  node_at p w = Ok n w' → w' = w ∧ ∃ a, p = Some a ∧ nodes w !! a = Some n.
Proof.
  unfold node_at, bind, get, deref, ret, undefined. simpl.
  destruct p as [a|]; [|done]. destruct (nodes w !! a) eqn:E; [|done].
  intros [= <- <-]. eauto.
Qed.

Lemma ascend_right_loop_mono n n' c w c' w' :
  ascend_right_loop n c w = Ok c' w' → n ≤ n' → ascend_right_loop n' c w = Ok c' w'.
Proof.
  revert n' c. induction n as [|n IH]; intros n' c Hrun Hle; [done|].
  destruct n' as [|n']; [lia|]. simpl in *. unfold bind in *.
  destruct (node_at (Some c) w) as [nd w1| | |] eqn:E; try done.
  apply node_at_inv in E as [-> _].
  destruct (parent nd) as [p|]; [|done].
  destruct (node_at (Some p) w) as [pn w1| | |] eqn:E; try done.
  apply node_at_inv in E as [-> _].
  case_bool_decide; [|done]. apply IH; [done|lia].
Qed.

Lemma ascend_right_loop_state n c w c' w' :
  ascend_right_loop n c w = Ok c' w' → w' = w.
Proof.
  revert c. induction n as [|n IH]; intros c Hrun; [done|].
  simpl in *. unfold bind in *.
  destruct (node_at (Some c) w) as [nd w1| | |] eqn:E; try done.
  apply node_at_inv in E as [-> _].
  destruct (parent nd) as [p|]; [|by injection Hrun].
  destruct (node_at (Some p) w) as [pn w1| | |] eqn:E; try done.
  apply node_at_inv in E as [-> _].
  case_bool_decide; [by eapply IH|by injection Hrun].
Qed.

Lemma climb_inv n c w x w' :
  climb n c w = Ok x w' →
  w' = w ∧ ∃ c' nd, ascend_right_loop n c w = Ok c' w ∧ nodes w !! c' = Some nd ∧ parent nd = x.
Proof.
  unfold climb. intros (c' & w1 & Hloop & Hrest)%bind_Ok_inv.
  pose proof (ascend_right_loop_state _ _ _ _ _ Hloop) as ->.
  apply bind_Ok_inv in Hrest as (nd & w2 & Hnd & Hret).
  apply node_at_inv in Hnd as [-> (a & [= <-] & Hnd)].
  injection Hret as <- <-. eauto 10.
Qed.

Lemma climb_mono n n' c w x w' :
  climb n c w = Ok x w' → n ≤ n' → climb n' c w = Ok x w'.
Proof.
  unfold climb. intros (c' & w1 & Hloop & Hrest)%bind_Ok_inv Hle.
  erewrite bind_Ok; [exact Hrest|]. by eapply ascend_right_loop_mono.
Qed.

Lemma ascend_stop w c n p pn fuel :
  nodes w !! c = Some n → parent n = Some p → nodes w !! p = Some pn →
  rightChild pn ≠ Some c →
  ascend_right_loop (S fuel) c w = Ok c w.
Proof.
  intros Hc Hp Hpn Hne. simpl. mrun. rewrite Hp. mrun.
  by rewrite bool_decide_eq_false_2 by done.
Qed.

Lemma ascend_root w c n fuel :
  nodes w !! c = Some n → parent n = None → ascend_right_loop (S fuel) c w = Ok c w.
Proof. intros Hc Hp. simpl. mrun. by rewrite Hp. Qed.

Lemma ascend_step w c n p pn fuel :
  nodes w !! c = Some n → parent n = Some p → nodes w !! p = Some pn →
  rightChild pn = Some c →
  ascend_right_loop (S fuel) c w = ascend_right_loop fuel p w.
Proof.
  intros Hc Hp Hpn Hr. simpl. mrun. rewrite Hp. mrun.
  by rewrite bool_decide_eq_true_2 by done.
Qed.

Lemma climb_stop w c n p pn fuel :
  nodes w !! c = Some n → parent n = Some p → nodes w !! p = Some pn →
  rightChild pn ≠ Some c →
  climb (S fuel) c w = Ok (Some p) w.
Proof.
  intros Hc Hp Hpn Hne. unfold climb.
  erewrite bind_Ok; [|by eapply ascend_stop]. mrun. by rewrite Hp.
Qed.

Lemma climb_root w c n fuel :
  nodes w !! c = Some n → parent n = None → climb (S fuel) c w = Ok None w.
Proof.
  intros Hc Hp. unfold climb.
  erewrite bind_Ok; [|by eapply ascend_root]. mrun. by rewrite Hp.
Qed.

Lemma climb_step w c n p pn fuel :
  nodes w !! c = Some n → parent n = Some p → nodes w !! p = Some pn →
  rightChild pn = Some c →
  climb (S fuel) c w = climb fuel p w.
Proof.
  intros Hc Hp Hpn Hr. unfold climb, bind.
  by erewrite ascend_step.
Qed.

Lemma leftmost_loop_spec fuel w par t a :
  is_tree (nodes w) par t → root_ptr t = Some a → tree_height t ≤ fuel →
  ∃ e, head (ptrs t) = Some e ∧ leftmost_loop fuel a w = Ok e w.
Proof.
  revert fuel par a. induction t as [|l IHl a0 kv r _]; intros fuel par a Ht Ha Hf; [done|].
  simpl in *. injection Ha as <-. destruct Ht as (Ha0 & Hl & _).
  destruct fuel as [|fuel]; [lia|]. simpl. mrun. simpl.
  destruct l as [|ll la lkv lr].
  - exists a0. done.
  - destruct (IHl fuel (Some a0) la Hl eq_refl) as (e & He & Hrun); [simpl in *; lia|].
    exists e. split; [|done]. simpl in *.
    destruct (ptrs ll ++ la :: ptrs lr); [done|]. done.
Qed.

Lemma chain_app w this xs ys exit :
  chain w this xs (first_or ys exit) → chain w this ys exit → chain w this (xs ++ ys) exit.
Proof.
  induction xs as [|x xs IH]; simpl; [done|]. intros [Hx Hxs] Hys. split; [|by apply IH].
  rewrite Hx. by destruct xs.
Qed.

Lemma first_or_ptrs t exit : t ≠ Leaf → first_or (ptrs t) exit = head (ptrs t).
Proof.
  destruct t as [|l a kv r]; [done|]. intros _. simpl.
  by destruct (ptrs l ++ a :: ptrs r) eqn:E; [destruct (ptrs l)|].
Qed.

Lemma chain_tree w this par t a exit n :
  is_tree (nodes w) par t → NoDup (ptrs t) → root_ptr t = Some a →
  climb n a w = Ok exit w → n + tree_height t ≤ loop_bound w →
  chain w this (ptrs t) exit.
Proof.
  revert par a exit n.
  induction t as [|l IHl a0 kv r IHr]; intros par a exit n Ht Hnd Ha Hclimb Hfuel; [done|].
  simpl in *. injection Ha as <-. destruct Ht as (Ha0 & Hl & Hr).
  apply NoDup_app in Hnd as (Hndl & Hlr & Hndr).
  apply NoDup_cons in Hndr as (Ha0r & Hndr).
  apply chain_app.
  - (* the left subtree leads to [a0] *)
    destruct l as [|ll la lkv lr]; [done|].
    eapply (IHl (Some a0) la (Some a0) 1); [done|done|done| |simpl in *; lia].
    destruct Hl as (Hla & _). eapply climb_stop; [exact Hla|done|exact Ha0|].
    simpl. intros Heq. destruct r as [|rl ra rkv rr]; [done|]. injection Heq as ->.
    eapply (Hlr la); simpl; set_solver.
  - (* [a0], then the right subtree, then [exit] *)
    simpl. split.
    + unfold operator_inc. cbn [currentNode it_parent]. mrun. cbn [rightChild].
      destruct r as [|rl ra rkv rr].
      * simpl. apply climb_inv in Hclimb as (_ & c' & nd & Hloop & Hnd' & <-).
        erewrite bind_Ok; [|eapply ascend_right_loop_mono; [exact Hloop|lia]].
        by mrun.
      * cbn [root_ptr].
        destruct (leftmost_loop_spec (loop_bound w) w (Some a0) (Node rl ra rkv rr) ra Hr eq_refl)
          as (e & He & Hrun); [lia|].
        mrun. rewrite first_or_ptrs by done. by rewrite He.
    + destruct r as [|rl ra rkv rr]; [done|].
      eapply (IHr (Some a0) ra exit (S n)); [done|done|done| |simpl in *; lia].
      destruct Hr as (Hra & _).
      erewrite climb_step; [exact Hclimb|exact Hra|done|exact Ha0|done].
Qed.

Lemma chain_wf w this t :
  wf lt w this t → chain w this (ptrs t) None.
Proof.
  intros (_ & Ht & Hnd & _). destruct t as [|l a kv r]; [done|].
  eapply (chain_tree w this None _ a None 1); [done|done|done| |].
  - destruct Ht as (Ha & _). by eapply climb_root.
  - pose proof (tree_height_bound _ _ _ Ht Hnd). lia.
Qed.

Lemma entries_of_ptrs h par t :
  is_tree h par t →
  Forall2 (λ a kv, ∃ n, h !! a = Some n ∧ val n = kv) (ptrs t) (entries t).
Proof.
  revert par. induction t as [|l IHl a kv r IHr]; simpl; intros par Ht; [constructor|].
  destruct Ht as (Ha & Hl & Hr). apply Forall2_app; [by eapply IHl|].
  constructor; [by eexists|by eapply IHr].
Qed.

Lemma traverse_loop_chain fuel w this cs kvs :
  chain w this cs None →
  Forall2 (λ a kv, ∃ n, nodes w !! a = Some n ∧ val n = kv) cs kvs →
  length cs < fuel →
  traverse_loop fuel (mkConstIterator this (first_or cs None)) (mkConstIterator this None) w
  = Ok kvs w.
Proof.
  revert fuel kvs. induction cs as [|c cs IH]; intros fuel kvs Hchain Hvals Hfuel;
    (destruct fuel as [|fuel]; [simpl in Hfuel; lia|]).
  - apply Forall2_nil_inv_l in Hvals as ->. done.
  - apply Forall2_cons_inv_l in Hvals as (kv & kvs' & (n & Hn & <-) & Hvals & ->).
    destruct Hchain as [Hinc Hchain]. cbn [traverse_loop first_or].
    unfold iterator_eq. cbn [currentNode]. rewrite bool_decide_eq_false_2 by done.
    erewrite bind_Ok; [|unfold operator_deref; cbn [currentNode]; by mrun].
    erewrite bind_Ok; [|exact Hinc].
    erewrite bind_Ok; [done|]. apply IH; [done|done|simpl in Hfuel; lia].
Qed.

Lemma minElement_spec w this t :
  wf lt w this t → minElement this w = Ok (first_or (ptrs t) None) w.
Proof.
  intros ([sz Hobj] & Ht & Hnd & _). unfold minElement. mrun. cbn [root].
  destruct t as [|l a kv r]; cbn [root_ptr]; [done|].
  destruct (leftmost_loop_spec (loop_bound w) w None (Node l a kv r) a Ht eq_refl)
    as (e & He & Hrun).
  { pose proof (tree_height_bound _ _ _ Ht Hnd). lia. }
  mrun. rewrite first_or_ptrs by done. by rewrite He.
Qed.

Lemma cbegin_spec w this t :
  wf lt w this t → cbegin this w = Ok (mkConstIterator this (first_or (ptrs t) None)) w.
Proof.
  intros Hwf. unfold cbegin. by erewrite bind_Ok; [|by apply minElement_spec].
Qed.

Lemma traverse_spec w this t :
  wf lt w this t → traverse this w = Ok (entries t) w.
Proof.
  intros Hwf. unfold traverse. erewrite bind_Ok; [|by apply cbegin_spec].
  unfold cend. mrun. pose proof Hwf as (_ & Ht & Hnd & _).
  apply traverse_loop_chain.
  - by apply chain_wf.
  - by eapply entries_of_ptrs.
  - pose proof (ptrs_heap_size _ _ _ Ht Hnd).
    change (loop_bound w) with (S (base.size (nodes w))). lia.
Qed.

Lemma wf_default w this :
  ∃ w', TreeMap_default this w = Ok tt w' ∧ wf lt w' this Leaf
        ∧ objects w' !! this = Some (mkTreeMap None 0) ∧ nodes w' = nodes w.
Proof.
  eexists. split; [done|]. simpl. split; [|split; [|done]].
  - split_and!; simpl; try done; [|constructor]. eexists. apply lookup_insert_eq.
  - apply lookup_insert_eq.
Qed.

Lemma root_ptr_update_tree p x t : root_ptr (update_tree p x t) = root_ptr t.
Proof. by destruct t. Qed.

Lemma ptrs_update_tree p x t : ptrs (update_tree p x t) = ptrs t.
Proof. induction t; simpl; congruence. Qed.

Lemma keys_update_tree p x t : keys (update_tree p x t) = keys t.
Proof.
  unfold keys. induction t as [|l IHl a kv r IHr]; simpl; [done|].
  rewrite !fmap_app, !fmap_cons, IHl, IHr. by case_bool_decide.
Qed.

Lemma lookup_update_tree k p x t :
  lookup_tree lt k (update_tree p x t) = lookup_tree lt k t.
Proof.
  induction t as [|l IHl a kv r IHr]; simpl; [done|].
  rewrite IHl, IHr. by destruct (bool_decide (a = p)).
Qed.

Lemma bst_update_tree p x t : bst lt t → bst lt (update_tree p x t).
Proof.
  induction t as [|l IHl a kv r IHr]; simpl; [done|].
  intros (Hl & Hr & Hbl & Hbr). rewrite !keys_update_tree.
  split_and!; [| |by apply IHl|by apply IHr]; by case_bool_decide.
Qed.

Lemma update_tree_absent p x t : p ∉ ptrs t → update_tree p x t = t.
Proof.
  induction t as [|l IHl a kv r IHr]; simpl; [done|]. intros Hp.
  rewrite IHl, IHr by set_solver. rewrite bool_decide_eq_false_2; [done|set_solver].
Qed.

Lemma is_tree_update h par t p n x :
  is_tree h par t → NoDup (ptrs t) → h !! p = Some n → p ∈ ptrs t →
  is_tree (<[p := mkTreeNode (key n, x) (parent n) (leftChild n) (rightChild n) (height n)]> h)
          par (update_tree p x t).
Proof.
  revert par. induction t as [|l IHl a kv r IHr]; simpl; [done|].
  intros par (Ha & Hl & Hr) Hnd Hp Hin.
  apply NoDup_app in Hnd as (Hndl & Hlr & Hndr).
  apply NoDup_cons in Hndr as (Har & Hndr).
  rewrite !root_ptr_update_tree.
  apply elem_of_app in Hin as [Hin|Hin]; [|apply elem_of_cons in Hin as [->|Hin]].
  - assert (a ≠ p) by (intros ->; eapply Hlr; [done|set_solver]).
    assert (p ∉ ptrs r) by (intros ?; eapply Hlr; [done|set_solver]).
    rewrite bool_decide_eq_false_2 by done. rewrite lookup_insert_ne by done.
    split_and!; [done|by apply IHl|].
    rewrite update_tree_absent by done. eapply is_tree_frame; [done|].
    intros b Hb. rewrite lookup_insert_ne; [done|]. by intros ->.
  - assert (a ∉ ptrs l) by (intros ?; eapply Hlr; [done|set_solver]).
    rewrite bool_decide_eq_true_2 by done. rewrite lookup_insert_eq.
    rewrite Ha in Hp. injection Hp as <-. simpl.
    rewrite !update_tree_absent by done.
    split_and!; [done| |]; (eapply is_tree_frame; [done|]);
      intros b Hb; (rewrite lookup_insert_ne; [done|]); by intros ->.
  - assert (a ≠ p) by (by intros ->).
    assert (p ∉ ptrs l) by (intros ?; eapply Hlr; [done|set_solver]).
    rewrite bool_decide_eq_false_2 by done. rewrite lookup_insert_ne by done.
    split_and!; [done| |by apply IHr].
    rewrite update_tree_absent by done. eapply is_tree_frame; [done|].
    intros b Hb. rewrite lookup_insert_ne; [done|]. by intros ->.
Qed.

Lemma store_spec w this t p n x :
  wf lt w this t → nodes w !! p = Some n → p ∈ ptrs t →
  ∃ w', store p x w = Ok tt w' ∧ wf lt w' this (update_tree p x t)
        ∧ objects w' = objects w
        ∧ nodes w' !! p
          = Some (mkTreeNode (key n, x) (parent n) (leftChild n) (rightChild n) (height n)).
Proof.
  intros (Hobj & Ht & Hnd & Hb) Hn Hp. unfold store. mrun.
  erewrite set_node_Ok by done. eexists. split; [done|]. simpl.
  split; [|split; [done|by rewrite lookup_insert_eq]].
  split; [|split; [|split]]; simpl.
  - by rewrite root_ptr_update_tree.
  - by apply is_tree_update.
  - by rewrite ptrs_update_tree.
  - by apply bst_update_tree.
Qed.

End heap.

#[local] Hint Resolve node_at_Some this_map_Some : monad.

(** ** Insertion by [operator[]] *)
Section insertion.
Context {K V : Type} `{!EqDecision K, !EqDecision V}.
Context (lt : relation K) `{!RelDecision lt}.
Variable default_value : V.

Local Abbreviation world := (@world K V).
Local Abbreviation tree := (@tree K V).
Implicit Types (w : world) (t : tree) (h : gmap node_pointer (@TreeNode K V)).

Lemma root_ptr_insert_tree a k t :
  t ≠ Leaf → root_ptr (insert_tree lt default_value a k t) = root_ptr t.
Proof. destruct t; [done|]. intros _. simpl. by repeat case_bool_decide. Qed.

Lemma insert_below w this k s par t :
  let a := fresh (dom (nodes w)) in
  let ip := insertion_point lt k s par t in
  is_tree (nodes w) par t → NoDup (ptrs t) → t ≠ Leaf → lookup_tree lt k t = None →
  ∃ w', write_slot this ip.1 (Some a)
          (mkWorld (<[a := mkTreeNode (k, default_value) ip.2 None None 0]> (nodes w)) (objects w))
        = Ok tt w'
    ∧ objects w' = objects w
    ∧ is_tree (nodes w') par (insert_tree lt default_value a k t)
    ∧ (∀ b, b ≠ a → b ∉ ptrs t → nodes w' !! b = nodes w !! b)
    ∧ ∃ n, nodes w' !! a = Some n ∧ val n = (k, default_value).
Proof.
  intros a. simpl. revert s par.
  induction t as [|l IHl a0 kv r IHr]; intros s par Ht Hnd Hne Hlook; [done|].
  simpl in *. destruct Ht as (Ha0 & Hl & Hr).
  apply NoDup_app in Hnd as (Hndl & Hlr & Hndr).
  apply NoDup_cons in Hndr as (Ha0r & Hndr).
  assert (Hfresh : nodes w !! a = None) by apply fresh_node_None.
  assert (Haa0 : a ≠ a0) by (intros ->; congruence).
  assert (Ha0l : a0 ∉ ptrs l) by (intros Hin; eapply Hlr; [exact Hin|set_solver]).
  assert (Hal : ∀ b, b ∈ ptrs l → a ≠ b).
  { intros b Hb <-. destruct (is_tree_allocated _ _ _ _ Hl Hb). congruence. }
  assert (Har : ∀ b, b ∈ ptrs r → a ≠ b).
  { intros b Hb <-. destruct (is_tree_allocated _ _ _ _ Hr Hb). congruence. }
  repeat case_bool_decide; try done.
  - (* to the left *)
    destruct (decide (l = Leaf)) as [->|Hl'].
    + clear IHl IHr. cbn [insertion_point fst snd].
      eexists. split.
      { eapply write_slot_left. simpl. rewrite lookup_insert_ne; [exact Ha0|done]. }
      simpl. split; [done|]. split_and!.
      * by rewrite lookup_insert_eq.
      * rewrite lookup_insert_ne, lookup_insert_eq; done.
      * done.
      * done.
      * eapply is_tree_frame; [exact Hr|]. intros b Hb.
        rewrite !lookup_insert_ne; [done|by apply Har|by intros ->].
      * intros b Hb1 Hb2. rewrite !lookup_insert_ne; [done|done|set_solver].
      * rewrite lookup_insert_ne, lookup_insert_eq; [|done]. by eexists.
    + destruct (IHl (leftChild_slot a0) (Some a0) Hl Hndl Hl' Hlook)
        as (w' & Hrun & Hobj & Ht' & Hframe & Hnew).
      exists w'. simpl. split_and!; try done.
      * rewrite Hframe; [|done|done]. by rewrite root_ptr_insert_tree.
      * eapply is_tree_frame; [exact Hr|]. intros b Hb.
        apply Hframe; [by apply not_eq_sym, Har|].
        intros Hbl. eapply Hlr; [exact Hbl|set_solver].
      * intros b Hb1 Hb2. apply Hframe; [done|set_solver].
  - (* to the right *)
    destruct (decide (r = Leaf)) as [->|Hr'].
    + clear IHl IHr. cbn [insertion_point fst snd].
      eexists. split.
      { eapply write_slot_right. simpl. rewrite lookup_insert_ne; [exact Ha0|done]. }
      simpl. split; [done|]. split_and!.
      * by rewrite lookup_insert_eq.
      * eapply is_tree_frame; [exact Hl|]. intros b Hb.
        rewrite !lookup_insert_ne; [done|by apply Hal|by intros ->].
      * rewrite lookup_insert_ne, lookup_insert_eq; done.
      * done.
      * done.
      * intros b Hb1 Hb2. rewrite !lookup_insert_ne; [done|done|set_solver].
      * rewrite lookup_insert_ne, lookup_insert_eq; [|done]. by eexists.
    + destruct (IHr (rightChild_slot a0) (Some a0) Hr Hndr Hr' Hlook)
        as (w' & Hrun & Hobj & Ht' & Hframe & Hnew).
      exists w'. simpl. split_and!; try done.
      * rewrite Hframe; [|done|done]. by rewrite root_ptr_insert_tree.
      * eapply is_tree_frame; [exact Hl|]. intros b Hb.
        apply Hframe; [by apply not_eq_sym, Hal|].
        intros Hbr. eapply Hlr; [exact Hb|set_solver].
      * intros b Hb1 Hb2. apply Hframe; [done|set_solver].
Qed.

Lemma keys_insert_tree a k t x :
  x ∈ keys (insert_tree lt default_value a k t) ↔ x = k ∨ x ∈ keys t.
Proof.
  unfold keys. induction t as [|l IHl a0 kv r IHr]; simpl.
  - set_solver.
  - repeat case_bool_decide; simpl; rewrite ?fmap_app, ?fmap_cons in *.
    + rewrite !elem_of_app, !elem_of_cons, IHl. naive_solver.
    + rewrite !elem_of_app, !elem_of_cons, IHr. naive_solver.
    + rewrite !elem_of_app, !elem_of_cons.
      assert (kv.1 = k) by (by destruct (decide (kv.1 = k))). naive_solver.
Qed.

Lemma ptrs_insert_tree a k t :
  lookup_tree lt k t = None →
  ptrs (insert_tree lt default_value a k t) ≡ₚ a :: ptrs t.
Proof.
  induction t as [|l IHl a0 kv r IHr]; simpl; [done|].
  intros Hlook. repeat case_bool_decide; simpl; try done.
  - rewrite IHl by done. done.
  - rewrite IHr by done. rewrite <- !Permutation_middle. apply Permutation_swap.
Qed.

Lemma entries_insert_tree a k t :
  lookup_tree lt k t = None →
  entries (insert_tree lt default_value a k t) ≡ₚ (k, default_value) :: entries t.
Proof.
  induction t as [|l IHl a0 kv r IHr]; simpl; [done|].
  intros Hlook. repeat case_bool_decide; simpl; try done.
  - rewrite IHl by done. done.
  - rewrite IHr by done. rewrite <- !Permutation_middle. apply Permutation_swap.
Qed.

Lemma lookup_insert_tree_eq a k t :
  lookup_tree lt k t = None →
  lookup_tree lt k (insert_tree lt default_value a k t) = Some a.
Proof.
  induction t as [|l IHl a0 kv r IHr]; simpl.
  - intros _. by rewrite bool_decide_eq_false_2 by (by intros []).
  - intros Hlook. repeat case_bool_decide; simpl; try done.
    + rewrite bool_decide_eq_true_2, bool_decide_eq_true_2 by done. by apply IHl.
    + rewrite bool_decide_eq_true_2, bool_decide_eq_false_2 by done. by apply IHr.
Qed.

Lemma operator_index_found w this t k p :
  wf lt w this t → lookup_tree lt k t = Some p →
  operator_index lt default_value this k w = Ok p w.
Proof.
  intros ([sz Hobj] & Ht & Hnd & Hb) Hlook.
  unfold operator_index. mrun. destruct t as [|l a kv r]; [done|]. cbn [root root_ptr].
  assert (Hroot : read_slot this root_slot w = Ok (root_ptr (Node l a kv r)) w).
  { by rewrite (read_slot_root _ _ _ Hobj). }
  mrun. erewrite bind_Ok; last first.
  { eapply index_loop_spec; [exact Ht|exact Hroot|]. by eapply tree_height_bound. }
  erewrite bind_Ok; [|by eapply insertion_point_read].
  by rewrite Hlook.
Qed.

End insertion.

(** ** Lookups in a search tree *)
Section search.
Context {K V : Type} `{!EqDecision K, !EqDecision V}.
Context (lt : relation K) `{!RelDecision lt, !StrictOrder lt}.

Local Abbreviation world := (@world K V).
Local Abbreviation tree := (@tree K V).
Implicit Types (w : world) (t : tree) (h : gmap node_pointer (@TreeNode K V)).

Lemma lookup_tree_bst h par t k v :
  is_tree h par t → bst lt t → (k, v) ∈ entries t →
  ∃ a, lookup_tree lt k t = Some a ∧ a ∈ ptrs t
       ∧ ∃ n, h !! a = Some n ∧ val n = (k, v).
Proof.
  revert par. induction t as [|l IHl a0 kv r IHr]; simpl; [set_solver|].
  intros par (Ha0 & Hl & Hr) (Hkl & Hkr & Hbl & Hbr) Hin.
  apply elem_of_app in Hin as [Hin|Hin]; [|apply elem_of_cons in Hin as [<-|Hin]].
  - assert (lt k kv.1) as Hlt.
    { eapply Forall_forall in Hkl; [exact Hkl|]. unfold keys.
      by apply (list_elem_of_fmap_2 fst _ (k, v)). }
    rewrite bool_decide_eq_true_2, bool_decide_eq_true_2; [|done|].
    + destruct (IHl _ Hl Hbl Hin) as (a & ? & ? & ?). exists a. set_solver.
    + intros Heq. rewrite Heq in Hlt. exact (StrictOrder_Irreflexive _ Hlt).
  - simpl. rewrite bool_decide_eq_false_2 by (by intros []).
    exists a0. split; [done|]. split; [set_solver|]. by eexists.
  - assert (lt kv.1 k) as Hlt.
    { eapply Forall_forall in Hkr; [exact Hkr|]. unfold keys.
      by apply (list_elem_of_fmap_2 fst _ (k, v)). }
    rewrite bool_decide_eq_true_2, bool_decide_eq_false_2.
    + destruct (IHr _ Hr Hbr Hin) as (a & ? & ? & ?). exists a. set_solver.
    + intros Hlt'. apply (StrictOrder_Irreflexive k). by etrans.
    + intros Heq. rewrite Heq in Hlt. exact (StrictOrder_Irreflexive _ Hlt).
Qed.

Lemma valueOf_present w this t k v :
  wf lt w this t → (k, v) ∈ entries t → valueOf lt this k w = Ok v w.
Proof.
  intros Hwf Hin. pose proof Hwf as (_ & Ht & _ & Hb).
  destruct (lookup_tree_bst _ _ _ _ _ Ht Hb Hin) as (a & Hlook & _ & n & Hn & Hval).
  erewrite valueOf_lookup; [|done..]. unfold value. by rewrite Hval.
Qed.

Lemma bst_sorted t : bst lt t → StronglySorted lt (keys t).
Proof.
  unfold keys. induction t as [|l IHl a kv r IHr]; simpl; [constructor|].
  intros (Hl & Hr & Hbl & Hbr). rewrite fmap_app, fmap_cons.
  apply StronglySorted_app_2; [|by apply IHl|].
  - intros x1 x2 Hx1 [->|Hx2]%elem_of_cons.
    + by eapply Forall_forall in Hl.
    + etrans; [by eapply Forall_forall in Hl|by eapply Forall_forall in Hr].
  - apply StronglySorted_cons. split; [done|by apply IHr].
Qed.

End search.

(** ** What needs the order on keys to be strict and total *)
Section order.
Context {K V : Type} `{!EqDecision K, !EqDecision V}.
Context (lt : relation K) `{!RelDecision lt}.
Context `{!StrictOrder lt, !Trichotomy lt}.
Variable default_value : V.

Local Abbreviation world := (@world K V).
Local Abbreviation tree := (@tree K V).
Implicit Types (w : world) (t : tree) (h : gmap node_pointer (@TreeNode K V)).

Lemma bst_insert_tree a k t :
  bst lt t → bst lt (insert_tree lt default_value a k t).
Proof.
  induction t as [|l IHl a0 kv r IHr]; simpl.
  - intros _. split_and!; by try apply Forall_nil.
  - intros (Hl & Hr & Hbl & Hbr). repeat case_bool_decide; simpl; [| |done].
    + split_and!; try done; [|by apply IHl].
      apply Forall_forall. intros x [->|Hx]%(keys_insert_tree lt default_value); [done|].
      by eapply Forall_forall in Hl.
    + split_and!; try done; [|by apply IHr].
      apply Forall_forall. intros x [->|Hx]%(keys_insert_tree lt default_value).
      * destruct (trichotomy lt kv.1 k) as [?|[?|?]]; done.
      * by eapply Forall_forall in Hr.
Qed.

Lemma operator_index_new w this t k sz :
  wf lt w this t → objects w !! this = Some (mkTreeMap (root_ptr t) sz) →
  lookup_tree lt k t = None →
  ∃ a w', operator_index lt default_value this k w = Ok a w'
    ∧ (a ∉ ptrs t)
    ∧ wf lt w' this (insert_tree lt default_value a k t)
    ∧ objects w'
      = <[this := mkTreeMap (root_ptr (insert_tree lt default_value a k t))
                            (size_t_wrap (sz + 1))]> (objects w)
    ∧ (∃ n, nodes w' !! a = Some n ∧ val n = (k, default_value))
    ∧ (∀ b, b ≠ a → b ∉ ptrs t → nodes w' !! b = nodes w !! b)
    ∧ nodes w !! a = None.
Proof.
  intros (_ & Ht & Hnd & Hb) Hobj Hlook.
  set (a := fresh (dom (nodes w))).
  assert (Hfresh : nodes w !! a = None) by apply fresh_node_None.
  assert (Hat : a ∉ ptrs t).
  { intros Hin. destruct (is_tree_allocated _ _ _ _ Ht Hin). congruence. }
  assert (Hnd' : NoDup (ptrs (insert_tree lt default_value a k t))).
  { rewrite ptrs_insert_tree by done. by apply NoDup_cons. }
  exists a. unfold operator_index. mrun.
  destruct t as [|l a0 kv r]; cbn [root root_ptr].
  - erewrite bind_Ok; [|apply new_node_Ok]. fold a.
    erewrite bind_Ok; [|by eapply set_root_Ok].
    erewrite bind_Ok; [|apply this_map_Some; simpl; apply lookup_insert_eq].
    erewrite bind_Ok; [|eapply set_size_Ok; simpl; apply lookup_insert_eq].
    eexists. split; [done|]. simpl. split; [done|]. split; [|split; [|split]].
    + split_and!; simpl; try done.
      * eexists. by rewrite lookup_insert_eq.
      * by rewrite lookup_insert_eq.
    + by rewrite insert_insert_eq.
    + rewrite lookup_insert_eq. by eexists.
    + split; [|done]. intros b Hb1 _. by rewrite lookup_insert_ne.
  - assert (Hroot : read_slot this root_slot w = Ok (root_ptr (Node l a0 kv r)) w).
    { by rewrite (read_slot_root _ _ _ Hobj). }
    mrun. erewrite bind_Ok; last first.
    { eapply index_loop_spec; [exact Ht|exact Hroot|]. by eapply tree_height_bound. }
    erewrite bind_Ok; [|by eapply insertion_point_read].
    rewrite Hlook.
    destruct (insert_below lt default_value w this k root_slot None (Node l a0 kv r) Ht Hnd)
      as (w' & Hwrite & Hobj' & Ht' & Hframe & Hnew); [done|done|].
    erewrite bind_Ok; [|apply new_node_Ok]. fold a.
    erewrite bind_Ok; [|exact Hwrite].
    erewrite bind_Ok; [|apply this_map_Some; rewrite Hobj'; exact Hobj].
    erewrite bind_Ok; [|eapply set_size_Ok; rewrite Hobj'; exact Hobj].
    eexists. split; [done|]. split; [done|].
    cbn [objects nodes]. split; [|split; [|split]].
    + split; [|split; [|split]]; cbn [objects nodes].
      * eexists. rewrite lookup_insert_eq, root_ptr_insert_tree by done. done.
      * done.
      * done.
      * by apply bst_insert_tree.
    + rewrite Hobj', root_ptr_insert_tree by done. done.
    + done.
    + done.
Qed.

Lemma insert_keys_spec w this t ks :
  wf lt w this t →
  ∃ w' t', insert_keys lt default_value this ks w = Ok tt w' ∧ wf lt w' this t'
           ∧ ∀ k, k ∈ keys t' ↔ k ∈ ks ∨ k ∈ keys t.
Proof.
  revert w t. induction ks as [|k ks IH]; intros w t Hwf; simpl.
  - exists w, t. split; [done|]. split; [done|]. set_solver.
  - destruct (lookup_tree lt k t) as [p|] eqn:Hlook.
    + erewrite bind_Ok; [|by eapply operator_index_found].
      destruct (IH w t Hwf) as (w' & t' & Hrun & Hwf' & Hkeys).
      exists w', t'. split; [done|]. split; [done|]. intros k'. rewrite Hkeys.
      destruct Hwf as (_ & Ht & _). pose proof (lookup_tree_keys lt _ _ _ _ _ Ht Hlook).
      set_solver.
    + destruct Hwf as ([sz Hobj] & Hrest).
      destruct (operator_index_new w this t k sz) as (a & w1 & Hrun1 & _ & Hwf1 & _);
        [by split; [eexists|]|done|done|].
      erewrite bind_Ok; [|exact Hrun1].
      destruct (IH w1 _ Hwf1) as (w' & t' & Hrun & Hwf' & Hkeys).
      exists w', t'. split; [done|]. split; [done|]. intros k'.
      rewrite Hkeys, keys_insert_tree. set_solver.
Qed.

Lemma operator_index_spec w this t k sz :
  wf lt w this t → objects w !! this = Some (mkTreeMap (root_ptr t) sz) →
  ∃ p w' t' n,
    operator_index lt default_value this k w = Ok p w'
    ∧ wf lt w' this t'
    ∧ p ∈ ptrs t' ∧ nodes w' !! p = Some n ∧ key n = k
    ∧ lookup_tree lt k t' = Some p
    ∧ (k ∉ keys t →
         value n = default_value
         ∧ objects w' !! this = Some (mkTreeMap (root_ptr t') (size_t_wrap (sz + 1)))
         ∧ entries t' ≡ₚ (k, default_value) :: entries t)
    ∧ (k ∈ keys t → w' = w ∧ t' = t).
Proof.
  intros Hwf Hobj. pose proof Hwf as (_ & Ht & Hnd & Hb).
  destruct (lookup_tree lt k t) as [p|] eqn:Hlook.
  - destruct (lookup_tree_Some lt _ _ _ _ _ Ht Hlook) as (Hp & n & Hn & Hkey & Hval).
    exists p, w, t, n. split; [by eapply operator_index_found|].
    split_and!; try done. intros Hk. destruct Hk. by eapply lookup_tree_keys.
  - destruct (operator_index_new w this t k sz Hwf Hobj Hlook)
      as (a & w' & Hrun & Hat & Hwf' & Hobj' & (n & Hn & Hval) & _).
    exists a, w', (insert_tree lt default_value a k t), n.
    split; [done|]. split; [done|]. split; [|split; [done|split; [|split; [|split]]]].
    + rewrite ptrs_insert_tree by done. set_solver.
    + unfold key. by rewrite Hval.
    + by apply lookup_insert_tree_eq.
    + intros _. split; [unfold value; by rewrite Hval|].
      split; [by rewrite Hobj', lookup_insert_eq|by apply entries_insert_tree].
    + intros (kv & Hkv & Hin)%list_elem_of_fmap. destruct kv as [k' v]. simpl in Hkv. subst k'.
      destruct (lookup_tree_bst lt _ _ _ _ _ Ht Hb Hin) as (? & ? & _). congruence.
Qed.

End order.

(** ** Removal: [remove] puts a branch in the place of the node *)
Section removal.
Context {K V : Type} `{!EqDecision K, !EqDecision V}.
Context (lt : relation K) `{!RelDecision lt}.

Local Abbreviation world := (@world K V).
Local Abbreviation tree := (@tree K V).
Implicit Types (w : world) (t : tree) (h : gmap node_pointer (@TreeNode K V)).

Lemma root_ptr_Leaf t : root_ptr t = None ↔ t = Leaf.
Proof. by destruct t. Qed.

Lemma root_ptr_in t a : root_ptr t = Some a → a ∈ ptrs t.
Proof. destruct t; [done|]. intros [= ->]. simpl. set_solver. Qed.

Lemma subtree_root a t s : subtree a t = Some s → ∃ l kv r, s = Node l a kv r.
Proof.
  induction t as [|l IHl b kv r IHr]; simpl; [done|].
  case_bool_decide as Hb; [intros [= <-]; subst; eauto|].
  destruct (subtree a l); [intros [= <-]; eauto|done].
Qed.

Lemma subtree_None a t : a ∉ ptrs t → subtree a t = None.
Proof.
  induction t as [|l IHl b kv r IHr]; simpl; [done|]. intros Ha.
  rewrite bool_decide_eq_false_2 by set_solver.
  rewrite IHl by set_solver. apply IHr. set_solver.
Qed.

Lemma subtree_is_Some a t : a ∈ ptrs t → is_Some (subtree a t).
Proof.
  induction t as [|l IHl b kv r IHr]; simpl; [set_solver|]. intros Ha.
  case_bool_decide; [done|].
  destruct (subtree a l) eqn:E; [done|].
  apply IHr. apply elem_of_app in Ha as [Ha|Ha]; [|set_solver].
  destruct (IHl Ha) as [? ?]. done.
Qed.

Lemma remove_tree_absent a t : a ∉ ptrs t → remove_tree a t = t.
Proof.
  induction t as [|l IHl b kv r IHr]; simpl; [done|]. intros Ha.
  rewrite bool_decide_eq_false_2 by set_solver.
  rewrite IHl, IHr by set_solver. done.
Qed.

Lemma root_ptr_remove_tree a t :
  root_ptr t ≠ Some a → root_ptr (remove_tree a t) = root_ptr t.
Proof.
  destruct t as [|l b kv r]; simpl; [done|]. intros Hb.
  rewrite bool_decide_eq_false_2; [done|congruence].
Qed.

(** The node at [a] in a tree: its fields, its subtrees and its parent. *)
Lemma is_tree_subtree h par t a l kv r :
  is_tree h par t → NoDup (ptrs t) → subtree a t = Some (Node l a kv r) →
  ∃ pa, h !! a = Some (mkTreeNode kv pa (root_ptr l) (root_ptr r) 0)
    ∧ is_tree h (Some a) l ∧ is_tree h (Some a) r
    ∧ NoDup (ptrs l ++ a :: ptrs r)
    ∧ (∀ c, c ∈ ptrs l ++ a :: ptrs r → c ∈ ptrs t)
    ∧ ((root_ptr t = Some a ∧ pa = par)
       ∨ (root_ptr t ≠ Some a
          ∧ ∃ p pn, pa = Some p ∧ p ∈ ptrs t ∧ (p ∉ ptrs l ++ a :: ptrs r)
                    ∧ h !! p = Some pn
                    ∧ (leftChild pn = Some a
                       ∨ (leftChild pn ≠ Some a ∧ rightChild pn = Some a)))).
Proof.
  revert par. induction t as [|l0 IHl a0 kv0 r0 IHr]; intros par Ht Hnd; simpl; [done|].
  simpl in Ht, Hnd. destruct Ht as (Ha0 & Hl & Hr).
  pose proof Hnd as Hnd0.
  apply NoDup_app in Hnd as (Hndl & Hlr & Hndr).
  apply NoDup_cons in Hndr as (Ha0r & Hndr).
  assert (Ha0l : a0 ∉ ptrs l0) by (intros Hin; eapply Hlr; [exact Hin|set_solver]).
  case_bool_decide as Haa.
  - subst a0. intros [= -> -> ->]. exists par. split_and!; try done. by left.
  - destruct (subtree a l0) as [s|] eqn:El.
    + intros [= ->].
      destruct (IHl _ Hl Hndl eq_refl) as (pa & Ha & Htl & Htr & Hnd' & Hsub & Hpar).
      exists pa. split_and!; try done.
      { intros c Hc. apply Hsub in Hc. set_solver. }
      right. split; [congruence|].
      destruct Hpar as [[Hroot ->]|(Hroot & p & pn & -> & Hp & Hp' & Hpn & Hside)].
      * exists a0, (mkTreeNode kv0 par (root_ptr l0) (root_ptr r0) 0).
        split_and!; try done; [set_solver| |by left].
        intros Hin. apply Hsub in Hin. done.
      * exists p, pn. split_and!; try done. set_solver.
    + intros Es.
      destruct (IHr _ Hr Hndr Es) as (pa & Ha & Htl & Htr & Hnd' & Hsub & Hpar).
      assert (a ∉ ptrs l0) as Hal.
      { intros Hin. destruct (subtree_is_Some _ _ Hin) as [? ?]. congruence. }
      exists pa. split_and!; try done.
      { intros c Hc. apply Hsub in Hc. set_solver. }
      right. split; [congruence|].
      destruct Hpar as [[Hroot ->]|(Hroot & p & pn & -> & Hp & Hp' & Hpn & Hside)].
      * exists a0, (mkTreeNode kv0 par (root_ptr l0) (root_ptr r0) 0).
        split_and!; try done; [set_solver| |].
        { intros Hin. apply Hsub in Hin. done. }
        right. simpl. split; [|done]. intros Hl0. by apply root_ptr_in in Hl0.
      * exists p, pn. split_and!; try done. set_solver.
Qed.

(** A subtree below the removed node, put in its place. *)
Lemma is_tree_reparent h h' par par' t :
  is_tree h par t → NoDup (ptrs t) →
  (∀ a n, root_ptr t = Some a → h !! a = Some n →
          h' !! a = Some (mkTreeNode (val n) par' (leftChild n) (rightChild n) (height n))) →
  (∀ c, c ∈ ptrs t → Some c ≠ root_ptr t → h' !! c = h !! c) →
  is_tree h' par' t.
Proof.
  destruct t as [|l a kv r]; simpl; [done|].
  intros (Ha & Hl & Hr) Hnd Hroot Hframe.
  apply NoDup_app in Hnd as (Hndl & Hlr & Hndr).
  apply NoDup_cons in Hndr as (Har & Hndr).
  split_and!.
  - by rewrite (Hroot a _ eq_refl Ha).
  - eapply is_tree_frame; [exact Hl|]. intros c Hc. apply Hframe; [set_solver|].
    intros [= ->]. eapply Hlr; [exact Hc|set_solver].
  - eapply is_tree_frame; [exact Hr|]. intros c Hc. apply Hframe; [set_solver|].
    by intros [= ->].
Qed.

(** The heap [h'] after [remove] of the node at [a] holds [remove_tree a t]:
    [h'] is [h] but for the branch, whose parent is now the parent of [a],
    and for that parent, whose child is now the branch. *)
Lemma is_tree_remove h h' par t a l kv r pa :
  let branch := root_ptr (if bool_decide (r = Leaf) then l else r) in
  is_tree h par t → NoDup (ptrs t) → (∀ p, par = Some p → p ∉ ptrs t) →
  subtree a t = Some (Node l a kv r) →
  h !! a = Some (mkTreeNode kv pa (root_ptr l) (root_ptr r) 0) →
  (∀ c, c ≠ a → Some c ≠ branch → Some c ≠ pa → h' !! c = h !! c) →
  (∀ b bn, branch = Some b → h !! b = Some bn →
           h' !! b = Some (mkTreeNode (val bn) pa (leftChild bn) (rightChild bn) (height bn))) →
  (∀ p pn, pa = Some p → p ∈ ptrs t → h !! p = Some pn →
           h' !! p = Some (if bool_decide (leftChild pn = Some a)
                           then mkTreeNode (val pn) (parent pn) branch (rightChild pn) (height pn)
                           else mkTreeNode (val pn) (parent pn) (leftChild pn) branch (height pn))) →
  is_tree h' par (remove_tree a t).
Proof.
  intros branch. revert par.
  induction t as [|l0 IHl a0 kv0 r0 IHr]; intros par Ht Hnd Hpar Hsub Ha Hframe Hb Hp; [done|].
  pose proof (is_tree_subtree _ _ _ _ _ _ _ Ht Hnd Hsub)
    as (pa' & Ha' & Htl & Htr & Hnds & Hin & _).
  rewrite Ha in Ha'. injection Ha' as <-.
  assert (∀ b, branch = Some b → b ∈ ptrs l ++ ptrs r) as Hbranch.
  { intros b Hbr. unfold branch in Hbr. apply root_ptr_in in Hbr.
    case_bool_decide; set_solver. }
  assert (∀ b, branch = Some b → b ≠ a) as Hbranch_a.
  { intros b Hbr%Hbranch ->. apply NoDup_app in Hnds as (_ & Hd & Hnd2).
    apply NoDup_cons in Hnd2 as (? & _). apply elem_of_app in Hbr as [Hbr|Hbr]; [|done].
    eapply Hd; [exact Hbr|set_solver]. }
  simpl in Ht, Hnd, Hsub |- *. destruct Ht as (Ha0 & Hl & Hr).
  apply NoDup_app in Hnd as (Hndl & Hlr & Hndr).
  apply NoDup_cons in Hndr as (Ha0r & Hndr).
  assert (Ha0l : a0 ∉ ptrs l0) by (intros Hi; eapply Hlr; [exact Hi|set_solver]).
  case_bool_decide as Haa.
  - (* the node itself *)
    subst a0. injection Hsub as -> -> ->.
    rewrite Ha in Ha0. injection Ha0 as ->.
    assert (∀ c, c ∈ ptrs l ++ ptrs r → c ≠ a ∧ Some c ≠ par) as Hc.
    { intros c Hc. split; [set_solver|]. intros <-.
      eapply Hpar; [done|]. simpl. set_solver. }
    subst branch. clear Hbranch Hbranch_a Hp.
    destruct (decide (r = Leaf)) as [Hr0|Hr0].
    + rewrite !bool_decide_eq_true_2 in Hframe, Hb |- * by done.
      eapply is_tree_reparent; [exact Hl|done| |].
      * intros b bn Hroot Hbn. by apply Hb.
      * intros c Hcin Hcr. apply Hframe; [|done|]; apply Hc; set_solver.
    + rewrite !bool_decide_eq_false_2 in Hframe, Hb |- * by done.
      eapply is_tree_reparent; [exact Hr|done| |].
      * intros b bn Hroot Hbn. by apply Hb.
      * intros c Hcin Hcr. apply Hframe; [|done|]; apply Hc; set_solver.
  - destruct (subtree a l0) as [s|] eqn:El.
    + (* in the left subtree *)
      injection Hsub as ->.
      assert (a ∈ ptrs l0) as Hal.
      { destruct (decide (a ∈ ptrs l0)); [done|]. by rewrite subtree_None in El. }
      assert (a ∉ ptrs r0) as Har by (intros Hi; eapply Hlr; [exact Hal|set_solver]).
      rewrite (remove_tree_absent a r0) by done.
      pose proof (is_tree_subtree _ _ _ _ _ _ _ Hl Hndl El)
        as (pa' & Ha' & _ & _ & _ & Hin' & Hcase).
      rewrite Ha in Ha'. injection Ha' as <-.
      assert (∀ b, branch = Some b → b ∈ ptrs l0) as Hbl.
      { intros b Hbr%Hbranch. apply Hin'. set_solver. }
      split_and!.
      * destruct Hcase as [[Hroot ->]|(Hroot & p & pn & -> & Hpin & _)].
        -- rewrite (Hp a0 _ eq_refl ltac:(set_solver) Ha0). simpl.
           rewrite bool_decide_eq_true_2 by done.
           destruct l0 as [|l1 a1 kv1 r1]; [done|]. simpl in Hroot, El |- *.
           injection Hroot as ->. rewrite bool_decide_eq_true_2 in El |- * by done.
           by injection El as -> -> ->.
        -- rewrite root_ptr_remove_tree by done.
           rewrite Hframe; [done|done| |].
           ++ intros Hbr. symmetry in Hbr. by apply Hbl in Hbr.
           ++ by intros [= <-].
      * apply IHl; try done.
        -- by intros p [= <-].
        -- intros p pn Hpa Hpin. apply Hp; [done|set_solver].
      * eapply is_tree_frame; [exact Hr|]. intros c Hc. apply Hframe.
        -- by intros ->.
        -- intros Hbr. symmetry in Hbr. apply Hbl in Hbr. eapply Hlr; [exact Hbr|set_solver].
        -- destruct Hcase as [[_ ->]|(_ & p & pn & -> & Hpin & _)]; intros [= <-];
             [done|]. eapply Hlr; [exact Hpin|set_solver].
    + (* in the right subtree *)
      assert (a ∉ ptrs l0) as Hal.
      { intros Hi. destruct (subtree_is_Some _ _ Hi) as [? ?]. congruence. }
      rewrite (remove_tree_absent a l0) by done.
      pose proof (is_tree_subtree _ _ _ _ _ _ _ Hr Hndr Hsub)
        as (pa' & Ha' & _ & _ & _ & Hin' & Hcase).
      rewrite Ha in Ha'. injection Ha' as <-.
      assert (∀ b, branch = Some b → b ∈ ptrs r0) as Hbr0.
      { intros b Hbr%Hbranch. apply Hin'. set_solver. }
      split_and!.
      * destruct Hcase as [[Hroot ->]|(Hroot & p & pn & -> & Hpin & _)].
        -- rewrite (Hp a0 _ eq_refl ltac:(set_solver) Ha0). simpl.
           rewrite bool_decide_eq_false_2.
           2:{ intros Hl0. by apply root_ptr_in in Hl0. }
           destruct r0 as [|l1 a1 kv1 r1]; [done|]. simpl in Hroot, Hsub |- *.
           injection Hroot as ->. rewrite bool_decide_eq_true_2 in Hsub |- * by done.
           by injection Hsub as -> -> ->.
        -- rewrite root_ptr_remove_tree by done.
           rewrite Hframe; [done|done| |].
           ++ intros Hbr. symmetry in Hbr. by apply Hbr0 in Hbr.
           ++ by intros [= <-].
      * eapply is_tree_frame; [exact Hl|]. intros c Hc. apply Hframe.
        -- by intros ->.
        -- intros Hbr. symmetry in Hbr. apply Hbr0 in Hbr. eapply Hlr; [exact Hc|set_solver].
        -- destruct Hcase as [[_ ->]|(_ & p & pn & -> & Hpin & _)]; intros [= <-];
             [done|]. eapply Hlr; [exact Hc|set_solver].
      * apply IHr; try done.
        -- by intros p [= <-].
        -- intros p pn Hpa Hpin. apply Hp; [done|set_solver].
Qed.

Lemma delete_node_Ok w a n :
  nodes w !! a = Some n →
  delete_node a w = Ok tt (mkWorld (delete a (nodes w)) (objects w)).
Proof. intros H. unfold delete_node. by mrun. Qed.

Lemma remove_at_spec w this t sz a l kv r :
  wf lt w this t → objects w !! this = Some (mkTreeMap (root_ptr t) sz) →
  subtree a t = Some (Node l a kv r) →
  ∃ w', remove_at this (mkConstIterator this (Some a)) w = Ok tt w'
    ∧ is_tree (nodes w') None (remove_tree a t)
    ∧ objects w' !! this
      = Some (mkTreeMap (root_ptr (remove_tree a t)) (size_t_wrap (sz - 1))).
Proof.
  intros (_ & Ht & Hnd & _) Hobj Hsub.
  pose proof (is_tree_subtree _ _ _ _ _ _ _ Ht Hnd Hsub)
    as (pa & Ha & Htl & Htr & Hnds & Hin & Hcase).
  unfold remove_at, cend. mrun. unfold iterator_eq. cbn [currentNode].
  rewrite bool_decide_eq_false_2 by done. mrun. cbn [parent leftChild rightChild].
  set (bt := if bool_decide (r = Leaf) then l else r).
  assert ((if bool_decide (root_ptr r = None) then root_ptr l else root_ptr r)
          = root_ptr bt) as ->.
  { unfold bt. destruct r; simpl; by repeat case_bool_decide. }
  assert (bool_decide (root_ptr l = None) && bool_decide (root_ptr r = None)
          = bool_decide (root_ptr bt = None)) as ->.
  { unfold bt. destruct l, r; simpl; by repeat case_bool_decide. }
  assert (∀ b, root_ptr bt = Some b → b ∈ ptrs l ++ ptrs r) as Hbt.
  { intros b Hb%root_ptr_in. unfold bt in Hb. case_bool_decide; set_solver. }
  assert (∀ b, root_ptr bt = Some b → b ≠ a ∧ is_Some (nodes w !! b)) as Hbt'.
  { intros b Hb%Hbt. apply NoDup_app in Hnds as (_ & Hd & Hnd2).
    apply NoDup_cons in Hnd2 as (? & _). split.
    - intros ->. apply elem_of_app in Hb as [Hb|Hb]; [|done].
      eapply Hd; [exact Hb|set_solver].
    - apply elem_of_app in Hb as [Hb|Hb];
        [by apply (is_tree_allocated _ _ _ _ Htl)|by apply (is_tree_allocated _ _ _ _ Htr)]. }
  assert (∃ h1,
    (if bool_decide (root_ptr bt = None) then ret tt
     else b <- deref (root_ptr bt) ;; bn <- node_at (root_ptr bt) ;;
          set_node b (mkTreeNode (val bn) pa (leftChild bn) (rightChild bn) (height bn))) w
    = Ok tt (mkWorld h1 (objects w))
    ∧ (∀ c, Some c ≠ root_ptr bt → h1 !! c = nodes w !! c)
    ∧ (∀ b bn, root_ptr bt = Some b → nodes w !! b = Some bn →
         h1 !! b = Some (mkTreeNode (val bn) pa (leftChild bn) (rightChild bn) (height bn))))
    as (h1 & Hrun1 & Hframe1 & Hb1).
  { destruct (root_ptr bt) as [b|] eqn:Hb.
    - destruct (Hbt' b eq_refl) as (_ & bn & Hbn).
      rewrite bool_decide_eq_false_2 by done. mrun.
      erewrite set_node_Ok by done. eexists. split; [done|]. simpl. split.
      + intros c Hc. rewrite lookup_insert_ne; [done|congruence].
      + intros ? ? [= <-] Hbn'. rewrite lookup_insert_eq. congruence.
    - exists (nodes w). rewrite bool_decide_eq_true_2 by done.
      split; [by destruct w|]. done. }
  assert (∀ s w2,
    write_slot this s (root_ptr bt) (mkWorld h1 (objects w)) = Ok tt w2 →
    (if bool_decide (root_ptr bt = None) then write_slot this s None
     else b <- deref (root_ptr bt) ;; bn <- node_at (root_ptr bt) ;;
          set_node b (mkTreeNode (val bn) pa (leftChild bn) (rightChild bn) (height bn)) ;;;
          write_slot this s (root_ptr bt)) w = Ok tt w2) as Hstep.
  { intros s w2 Hw. case_bool_decide as Hleaf.
    - injection Hrun1 as Hw1. rewrite <- Hw1, Hleaf in Hw. done.
    - rewrite <- Hw. rewrite <- (bind_Ok _ (λ _, write_slot this s (root_ptr bt)) _ _ _ Hrun1).
      unfold bind. destruct (deref (root_ptr bt) w); [|done..].
      by destruct (node_at (root_ptr bt) s0). }
  clear Hrun1.
  assert (nodes w !! a = Some (mkTreeNode kv pa (root_ptr l) (root_ptr r) 0)) as Ha' by done.
  destruct Hcase as [[Hroot ->]|(Hroot & p & pn & -> & Hp & Hp' & Hpn & Hside)].
  - (* the root *)
    erewrite bind_Ok; [|reflexivity].
    erewrite bind_Ok; [|apply Hstep; by eapply set_root_Ok].
    assert (h1 !! a = nodes w !! a) as Ha1.
    { apply Hframe1. intros Hb. symmetry in Hb. by apply Hbt' in Hb as [? _]. }
    erewrite bind_Ok; [|eapply delete_node_Ok; simpl; by rewrite Ha1].
    cbn [nodes objects size root].
    erewrite bind_Ok; [|apply this_map_Some; apply lookup_insert_eq].
    erewrite set_size_Ok; [|apply lookup_insert_eq].
    eexists. split; [done|]. cbn [nodes objects size root]. split.
    + eapply (is_tree_remove (nodes w)); try done.
      * intros c Hca Hcb _. fold bt in Hcb.
        rewrite lookup_delete_ne by done. by apply Hframe1.
      * intros b bn Hb Hbn. fold bt in Hb. destruct (Hbt' b Hb) as [Hba _].
        rewrite lookup_delete_ne by done. by apply Hb1.
    + rewrite lookup_insert_eq. f_equal. f_equal.
      destruct t as [|l0 a0 kv0 r0]; [done|]. simpl in Hroot, Hsub |- *.
      injection Hroot as ->. rewrite bool_decide_eq_true_2 in Hsub |- * by done.
      by injection Hsub as -> -> ->.
  - (* below a parent *)
    assert (p ≠ a) as Hpa by set_solver.
    assert (Some p ≠ root_ptr bt) as Hpb.
    { intros Hb. symmetry in Hb. apply Hbt in Hb. set_solver. }
    assert (h1 !! a = nodes w !! a) as Ha1.
    { apply Hframe1. intros Hb. symmetry in Hb. by apply Hbt' in Hb as [? _]. }
    assert (h1 !! p = Some pn) as Hp1 by (by rewrite Hframe1).
    mrun.
    assert (∃ pn',
      write_slot this (if bool_decide (leftChild pn = Some a)
                       then leftChild_slot p else rightChild_slot p)
        (root_ptr bt) (mkWorld h1 (objects w))
      = Ok tt (mkWorld (<[p := pn']> h1) (objects w))
      ∧ pn' = if bool_decide (leftChild pn = Some a)
              then mkTreeNode (val pn) (parent pn) (root_ptr bt) (rightChild pn) (height pn)
              else mkTreeNode (val pn) (parent pn) (leftChild pn) (root_ptr bt) (height pn))
      as (pn' & Hwrite & Hpn').
    { eexists. split; [|done]. destruct (bool_decide (leftChild pn = Some a)).
      - by erewrite write_slot_left.
      - by erewrite write_slot_right. }
    assert ((if bool_decide (leftChild pn = Some a)
             then ret (leftChild_slot p) else ret (rightChild_slot p)) w
            = Ok (if bool_decide (leftChild pn = Some a)
                  then leftChild_slot p else rightChild_slot p) w) as Hslot.
    { by destruct (bool_decide (leftChild pn = Some a)). }
    erewrite bind_Ok; [|exact Hslot].
    erewrite bind_Ok; [|apply Hstep; exact Hwrite].
    erewrite bind_Ok; [|eapply delete_node_Ok; simpl; rewrite lookup_insert_ne by done;
                        by rewrite Ha1].
    cbn [nodes objects size root]. mrun.
    erewrite set_size_Ok; [|done].
    eexists. split; [done|]. cbn [nodes objects size root]. split.
    + eapply (is_tree_remove (nodes w)); try done.
      * intros c Hca Hcb Hcp. fold bt in Hcb.
        rewrite lookup_delete_ne by done.
        rewrite lookup_insert_ne by congruence. by apply Hframe1.
      * intros b bn Hb Hbn. fold bt in Hb. destruct (Hbt' b Hb) as [Hba _].
        rewrite lookup_delete_ne by done.
        rewrite lookup_insert_ne by congruence. by apply Hb1.
      * intros p0 pn0 [= <-] _ Hpn0. fold bt. rewrite Hpn in Hpn0. injection Hpn0 as <-.
        rewrite lookup_delete_ne by done. rewrite lookup_insert_eq. by rewrite Hpn'.
    + rewrite lookup_insert_eq. by rewrite root_ptr_remove_tree.
Qed.

Lemma ptrs_remove_tree a t : ptrs (remove_tree a t) `sublist_of` ptrs t.
Proof.
  induction t as [|l IHl b kv r IHr]; simpl; [done|].
  repeat case_bool_decide.
  - by apply sublist_inserts_r.
  - by apply sublist_inserts_l, sublist_cons.
  - by apply sublist_app, sublist_skip.
Qed.

Lemma keys_remove_tree a t k : k ∈ keys (remove_tree a t) → k ∈ keys t.
Proof.
  unfold keys. induction t as [|l IHl b kv r IHr]; simpl; [done|].
  repeat case_bool_decide; rewrite ?fmap_app, ?fmap_cons; set_solver.
Qed.

Lemma bst_remove_tree a t : bst lt t → bst lt (remove_tree a t).
Proof.
  induction t as [|l IHl b kv r IHr]; simpl; [done|].
  intros (Hl & Hr & Hbl & Hbr). repeat case_bool_decide; try done.
  simpl. split_and!; [| |by apply IHl|by apply IHr].
  - apply Forall_forall. intros k Hk%keys_remove_tree. by eapply Forall_forall in Hl.
  - apply Forall_forall. intros k Hk%keys_remove_tree. by eapply Forall_forall in Hr.
Qed.

(** The pairs that [remove] takes away: the pair of the node, and with it
    the pairs of the subtree that does not become the branch. *)
Lemma entries_remove_tree a t l kv r :
  NoDup (ptrs t) → subtree a t = Some (Node l a kv r) →
  ∃ pre post,
    entries t = pre ++ entries l ++ kv :: entries r ++ post
    ∧ entries (remove_tree a t)
      = pre ++ entries (if bool_decide (r = Leaf) then l else r) ++ post.
Proof.
  induction t as [|l0 IHl a0 kv0 r0 IHr]; simpl; [done|]. intros Hnd.
  apply NoDup_app in Hnd as (Hndl & Hlr & Hndr).
  apply NoDup_cons in Hndr as (Ha0r & Hndr).
  destruct (decide (a0 = a)) as [->|Haa].
  - rewrite !(bool_decide_eq_true_2 (a = a)) by done.
    intros [= -> -> ->]. exists [], []. by rewrite !app_nil_r.
  - rewrite !(bool_decide_eq_false_2 (a0 = a)) by done.
    destruct (subtree a l0) as [s|] eqn:El.
    + intros [= ->]. destruct (IHl Hndl eq_refl) as (pre & post & E1 & E2).
      assert (a ∈ ptrs l0) as Hal.
      { destruct (decide (a ∈ ptrs l0)); [done|]. by rewrite subtree_None in El. }
      rewrite (remove_tree_absent a r0).
      2:{ intros Hi. eapply Hlr; [exact Hal|set_solver]. }
      exists pre, (post ++ kv0 :: entries r0). simpl. rewrite E1, E2.
      by rewrite <- !app_assoc, <- !app_comm_cons, <- !app_assoc.
    + intros Hsub. destruct (IHr Hndr Hsub) as (pre & post & E1 & E2).
      rewrite (remove_tree_absent a l0).
      2:{ intros Hi. destruct (subtree_is_Some _ _ Hi) as [? ?]. congruence. }
      exists (entries l0 ++ kv0 :: pre), post. simpl. rewrite E1, E2.
      by rewrite <- !app_assoc, <- !app_comm_cons.
Qed.
Lemma subtree_Some_in a t s : subtree a t = Some s → a ∈ ptrs t.
Proof.
  intros Hs. destruct (decide (a ∈ ptrs t)); [done|]. by rewrite subtree_None in Hs.
Qed.

Lemma keys_subtree t k :
  NoDup (ptrs t) → k ∈ keys t →
  ∃ a l kv r, subtree a t = Some (Node l a kv r) ∧ kv.1 = k.
Proof.
  unfold keys. induction t as [|l0 IHl a0 kv0 r0 IHr]; simpl; [set_solver|].
  intros Hnd. rewrite fmap_app, fmap_cons.
  apply NoDup_app in Hnd as (Hndl & Hlr & Hndr).
  apply NoDup_cons in Hndr as (Ha0r & Hndr).
  intros [Hk|[->|Hk]%elem_of_cons]%elem_of_app.
  - destruct (IHl Hndl Hk) as (a & l & kv & r & Hs & Hkv).
    exists a, l, kv, r. split; [|done].
    pose proof (subtree_Some_in _ _ _ Hs) as Hal.
    rewrite bool_decide_eq_false_2, Hs; [done|].
    intros ->. eapply Hlr; [exact Hal|set_solver].
  - exists a0, l0, kv0, r0. by rewrite bool_decide_eq_true_2.
  - destruct (IHr Hndr Hk) as (a & l & kv & r & Hs & Hkv).
    exists a, l, kv, r. split; [|done].
    pose proof (subtree_Some_in _ _ _ Hs) as Har.
    rewrite bool_decide_eq_false_2 by (by intros ->).
    rewrite subtree_None; [done|].
    intros Hal. eapply Hlr; [exact Hal|set_solver].
Qed.

End removal.

(** ** Removal in a search tree *)
Section removal_order.
Context {K V : Type} `{!EqDecision K, !EqDecision V}.
Context (lt : relation K) `{!RelDecision lt, !StrictOrder lt}.

Local Abbreviation world := (@world K V).
Local Abbreviation tree := (@tree K V).
Implicit Types (w : world) (t : tree) (h : gmap node_pointer (@TreeNode K V)).

Lemma subtree_entries a t l kv r :
  subtree a t = Some (Node l a kv r) → kv ∈ entries t.
Proof.
  induction t as [|l0 IHl a0 kv0 r0 IHr]; simpl; [done|].
  case_bool_decide; [subst a0; intros [= -> -> ->]; set_solver|].
  destruct (subtree a l0) as [s|]; [intros [= ->]|]; set_solver.
Qed.

Lemma lookup_tree_subtree a t l kv r :
  bst lt t → NoDup (ptrs t) → subtree a t = Some (Node l a kv r) →
  lookup_tree lt kv.1 t = Some a.
Proof.
  induction t as [|l0 IHl a0 kv0 r0 IHr]; simpl; [done|].
  intros (Hkl & Hkr & Hbl & Hbr) Hnd.
  apply NoDup_app in Hnd as (Hndl & Hlr & Hndr).
  apply NoDup_cons in Hndr as (Ha0r & Hndr).
  case_bool_decide as Haa.
  - subst a0. intros [= -> -> ->]. by rewrite bool_decide_eq_false_2 by (by intros []).
  - destruct (subtree a l0) as [s|] eqn:El.
    + intros [= ->]. pose proof (subtree_entries _ _ _ _ _ El) as Hin.
      assert (lt kv.1 kv0.1) as Hlt.
      { eapply Forall_forall in Hkl; [exact Hkl|]. by apply list_elem_of_fmap_2. }
      rewrite bool_decide_eq_true_2, bool_decide_eq_true_2; [by apply IHl|done|].
      intros Heq. rewrite Heq in Hlt. exact (StrictOrder_Irreflexive _ Hlt).
    + intros Hsub. pose proof (subtree_entries _ _ _ _ _ Hsub) as Hin.
      assert (lt kv0.1 kv.1) as Hlt.
      { eapply Forall_forall in Hkr; [exact Hkr|]. by apply list_elem_of_fmap_2. }
      rewrite bool_decide_eq_true_2, bool_decide_eq_false_2; [by apply IHr| |].
      * intros Hlt'. apply (StrictOrder_Irreflexive kv.1). by etrans.
      * intros Heq. rewrite Heq in Hlt. exact (StrictOrder_Irreflexive _ Hlt).
Qed.

Lemma remove_spec w this t sz a l kv r :
  wf lt w this t → objects w !! this = Some (mkTreeMap (root_ptr t) sz) →
  subtree a t = Some (Node l a kv r) →
  ∃ w', remove lt this kv.1 w = Ok tt w'
    ∧ wf lt w' this (remove_tree a t)
    ∧ objects w' !! this
      = Some (mkTreeMap (root_ptr (remove_tree a t)) (size_t_wrap (sz - 1))).
Proof.
  intros Hwf Hobj Hsub. pose proof Hwf as (_ & Ht & Hnd & Hb).
  destruct (remove_at_spec lt _ _ _ _ _ _ _ _ Hwf Hobj Hsub) as (w' & Hrun & Ht' & Hobj').
  exists w'. split; [|split; [|done]].
  - unfold remove. erewrite bind_Ok; [|by apply find_spec].
    by erewrite lookup_tree_subtree.
  - split; [by eexists|]. split; [done|]. split; [|by apply bst_remove_tree].
    eapply sublist_NoDup; [exact Hnd|apply ptrs_remove_tree].
Qed.

(** With two children the left subtree is lost. *)
Lemma remove_tree_loses_left a t l kv r k :
  bst lt t → NoDup (ptrs t) → subtree a t = Some (Node l a kv r) →
  r ≠ Leaf → k ∈ keys l → k ∈ keys t ∧ k ∉ keys (remove_tree a t).
Proof.
  intros Hb Hnd Hsub Hr Hk.
  destruct (entries_remove_tree a t l kv r Hnd Hsub) as (pre & post & Ht & Ht').
  pose proof (bst_sorted lt t Hb) as Hs.
  unfold keys in *. rewrite Ht' , bool_decide_eq_false_2 by done. rewrite Ht in Hs |- *.
  rewrite !fmap_app, ?fmap_cons, ?fmap_app in Hs |- *.
  split; [set_solver|]. rewrite !fmap_app.
  intros [Hin|[Hin|Hin]%elem_of_app]%elem_of_app.
  - apply (StrictOrder_Irreflexive k).
    eapply (StronglySorted_app_1_elem_of _ _ _ _ _ Hs); [done|set_solver].
  - apply StronglySorted_app_1_r in Hs.
    apply (StrictOrder_Irreflexive k).
    eapply (StronglySorted_app_1_elem_of _ _ _ _ _ Hs); [done|set_solver].
  - apply StronglySorted_app_1_r in Hs.
    apply (StrictOrder_Irreflexive k).
    eapply (StronglySorted_app_1_elem_of _ _ _ _ _ Hs); [done|set_solver].
Qed.
Lemma remove_tree_loses_key a t l kv r :
  bst lt t → NoDup (ptrs t) → subtree a t = Some (Node l a kv r) →
  ∀ k, k ∈ keys (remove_tree a t) → k ∈ keys t ∧ k ≠ kv.1.
Proof.
  intros Hb Hnd Hsub k Hk. split; [by eapply keys_remove_tree|]. intros ->.
  destruct (entries_remove_tree a t l kv r Hnd Hsub) as (pre & post & Ht & Ht').
  pose proof (bst_sorted lt t Hb) as Hs.
  unfold keys in *. rewrite Ht' in Hk. rewrite Ht in Hs.
  rewrite !fmap_app, ?fmap_cons, ?fmap_app in Hs.
  rewrite !fmap_app in Hk.
  apply (StrictOrder_Irreflexive kv.1).
  apply elem_of_app in Hk as [Hin|[Hin|Hin]%elem_of_app].
  - eapply (StronglySorted_app_1_elem_of _ _ _ _ _ Hs); [done|set_solver].
  - apply StronglySorted_app_1_r in Hs.
    case_bool_decide.
    + eapply (StronglySorted_app_1_elem_of _ _ _ _ _ Hs); [done|set_solver].
    + apply StronglySorted_app_1_r in Hs. apply StronglySorted_cons in Hs as [Hs _].
      eapply Forall_forall in Hs; [done|set_solver].
  - apply StronglySorted_app_1_r in Hs. apply StronglySorted_app_1_r in Hs.
    apply StronglySorted_cons in Hs as [Hs _].
    eapply Forall_forall in Hs; [done|set_solver].
Qed.

End removal_order.

(** ** Decrementing [begin()], and the move constructor *)
Section decrement.
Context {K V : Type} `{!EqDecision K, !EqDecision V}.
Context (lt : relation K) `{!RelDecision lt}.

Local Abbreviation world := (@world K V).
Local Abbreviation tree := (@tree K V).
Implicit Types (w : world) (t : tree) (h : gmap node_pointer (@TreeNode K V)).

Lemma head_ptrs_node (l : tree) a kv (r : tree) :
  head (ptrs (Node l a kv r)) = if bool_decide (l = Leaf) then Some a else head (ptrs l).
Proof.
  simpl. destruct l as [|l1 a1 kv1 r1]; [done|].
  rewrite bool_decide_eq_false_2 by done. simpl. by destruct (ptrs l1).
Qed.

Lemma leftmost_no_left h par t e :
  is_tree h par t → head (ptrs t) = Some e → ∃ n, h !! e = Some n ∧ leftChild n = None.
Proof.
  revert par. induction t as [|l IHl a kv r _]; intros par Ht He; [done|].
  rewrite head_ptrs_node in He. destruct Ht as (Ha & Hl & _).
  case_bool_decide as Hleaf; [|by eapply IHl].
  injection He as <-. subst l. by eexists.
Qed.

(** From the first node of a tree [operator--] climbs to its root. *)
Lemma ascend_left_spine w par t a e :
  is_tree (nodes w) par t → root_ptr t = Some a → head (ptrs t) = Some e →
  ∃ d, d < tree_height t
       ∧ ∀ fuel, ascend_left_loop (d + fuel) e w = ascend_left_loop fuel a w.
Proof.
  revert par a. induction t as [|l IHl a0 kv r _]; intros par a Ht Ha He; [done|].
  rewrite head_ptrs_node in He. simpl in Ha. injection Ha as <-.
  destruct Ht as (Ha0 & Hl & _).
  case_bool_decide as Hleaf.
  - injection He as <-. exists 0. split; [simpl; lia|done].
  - destruct l as [|l1 a1 kv1 r1]; [done|].
    destruct (IHl (Some a0) a1 Hl eq_refl He) as (d & Hd & Hclimb).
    exists (S d). split; [simpl in *; lia|]. intros fuel.
    replace (S d + fuel) with (d + S fuel) by lia. rewrite Hclimb.
    destruct Hl as (Ha1 & _). simpl. mrun. simpl. mrun. simpl.
    by rewrite bool_decide_eq_true_2.
Qed.

Lemma decrement_begin_throws w this t sz :
  wf lt w this t → objects w !! this = Some (mkTreeMap (root_ptr t) sz) →
  t ≠ Leaf ∨ sz = 0%Z →
  (b <- cbegin this ;; operator_dec b) w = Throw (out_of_range Iterator_out_of_range) w.
Proof.
  intros Hwf Hobj Hsz. pose proof Hwf as (_ & Ht & Hnd & _).
  erewrite bind_Ok; [|by apply (cbegin_spec lt)].
  unfold operator_dec, isEmpty. cbn [it_parent currentNode]. mrun. cbn [size].
  case_bool_decide as Hz; [done|].
  destruct Hsz as [Hne|Hsz]; [|done].
  destruct t as [|l a kv r]; [done|].
  rewrite first_or_ptrs by done.
  destruct (head (ptrs (Node l a kv r))) as [e|] eqn:He.
  2:{ simpl in He. by destruct (ptrs l). }
  destruct (leftmost_no_left _ _ _ _ Ht He) as (n & Hn & Hleft).
  destruct (ascend_left_spine w None _ a e Ht eq_refl He) as (d & Hd & Hclimb).
  pose proof (tree_height_bound _ _ _ Ht Hnd) as Hbound.
  mrun. rewrite Hleft.
  replace (loop_bound w) with (d + S (loop_bound w - S d)) by lia.
  destruct Ht as (Ha & _).
  assert (ascend_left_loop (d + S (loop_bound w - S d)) e w = Ok a w) as Hasc.
  { rewrite Hclimb. simpl. by mrun. }
  erewrite bind_Ok; [|exact Hasc]. by mrun.
Qed.

Lemma TreeMap_move_spec w this other t sz :
  this ≠ other → wf lt w other t →
  objects w !! other = Some (mkTreeMap (root_ptr t) sz) →
  ∃ w', TreeMap_move this other w = Ok tt w'
    ∧ wf lt w' this t
    ∧ objects w' !! this = Some (mkTreeMap (root_ptr t) sz)
    ∧ objects w' !! other = Some (mkTreeMap None sz)
    ∧ nodes w' = nodes w.
Proof.
  intros Hne (_ & Ht & Hnd & Hb) Hobj. unfold TreeMap_move, new_at. mrun.
  cbn [root size].
  erewrite set_root_Ok by (cbn [objects]; by rewrite lookup_insert_ne).
  eexists. split; [done|]. cbn [nodes objects size].
  assert (<[other := mkTreeMap None sz]> (<[this := mkTreeMap (root_ptr t) sz]> (objects w))
            !! this = Some (mkTreeMap (root_ptr t) sz)) as Hthis.
  { by rewrite lookup_insert_ne, lookup_insert_eq. }
  split; [|split; [done|split; [by rewrite lookup_insert_eq|done]]].
  split; [by eexists|done].
Qed.

End decrement.

(** ** [operator==]: a walk over [other] with lookups in [*this] *)
Section equality.
Context {K V : Type} `{!EqDecision K, !EqDecision V}.
Context (lt : relation K) `{!RelDecision lt}.

Local Abbreviation world := (@world K V).
Local Abbreviation tree := (@tree K V).
Implicit Types (w : world) (t : tree) (h : gmap node_pointer (@TreeNode K V)).

Lemma tree_value_lookup h par t k :
  is_tree h par t →
  match lookup_tree lt k t with
  | Some a => ∃ n, h !! a = Some n ∧ tree_value lt k t = Some (value n)
  | None => tree_value lt k t = None
  end.
Proof.
  revert par. induction t as [|l IHl a kv r IHr]; intros par Ht; [done|].
  destruct Ht as (Ha & Hl & Hr). simpl.
  repeat case_bool_decide; [by eapply IHl|by eapply IHr|by eexists].
Qed.

Lemma valueOf_tree_value w this t k :
  wf lt w this t →
  valueOf lt this k w
  = unchanged (match tree_value lt k t with
               | Some x => Returned x
               | None => Thrown (out_of_range Iterator_out_of_range)
               end) w.
Proof.
  intros Hwf. pose proof Hwf as (_ & Ht & _).
  pose proof (tree_value_lookup _ _ _ k Ht) as Hv.
  unfold valueOf. erewrite bind_Ok; [|by apply find_spec].
  destruct (lookup_tree lt k t) as [a|].
  - destruct Hv as (n & Hn & ->). unfold operator_deref. cbn [currentNode]. by mrun.
  - by rewrite Hv.
Qed.

Lemma eq_loop_chain fuel w this other t cs kvs :
  wf lt w this t → chain w other cs None →
  Forall2 (λ a kv, ∃ n, nodes w !! a = Some n ∧ val n = kv) cs kvs →
  length cs < fuel →
  eq_loop lt fuel this (mkConstIterator other (first_or cs None)) (mkConstIterator other None) w
  = unchanged (compare_pairs lt t kvs) w.
Proof.
  intros Hwf. revert fuel kvs.
  induction cs as [|c cs IH]; intros fuel kvs Hchain Hvals Hfuel;
    (destruct fuel as [|fuel]; [simpl in Hfuel; lia|]).
  - apply Forall2_nil_inv_l in Hvals as ->. done.
  - apply Forall2_cons_inv_l in Hvals as (kv & kvs' & (n & Hn & <-) & Hvals & ->).
    destruct Hchain as [Hinc Hchain]. cbn [eq_loop first_or compare_pairs].
    unfold iterator_eq. cbn [currentNode]. rewrite bool_decide_eq_false_2 by done.
    erewrite bind_Ok; [|unfold operator_deref; cbn [currentNode]; by mrun].
    unfold bind at 1. rewrite (valueOf_tree_value w this t) by done.
    destruct (tree_value lt (val n).1 t) as [x|]; [|done]. cbn [unchanged].
    case_bool_decide; [done|].
    erewrite bind_Ok; [|exact Hinc].
    apply IH; [done|done|simpl in Hfuel; lia].
Qed.

Lemma operator_eq_spec w this other t1 t2 s1 s2 :
  wf lt w this t1 → wf lt w other t2 →
  objects w !! this = Some (mkTreeMap (root_ptr t1) s1) →
  objects w !! other = Some (mkTreeMap (root_ptr t2) s2) →
  operator_eq lt this other w
  = if bool_decide (s1 ≠ s2) then Ok false w
    else unchanged (compare_pairs lt t1 (entries t2)) w.
Proof.
  intros Hwf1 Hwf2 Hobj1 Hobj2. unfold operator_eq. mrun. cbn [size].
  case_bool_decide; [done|].
  erewrite bind_Ok; [|by apply (cbegin_spec lt)].
  unfold cend. mrun. pose proof Hwf2 as (_ & Ht2 & Hnd2 & _).
  apply (eq_loop_chain _ _ _ _ t1); [done|by apply (chain_wf lt)|by eapply entries_of_ptrs|].
  pose proof (ptrs_heap_size _ _ _ Ht2 Hnd2).
  change (loop_bound w) with (S (base.size (nodes w))). lia.
Qed.
End equality.

Section equality_order.
Context {K V : Type} `{!EqDecision K, !EqDecision V}.
Context (lt : relation K) `{!RelDecision lt, !StrictOrder lt}.

Local Abbreviation world := (@world K V).
Local Abbreviation tree := (@tree K V).
Implicit Types (w : world) (t : tree) (h : gmap node_pointer (@TreeNode K V)).

Lemma tree_value_entry t k v :
  bst lt t → (k, v) ∈ entries t → tree_value lt k t = Some v.
Proof.
  induction t as [|l IHl a kv r IHr]; simpl; [set_solver|].
  intros (Hkl & Hkr & Hbl & Hbr) Hin.
  apply elem_of_app in Hin as [Hin|Hin]; [|apply elem_of_cons in Hin as [<-|Hin]].
  - assert (lt k kv.1) as Hlt.
    { eapply Forall_forall in Hkl; [exact Hkl|]. unfold keys.
      by apply (list_elem_of_fmap_2 fst _ (k, v)). }
    rewrite bool_decide_eq_true_2, bool_decide_eq_true_2; [by apply IHl|done|].
    intros Heq. rewrite Heq in Hlt. exact (StrictOrder_Irreflexive _ Hlt).
  - simpl. by rewrite bool_decide_eq_false_2 by (by intros []).
  - assert (lt kv.1 k) as Hlt.
    { eapply Forall_forall in Hkr; [exact Hkr|]. unfold keys.
      by apply (list_elem_of_fmap_2 fst _ (k, v)). }
    rewrite bool_decide_eq_true_2, bool_decide_eq_false_2; [by apply IHr| |].
    + intros Hlt'. apply (StrictOrder_Irreflexive k). by etrans.
    + intros Heq. rewrite Heq in Hlt. exact (StrictOrder_Irreflexive _ Hlt).
Qed.

Lemma compare_pairs_included t kvs :
  bst lt t → (∀ kv, kv ∈ kvs → kv ∈ entries t) → compare_pairs lt t kvs = Returned true.
Proof.
  intros Hb. induction kvs as [|[k v] kvs IH]; intros Hin; [done|].
  cbn [compare_pairs fst snd]. rewrite (tree_value_entry t k v) by (done || set_solver).
  rewrite bool_decide_eq_false_2 by (by intros []). apply IH. set_solver.
Qed.

Lemma compare_pairs_missing t kvs1 k v kvs2 :
  bst lt t → (∀ kv, kv ∈ kvs1 → kv ∈ entries t) → k ∉ keys t →
  compare_pairs lt t (kvs1 ++ (k, v) :: kvs2) = Thrown (out_of_range Iterator_out_of_range).
Proof.
  intros Hb. induction kvs1 as [|[k1 v1] kvs1 IH]; intros Hin Hk.
  - cbn [app compare_pairs fst].
    destruct (tree_value lt k t) as [x|] eqn:Hx; [|done]. destruct Hk.
    clear Hin. induction t as [|l IHl a kv r IHr]; [done|]. simpl in *.
    unfold keys in *. simpl. rewrite fmap_app, fmap_cons.
    destruct Hb as (_ & _ & Hbl & Hbr).
    repeat case_bool_decide; [set_solver|set_solver|]. set_solver.
  - cbn [app compare_pairs fst snd].
    rewrite (tree_value_entry t k1 v1) by (done || set_solver).
    rewrite bool_decide_eq_false_2 by (by intros []). apply IH; [set_solver|done].
Qed.
End equality_order.

(** ** The copy constructor: [fill] next to the source *)
Section copy_heap.
Context {K V : Type} `{!EqDecision K, !EqDecision V}.
Context (lt : relation K) `{!RelDecision lt}.

Local Abbreviation world := (@world K V).
Local Abbreviation tree := (@tree K V).
Implicit Types (w : world) (t : tree) (h : gmap node_pointer (@TreeNode K V)).

Lemma store_run w p n x :
  nodes w !! p = Some n →
  store p x w
  = Ok tt (mkWorld (<[p := mkTreeNode (key n, x) (parent n) (leftChild n) (rightChild n)
                                      (height n)]> (nodes w)) (objects w)).
Proof. intros Hn. unfold store. mrun. by erewrite set_node_Ok. Qed.

(** A map whose nodes and object a step leaves alone is as it was. *)
Lemma wf_frame w w' other t :
  wf lt w other t → objects w' !! other = objects w !! other →
  (∀ a, a ∈ ptrs t → nodes w' !! a = nodes w !! a) →
  wf lt w' other t.
Proof.
  intros ([sz Hobj] & Ht & Hnd & Hb) Hobj' Hnodes.
  split; [exists sz; by rewrite Hobj'|]. split; [|done].
  by eapply is_tree_frame.
Qed.

Lemma chain_drop w this cs exit n :
  chain w this cs exit → chain w this (drop n cs) exit.
Proof.
  revert cs. induction n as [|n IH]; intros cs Hc; [by rewrite drop_0|].
  destruct cs as [|c cs]; [done|]. destruct Hc as [_ Hc]. by apply IH.
Qed.
End copy_heap.

Section copy_insert.
Context {K V : Type} `{!EqDecision K, !EqDecision V}.
Context (lt : relation K) `{!RelDecision lt, !StrictOrder lt, !Trichotomy lt}.
Variable default_value : V.

Local Abbreviation world := (@world K V).
Local Abbreviation tree := (@tree K V).
Implicit Types (w : world) (t : tree) (h : gmap node_pointer (@TreeNode K V)).

(** A key above all keys of the tree goes to the end of its pairs. *)
Lemma entries_insert_last a k x t :
  Forall (λ k', lt k' k) (keys t) → a ∉ ptrs t →
  entries (update_tree a x (insert_tree lt default_value a k t)) = entries t ++ [(k, x)].
Proof.
  unfold keys. induction t as [|l IHl a0 kv r IHr]; intros Hk Ha.
  - simpl. by rewrite bool_decide_eq_true_2.
  - simpl in Hk, Ha. rewrite fmap_app, fmap_cons in Hk.
    apply Forall_app in Hk as (_ & Hk). apply Forall_cons in Hk as (Hkv & Hk).
    cbn [insert_tree].
    rewrite bool_decide_eq_true_2.
    2:{ intros Heq. rewrite Heq in Hkv. exact (StrictOrder_Irreflexive _ Hkv). }
    rewrite bool_decide_eq_false_2.
    2:{ intros Hlt. apply (StrictOrder_Irreflexive k). by etrans. }
    cbn [update_tree entries].
    rewrite bool_decide_eq_false_2 by set_solver.
    rewrite update_tree_absent by set_solver.
    rewrite IHr by (done || set_solver). by rewrite <- app_assoc.
Qed.

Lemma lookup_tree_above k t :
  Forall (λ k', lt k' k) (keys t) → lookup_tree lt k t = None.
Proof.
  intros Hk. apply lookup_tree_None. intros Hin.
  eapply Forall_forall in Hk; [|exact Hin]. exact (StrictOrder_Irreflexive _ Hk).
Qed.

(** [this->operator[](k) = v] next to another map, which it leaves alone. *)
Lemma assign_frame w this other t2 t z k v :
  this ≠ other → wf lt w other t2 → wf lt w this t →
  objects w !! this = Some (mkTreeMap (root_ptr t) z) →
  (∀ a, a ∈ ptrs t → a ∉ ptrs t2) →
  ∃ w' t',
    (r <- operator_index lt default_value this k ;; store r v) w = Ok tt w'
    ∧ wf lt w' other t2 ∧ objects w' !! other = objects w !! other
    ∧ wf lt w' this t'
    ∧ (∀ a, a ∈ ptrs t' → a ∉ ptrs t2)
    ∧ (lookup_tree lt k t = None →
       ∃ a, (a ∉ ptrs t)
            ∧ t' = update_tree a v (insert_tree lt default_value a k t)
            ∧ objects w' !! this = Some (mkTreeMap (root_ptr t') (size_t_wrap (z + 1)))).
Proof.
  intros Hne Hwf2 Hwf Hobj Hdisj. pose proof Hwf as (_ & Ht & _).
  destruct (lookup_tree lt k t) as [p|] eqn:Hlook.
  - destruct (lookup_tree_Some lt _ _ _ _ _ Ht Hlook) as (Hp & n & Hn & _).
    destruct (store_spec lt w this t p n v Hwf Hn Hp) as (w2 & Hstore & Hwf' & Hobj2 & _).
    pose proof Hstore as Hstore'. rewrite (store_run w p n v Hn) in Hstore'.
    injection Hstore' as Hw2.
    exists w2, (update_tree p v t). split.
    { erewrite bind_Ok; [exact Hstore|by eapply operator_index_found]. }
    split_and!; try done.
    + eapply wf_frame; [exact Hwf2|by rewrite Hobj2|].
      intros b Hb. rewrite <- Hw2. cbn [nodes].
      rewrite lookup_insert_ne; [done|]. intros <-. by apply (Hdisj p).
    + by rewrite Hobj2.
    + intros b. rewrite ptrs_update_tree. apply Hdisj.
  - destruct (operator_index_new lt default_value w this t k z Hwf Hobj Hlook)
      as (a & w1 & Hrun & Hat & Hwf1 & Hobj1 & (n & Hn & Hval) & Hframe & Hfresh).
    assert (a ∈ ptrs (insert_tree lt default_value a k t)) as Hain.
    { rewrite ptrs_insert_tree by done. set_solver. }
    destruct (store_spec lt w1 this _ a n v Hwf1 Hn Hain) as (w2 & Hstore & Hwf2' & Hobj2 & _).
    pose proof Hstore as Hstore'. rewrite (store_run w1 a n v Hn) in Hstore'.
    injection Hstore' as Hw2.
    assert (a ∉ ptrs t2) as Hat2.
    { intros Hin. destruct Hwf2 as (_ & Ht2 & _).
      destruct (is_tree_allocated _ _ _ _ Ht2 Hin). congruence. }
    exists w2, (update_tree a v (insert_tree lt default_value a k t)).
    split; [by erewrite bind_Ok|]. split_and!.
    + eapply wf_frame; [exact Hwf2| |].
      * rewrite Hobj2, Hobj1. by rewrite lookup_insert_ne.
      * intros b Hb. rewrite <- Hw2. cbn [nodes].
        rewrite lookup_insert_ne by (by intros <-).
        apply Hframe; [by intros ->|]. intros Hbt. by apply (Hdisj b).
    + rewrite Hobj2, Hobj1. by rewrite lookup_insert_ne.
    + done.
    + intros b. rewrite ptrs_update_tree, ptrs_insert_tree by done.
      intros [->|Hb]%elem_of_cons; [done|by apply Hdisj].
    + intros _. exists a. split; [done|]. split; [done|].
      rewrite Hobj2, Hobj1, lookup_insert_eq. by rewrite root_ptr_update_tree.
Qed.

(** One step of [fill]: the key is above the keys of [*this]. *)
Lemma fill_step w this other t2 t z k v :
  this ≠ other → wf lt w other t2 → wf lt w this t →
  objects w !! this = Some (mkTreeMap (root_ptr t) z) →
  (∀ a, a ∈ ptrs t → a ∉ ptrs t2) → Forall (λ k', lt k' k) (keys t) →
  ∃ w' t',
    (r <- operator_index lt default_value this k ;; store r v) w = Ok tt w'
    ∧ wf lt w' other t2 ∧ objects w' !! other = objects w !! other
    ∧ wf lt w' this t'
    ∧ objects w' !! this = Some (mkTreeMap (root_ptr t') (size_t_wrap (z + 1)))
    ∧ entries t' = entries t ++ [(k, v)]
    ∧ (∀ a, a ∈ ptrs t' → a ∉ ptrs t2).
Proof.
  intros Hne Hwf2 Hwf Hobj Hdisj Hk.
  destruct (assign_frame w this other t2 t z k v Hne Hwf2 Hwf Hobj Hdisj)
    as (w' & t' & Hrun & Hwf2' & Hobj2 & Hwf' & Hdisj' & Hnew).
  destruct (Hnew (lookup_tree_above k t Hk)) as (a & Ha & -> & Hobj').
  exists w', (update_tree a v (insert_tree lt default_value a k t)).
  split_and!; try done. by apply entries_insert_last.
Qed.

Lemma entries_length t : length (entries t) = length (ptrs t).
Proof. induction t as [|l IHl a kv r IHr]; simpl; [done|]. rewrite !length_app. simpl. lia. Qed.

(** [std::for_each] in [fill], when the first [n] pairs of [other] are
    those of [*this]. *)
Lemma fill_loop m : ∀ n fuel w this other t2 t z,
  this ≠ other → wf lt w other t2 → wf lt w this t →
  objects w !! this = Some (mkTreeMap (root_ptr t) z) →
  (∀ a, a ∈ ptrs t → a ∉ ptrs t2) →
  entries t = take n (entries t2) →
  n + m = length (ptrs t2) → m < fuel →
  ∃ w' t',
    for_each fuel (mkConstIterator other (first_or (drop n (ptrs t2)) None))
      (mkConstIterator other None)
      (λ v, r <- operator_index lt default_value this v.1 ;; store r v.2) w = Ok tt w'
    ∧ wf lt w' other t2 ∧ objects w' !! other = objects w !! other
    ∧ wf lt w' this t' ∧ entries t' = entries t2
    ∧ objects w' !! this = Some (mkTreeMap (root_ptr t') (add_size m z))
    ∧ (∀ a, a ∈ ptrs t' → a ∉ ptrs t2).
Proof.
  induction m as [|m IH];
    intros n fuel w this other t2 t z Hne Hwf2 Hwf Hobj Hdisj Hent Hn Hfuel;
    (destruct fuel as [|fuel]; [lia|]).
  - rewrite drop_ge by lia. cbn [for_each first_or]. unfold iterator_eq. cbn [currentNode].
    rewrite bool_decide_eq_true_2 by done.
    exists w, t. split; [done|]. split_and!; try done.
    rewrite Hent, take_ge; [done|]. rewrite entries_length. lia.
  - pose proof Hwf2 as (_ & Ht2 & Hnd2 & Hb2).
    assert (n < length (ptrs t2)) as Hlt by lia.
    destruct (lookup_lt_is_Some_2 _ _ Hlt) as [c Hc].
    assert (n < length (entries t2)) as Hlt' by (rewrite entries_length; lia).
    destruct (lookup_lt_is_Some_2 _ _ Hlt') as [kv Hkv].
    pose proof (entries_of_ptrs _ _ _ Ht2) as Hvals.
    destruct (Forall2_lookup_lr _ _ _ _ _ _ Hvals Hc Hkv) as (nd & Hnd & Hval).
    rewrite (drop_S _ _ _ Hc). cbn [for_each first_or].
    unfold iterator_eq. cbn [currentNode]. rewrite bool_decide_eq_false_2 by done.
    erewrite bind_Ok; [|unfold operator_deref; cbn [currentNode]; by mrun].
    rewrite Hval.
    assert (Forall (λ k', lt k' kv.1) (keys t)) as Habove.
    { pose proof (bst_sorted lt t2 Hb2) as Hs. unfold keys in *.
      rewrite <- (take_drop_middle _ _ _ Hkv), fmap_app, fmap_cons in Hs.
      rewrite Hent. apply Forall_forall. intros k' Hk'.
      eapply (StronglySorted_app_1_elem_of _ _ _ _ _ Hs); [done|set_solver]. }
    destruct (fill_step w this other t2 t z kv.1 kv.2 Hne Hwf2 Hwf Hobj Hdisj Habove)
      as (w1 & t1 & Hrun1 & Hwf2' & Hobj2' & Hwf1 & Hobj1 & Hent1 & Hdisj1).
    erewrite bind_Ok; [|exact Hrun1].
    pose proof (chain_drop _ _ _ _ n (chain_wf lt w1 other t2 Hwf2')) as Hchain.
    rewrite (drop_S _ _ _ Hc) in Hchain. destruct Hchain as [Hinc _].
    erewrite bind_Ok; [|exact Hinc].
    destruct (IH (S n) fuel w1 this other t2 t1 _ Hne Hwf2' Hwf1 Hobj1 Hdisj1)
      as (w' & t' & Hrun & Hwf2'' & Hobj2'' & Hwf' & Hent' & Hobj' & Hdisj'); [|lia|lia|].
    { rewrite Hent1, Hent, (take_S_r _ _ _ Hkv). by destruct kv. }
    exists w', t'. split; [done|]. split_and!; try done.
    + by rewrite Hobj2''.
    + rewrite Hobj'. unfold add_size. by rewrite Nat.iter_succ_r.
Qed.

Lemma TreeMap_copy_spec w this other t2 s2 :
  this ≠ other → wf lt w other t2 →
  objects w !! other = Some (mkTreeMap (root_ptr t2) s2) →
  ∃ w' t',
    TreeMap_copy lt default_value this other w = Ok tt w'
    ∧ wf lt w' other t2 ∧ objects w' !! other = Some (mkTreeMap (root_ptr t2) s2)
    ∧ wf lt w' this t' ∧ entries t' = entries t2
    ∧ objects w' !! this
      = Some (mkTreeMap (root_ptr t') (size_t_wrap (Z.of_nat (length (entries t2)))))
    ∧ (∀ a, a ∈ ptrs t' → a ∉ ptrs t2).
Proof.
  intros Hne Hwf2 Hobj2. unfold TreeMap_copy, TreeMap_default, new_at, fill.
  erewrite bind_Ok; [|reflexivity].
  set (w1 := mkWorld (nodes w) (<[this := mkTreeMap None 0]> (objects w))).
  assert (wf lt w1 other t2) as Hwf2'.
  { eapply wf_frame; [exact Hwf2| |done]. cbn [objects w1]. by rewrite lookup_insert_ne. }
  assert (wf lt w1 this Leaf) as Hwf1.
  { split; [eexists; apply lookup_insert_eq|]. split; [done|]. split; [constructor|done]. }
  erewrite bind_Ok; [|by apply (cbegin_spec lt)].
  unfold cend. mrun.
  pose proof Hwf2' as (_ & Ht2 & Hnd2 & _).
  destruct (fill_loop (length (ptrs t2)) 0 (loop_bound w1) w1 this other t2 Leaf 0 Hne Hwf2' Hwf1)
    as (w' & t' & Hrun & Hwf2'' & Hobj2'' & Hwf' & Hent' & Hobj' & Hdisj').
  - apply lookup_insert_eq.
  - set_solver.
  - done.
  - done.
  - pose proof (ptrs_heap_size _ _ _ Ht2 Hnd2).
    change (loop_bound w1) with (S (base.size (nodes w1))). lia.
  - rewrite drop_0 in Hrun. exists w', t'. split; [done|]. split_and!; try done.
    + rewrite Hobj2''. cbn [objects w1]. by rewrite lookup_insert_ne.
    + rewrite Hobj', add_size_wrap by done. by rewrite Z.add_0_l, entries_length.
Qed.
End copy_insert.

(** ** The constructor from a list of pairs *)
Section build.
Context {K V : Type} `{!EqDecision K, !EqDecision V}.
Context (lt : relation K) `{!RelDecision lt, !StrictOrder lt, !Trichotomy lt}.
Variable default_value : V.

Local Abbreviation world := (@world K V).
Local Abbreviation tree := (@tree K V).
Implicit Types (w : world) (t : tree) (h : gmap node_pointer (@TreeNode K V)).

Lemma entries_update_insert a k x t :
  a ∉ ptrs t → lookup_tree lt k t = None →
  entries (update_tree a x (insert_tree lt default_value a k t)) ≡ₚ (k, x) :: entries t.
Proof.
  induction t as [|l IHl a0 kv r IHr]; intros Ha Hlook.
  - simpl. by rewrite bool_decide_eq_true_2.
  - simpl in Ha, Hlook |- *. repeat case_bool_decide; try done; cbn [update_tree entries].
    + rewrite bool_decide_eq_false_2 by set_solver.
      rewrite (update_tree_absent a x r) by set_solver.
      rewrite IHl by (done || set_solver). done.
    + rewrite bool_decide_eq_false_2 by set_solver.
      rewrite (update_tree_absent a x l) by set_solver.
      rewrite IHr by (done || set_solver).
      by rewrite <- !Permutation_middle, Permutation_swap.
Qed.

(** [this->operator[](k) = v] for a key the map does not hold: what it
    touches is the object and the nodes of the map, and a node that was not
    allocated. *)
Lemma assign_new w this t z k v :
  wf lt w this t → objects w !! this = Some (mkTreeMap (root_ptr t) z) →
  k ∉ keys t →
  ∃ w' t',
    (r <- operator_index lt default_value this k ;; store r v) w = Ok tt w'
    ∧ wf lt w' this t'
    ∧ objects w' !! this = Some (mkTreeMap (root_ptr t') (size_t_wrap (z + 1)))
    ∧ entries t' ≡ₚ (k, v) :: entries t
    ∧ (∀ o, o ≠ this → objects w' !! o = objects w !! o)
    ∧ (∀ b, b ∈ ptrs t → b ∈ ptrs t')
    ∧ (∀ b, b ∉ ptrs t' → nodes w' !! b = nodes w !! b)
    ∧ (∀ b, b ∈ ptrs t' → b ∈ ptrs t ∨ nodes w !! b = None).
Proof.
  intros Hwf Hobj Hk. pose proof (lookup_tree_None lt k t Hk) as Hlook.
  destruct (operator_index_new lt default_value w this t k z Hwf Hobj Hlook)
    as (a & w1 & Hrun & Hat & Hwf1 & Hobj1 & (n & Hn & Hval) & Hframe & Hfresh).
  assert (ptrs (insert_tree lt default_value a k t) ≡ₚ a :: ptrs t) as Hptrs
    by (by apply ptrs_insert_tree).
  assert (a ∈ ptrs (insert_tree lt default_value a k t)) as Hain
    by (rewrite Hptrs; set_solver).
  destruct (store_spec lt w1 this _ a n v Hwf1 Hn Hain) as (w2 & Hstore & Hwf2 & Hobj2 & _).
  pose proof Hstore as Hstore'. rewrite (store_run w1 a n v Hn) in Hstore'.
  injection Hstore' as Hw2.
  exists w2, (update_tree a v (insert_tree lt default_value a k t)).
  split; [by erewrite bind_Ok|]. split; [done|]. split_and!.
  - rewrite Hobj2, Hobj1, lookup_insert_eq. by rewrite root_ptr_update_tree.
  - by apply entries_update_insert.
  - intros o Ho. rewrite Hobj2, Hobj1. by rewrite lookup_insert_ne.
  - intros b Hb. rewrite ptrs_update_tree, Hptrs. set_solver.
  - intros b. rewrite ptrs_update_tree, Hptrs. intros Hb.
    rewrite <- Hw2. cbn [nodes]. rewrite lookup_insert_ne by set_solver.
    apply Hframe; set_solver.
  - intros b. rewrite ptrs_update_tree, Hptrs. intros [->|Hb]%elem_of_cons; auto.
Qed.

Lemma insert_list_new l : ∀ w this t z,
  wf lt w this t → objects w !! this = Some (mkTreeMap (root_ptr t) z) →
  NoDup l.*1 → (∀ k, k ∈ l.*1 → k ∉ keys t) →
  ∃ w' t',
    insert_list lt default_value this l w = Ok tt w'
    ∧ wf lt w' this t'
    ∧ objects w' !! this = Some (mkTreeMap (root_ptr t') (add_size (length l) z))
    ∧ entries t' ≡ₚ l ++ entries t
    ∧ (∀ o, o ≠ this → objects w' !! o = objects w !! o)
    ∧ (∀ b, b ∈ ptrs t → b ∈ ptrs t')
    ∧ (∀ b, b ∉ ptrs t' → nodes w' !! b = nodes w !! b)
    ∧ (∀ b, b ∈ ptrs t' → b ∈ ptrs t ∨ nodes w !! b = None).
Proof.
  induction l as [|[k v] l IH]; intros w this t z Hwf Hobj Hnd Hnew.
  - exists w, t. split; [done|]. split_and!; auto.
  - rewrite fmap_cons in Hnd, Hnew. apply NoDup_cons in Hnd as (Hk & Hnd).
    destruct (assign_new w this t z k v Hwf Hobj) as
      (w1 & t1 & Hrun1 & Hwf1 & Hobj1 & Hent1 & Hobjs1 & Hsub1 & Hnodes1 & Hptrs1);
      [set_solver|].
    destruct (IH w1 this t1 _ Hwf1 Hobj1 Hnd) as
      (w' & t' & Hrun & Hwf' & Hobj' & Hent' & Hobjs' & Hsub' & Hnodes' & Hptrs').
    { intros k' Hk'. unfold keys. rewrite Hent1, fmap_cons.
      rewrite not_elem_of_cons. split; [by intros ->|]. apply Hnew. set_solver. }
    exists w', t'. split.
    { cbn [insert_list fst snd]. rewrite <- bind_assoc. by erewrite bind_Ok. }
    split; [done|]. split_and!.
    + rewrite Hobj'. unfold add_size. cbn [length]. by rewrite Nat.iter_succ_r.
    + rewrite Hent', Hent1. by rewrite <- Permutation_middle.
    + intros o Ho. rewrite Hobjs' by done. by apply Hobjs1.
    + auto.
    + intros b Hb. rewrite Hnodes' by done. apply Hnodes1. auto.
    + intros b Hb. destruct (decide (b ∈ ptrs t1)) as [Hb1|Hb1]; [by apply Hptrs1|].
      right. rewrite <- Hnodes1 by done. by destruct (Hptrs' b Hb).
Qed.

(** The constructor from a list of pairs with distinct keys, next to the
    maps that are already there. *)
Lemma TreeMap_of_list_spec w this l :
  NoDup l.*1 →
  ∃ w' t,
    TreeMap_of_list lt default_value this l w = Ok tt w'
    ∧ wf lt w' this t
    ∧ objects w' !! this = Some (mkTreeMap (root_ptr t) (size_t_wrap (Z.of_nat (length l))))
    ∧ entries t ≡ₚ l
    ∧ (∀ o, o ≠ this → objects w' !! o = objects w !! o)
    ∧ (∀ b, b ∉ ptrs t → nodes w' !! b = nodes w !! b)
    ∧ (∀ b, b ∈ ptrs t → nodes w !! b = None).
Proof.
  intros Hnd. unfold TreeMap_of_list, TreeMap_default, new_at.
  set (w1 := mkWorld (nodes w) (<[this := mkTreeMap None 0]> (objects w))).
  assert (wf lt w1 this Leaf) as Hwf1.
  { split; [eexists; apply lookup_insert_eq|]. split; [done|]. split; [constructor|done]. }
  destruct (insert_list_new l w1 this Leaf 0 Hwf1) as
    (w' & t & Hrun & Hwf & Hobj & Hent & Hobjs & _ & Hnodes & Hptrs).
  { apply lookup_insert_eq. }
  { done. }
  { intros k _. set_solver. }
  exists w', t. split.
  { erewrite bind_Ok; [|reflexivity]. exact Hrun. }
  split; [done|]. split_and!.
  - rewrite Hobj. f_equal. f_equal.
    pose proof (add_size_wrap (length l) 0 eq_refl) as Hsz.
    by rewrite Z.add_0_l in Hsz.
  - by rewrite Hent, app_nil_r.
  - intros o Ho. rewrite Hobjs by done. cbn [objects w1]. by rewrite lookup_insert_ne.
  - done.
  - intros b Hb. destruct (Hptrs b Hb) as [?|?]; [set_solver|done].
Qed.

(** Two maps built from the same pairs, in two orders. *)
Lemma TreeMap_of_lists_equal w this other l1 l2 :
  this ≠ other → NoDup l1.*1 → l1 ≡ₚ l2 →
  ∃ w',
    (TreeMap_of_list lt default_value this l1 ;;;
     TreeMap_of_list lt default_value other l2) w = Ok tt w'
    ∧ operator_eq lt this other w' = Ok true w'
    ∧ operator_eq lt other this w' = Ok true w'.
Proof.
  intros Hne Hnd1 Hperm.
  assert (NoDup l2.*1) as Hnd2 by (by rewrite <- Hperm).
  destruct (TreeMap_of_list_spec w this l1 Hnd1) as
    (w1 & t1 & Hrun1 & Hwf1 & Hobj1 & Hent1 & _ & _ & _).
  destruct (TreeMap_of_list_spec w1 other l2 Hnd2) as
    (w2 & t2 & Hrun2 & Hwf2 & Hobj2 & Hent2 & Hobjs2 & Hnodes2 & Hptrs2).
  assert (wf lt w2 this t1) as Hwf1'.
  { eapply wf_frame; [exact Hwf1|by apply Hobjs2|].
    intros a Ha. apply Hnodes2. intros Ha2. apply Hptrs2 in Ha2.
    destruct Hwf1 as (_ & Ht1 & _).
    destruct (is_tree_allocated _ _ _ _ Ht1 Ha) as [? Hsome]. congruence. }
  assert (objects w2 !! this
          = Some (mkTreeMap (root_ptr t1) (size_t_wrap (Z.of_nat (length l1))))) as Hobj1'
    by (by rewrite Hobjs2).
  exists w2. split; [by erewrite bind_Ok|].
  pose proof Hwf1' as (_ & _ & _ & Hb1). pose proof Hwf2 as (_ & _ & _ & Hb2).
  split.
  - rewrite (operator_eq_spec lt w2 this other t1 t2 _ _ Hwf1' Hwf2 Hobj1' Hobj2).
    rewrite bool_decide_eq_false_2 by (by rewrite Hperm; intros []).
    rewrite (compare_pairs_included lt t1 (entries t2) Hb1); [done|].
    intros kv. by rewrite Hent1, Hent2, Hperm.
  - rewrite (operator_eq_spec lt w2 other this t2 t1 _ _ Hwf2 Hwf1' Hobj2 Hobj1').
    rewrite bool_decide_eq_false_2 by (by rewrite Hperm; intros []).
    rewrite (compare_pairs_included lt t2 (entries t1) Hb2); [done|].
    intros kv. by rewrite Hent1, Hent2, Hperm.
Qed.
End build.

(** ** clear, the destructor and the assignments *)
Section clearing.
Context {K V : Type} `{!EqDecision K, !EqDecision V}.
Context (lt : relation K) `{!RelDecision lt}.

Local Abbreviation world := (@world K V).
Local Abbreviation tree := (@tree K V).
Implicit Types (w : world) (t : tree) (h : gmap node_pointer (@TreeNode K V)).

Lemma first_or_snoc (xs : list node_pointer) a exit :
  first_or (xs ++ [a]) exit = first_or xs (Some a).
Proof. by destruct xs. Qed.

Lemma head_first_or (xs ys : list node_pointer) a :
  head (xs ++ a :: ys) = first_or xs (Some a).
Proof. by destruct xs. Qed.

Lemma clear_loop_end fuel this w :
  clear_loop (S fuel) (mkConstIterator this None) (mkConstIterator this None) w = Ok tt w.
Proof. done. Qed.

(** One turn of the loop of [clear] at the node [a]. *)
Lemma clear_loop_step fuel this a next w n :
  operator_inc (mkConstIterator this (Some a)) w = Ok (mkConstIterator this next) w →
  nodes w !! a = Some n →
  clear_loop (S fuel) (mkConstIterator this (Some a)) (mkConstIterator this None) w
  = clear_loop fuel (mkConstIterator this next) (mkConstIterator this None)
      (mkWorld (delete a (nodes w)) (objects w)).
Proof.
  intros Hinc Hn. cbn [clear_loop]. unfold iterator_eq. cbn [currentNode].
  rewrite bool_decide_eq_false_2 by done.
  erewrite bind_Ok; [|reflexivity].
  erewrite bind_Ok; [|exact Hinc].
  by erewrite bind_Ok; [|by eapply delete_node_Ok].
Qed.

(** From a node without a right child [operator++] goes to the parent, when
    the node is not the right child of it. *)
Lemma inc_to_parent this w a n par :
  nodes w !! a = Some n → rightChild n = None → parent n = par →
  (∀ p, par = Some p → ∃ pn, nodes w !! p = Some pn ∧ rightChild pn ≠ Some a) →
  operator_inc (mkConstIterator this (Some a)) w = Ok (mkConstIterator this par) w.
Proof.
  intros Hn Hr Hp Hpar. unfold operator_inc. cbn [currentNode it_parent]. mrun.
  rewrite Hr. change (loop_bound w) with (S (base.size (nodes w))).
  destruct par as [p|].
  - destruct (Hpar p eq_refl) as (pn & Hpn & Hne).
    erewrite bind_Ok; [|by eapply ascend_stop]. mrun. by rewrite Hp.
  - erewrite bind_Ok; [|by eapply ascend_root]. mrun. by rewrite Hp.
Qed.

(** The loop of [clear] through a tree without right children: it frees
    the nodes and arrives at the parent. *)
Lemma clear_loop_spine t : ∀ w par,
  is_tree (nodes w) par t → NoDup (ptrs t) → right_free t = true →
  (∀ p, par = Some p →
     (p ∉ ptrs t) ∧ ∃ pn, nodes w !! p = Some pn ∧ ∀ c, rightChild pn = Some c → c ∉ ptrs t) →
  ∃ h',
    (∀ b, b ∈ ptrs t → h' !! b = None)
    ∧ (∀ b, b ∉ ptrs t → h' !! b = nodes w !! b)
    ∧ ∀ this fuel,
        clear_loop (length (ptrs t) + fuel) (mkConstIterator this (first_or (ptrs t) par))
          (mkConstIterator this None) w
        = clear_loop fuel (mkConstIterator this par) (mkConstIterator this None)
            (mkWorld h' (objects w)).
Proof.
  induction t as [|l IHl a kv r _]; intros w par Ht Hnd Hfree Hpar.
  - exists (nodes w). split; [set_solver|]. split; [done|]. intros this fuel. by destruct w.
  - cbn [right_free] in Hfree. apply andb_true_iff in Hfree as [Hr Hfree].
    apply bool_decide_eq_true in Hr as ->.
    cbn [ptrs] in *. destruct Ht as (Ha & Hl & _). cbn [root_ptr] in Ha.
    apply NoDup_app in Hnd as (Hndl & Hla & _).
    assert (a ∉ ptrs l) as Hal by (intros Hin; apply (Hla a Hin); set_solver).
    destruct (IHl w (Some a) Hl Hndl Hfree) as (h1 & Hdel & Hkeep & Hrun).
    { intros p [= <-]. split; [done|]. eexists. split; [exact Ha|]. done. }
    exists (delete a h1). split_and!.
    + intros b [Hb|Hb%list_elem_of_singleton]%elem_of_app.
      * destruct (decide (b = a)) as [->|Hne]; [apply lookup_delete_eq|].
        rewrite lookup_delete_ne by done. by apply Hdel.
      * subst b. apply lookup_delete_eq.
    + intros b Hb. rewrite lookup_delete_ne by set_solver. apply Hkeep. set_solver.
    + intros this fuel. rewrite first_or_snoc, length_app. cbn [length].
      replace (length (ptrs l) + 1 + fuel) with (length (ptrs l) + S fuel) by lia.
      rewrite Hrun.
      erewrite (clear_loop_step fuel this a par); [done| |].
      * eapply inc_to_parent; cbn [nodes]; [by rewrite Hkeep|done|done|].
        intros p ->. destruct (Hpar p eq_refl) as (Hp & pn & Hpn & Hright).
        exists pn. split; [rewrite Hkeep; [done|set_solver]|].
        intros Heq. apply (Hright a Heq). set_solver.
      * cbn [nodes]. by rewrite Hkeep.
Qed.

(** From a node with a right child [operator++] goes to the first node of
    the right subtree. *)
Lemma inc_descend this w a n r :
  nodes w !! a = Some n → rightChild n = root_ptr r → r ≠ Leaf →
  is_tree (nodes w) (Some a) r → NoDup (ptrs r) →
  operator_inc (mkConstIterator this (Some a)) w
  = Ok (mkConstIterator this (head (ptrs r))) w.
Proof.
  intros Hn Hr Hne Ht Hnd. unfold operator_inc. cbn [currentNode it_parent]. mrun.
  rewrite Hr. destruct r as [|rl ra rkv rr]; [done|]. cbn [root_ptr].
  destruct (leftmost_loop_spec (loop_bound w) w (Some a) (Node rl ra rkv rr) ra Ht eq_refl)
    as (e & He & Hrun).
  { pose proof (tree_height_bound _ _ _ Ht Hnd). lia. }
  mrun. by rewrite He.
Qed.

(** [operator++] at a node without a right child whose parent is freed. *)
Lemma inc_freed_parent this w a n p :
  nodes w !! a = Some n → rightChild n = None → parent n = Some p → nodes w !! p = None →
  operator_inc (mkConstIterator this (Some a)) w = Undefined.
Proof.
  intros Hn Hr Hp Hfreed. unfold operator_inc. cbn [currentNode it_parent]. mrun.
  rewrite Hr. change (loop_bound w) with (S (base.size (nodes w))).
  apply bind_Undefined. cbn [ascend_right_loop]. mrun. rewrite Hp.
  apply bind_Undefined. unfold node_at. mrun. by rewrite Hfreed.
Qed.

Lemma clear_loop_inc_undefined fuel this a w :
  operator_inc (mkConstIterator this (Some a)) w = Undefined →
  clear_loop (S fuel) (mkConstIterator this (Some a)) (mkConstIterator this None) w = Undefined.
Proof.
  intros Hinc. cbn [clear_loop]. unfold iterator_eq. cbn [currentNode].
  rewrite bool_decide_eq_false_2 by done.
  erewrite bind_Ok; [|reflexivity]. by apply bind_Undefined.
Qed.

Lemma head_ptrs_left t (ys : list node_pointer) :
  t ≠ Leaf → head (ptrs t ++ ys) = head (ptrs t).
Proof.
  destruct t as [|l a kv r]; [done|]. intros _. cbn [ptrs].
  by destruct (ptrs l).
Qed.

Lemma right_free_Leaf t : right_free t = false → t ≠ Leaf.
Proof. by destruct t. Qed.

(** The loop of [clear] in a tree that has a right child, and in a tree
    below a freed node: it reads a freed node. *)
Lemma clear_loop_undefined t :
  (∀ w par this fuel,
     is_tree (nodes w) par t → NoDup (ptrs t) → right_free t = false →
     length (ptrs t) ≤ fuel →
     clear_loop fuel (mkConstIterator this (head (ptrs t))) (mkConstIterator this None) w
     = Undefined)
  ∧ (∀ w p this fuel,
       is_tree (nodes w) (Some p) t → NoDup (ptrs t) → t ≠ Leaf → nodes w !! p = None →
       length (ptrs t) ≤ fuel →
       clear_loop fuel (mkConstIterator this (head (ptrs t))) (mkConstIterator this None) w
       = Undefined).
Proof.
  induction t as [|l [IHlB IHlC] a kv r [IHrB IHrC]]; [done|].
  (* what both cases share: the left subtree has no right child *)
  assert (∀ w par this fuel,
    is_tree (nodes w) par (Node l a kv r) → NoDup (ptrs (Node l a kv r)) →
    right_free l = true → length (ptrs (Node l a kv r)) ≤ fuel →
    (r = Leaf → ∃ p, par = Some p ∧ nodes w !! p = None) →
    clear_loop fuel (mkConstIterator this (head (ptrs (Node l a kv r))))
      (mkConstIterator this None) w = Undefined) as Hspine.
  { intros w par this fuel Ht Hnd Hfree Hfuel Hleaf.
    cbn [ptrs] in *. destruct Ht as (Ha & Hl & Hr).
    apply NoDup_app in Hnd as (Hndl & Hla & [Har Hndr]%NoDup_cons).
    assert (a ∉ ptrs l) as Hal by (intros Hin; apply (Hla a Hin); set_solver).
    destruct (clear_loop_spine l w (Some a) Hl Hndl Hfree) as (h1 & Hdel & Hkeep & Hrun).
    { intros p' [= <-]. split; [done|]. eexists. split; [exact Ha|]. cbn [rightChild].
      intros c Hc Hin. apply (Hla c Hin). apply root_ptr_in in Hc. set_solver. }
    rewrite head_first_or. rewrite length_app in Hfuel. cbn [length] in Hfuel.
    replace fuel with (length (ptrs l) + S (fuel - length (ptrs l) - 1)) by lia.
    rewrite Hrun.
    assert (h1 !! a = Some (mkTreeNode kv par (root_ptr l) (root_ptr r) 0)) as Ha1
      by (by rewrite Hkeep).
    destruct (decide (r = Leaf)) as [->|Hne].
    - destruct (Hleaf eq_refl) as (p & -> & Hp).
      apply clear_loop_inc_undefined.
      eapply (inc_freed_parent _ _ _ _ p); [exact Ha1|done|done|].
      cbn [nodes]. destruct (decide (p ∈ ptrs l)); [by apply Hdel|by rewrite Hkeep].
    - assert (is_tree h1 (Some a) r) as Hr1.
      { eapply is_tree_frame; [exact Hr|]. intros b Hb. apply Hkeep.
        intros Hin. apply (Hla b Hin). set_solver. }
      erewrite (clear_loop_step _ this a (head (ptrs r))); [|by eapply inc_descend|exact Ha1].
      apply (IHrC _ a); cbn [nodes].
      + eapply is_tree_frame; [exact Hr1|]. intros b Hb.
        apply lookup_delete_ne. by intros ->.
      + done.
      + done.
      + apply lookup_delete_eq.
      + lia. }
  split.
  - intros w par this fuel Ht Hnd Hfree Hfuel.
    cbn [right_free] in Hfree. destruct (right_free l) eqn:Hl.
    + apply (Hspine w par); [done..|].
      intros ->. by rewrite bool_decide_eq_true_2 in Hfree.
    + pose proof (right_free_Leaf _ Hl) as Hne. cbn [ptrs] in *.
      destruct Ht as (_ & Htl & _). apply NoDup_app in Hnd as (Hndl & _).
      rewrite length_app in Hfuel.
      rewrite (head_ptrs_left l) by done.
      apply (IHlB w (Some a)); [done|done|done|lia].
  - intros w p this fuel Ht Hnd _ Hp Hfuel. destruct (right_free l) eqn:Hl.
    + apply (Hspine w (Some p)); [done..|]. intros _. eauto.
    + pose proof (right_free_Leaf _ Hl) as Hne. cbn [ptrs] in *.
      destruct Ht as (_ & Htl & _). apply NoDup_app in Hnd as (Hndl & _).
      rewrite length_app in Hfuel.
      rewrite (head_ptrs_left l) by done.
      apply (IHlB w (Some a)); [done|done|done|lia].
Qed.

Lemma clear_spec w this t sz :
  wf lt w this t → objects w !! this = Some (mkTreeMap (root_ptr t) sz) →
  right_free t = true →
  ∃ h',
    clear this w = Ok tt (mkWorld h' (<[this := mkTreeMap None 0]> (objects w)))
    ∧ (∀ b, b ∈ ptrs t → h' !! b = None)
    ∧ (∀ b, b ∉ ptrs t → h' !! b = nodes w !! b).
Proof.
  intros Hwf Hobj Hfree. pose proof Hwf as (_ & Ht & Hnd & _).
  destruct (clear_loop_spine t w None Ht Hnd Hfree) as (h' & Hdel & Hkeep & Hrun); [done|].
  exists h'. split; [|done].
  unfold clear. erewrite bind_Ok; [|by apply (cbegin_spec lt)].
  unfold cend. mrun.
  pose proof (ptrs_heap_size _ _ _ Ht Hnd) as Hsize.
  change (loop_bound w) with (S (base.size (nodes w))).
  replace (S (base.size (nodes w)))
    with (length (ptrs t) + S (base.size (nodes w) - length (ptrs t))) by lia.
  erewrite bind_Ok; [|rewrite Hrun; apply clear_loop_end].
  erewrite bind_Ok; [|by apply set_root_Ok].
  erewrite set_size_Ok; [|apply lookup_insert_eq].
  cbn [nodes objects root]. by rewrite insert_insert_eq.
Qed.

Lemma clear_undefined w this t :
  wf lt w this t → right_free t = false → clear this w = Undefined.
Proof.
  intros Hwf Hfree. pose proof Hwf as (_ & Ht & Hnd & _).
  unfold clear. erewrite bind_Ok; [|by apply (cbegin_spec lt)].
  unfold cend. mrun. apply bind_Undefined.
  rewrite first_or_ptrs by (by apply right_free_Leaf).
  apply (proj1 (clear_loop_undefined t) w None); [done..|].
  pose proof (ptrs_heap_size _ _ _ Ht Hnd) as Hsize.
  change (loop_bound w) with (S (base.size (nodes w))). lia.
Qed.

Lemma tree_operator_move_assign_spec w this other t t2 sz s2 :
  this ≠ other → wf lt w this t → wf lt w other t2 →
  objects w !! this = Some (mkTreeMap (root_ptr t) sz) →
  objects w !! other = Some (mkTreeMap (root_ptr t2) s2) →
  (∀ a, a ∈ ptrs t → a ∉ ptrs t2) → right_free t = true →
  ∃ w',
    operator_move_assign this other w = Ok tt w'
    ∧ wf lt w' this t2
    ∧ objects w' !! this = Some (mkTreeMap (root_ptr t2) s2)
    ∧ objects w' !! other = Some (mkTreeMap None s2)
    ∧ (∀ b, b ∈ ptrs t → nodes w' !! b = None)
    ∧ (∀ b, b ∉ ptrs t → nodes w' !! b = nodes w !! b).
Proof.
  intros Hne Hwf Hwf2 Hobj Hobj2 Hdisj Hfree.
  destruct (clear_spec w this t sz Hwf Hobj Hfree) as (h' & Hrun & Hdel & Hkeep).
  unfold operator_move_assign. rewrite bool_decide_eq_false_2 by done.
  erewrite bind_Ok; [|exact Hrun].
  erewrite bind_Ok; [|apply this_map_Some; cbn [objects]; by rewrite lookup_insert_ne].
  erewrite bind_Ok; [|apply set_root_Ok; cbn [objects]; apply lookup_insert_eq].
  cbn [nodes objects root size]. rewrite insert_insert_eq.
  erewrite bind_Ok; [|apply this_map_Some; cbn [objects]; by rewrite lookup_insert_ne].
  erewrite bind_Ok; [|apply set_size_Ok; cbn [objects]; apply lookup_insert_eq].
  cbn [nodes objects root size]. rewrite insert_insert_eq.
  erewrite set_root_Ok; [|cbn [objects]; by rewrite lookup_insert_ne].
  cbn [nodes objects root size].
  eexists. split; [done|]. cbn [nodes objects].
  assert (∀ x : TreeMap,
    <[other := x]> (<[this := mkTreeMap (root_ptr t2) s2]> (objects w)) !! this
    = Some (mkTreeMap (root_ptr t2) s2)) as Hthis.
  { intros x. rewrite lookup_insert_ne by done. apply lookup_insert_eq. }
  split_and!; try done.
  - destruct Hwf2 as (_ & Ht2 & Hnd2 & Hb2). split; [eexists; cbn [objects]; apply Hthis|].
    split; [|done]. cbn [nodes]. eapply is_tree_frame; [exact Ht2|].
    intros b Hb. apply Hkeep. intros Hin. by apply (Hdisj b).
  - apply lookup_insert_eq.
Qed.
End clearing.

Section assignment.
Context {K V : Type} `{!EqDecision K, !EqDecision V}.
Context (lt : relation K) `{!RelDecision lt, !StrictOrder lt, !Trichotomy lt}.
Variable default_value : V.

Local Abbreviation world := (@world K V).
Local Abbreviation tree := (@tree K V).
Implicit Types (w : world) (t : tree) (h : gmap node_pointer (@TreeNode K V)).

Lemma tree_operator_assign_spec w this other t t2 sz s2 :
  this ≠ other → wf lt w this t → wf lt w other t2 →
  objects w !! this = Some (mkTreeMap (root_ptr t) sz) →
  objects w !! other = Some (mkTreeMap (root_ptr t2) s2) →
  (∀ a, a ∈ ptrs t → a ∉ ptrs t2) → right_free t = true →
  ∃ w' t',
    operator_assign lt default_value this other w = Ok tt w'
    ∧ wf lt w' other t2 ∧ objects w' !! other = Some (mkTreeMap (root_ptr t2) s2)
    ∧ wf lt w' this t' ∧ entries t' = entries t2
    ∧ objects w' !! this
      = Some (mkTreeMap (root_ptr t') (size_t_wrap (Z.of_nat (length (entries t2)))))
    ∧ (∀ a, a ∈ ptrs t' → a ∉ ptrs t2).
Proof.
  intros Hne Hwf Hwf2 Hobj Hobj2 Hdisj Hfree.
  destruct (clear_spec lt w this t sz Hwf Hobj Hfree) as (h' & Hrun & Hdel & Hkeep).
  set (w1 := mkWorld h' (<[this := mkTreeMap None 0]> (objects w))) in *.
  assert (wf lt w1 other t2) as Hwf2'.
  { eapply wf_frame; [exact Hwf2| |].
    - cbn [objects w1]. by rewrite lookup_insert_ne.
    - intros b Hb. apply Hkeep. intros Hin. by apply (Hdisj b). }
  assert (objects w1 !! other = Some (mkTreeMap (root_ptr t2) s2)) as Hobj2'.
  { cbn [objects w1]. by rewrite lookup_insert_ne. }
  destruct (TreeMap_copy_spec lt default_value w1 this other t2 s2 Hne Hwf2' Hobj2')
    as (w' & t' & Hcopy & Hrest).
  exists w', t'. split; [|exact Hrest].
  unfold operator_assign. rewrite bool_decide_eq_false_2 by done.
  erewrite bind_Ok; [|exact Hrun]. fold w1.
  rewrite <- Hcopy. unfold TreeMap_copy, TreeMap_default, new_at.
  erewrite bind_Ok; [|reflexivity]. cbn [nodes objects w1].
  by rewrite insert_insert_eq.
Qed.
End assignment.

(** ** operator-- and the backward iteration *)
Section backward.
Context {K V : Type} `{!EqDecision K, !EqDecision V}.
Context (lt : relation K) `{!RelDecision lt}.

Local Abbreviation world := (@world K V).
Local Abbreviation tree := (@tree K V).
Implicit Types (w : world) (t : tree) (h : gmap node_pointer (@TreeNode K V)).

Lemma ascend_left_loop_mono n n' c w c' w' :
  ascend_left_loop n c w = Ok c' w' → n ≤ n' → ascend_left_loop n' c w = Ok c' w'.
Proof.
  revert n' c. induction n as [|n IH]; intros n' c Hrun Hle; [done|].
  destruct n' as [|n']; [lia|]. simpl in *. unfold bind in *.
  destruct (node_at (Some c) w) as [nd w1| | |] eqn:E; try done.
  apply node_at_inv in E as [-> _].
  destruct (parent nd) as [p|]; [|done].
  destruct (node_at (Some p) w) as [pn w1| | |] eqn:E; try done.
  apply node_at_inv in E as [-> _].
  case_bool_decide; [|done]. apply IH; [done|lia].
Qed.

Lemma ascend_left_loop_state n c w c' w' :
  ascend_left_loop n c w = Ok c' w' → w' = w.
Proof.
  revert c. induction n as [|n IH]; intros c Hrun; [done|].
  simpl in *. unfold bind in *.
  destruct (node_at (Some c) w) as [nd w1| | |] eqn:E; try done.
  apply node_at_inv in E as [-> _].
  destruct (parent nd) as [p|]; [|by injection Hrun].
  destruct (node_at (Some p) w) as [pn w1| | |] eqn:E; try done.
  apply node_at_inv in E as [-> _].
  case_bool_decide; [by eapply IH|by injection Hrun].
Qed.

Lemma climb_left_inv n c w x w' :
  climb_left n c w = Ok x w' →
  w' = w ∧ ∃ c' nd, ascend_left_loop n c w = Ok c' w ∧ nodes w !! c' = Some nd ∧ parent nd = x.
Proof.
  unfold climb_left. intros (c' & w1 & Hloop & Hrest)%bind_Ok_inv.
  pose proof (ascend_left_loop_state _ _ _ _ _ Hloop) as ->.
  apply bind_Ok_inv in Hrest as (nd & w2 & Hnd & Hret).
  apply node_at_inv in Hnd as [-> (a & [= <-] & Hnd)].
  injection Hret as <- <-. eauto 10.
Qed.

Lemma climb_left_stop w c n p pn fuel :
  nodes w !! c = Some n → parent n = Some p → nodes w !! p = Some pn →
  leftChild pn ≠ Some c →
  climb_left (S fuel) c w = Ok (Some p) w.
Proof.
  intros Hc Hp Hpn Hne. unfold climb_left. cbn [ascend_left_loop]. mrun. rewrite Hp. mrun.
  rewrite bool_decide_eq_false_2 by done. mrun. by rewrite Hp.
Qed.

Lemma climb_left_root w c n fuel :
  nodes w !! c = Some n → parent n = None → climb_left (S fuel) c w = Ok None w.
Proof.
  intros Hc Hp. unfold climb_left. cbn [ascend_left_loop]. mrun. rewrite Hp. mrun.
  by rewrite Hp.
Qed.

Lemma climb_left_step w c n p pn fuel :
  nodes w !! c = Some n → parent n = Some p → nodes w !! p = Some pn →
  leftChild pn = Some c →
  climb_left (S fuel) c w = climb_left fuel p w.
Proof.
  intros Hc Hp Hpn Hr. unfold climb_left. cbn [ascend_left_loop]. mrun. rewrite Hp. mrun.
  by rewrite bool_decide_eq_true_2 by done.
Qed.

Lemma last_ptrs_node (l : tree) a kv (r : tree) :
  last (ptrs (Node l a kv r)) = if bool_decide (r = Leaf) then Some a else last (ptrs r).
Proof.
  cbn [ptrs]. rewrite last_app, last_cons. destruct r as [|r1 a1 kv1 r2]; [done|].
  rewrite bool_decide_eq_false_2 by done. cbn [ptrs].
  rewrite last_app, last_cons. by destruct (last (ptrs r2)).
Qed.

Lemma rightmost_loop_spec fuel w par t a :
  is_tree (nodes w) par t → root_ptr t = Some a → tree_height t ≤ fuel →
  ∃ e, last (ptrs t) = Some e ∧ rightmost_loop fuel a w = Ok e w.
Proof.
  revert fuel par a. induction t as [|l _ a0 kv r IHr]; intros fuel par a Ht Ha Hf; [done|].
  rewrite last_ptrs_node. simpl in Ha, Hf. injection Ha as <-. destruct Ht as (Ha0 & _ & Hr).
  destruct fuel as [|fuel]; [lia|]. cbn [rightmost_loop]. mrun. cbn [rightChild].
  destruct r as [|rl ra rkv rr].
  - exists a0. done.
  - rewrite bool_decide_eq_false_2 by done.
    destruct (IHr fuel (Some a0) ra Hr eq_refl) as (e & He & Hrun); [simpl in *; lia|].
    exists e. done.
Qed.

Lemma chain_back_app w this entry xs ys :
  chain_back w this entry xs → chain_back w this (last_or xs entry) ys →
  chain_back w this entry (xs ++ ys).
Proof.
  revert entry. induction xs as [|x xs IH]; intros entry; simpl; [done|].
  intros [Hx Hxs] Hys. split; [done|]. apply IH; [done|].
  unfold last_or in *. rewrite last_cons in Hys. by destruct (last xs).
Qed.

Lemma chain_back_tree w this par t a entry n :
  is_tree (nodes w) par t → NoDup (ptrs t) → root_ptr t = Some a →
  isEmpty this w = Ok false w →
  climb_left n a w = Ok entry w → n + tree_height t ≤ loop_bound w →
  chain_back w this entry (ptrs t).
Proof.
  intros Ht Hnd Ha Hempty. revert par a entry n Ht Hnd Ha.
  induction t as [|l IHl a0 kv r IHr]; intros par a entry n Ht Hnd Ha Hclimb Hfuel; [done|].
  simpl in Ha, Hfuel. injection Ha as <-. pose proof Ht as (Ha0 & Hl & Hr).
  cbn [ptrs] in *.
  apply NoDup_app in Hnd as (Hndl & Hlr & Hndr).
  apply NoDup_cons in Hndr as (Ha0r & Hndr).
  apply chain_back_app.
  - destruct l as [|ll la lkv lr]; [done|].
    eapply (IHl (Some a0) la entry (S n)); [done|done|done| |simpl in *; lia].
    destruct Hl as (Hla & _).
    erewrite climb_left_step; [exact Hclimb|exact Hla|done|exact Ha0|done].
  - cbn [chain_back]. split.
    + unfold operator_dec. cbn [currentNode it_parent].
      erewrite bind_Ok; [|exact Hempty]. cbv iota. mrun. cbn [leftChild].
      destruct l as [|ll la lkv lr].
      * cbn [root_ptr]. apply climb_left_inv in Hclimb as (_ & c' & nd & Hloop & Hnd' & <-).
        erewrite bind_Ok; [|eapply ascend_left_loop_mono; [exact Hloop|lia]].
        mrun. unfold last_or. cbn [ptrs last]. by destruct (parent nd).
      * cbn [root_ptr].
        destruct (rightmost_loop_spec (loop_bound w) w (Some a0) (Node ll la lkv lr) la Hl eq_refl)
          as (e & He & Hrun); [simpl in *; lia|].
        mrun. unfold last_or. by rewrite He.
    + destruct r as [|rl ra rkv rr]; [done|].
      eapply (IHr (Some a0) ra (Some a0) 1); [done|done|done| |simpl in *; lia].
      destruct Hr as (Hra & _). eapply climb_left_stop; [exact Hra|done|exact Ha0|].
      cbn [leftChild]. intros Heq. apply root_ptr_in in Heq.
      apply (Hlr ra Heq). simpl. set_solver.
Qed.

Lemma ptrs_nil t : ptrs t = [] → t = Leaf.
Proof. destruct t as [|l a kv r]; [done|]. cbn [ptrs]. by destruct (ptrs l). Qed.

Lemma isEmpty_false w this m :
  objects w !! this = Some m → size m ≠ 0%Z → isEmpty this w = Ok false w.
Proof.
  intros Hobj Hsz. unfold isEmpty. mrun. by rewrite bool_decide_eq_false_2.
Qed.

Lemma chain_back_wf w this t sz :
  wf lt w this t → objects w !! this = Some (mkTreeMap (root_ptr t) sz) → sz ≠ 0%Z →
  chain_back w this None (ptrs t).
Proof.
  intros (_ & Ht & Hnd & _) Hobj Hsz. destruct t as [|l a kv r]; [done|].
  eapply (chain_back_tree w this None _ a None 1); [done|done|done| | |].
  - by eapply isEmpty_false.
  - destruct Ht as (Ha & _). by eapply climb_left_root.
  - pose proof (tree_height_bound _ _ _ Ht Hnd). lia.
Qed.

Lemma maxElement_spec w this t :
  wf lt w this t → maxElement this w = Ok (last (ptrs t)) w.
Proof.
  intros ([sz Hobj] & Ht & Hnd & _). unfold maxElement. mrun. cbn [root].
  destruct t as [|l a kv r]; cbn [root_ptr]; [done|].
  destruct (rightmost_loop_spec (loop_bound w) w None (Node l a kv r) a Ht eq_refl)
    as (e & He & Hrun).
  { pose proof (tree_height_bound _ _ _ Ht Hnd). lia. }
  mrun. by rewrite He.
Qed.

Lemma dec_end w this t sz :
  wf lt w this t → objects w !! this = Some (mkTreeMap (root_ptr t) sz) → sz ≠ 0%Z →
  operator_dec (mkConstIterator this None) w = Ok (mkConstIterator this (last (ptrs t))) w.
Proof.
  intros Hwf Hobj Hsz. unfold operator_dec. cbn [currentNode it_parent].
  erewrite bind_Ok; [|by eapply isEmpty_false]. cbv iota.
  by erewrite bind_Ok; [|by apply maxElement_spec].
Qed.

Lemma chain_back_lookup w this cs : ∀ entry i c c',
  chain_back w this entry cs → cs !! i = Some c → cs !! S i = Some c' →
  operator_dec (mkConstIterator this (Some c')) w = Ok (mkConstIterator this (Some c)) w.
Proof.
  induction cs as [|c0 cs IH]; intros entry i c c' Hchain Hc Hc'; [done|].
  destruct Hchain as [_ Hchain]. destruct i as [|i].
  - injection Hc as <-. destruct cs as [|c1 cs]; [done|]. injection Hc' as <-.
    by destruct Hchain as [Hdec _].
  - by eapply (IH _ i).
Qed.

(** Back from the node [k] to the first one. *)
Lemma traverse_back_prefix w this entry c0 cs kvs k : ∀ fuel c,
  NoDup (c0 :: cs) → chain_back w this entry (c0 :: cs) →
  Forall2 (λ a kv, ∃ n, nodes w !! a = Some n ∧ val n = kv) (c0 :: cs) kvs →
  (c0 :: cs) !! k = Some c → k < fuel →
  traverse_back_loop fuel (mkConstIterator this (Some c)) (mkConstIterator this (Some c0)) w
  = Ok (reverse (take k kvs)) w.
Proof.
  induction k as [|k IH]; intros fuel c Hnd Hchain Hvals Hc Hfuel;
    (destruct fuel as [|fuel]; [lia|]); cbn [traverse_back_loop]; unfold iterator_eq;
    cbn [currentNode].
  - injection Hc as <-. by rewrite bool_decide_eq_true_2.
  - rewrite bool_decide_eq_false_2.
    2:{ intros [= ->]. by apply (NoDup_lookup _ 0 (S k) c0 Hnd) in Hc. }
    assert (k < length (c0 :: cs)) as Hk by (apply lookup_lt_Some in Hc; lia).
    destruct (lookup_lt_is_Some_2 _ _ Hk) as [c1 Hc1].
    destruct (Forall2_lookup_l _ _ _ _ _ Hvals Hc1) as (kv & Hkv & n & Hn & <-).
    erewrite bind_Ok; [|by eapply chain_back_lookup].
    erewrite bind_Ok; [|unfold operator_deref; cbn [currentNode]; by mrun].
    erewrite bind_Ok; [|apply (IH fuel c1); [done|done|done|done|lia]].
    by rewrite (take_S_r _ _ _ Hkv), reverse_snoc.
Qed.

Lemma traverse_back_spec w this t sz :
  wf lt w this t → objects w !! this = Some (mkTreeMap (root_ptr t) sz) →
  t = Leaf ∨ sz ≠ 0%Z →
  traverse_back this w = Ok (reverse (entries t)) w.
Proof.
  intros Hwf Hobj Hsz. pose proof Hwf as (_ & Ht & Hnd & _).
  unfold traverse_back. erewrite bind_Ok; [|by apply (cbegin_spec lt)].
  unfold cend. mrun. change (loop_bound w) with (S (base.size (nodes w))).
  destruct (decide (t = Leaf)) as [->|Hne]; [done|].
  destruct Hsz as [?|Hsz]; [done|].
  pose proof (ptrs_heap_size _ _ _ Ht Hnd) as Hsize.
  pose proof (entries_of_ptrs _ _ _ Ht) as Hvals.
  destruct (ptrs t) as [|c0 cs] eqn:Hcs; [by apply ptrs_nil in Hcs|].
  cbn [first_or traverse_back_loop]. unfold iterator_eq. cbn [currentNode].
  rewrite bool_decide_eq_false_2 by done.
  erewrite bind_Ok; [|by eapply dec_end]. rewrite Hcs.
  destruct (last (c0 :: cs)) as [cl|] eqn:Hlast; [|by rewrite last_cons in Hlast; destruct (last cs)].
  rewrite last_lookup in Hlast. cbn [length Init.Nat.pred] in Hlast.
  destruct (Forall2_lookup_l _ _ _ _ _ Hvals Hlast) as (kv & Hkv & n & Hn & <-).
  erewrite bind_Ok; [|unfold operator_deref; cbn [currentNode]; by mrun].
  erewrite bind_Ok; [|eapply (traverse_back_prefix w this None c0 cs (entries t) (length cs));
    [done| |done|done|simpl in Hsize; lia]].
  2:{ rewrite <- Hcs. by eapply chain_back_wf. }
  cbn [ret]. f_equal. rewrite <- reverse_snoc. f_equal.
  rewrite <- (take_S_r _ _ _ Hkv). apply take_ge.
  apply Forall2_length in Hvals. simpl in Hvals. lia.
Qed.
End backward.

(** ** Lists with repeated keys *)
Section tree_values.
Context {K V : Type} `{!EqDecision K, !EqDecision V}.
Context (lt : relation K) `{!RelDecision lt, !StrictOrder lt, !Trichotomy lt}.
Variable default_value : V.

Local Abbreviation world := (@world K V).
Local Abbreviation tree := (@tree K V).
Implicit Types (w : world) (t : tree) (h : gmap node_pointer (@TreeNode K V)).

Lemma StronglySorted_NoDup (l : list K) : StronglySorted lt l → NoDup l.
Proof.
  induction 1 as [|x l Hl IH Hx]; constructor; [|done].
  intros Hin. eapply Forall_forall in Hx; [|exact Hin].
  exact (StrictOrder_Irreflexive _ Hx).
Qed.

Lemma keys_NoDup t : bst lt t → NoDup (keys t).
Proof. intros Hb. by apply StronglySorted_NoDup, (bst_sorted lt). Qed.

Lemma entries_update_tree h par t p n x :
  is_tree h par t → NoDup (ptrs t) → h !! p = Some n → p ∈ ptrs t →
  ∃ P Q, entries t = P ++ val n :: Q
         ∧ entries (update_tree p x t) = P ++ (key n, x) :: Q.
Proof.
  revert par. induction t as [|l IHl a kv r IHr]; intros par Ht Hnd Hn Hp; [set_solver|].
  cbn [ptrs] in *. destruct Ht as (Ha & Hl & Hr).
  apply NoDup_app in Hnd as (Hndl & Hlr & [Har Hndr]%NoDup_cons).
  cbn [update_tree entries].
  apply elem_of_app in Hp as [Hp|[->|Hp]%elem_of_cons].
  - assert (a ≠ p) as Hne by (intros ->; apply (Hlr p Hp); set_solver).
    assert (p ∉ ptrs r) as Hpr by (intros Hin; apply (Hlr p Hp); set_solver).
    rewrite bool_decide_eq_false_2 by done. rewrite (update_tree_absent p x r) by done.
    destruct (IHl _ Hl Hndl Hn Hp) as (P & Q & -> & ->).
    exists P, (Q ++ kv :: entries r). by rewrite <- !app_assoc.
  - rewrite Ha in Hn. injection Hn as <-. cbn [val key fst].
    assert (a ∉ ptrs l) as Hal by (intros Hin; apply (Hlr a Hin); set_solver).
    rewrite bool_decide_eq_true_2 by done.
    rewrite !update_tree_absent by done. by exists (entries l), (entries r).
  - assert (a ≠ p) as Hne by (by intros ->).
    assert (p ∉ ptrs l) as Hpl by (intros Hin; apply (Hlr p Hin); set_solver).
    rewrite bool_decide_eq_false_2 by done. rewrite (update_tree_absent p x l) by done.
    destruct (IHr _ Hr Hndr Hn Hp) as (P & Q & -> & ->).
    exists (entries l ++ kv :: P), Q. by rewrite <- !app_assoc.
Qed.

(** The assignment [this->operator[](k) = x]. *)
Lemma tree_assign_spec w this t z k x :
  wf lt w this t → objects w !! this = Some (mkTreeMap (root_ptr t) z) →
  ∃ w' t',
    (r <- operator_index lt default_value this k ;; store r x) w = Ok tt w'
    ∧ wf lt w' this t'
    ∧ (∀ k' v', (k', v') ∈ entries t'
                ↔ (k' = k ∧ v' = x) ∨ (k' ≠ k ∧ (k', v') ∈ entries t))
    ∧ length (entries t) ≤ length (entries t')
    ∧ objects w' !! this
      = Some (mkTreeMap (root_ptr t')
                (add_size (length (entries t') - length (entries t)) z)).
Proof.
  intros Hwf Hobj. pose proof Hwf as (_ & Ht & Hnd & Hb).
  destruct (lookup_tree lt k t) as [p|] eqn:Hlook.
  - destruct (lookup_tree_Some lt _ _ _ _ _ Ht Hlook) as (Hp & n & Hn & Hkey & _).
    destruct (store_spec lt w this t p n x Hwf Hn Hp) as (w' & Hstore & Hwf' & Hobj' & _).
    destruct (entries_update_tree _ _ t p n x Ht Hnd Hn Hp) as (P & Q & HE & HE').
    exists w', (update_tree p x t). split.
    { erewrite bind_Ok; [|by eapply (operator_index_found lt)]. exact Hstore. }
    split; [done|]. rewrite HE', HE. split_and!.
    + destruct n as [[k0 v0] ? ? ? ?]. cbn [key val fst] in *. subst k0.
      apply replace_middle. rewrite <- HE. by apply keys_NoDup.
    + by rewrite !length_app.
    + rewrite Hobj', Hobj, root_ptr_update_tree. do 3 f_equal.
      rewrite !length_app. cbn [length]. by rewrite Nat.sub_diag.
  - assert (k ∉ keys t) as Hk.
    { intros Hin. apply list_elem_of_fmap in Hin as ([k' v] & -> & Hin).
      destruct (lookup_tree_bst lt _ _ _ _ _ Ht Hb Hin) as (a & Ha & _).
      simpl in *. congruence. }
    destruct (operator_index_new lt default_value w this t k z Hwf Hobj Hlook)
      as (a & w1 & Hrun & Hat & Hwf1 & Hobj1 & (n & Hn & Hval) & _).
    assert (ptrs (insert_tree lt default_value a k t) ≡ₚ a :: ptrs t) as Hptrs
      by (by apply ptrs_insert_tree).
    assert (a ∈ ptrs (insert_tree lt default_value a k t)) as Hain
      by (rewrite Hptrs; set_solver).
    destruct (store_spec lt w1 this _ a n x Hwf1 Hn Hain) as (w2 & Hstore & Hwf2 & Hobj2 & _).
    assert (entries (update_tree a x (insert_tree lt default_value a k t))
            ≡ₚ (k, x) :: entries t) as HE.
    { pose proof Hwf1 as (_ & Ht1 & Hnd1 & _).
      destruct (entries_update_tree _ _ _ a n x Ht1 Hnd1 Hn Hain) as (P & Q & HE1 & ->).
      rewrite <- Permutation_middle. rewrite Hval in HE1. unfold key. rewrite Hval. cbn [fst].
      f_equiv. apply (Permutation_cons_inv (a := (k, default_value))).
      rewrite <- (entries_insert_tree lt default_value a k t Hlook), HE1.
      apply Permutation_middle. }
    exists w2, (update_tree a x (insert_tree lt default_value a k t)).
    split; [by erewrite bind_Ok|]. split; [done|]. split_and!.
    + intros k' v'. rewrite HE, elem_of_cons. split.
      * intros [[= -> ->]|Hin]; [by left|]. right. split; [|done].
        intros ->. apply Hk. by apply (list_elem_of_fmap_2 fst _ (k, v')).
      * intros [[-> ->]|[_ ?]]; auto.
    + rewrite HE. simpl. lia.
    + rewrite Hobj2, Hobj1, lookup_insert_eq, root_ptr_update_tree. do 3 f_equal.
      rewrite HE. cbn [length].
      by replace (S (length (entries t)) - length (entries t)) with 1 by lia.
Qed.

Lemma tree_insert_list_values l : ∀ w this t z,
  wf lt w this t → objects w !! this = Some (mkTreeMap (root_ptr t) z) →
  ∃ w' t',
    insert_list lt default_value this l w = Ok tt w'
    ∧ wf lt w' this t'
    ∧ (∀ k v, (k, v) ∈ entries t'
              ↔ last_value l k = Some v ∨ (last_value l k = None ∧ (k, v) ∈ entries t))
    ∧ length (entries t) ≤ length (entries t')
    ∧ objects w' !! this
      = Some (mkTreeMap (root_ptr t')
                (add_size (length (entries t') - length (entries t)) z)).
Proof.
  induction l as [|[k x] l IH]; intros w this t z Hwf Hobj.
  - exists w, t. split; [done|]. split; [done|]. split_and!.
    + intros k v. simpl. naive_solver.
    + done.
    + by rewrite Nat.sub_diag.
  - destruct (tree_assign_spec w this t z k x Hwf Hobj)
      as (w1 & t1 & Hrun1 & Hwf1 & Hin1 & Hle1 & Hobj1).
    destruct (IH w1 this t1 _ Hwf1 Hobj1) as (w' & t' & Hrun & Hwf' & Hin' & Hle & Hobj').
    exists w', t'. split.
    { cbn [insert_list fst snd]. rewrite <- bind_assoc. by erewrite bind_Ok. }
    split; [done|]. split_and!.
    + intros k' v'. rewrite Hin', Hin1. cbn [last_value fst snd].
      destruct (last_value l k') as [y|]; [naive_solver|].
      case_bool_decide; naive_solver.
    + lia.
    + rewrite Hobj', <- add_size_add. do 3 f_equal. lia.
Qed.

Lemma TreeMap_of_list_values w this l :
  ∃ w' t,
    TreeMap_of_list lt default_value this l w = Ok tt w'
    ∧ wf lt w' this t
    ∧ (∀ k v, (k, v) ∈ entries t ↔ last_value l k = Some v)
    ∧ objects w' !! this
      = Some (mkTreeMap (root_ptr t) (size_t_wrap (Z.of_nat (length (entries t))))).
Proof.
  unfold TreeMap_of_list, TreeMap_default, new_at.
  set (w1 := mkWorld (nodes w) (<[this := mkTreeMap None 0]> (objects w))).
  assert (wf lt w1 this Leaf) as Hwf1.
  { split; [eexists; apply lookup_insert_eq|]. split; [done|]. split; [constructor|done]. }
  destruct (tree_insert_list_values l w1 this Leaf 0 Hwf1) as
    (w' & t & Hrun & Hwf & Hin & _ & Hobj); [apply lookup_insert_eq|].
  exists w', t. split.
  { erewrite bind_Ok; [|reflexivity]. exact Hrun. }
  split; [done|]. split.
  - intros k v. rewrite Hin. cbn [entries]. set_solver.
  - rewrite Hobj. do 2 f_equal. cbn [entries length]. rewrite Nat.sub_0_r.
    pose proof (add_size_wrap (length (entries t)) 0 eq_refl) as Hsz.
    by rewrite Z.add_0_l in Hsz.
Qed.
End tree_values.

(** ** The steps of the iterators, the destructor *)
Section steps.
Context {K V : Type} `{!EqDecision K, !EqDecision V}.
Context (lt : relation K) `{!RelDecision lt}.

Local Abbreviation world := (@world K V).
Local Abbreviation tree := (@tree K V).
Implicit Types (w : world) (t : tree) (h : gmap node_pointer (@TreeNode K V)).

Lemma chain_lookup w this cs : ∀ exit i c c',
  chain w this cs exit → cs !! i = Some c → cs !! S i = Some c' →
  operator_inc (mkConstIterator this (Some c)) w = Ok (mkConstIterator this (Some c')) w.
Proof.
  induction cs as [|c0 cs IH]; intros exit i c c' Hchain Hc Hc'; [done|].
  destruct Hchain as [Hinc Hchain]. destruct i as [|i].
  - injection Hc as <-. destruct cs as [|c1 cs]; [by simpl in Hc'|]. injection Hc' as <-. exact Hinc.
  - by eapply (IH _ i).
Qed.

Lemma StronglySorted_reverse (l : list K) :
  StronglySorted lt l → StronglySorted (flip lt) (reverse l).
Proof.
  induction 1 as [|x l Hl IH Hx]; [constructor|].
  rewrite reverse_cons. apply StronglySorted_app_2; [|done|repeat constructor].
  intros x1 x2 Hx1 Hx2%list_elem_of_singleton. subst x2.
  rewrite elem_of_reverse in Hx1.
  eapply Forall_forall in Hx; [exact Hx|done].
Qed.

Lemma right_free_subtree a t l kv r :
  subtree a t = Some (Node l a kv r) → r ≠ Leaf → right_free t = false.
Proof.
  intros Hsub Hr. induction t as [|l0 IHl b kv0 r0 IHr]; [done|].
  cbn [subtree right_free] in *. case_bool_decide as Hb.
  - injection Hsub as -> _ _ ->. by rewrite bool_decide_eq_false_2.
  - destruct (subtree a l0) as [s|] eqn:Hl0.
    + rewrite IHl by done. apply andb_false_r.
    + destruct r0 as [|? ? ? ?]; [done|]. by rewrite bool_decide_eq_false_2.
Qed.

Lemma destructor_spec w this t sz :
  wf lt w this t → objects w !! this = Some (mkTreeMap (root_ptr t) sz) →
  right_free t = true →
  ∃ h',
    TreeMap_destructor this w = Ok tt (mkWorld h' (delete this (objects w)))
    ∧ (∀ b, b ∈ ptrs t → h' !! b = None)
    ∧ (∀ b, b ∉ ptrs t → h' !! b = nodes w !! b).
Proof.
  intros Hwf Hobj Hfree.
  destruct (clear_spec lt w this t sz Hwf Hobj Hfree) as (h' & Hrun & Hdel & Hkeep).
  exists h'. split; [|done]. unfold TreeMap_destructor.
  erewrite bind_Ok; [|exact Hrun]. mrun. cbn [nodes objects put].
  by rewrite delete_insert_eq.
Qed.
End steps.

(** ** Which nodes an operation touches *)
Section node_pairs.
Context {K V : Type} `{!EqDecision K, !EqDecision V}.
Context (lt : relation K) `{!RelDecision lt}.
Variable default_value : V.

Local Abbreviation world := (@world K V).
Local Abbreviation tree := (@tree K V).
Implicit Types (w : world) (t : tree) (h : gmap node_pointer (@TreeNode K V)).

(** Every node of [h] other than [a] is a node of [h'] with the same pair. *)
Local Abbreviation kept a h h' :=
  (∀ c n, Some c ≠ a → h !! c = Some n → ∃ n', h' !! c = Some n' ∧ val n' = val n).

Lemma kept_refl (a : option node_pointer) h : kept a h h.
Proof. eauto. Qed.

Lemma kept_trans (a : option node_pointer) h1 h2 h3 :
  kept a h1 h2 → kept a h2 h3 → kept a h1 h3.
Proof.
  intros H12 H23 c n Hc Hn. destruct (H12 c n Hc Hn) as (n2 & Hn2 & E2).
  destruct (H23 c n2 Hc Hn2) as (n3 & Hn3 & E3). exists n3. split; [done|congruence].
Qed.

Lemma this_map_inv w this m w' : this_map this w = Ok m w' → w' = w.
Proof.
  unfold this_map, bind, get, deref. simpl. destruct (objects w !! this); [|done].
  by intros [= _ <-].
Qed.

Lemma set_map_nodes w this m w' : set_map this m w = Ok tt w' → nodes w' = nodes w.
Proof.
  unfold set_map. intros H. apply bind_Ok_inv in H as (m0 & w0 & H0 & H).
  apply this_map_inv in H0 as ->. by injection H as <-.
Qed.

Lemma set_root_nodes w this p w' : set_root this p w = Ok tt w' → nodes w' = nodes w.
Proof.
  unfold set_root. intros H. apply bind_Ok_inv in H as (m0 & w0 & H0 & H).
  apply this_map_inv in H0 as ->. by apply set_map_nodes in H.
Qed.

Lemma set_size_nodes w this z w' : set_size this z w = Ok tt w' → nodes w' = nodes w.
Proof.
  unfold set_size. intros H. apply bind_Ok_inv in H as (m0 & w0 & H0 & H).
  apply this_map_inv in H0 as ->. by apply set_map_nodes in H.
Qed.

Lemma set_node_inv w a n w' :
  set_node a n w = Ok tt w' →
  (∃ old, nodes w !! a = Some old) ∧ nodes w' = <[a := n]> (nodes w).
Proof.
  unfold set_node. intros H. apply bind_Ok_inv in H as (n0 & w0 & H0 & H).
  apply node_at_inv in H0 as (-> & b & [= <-] & Hb). injection H as <-. eauto.
Qed.

Lemma delete_node_inv w a w' :
  delete_node a w = Ok tt w' → nodes w' = delete a (nodes w).
Proof.
  unfold delete_node. intros H. apply bind_Ok_inv in H as (n0 & w0 & H0 & H).
  apply node_at_inv in H0 as (-> & b & [= <-] & Hb). by injection H as <-.
Qed.

Lemma new_node_inv w n a w' :
  new_node n w = Ok a w' → nodes w !! a = None ∧ nodes w' = <[a := n]> (nodes w).
Proof.
  unfold new_node, bind, get, put, ret. simpl. intros [= <- <-]. simpl. split; [|done].
  apply not_elem_of_dom, is_fresh.
Qed.

Lemma set_node_kept w a n w' x :
  set_node a n w = Ok tt w' → (∀ old, nodes w !! a = Some old → val n = val old) →
  kept x (nodes w) (nodes w').
Proof.
  intros H Hval. apply set_node_inv in H as ((old & Hold) & ->). intros c m _ Hm.
  destruct (decide (c = a)) as [->|Hca].
  - rewrite lookup_insert_eq. exists n. split; [done|]. rewrite Hold in Hm.
    injection Hm as <-. by apply Hval.
  - rewrite lookup_insert_ne by done. eauto.
Qed.

Lemma write_slot_kept w this s q w' x :
  write_slot this s q w = Ok tt w' → kept x (nodes w) (nodes w').
Proof.
  destruct s as [|p|p]; simpl; intros H.
  - apply set_root_nodes in H as ->. apply kept_refl.
  - apply bind_Ok_inv in H as (n0 & w0 & H0 & H).
    apply node_at_inv in H0 as (-> & b & [= <-] & Hb).
    eapply set_node_kept; [exact H|]. intros old Hold. simpl. congruence.
  - apply bind_Ok_inv in H as (n0 & w0 & H0 & H).
    apply node_at_inv in H0 as (-> & b & [= <-] & Hb).
    eapply set_node_kept; [exact H|]. intros old Hold. simpl. congruence.
Qed.

Lemma read_slot_inv w this s r w' : read_slot this s w = Ok r w' → w' = w.
Proof.
  destruct s as [|p|p]; simpl; intros H; apply bind_Ok_inv in H as (n0 & w0 & H0 & H).
  - apply this_map_inv in H0 as ->. by injection H as _ <-.
  - apply node_at_inv in H0 as (-> & _). by injection H as _ <-.
  - apply node_at_inv in H0 as (-> & _). by injection H as _ <-.
Qed.

Lemma index_loop_inv n this k : ∀ s par w r w',
  index_loop lt n this k s par w = Ok r w' → w' = w.
Proof.
  induction n as [|n IH]; intros s par w r w'; simpl; [done|]. intros H.
  apply bind_Ok_inv in H as (cur & w0 & H0 & H). apply read_slot_inv in H0 as ->.
  destruct cur as [c|]; [|by injection H as _ <-].
  apply bind_Ok_inv in H as (n0 & w0 & H0 & H). apply node_at_inv in H0 as (-> & _).
  repeat case_bool_decide; try (by injection H as _ <-); by eapply IH.
Qed.

(** [operator[]] frees no node and changes the pair of none. *)
Lemma operator_index_kept w this k p w' :
  operator_index lt default_value this k w = Ok p w' → kept None (nodes w) (nodes w').
Proof.
  unfold operator_index. intros H.
  apply bind_Ok_inv in H as (m & w0 & H0 & H). apply this_map_inv in H0 as ->.
  assert (∀ par w1 (f : node_pointer → M world unit),
    (∀ a wa wb, f a wa = Ok tt wb → kept None (nodes wa) (nodes wb)) →
    (a <- new_node (mkTreeNode (k, default_value) par None None 0) ;;
     f a ;;; m' <- this_map this ;; set_size this (size_t_wrap (size m' + 1)) ;;; ret a) w1
      = Ok p w' → kept None (nodes w1) (nodes w')) as Hnew.
  { clear. intros par w1 f Hf H.
    apply bind_Ok_inv in H as (a & w2 & Ha & H). apply new_node_inv in Ha as (Hfresh & E2).
    apply bind_Ok_inv in H as ([] & w3 & H3 & H). pose proof (Hf _ _ _ H3) as Hk3.
    apply bind_Ok_inv in H as (m' & w4 & H4 & H). apply this_map_inv in H4 as ->.
    apply bind_Ok_inv in H as ([] & w5 & H5 & H). apply set_size_nodes in H5.
    injection H as _ <-. rewrite H5. eapply kept_trans; [|exact Hk3].
    rewrite E2. intros c n _ Hc. exists n. split; [|done].
    rewrite lookup_insert_ne; [done|]. intros <-. congruence. }
  destruct (root m) as [r0|].
  - apply bind_Ok_inv in H as (w0 & w1 & H0 & H). injection H0 as <- <-.
    apply bind_Ok_inv in H as (r & w1 & H0 & H). apply index_loop_inv in H0 as ->.
    apply bind_Ok_inv in H as (cur & w1 & H0 & H). apply read_slot_inv in H0 as ->.
    destruct cur as [c|]; [injection H as _ <-; apply kept_refl|].
    eapply (Hnew _ _ (λ a, write_slot this r.1 (Some a))); [|exact H].
    intros a wa wb Hw. by eapply write_slot_kept.
  - eapply (Hnew _ _ (λ a, set_root this (Some a))); [|exact H].
    intros a wa wb Hw. apply set_root_nodes in Hw as ->. apply kept_refl.
Qed.

(** Writing through a reference changes the pair of that node only. *)
Lemma store_kept w r x w' :
  store r x w = Ok tt w' → kept (Some r) (nodes w) (nodes w').
Proof.
  unfold store. intros H. apply bind_Ok_inv in H as (n0 & w0 & H0 & H).
  apply node_at_inv in H0 as (-> & b & [= <-] & Hb).
  apply set_node_inv in H as (_ & ->). intros c n Hc Hn. exists n. split; [|done].
  rewrite lookup_insert_ne; [done|]. congruence.
Qed.

(** [remove(it)] frees the node of [it] and changes the pair of no other. *)
Lemma remove_at_kept w this a w' :
  remove_at this (mkConstIterator this (Some a)) w = Ok tt w' →
  nodes w' !! a = None ∧ kept (Some a) (nodes w) (nodes w').
Proof.
  unfold remove_at, cend, iterator_eq. intros H.
  apply bind_Ok_inv in H as (e & w0 & H0 & H). injection H0 as <- <-. simpl in H.
  apply bind_Ok_inv in H as (a' & w0 & H0 & H). injection H0 as <- <-.
  apply bind_Ok_inv in H as (n & w0 & H0 & H). apply node_at_inv in H0 as (-> & _).
  apply bind_Ok_inv in H as (s & w0 & H0 & H).
  assert (w0 = w) as ->.
  { destruct (parent n) as [p|]; [|by injection H0 as _ <-].
    apply bind_Ok_inv in H0 as (pn & w1 & H1 & H0). apply node_at_inv in H1 as (-> & _).
    simpl in H0. by destruct (bool_decide (leftChild pn = Some a)); injection H0 as _ <-. }
  apply bind_Ok_inv in H as ([] & w1 & H1 & H).
  assert (kept (Some a) (nodes w) (nodes w1)) as Hk1.
  { destruct (bool_decide (leftChild n = None) && bool_decide (rightChild n = None)).
    - by eapply write_slot_kept.
    - apply bind_Ok_inv in H1 as (b & w2 & H2 & H1).
      assert (w2 = w) as ->.
      { by destruct (if bool_decide (rightChild n = None) then leftChild n else rightChild n);
          [injection H2 as _ <-|]. }
      apply bind_Ok_inv in H1 as (bn & w2 & H2' & H1).
      apply node_at_inv in H2' as (-> & b' & Hb' & Hbn).
      assert (b' = b) as ->.
      { rewrite Hb' in H2. by injection H2. }
      apply bind_Ok_inv in H1 as ([] & w3 & H3 & H1).
      eapply kept_trans; [|by eapply write_slot_kept].
      eapply set_node_kept; [exact H3|]. intros old Hold. simpl. congruence. }
  apply bind_Ok_inv in H as ([] & w2 & H2 & H). apply delete_node_inv in H2.
  apply bind_Ok_inv in H as (m & w3 & H3 & H). apply this_map_inv in H3 as ->.
  apply set_size_nodes in H. rewrite H, H2. split; [by rewrite lookup_delete_eq|].
  eapply kept_trans; [exact Hk1|]. intros c n' Hc Hn'. exists n'. split; [|done].
  rewrite lookup_delete_ne; [done|]. congruence.
Qed.

(** The nodes that [remove] takes out of the tree. *)
Lemma ptrs_remove_tree_split a t l kv r :
  NoDup (ptrs t) → subtree a t = Some (Node l a kv r) →
  ∃ pre post,
    ptrs t = pre ++ ptrs l ++ a :: ptrs r ++ post
    ∧ ptrs (remove_tree a t)
      = pre ++ ptrs (if bool_decide (r = Leaf) then l else r) ++ post.
Proof.
  induction t as [|l0 IHl a0 kv0 r0 IHr]; simpl; [done|]. intros Hnd.
  apply NoDup_app in Hnd as (Hndl & Hlr & Hndr).
  apply NoDup_cons in Hndr as (Ha0r & Hndr).
  destruct (decide (a0 = a)) as [->|Haa].
  - rewrite !(bool_decide_eq_true_2 (a = a)) by done.
    intros [= -> -> ->]. exists [], []. by rewrite !app_nil_r.
  - rewrite !(bool_decide_eq_false_2 (a0 = a)) by done.
    destruct (subtree a l0) as [s|] eqn:El.
    + intros [= ->]. destruct (IHl Hndl eq_refl) as (pre & post & E1 & E2).
      assert (a ∈ ptrs l0) as Hal.
      { destruct (decide (a ∈ ptrs l0)); [done|]. by rewrite subtree_None in El. }
      rewrite (remove_tree_absent a r0).
      2:{ intros Hi. eapply Hlr; [exact Hal|set_solver]. }
      exists pre, (post ++ a0 :: ptrs r0). simpl. rewrite E1, E2.
      by rewrite <- !app_assoc, <- !app_comm_cons, <- !app_assoc.
    + intros Hsub. destruct (IHr Hndr Hsub) as (pre & post & E1 & E2).
      rewrite (remove_tree_absent a l0).
      2:{ intros Hi. destruct (subtree_is_Some _ _ Hi) as [? ?]. congruence. }
      exists (ptrs l0 ++ a0 :: pre), post. simpl. rewrite E1, E2.
      by rewrite <- !app_assoc, <- !app_comm_cons.
Qed.

Lemma dropped_subtree a t l kv r c :
  NoDup (ptrs t) → subtree a t = Some (Node l a kv r) → r ≠ Leaf →
  c ∈ ptrs l → c ∈ ptrs t ∧ c ≠ a ∧ c ∉ ptrs (remove_tree a t).
Proof.
  intros Hnd Hsub Hr Hc.
  destruct (ptrs_remove_tree_split a t l kv r Hnd Hsub) as (pre & post & E1 & E2).
  rewrite bool_decide_eq_false_2 in E2 by done. rewrite E1 in Hnd |- *. rewrite E2.
  apply NoDup_app in Hnd as (_ & Hpre & Hnd).
  apply NoDup_app in Hnd as (_ & Hl & _).
  split; [set_solver|]. split.
  - intros ->. apply (Hl a Hc). set_solver.
  - intros Hin. apply elem_of_app in Hin as [Hin|Hin].
    + apply (Hpre c Hin). set_solver.
    + apply (Hl c Hc). set_solver.
Qed.

End node_pairs.
End TreeMapFacts.

(** * The claims of the specification *)

(** C10: copy-assigning or move-assigning a map to itself, for either
    container, returns at the [this == &other] test and leaves the whole
    state as it was: the object, its size and every pair it holds. *)
Theorem C10_self_assignment_is_identity
    {K V : Type} `{!EqDecision K, !EqDecision V}
    (lt : relation K) `{!RelDecision lt} (hash : K → N) (default_value : V)
    (this : loc) (hw : gmap loc (@HashMap.HashMap K V)) (tw : @TreeMap.world K V) :
  HashMap.operator_assign hash default_value this this hw = Ok tt hw
  ∧ HashMap.operator_move_assign this this hw = Ok tt hw
  ∧ TreeMap.operator_assign lt default_value this this tw = Ok tt tw
  ∧ TreeMap.operator_move_assign this this tw = Ok tt tw.
Proof.
  unfold HashMap.operator_assign, HashMap.operator_move_assign,
    TreeMap.operator_assign, TreeMap.operator_move_assign.
  by rewrite !bool_decide_eq_true_2 by done.
Qed.

(** C8: after any sequence of insertions into a new TreeMap, the forward
    iteration from [begin()] to [end()] returns, and the keys it visits are
    strictly increasing and are exactly the inserted keys; inserting
    5, 3, 8, 1, 4 yields 1, 3, 4, 5, 8. *)
Theorem C8_forward_iteration_strictly_increasing
    {K V : Type} `{!EqDecision K, !EqDecision V}
    (lt : relation K) `{!RelDecision lt, !StrictOrder lt, !Trichotomy lt}
    (default_value : V) (this : loc) (ks : list K) (w0 : @TreeMap.world K V) :
  (∃ l w',
      (TreeMap.TreeMap_default this ;;;
       TreeMap.insert_keys lt default_value this ks ;;;
       TreeMap.traverse this) w0 = Ok l w'
      ∧ StronglySorted lt l.*1
      ∧ ∀ k, k ∈ l.*1 ↔ k ∈ ks)
  ∧ (∃ w',
      (TreeMap.TreeMap_default 1%positive ;;;
       TreeMap.insert_keys Z.lt 0%Z 1%positive [5; 3; 8; 1; 4]%Z ;;;
       l <- TreeMap.traverse 1%positive ;; ret l.*1) (TreeMap.mkWorld ∅ ∅)
      = Ok [1; 3; 4; 5; 8]%Z w').
Proof.
  split; [|eexists; vm_compute; reflexivity].
  destruct (TreeMapFacts.wf_default lt w0 this) as (w1 & Hrun1 & Hwf1 & _).
  destruct (TreeMapFacts.insert_keys_spec lt default_value w1 this _ ks Hwf1)
    as (w2 & t & Hrun2 & Hwf2 & Hkeys).
  exists (TreeMap.entries t), w2. split; [|split].
  - erewrite bind_Ok; [|exact Hrun1]. erewrite bind_Ok; [|exact Hrun2].
    by apply (TreeMapFacts.traverse_spec lt).
  - destruct Hwf2 as (_ & _ & _ & Hb). by apply (TreeMapFacts.bst_sorted lt).
  - intros k. fold (TreeMap.keys t). rewrite Hkeys. set_solver.
Qed.

Lemma C8_witness :
  (∃ l w',
      (TreeMap.TreeMap_default 1%positive ;;;
       TreeMap.insert_keys Z.lt 0%Z 1%positive [5; 3; 8; 1; 4]%Z ;;;
       TreeMap.traverse 1%positive) (TreeMap.mkWorld ∅ ∅) = Ok l w'
      ∧ StronglySorted Z.lt l.*1
      ∧ ∀ k, k ∈ l.*1 ↔ k ∈ [5; 3; 8; 1; 4]%Z)
  ∧ (∃ w',
      (TreeMap.TreeMap_default 1%positive ;;;
       TreeMap.insert_keys Z.lt 0%Z 1%positive [5; 3; 8; 1; 4]%Z ;;;
       l <- TreeMap.traverse 1%positive ;; ret l.*1) (TreeMap.mkWorld ∅ ∅)
      = Ok [1; 3; 4; 5; 8]%Z w').
Proof.
  exact (C8_forward_iteration_strictly_increasing Z.lt 0%Z
           1%positive [5; 3; 8; 1; 4]%Z (TreeMap.mkWorld ∅ ∅)).
Defined.

Lemma wf_tree_5_3_8 :
  TreeMap.wf Z.lt (int_tree_world [(5, 50); (3, 30); (8, 80)]%Z) 1%positive tree_5_3_8.
Proof.
  split; [|split; [|split]].
  - by exists 3%Z.
  - by vm_compute.
  - simpl. repeat (apply NoDup_cons_2; [set_solver|]). apply NoDup_nil_2.
  - simpl. unfold TreeMap.keys. simpl. repeat split; repeat constructor; lia.
Qed.

Lemma wf_two_tree_world :
  TreeMap.wf Z.lt two_tree_world 1%positive tree_5_3_8
  ∧ TreeMap.wf Z.lt two_tree_world 2%positive tree_3_8_5.
Proof.
  split; (split; [|split; [|split]]).
  - by exists 3%Z.
  - by vm_compute.
  - apply (bool_decide_unpack _). by vm_compute.
  - simpl. unfold TreeMap.keys. simpl. repeat split; repeat constructor; lia.
  - by exists 3%Z.
  - by vm_compute.
  - apply (bool_decide_unpack _). by vm_compute.
  - simpl. unfold TreeMap.keys. simpl. repeat split; repeat constructor; lia.
Qed.

Lemma wf_int_hash_map l : HashMap.wf hash_int (int_hash_map l).
Proof.
  destruct (HashMapFacts.wf_insert_list hash_int 0%Z l HashMap.HashMap_new
              (HashMapFacts.wf_new hash_int)) as (m & Hrun & Hwf).
  unfold int_hash_map. by rewrite Hrun.
Qed.

(** C9: [operator[]] of either map returns a reference to the value stored
    for the key and never throws. The reference designates the entry that
    [valueOf] reads and a store through it is what [valueOf] reads next. For
    an absent key the entry is new, holds [mapped_type()] and [size] is
    incremented (as a [size_t]); for a present key nothing changes. *)
Theorem C9_index_or_insert
    {K V : Type} `{!EqDecision K, !EqDecision V}
    (lt : relation K) `{!RelDecision lt, !StrictOrder lt, !Trichotomy lt}
    (hash : K → N) (plus_key : string → K → option string) (default_value : V)
    (this : loc) (tw : @TreeMap.world K V) (t : TreeMap.tree) (sz : Z)
    (m : @HashMap.HashMap K V) (k : K) :
  TreeMap.wf lt tw this t →
  TreeMap.objects tw !! this = Some (TreeMap.mkTreeMap (TreeMap.root_ptr t) sz) →
  HashMap.wf hash m →
  (∃ p tw' t' n,
      TreeMap.operator_index lt default_value this k tw = Ok p tw'
      ∧ TreeMap.wf lt tw' this t'
      ∧ p ∈ TreeMap.ptrs t' ∧ TreeMap.nodes tw' !! p = Some n ∧ TreeMap.key n = k
      ∧ TreeMap.load p tw' = Ok (TreeMap.value n) tw'
      ∧ TreeMap.valueOf lt this k tw' = Ok (TreeMap.value n) tw'
      ∧ (∀ x, ∃ tw'', TreeMap.store p x tw' = Ok tt tw''
                      ∧ TreeMap.valueOf lt this k tw'' = Ok x tw'')
      ∧ (k ∉ TreeMap.keys t →
           TreeMap.value n = default_value
           ∧ TreeMap.getSize this tw' = Ok (size_t_wrap (sz + 1)) tw'
           ∧ TreeMap.entries t' ≡ₚ (k, default_value) :: TreeMap.entries t)
      ∧ (k ∈ TreeMap.keys t → tw' = tw ∧ t' = t))
  ∧ (∃ r m' v,
      HashMap.operator_index hash default_value k m = Ok r m'
      ∧ HashMap.wf hash m'
      ∧ HashMap.load r m' = Ok v m'
      ∧ HashMap.valueOf hash plus_key k m' = Ok v m'
      ∧ (∀ x, ∃ m'', HashMap.store r x m' = Ok tt m''
                     ∧ HashMap.valueOf hash plus_key k m'' = Ok x m'')
      ∧ (k ∉ HashMap.keys m →
           v = default_value
           ∧ HashMap.size m' = size_t_wrap (HashMap.size m + 1)
           ∧ ∃ l, HashMap.buckets m !! HashMap.findBucket hash k = Some l
                  ∧ HashMap.buckets m'
                    = <[HashMap.findBucket hash k := l ++ [(k, default_value)]]>
                        (HashMap.buckets m))
      ∧ (k ∈ HashMap.keys m → m' = m)).
Proof.
  intros Hwf Hobj Hhwf. split.
  - destruct (TreeMapFacts.operator_index_spec lt default_value tw this t k sz Hwf Hobj)
      as (p & tw' & t' & n & Hrun & Hwf' & Hp & Hn & Hkey & Hlook & Hnew & Hold).
    exists p, tw', t', n. split_and!; try done.
    + unfold TreeMap.load.
      by erewrite bind_Ok; [|by apply TreeMapFacts.node_at_Some].
    + by eapply (TreeMapFacts.valueOf_lookup lt).
    + intros x.
      destruct (TreeMapFacts.store_spec lt tw' this t' p n x Hwf' Hn Hp)
        as (tw'' & Hstore & Hwf'' & _ & Hn').
      exists tw''. split; [done|].
      assert (TreeMap.lookup_tree lt k (TreeMap.update_tree p x t') = Some p) as Hlook'.
      { by rewrite (TreeMapFacts.lookup_update_tree lt). }
      by rewrite (TreeMapFacts.valueOf_lookup lt _ _ _ _ _ _ Hwf'' Hlook' Hn').
    + intros Hk. destruct (Hnew Hk) as (Hv & Hsz & Hperm). split_and!; try done.
      unfold TreeMap.getSize.
      by erewrite bind_Ok; [|by apply TreeMapFacts.this_map_Some].
  - destruct (HashMapFacts.hash_operator_index_spec hash default_value m k Hhwf)
      as (i & m' & v & l & Hrun & Hwf' & Hl & Hfind & Hv & Hnew & Hold).
    exists (HashMap.mkReference (HashMap.findBucket hash k) i), m', v.
    split_and!; try done.
    + by apply (HashMapFacts.load_Ok m' _ l (k, v)).
    + by eapply (HashMapFacts.valueOf_Ok hash).
    + intros x. by eapply (HashMapFacts.hash_store_valueOf hash).
Qed.

Lemma C9_witness :
  (∃ p tw' t' n,
      TreeMap.operator_index Z.lt 0%Z 1%positive 4%Z
        (int_tree_world [(5, 50); (3, 30); (8, 80)]%Z) = Ok p tw'
      ∧ TreeMap.wf Z.lt tw' 1%positive t'
      ∧ p ∈ TreeMap.ptrs t' ∧ TreeMap.nodes tw' !! p = Some n ∧ TreeMap.key n = 4%Z
      ∧ TreeMap.load p tw' = Ok (TreeMap.value n) tw'
      ∧ TreeMap.valueOf Z.lt 1%positive 4%Z tw' = Ok (TreeMap.value n) tw'
      ∧ (∀ x, ∃ tw'', TreeMap.store p x tw' = Ok tt tw''
                      ∧ TreeMap.valueOf Z.lt 1%positive 4%Z tw'' = Ok x tw'')
      ∧ (4%Z ∉ TreeMap.keys tree_5_3_8 →
           TreeMap.value n = 0%Z
           ∧ TreeMap.getSize 1%positive tw' = Ok (size_t_wrap (3 + 1)) tw'
           ∧ TreeMap.entries t' ≡ₚ (4, 0)%Z :: TreeMap.entries tree_5_3_8)
      ∧ (4%Z ∈ TreeMap.keys tree_5_3_8 →
           tw' = int_tree_world [(5, 50); (3, 30); (8, 80)]%Z ∧ t' = tree_5_3_8))
  ∧ (∃ r m' v,
      HashMap.operator_index hash_int 0%Z 4%Z (int_hash_map [(1, 10); (12, 20)]%Z) = Ok r m'
      ∧ HashMap.wf hash_int m'
      ∧ HashMap.load r m' = Ok v m'
      ∧ HashMap.valueOf hash_int plus_int 4%Z m' = Ok v m'
      ∧ (∀ x, ∃ m'', HashMap.store r x m' = Ok tt m''
                     ∧ HashMap.valueOf hash_int plus_int 4%Z m'' = Ok x m'')
      ∧ (4%Z ∉ HashMap.keys (int_hash_map [(1, 10); (12, 20)]%Z) →
           v = 0%Z
           ∧ HashMap.size m' = size_t_wrap (HashMap.size (int_hash_map [(1, 10); (12, 20)]%Z) + 1)
           ∧ ∃ l, HashMap.buckets (int_hash_map [(1, 10); (12, 20)]%Z)
                    !! HashMap.findBucket hash_int 4%Z = Some l
                  ∧ HashMap.buckets m'
                    = <[HashMap.findBucket hash_int 4%Z := l ++ [(4, 0)%Z]]>
                        (HashMap.buckets (int_hash_map [(1, 10); (12, 20)]%Z)))
      ∧ (4%Z ∈ HashMap.keys (int_hash_map [(1, 10); (12, 20)]%Z) →
           m' = int_hash_map [(1, 10); (12, 20)]%Z)).
Proof.
  apply (C9_index_or_insert Z.lt hash_int plus_int 0%Z 1%positive
           (int_tree_world [(5, 50); (3, 30); (8, 80)]%Z) tree_5_3_8 3%Z
           (int_hash_map [(1, 10); (12, 20)]%Z) 4%Z).
  - exact wf_tree_5_3_8.
  - reflexivity.
  - apply wf_int_hash_map.
Defined.

(** * Where the code departs from the specification *)

(** C1: in [TreeMap{{5, 50}, {3, 30}, {8, 80}}] the node of key 5 has two
    children. [remove(5)] puts the right child in its place and drops the
    left subtree: key 3, found before, is not found afterwards, the
    iteration visits key 8 only, and [size] says 2. *)
Theorem C1_remove_two_children_drops_left_subtree :
  outcome_of
    ((TreeMap.TreeMap_of_list Z.lt 0%Z 1%positive [(5, 50); (3, 30); (8, 80)]%Z ;;;
      TreeMap.valueOf Z.lt 1%positive 3%Z) (TreeMap.mkWorld ∅ ∅))
  = Returned 30%Z
  ∧ outcome_of
      ((TreeMap.TreeMap_of_list Z.lt 0%Z 1%positive [(5, 50); (3, 30); (8, 80)]%Z ;;;
        TreeMap.remove Z.lt 1%positive 5%Z ;;;
        TreeMap.valueOf Z.lt 1%positive 3%Z) (TreeMap.mkWorld ∅ ∅))
    = Thrown (out_of_range Iterator_out_of_range)
  ∧ outcome_of
      ((TreeMap.TreeMap_of_list Z.lt 0%Z 1%positive [(5, 50); (3, 30); (8, 80)]%Z ;;;
        TreeMap.remove Z.lt 1%positive 5%Z ;;;
        it <- TreeMap.find Z.lt 1%positive 3%Z ;;
        e <- TreeMap.cend 1%positive ;;
        l <- TreeMap.traverse 1%positive ;;
        n <- TreeMap.getSize 1%positive ;;
        ret (TreeMap.iterator_eq it e, l, n)) (TreeMap.mkWorld ∅ ∅))
    = Returned (true, [(8, 80)%Z], 2%Z).
Proof. repeat split; vm_compute; reflexivity. Qed.

(** C2: a missing key is not signalled by an error of its own. In TreeMap
    [valueOf(7)] and [remove(7)] on [{{5, 50}, {3, 30}, {8, 80}}] leave by
    the exception of the iterators, the one that dereferencing [end()],
    erasing [end()] and stepping past [end()] throw: there is no error for a
    missing key. HashMap does build a text of its own, and with
    [std::string] keys it is the literal followed by the key; with [int]
    keys the same expression moves a pointer into the literal, so
    [valueOf(7)] throws a tail of the literal and [valueOf(100)] and
    [remove(100)] have no defined behaviour. *)
Theorem C2_missing_key_has_no_error_of_its_own :
  TreeMap.valueOf Z.lt 1%positive 7%Z (int_tree_world [(5, 50); (3, 30); (8, 80)]%Z)
  = Throw (out_of_range Iterator_out_of_range) (int_tree_world [(5, 50); (3, 30); (8, 80)]%Z)
  ∧ TreeMap.remove Z.lt 1%positive 7%Z (int_tree_world [(5, 50); (3, 30); (8, 80)]%Z)
    = Throw (out_of_range Iterator_out_of_range) (int_tree_world [(5, 50); (3, 30); (8, 80)]%Z)
  ∧ (e <- TreeMap.cend 1%positive ;; TreeMap.operator_deref e)
      (int_tree_world [(5, 50); (3, 30); (8, 80)]%Z)
    = Throw (out_of_range Iterator_out_of_range) (int_tree_world [(5, 50); (3, 30); (8, 80)]%Z)
  ∧ (e <- TreeMap.cend 1%positive ;; TreeMap.remove_at 1%positive e)
      (int_tree_world [(5, 50); (3, 30); (8, 80)]%Z)
    = Throw (out_of_range Iterator_out_of_range) (int_tree_world [(5, 50); (3, 30); (8, 80)]%Z)
  ∧ (e <- TreeMap.cend 1%positive ;; TreeMap.operator_inc e)
      (int_tree_world [(5, 50); (3, 30); (8, 80)]%Z)
    = Throw (out_of_range Iterator_out_of_range) (int_tree_world [(5, 50); (3, 30); (8, 80)]%Z)
  ∧ HashMap.valueOf hash_int plus_int 7%Z (int_hash_map [(1, 10); (12, 20)]%Z)
    = Throw (out_of_range "s not contain key: ") (int_hash_map [(1, 10); (12, 20)]%Z)
  ∧ HashMap.remove hash_int plus_int 7%Z (int_hash_map [(1, 10); (12, 20)]%Z)
    = Throw (out_of_range "s not contain key: ") (int_hash_map [(1, 10); (12, 20)]%Z)
  ∧ HashMap.valueOf hash_int plus_int 100%Z (int_hash_map [(1, 10); (12, 20)]%Z) = Undefined
  ∧ HashMap.remove hash_int plus_int 100%Z (int_hash_map [(1, 10); (12, 20)]%Z) = Undefined
  ∧ ∀ (hash : string → N) (key : string),
      HashMap.valueOf hash plus_string key (@HashMap.HashMap_new string Z)
      = Throw (out_of_range (Map_does_not_contain_key +:+ key)) HashMap.HashMap_new
      ∧ HashMap.remove hash plus_string key (@HashMap.HashMap_new string Z)
        = Throw (out_of_range (Map_does_not_contain_key +:+ key)) HashMap.HashMap_new.
Proof.
  do 9 (split; [vm_compute; reflexivity|]). intros hash key. split.
  - rewrite HashMapFacts.hash_valueOf_absent; [done|done|]. apply not_elem_of_nil.
  - rewrite HashMapFacts.hash_remove_absent; [done|done|]. apply not_elem_of_nil.
Qed.

(** C3: two TreeMaps of size 1 with different keys: [operator==] calls
    [valueOf] for a key the left map does not hold and leaves by its
    exception instead of returning [false]; HashMap's returns [false]. *)
Theorem C3_tree_equality_throws_on_different_keys :
  outcome_of
    ((TreeMap.TreeMap_of_list Z.lt 0%Z 1%positive [(1, 0)]%Z ;;;
      TreeMap.TreeMap_of_list Z.lt 0%Z 2%positive [(2, 0)]%Z ;;;
      TreeMap.operator_eq Z.lt 1%positive 2%positive) (TreeMap.mkWorld ∅ ∅))
  = Thrown (out_of_range Iterator_out_of_range)
  ∧ outcome_of
      (HashMap.operator_eq (int_hash_map [(2, 0)]%Z) (int_hash_map [(1, 0)]%Z))
    = Returned false.
Proof. repeat split; vm_compute; reflexivity. Qed.

(** C4: after move construction or move assignment from a map that holds
    one pair, the destination holds the pair and [begin() == end()] in the
    source, but the source's [size()] is still 1 and [isEmpty()] is false,
    in both containers: no constructor or assignment resets [other.size]. *)
Theorem C4_move_leaves_the_size_of_the_source :
  outcome_of
    ((TreeMap.TreeMap_of_list Z.lt 0%Z 1%positive [(1, 10)]%Z ;;;
      TreeMap.TreeMap_move 2%positive 1%positive ;;;
      n <- TreeMap.getSize 1%positive ;;
      empty <- TreeMap.isEmpty 1%positive ;;
      b <- TreeMap.cbegin 1%positive ;;
      e <- TreeMap.cend 1%positive ;;
      l <- TreeMap.traverse 2%positive ;;
      ret (n, empty, TreeMap.iterator_eq b e, l)) (TreeMap.mkWorld ∅ ∅))
  = Returned (1%Z, false, true, [(1, 10)%Z])
  ∧ outcome_of
      ((HashMap.HashMap_of_list hash_int 0%Z 1%positive [(1, 10)]%Z ;;;
        HashMap.HashMap_move 2%positive 1%positive ;;;
        n <- HashMap.on 1%positive HashMap.getSize ;;
        empty <- HashMap.on 1%positive HashMap.isEmpty ;;
        b <- HashMap.on 1%positive HashMap.cbegin ;;
        e <- HashMap.on 1%positive HashMap.cend ;;
        x <- HashMap.on 2%positive (HashMap.valueOf hash_int plus_int 1%Z) ;;
        ret (n, empty, HashMap.iterator_eq b e, x)) ∅)
    = Returned (1%Z, false, true, 10%Z)
  ∧ outcome_of
      ((TreeMap.TreeMap_of_list Z.lt 0%Z 1%positive [(1, 10)]%Z ;;;
        TreeMap.TreeMap_of_list Z.lt 0%Z 2%positive [(2, 20)]%Z ;;;
        TreeMap.operator_move_assign 2%positive 1%positive ;;;
        n <- TreeMap.getSize 1%positive ;;
        empty <- TreeMap.isEmpty 1%positive ;;
        b <- TreeMap.cbegin 1%positive ;;
        e <- TreeMap.cend 1%positive ;;
        l <- TreeMap.traverse 2%positive ;;
        ret (n, empty, TreeMap.iterator_eq b e, l)) (TreeMap.mkWorld ∅ ∅))
    = Returned (1%Z, false, true, [(1, 10)%Z])
  ∧ outcome_of
      ((HashMap.HashMap_of_list hash_int 0%Z 1%positive [(1, 10)]%Z ;;;
        HashMap.HashMap_of_list hash_int 0%Z 2%positive [(2, 20)]%Z ;;;
        HashMap.operator_move_assign 2%positive 1%positive ;;;
        n <- HashMap.on 1%positive HashMap.getSize ;;
        empty <- HashMap.on 1%positive HashMap.isEmpty ;;
        b <- HashMap.on 1%positive HashMap.cbegin ;;
        e <- HashMap.on 1%positive HashMap.cend ;;
        x <- HashMap.on 2%positive (HashMap.valueOf hash_int plus_int 1%Z) ;;
        ret (n, empty, HashMap.iterator_eq b e, x)) ∅)
    = Returned (1%Z, false, true, 10%Z).
Proof. repeat split; vm_compute; reflexivity. Qed.

(** C5: in a HashMap that holds one pair, decrementing [begin()] does not
    throw: the iterator comes back as it was. With two pairs in one bucket
    it moves from the first to the last. (TreeMap throws there.) *)
Theorem C5_hash_decrement_of_begin_does_not_throw :
  outcome_of
    ((b <- HashMap.cbegin ;;
      m <- get ;;
      r <- run_local (HashMap.operator_dec (HashMap.buckets m)) b ;;
      ret (bool_decide (r.2 = b))) (int_hash_map [(1, 10)]%Z))
  = Returned true
  ∧ outcome_of
      ((b <- HashMap.cbegin ;;
        m <- get ;;
        r <- run_local (HashMap.operator_dec (HashMap.buckets m)) b ;;
        first <- run_local (HashMap.operator_deref (HashMap.buckets m)) b ;;
        last <- run_local (HashMap.operator_deref (HashMap.buckets m)) r.2 ;;
        ret (first.1, last.1)) (int_hash_map [(0, 1); (11, 2)]%Z))
    = Returned ((0, 1)%Z, (11, 2)%Z)
  ∧ outcome_of
      ((b <- TreeMap.cbegin 1%positive ;; TreeMap.operator_dec b)
         (int_tree_world [(1, 10)]%Z))
    = Thrown (out_of_range Iterator_out_of_range).
Proof. repeat split; vm_compute; reflexivity. Qed.

(** C6: keys 0 and 11 fall into the same bucket. The HashMaps built from
    the pairs (0, 1) and (11, 2) in the two orders hold the same values and
    sizes, and [operator==] returns [false] for them; the TreeMaps built so
    compare equal. *)
Theorem C6_hash_equality_depends_on_insertion_order :
  outcome_of
    (HashMap.operator_eq (int_hash_map [(11, 2); (0, 1)]%Z) (int_hash_map [(0, 1); (11, 2)]%Z))
  = Returned false
  ∧ outcome_of (HashMap.valueOf hash_int plus_int 0%Z (int_hash_map [(11, 2); (0, 1)]%Z))
    = outcome_of (HashMap.valueOf hash_int plus_int 0%Z (int_hash_map [(0, 1); (11, 2)]%Z))
  ∧ outcome_of (HashMap.valueOf hash_int plus_int 11%Z (int_hash_map [(11, 2); (0, 1)]%Z))
    = outcome_of (HashMap.valueOf hash_int plus_int 11%Z (int_hash_map [(0, 1); (11, 2)]%Z))
  ∧ HashMap.size (int_hash_map [(11, 2); (0, 1)]%Z) = HashMap.size (int_hash_map [(0, 1); (11, 2)]%Z)
  ∧ outcome_of
      ((TreeMap.TreeMap_of_list Z.lt 0%Z 1%positive [(0, 1); (11, 2)]%Z ;;;
        TreeMap.TreeMap_of_list Z.lt 0%Z 2%positive [(11, 2); (0, 1)]%Z ;;;
        TreeMap.operator_eq Z.lt 1%positive 2%positive) (TreeMap.mkWorld ∅ ∅))
    = Returned true.
Proof. repeat split; vm_compute; reflexivity. Qed.

(** C7: copy assignment of HashMap resets [size] and inserts the pairs of
    the source, but does not empty the buckets of the target. After
    [a = b] with [a = {{1, 10}}] and [b = {{2, 20}}], [a] still holds key 1,
    its size is 1 and [a == b] is false. Copy assignment of TreeMap calls
    [clear()], which deletes each node after stepping past it: when the tree
    of the target has a right child, the last step out of the right subtree
    reads the parent that was deleted before. The copy constructors of both
    maps give a map equal to the source. *)
Theorem C7_hash_copy_assignment_keeps_old_entries :
  outcome_of
    ((HashMap.HashMap_of_list hash_int 0%Z 1%positive [(1, 10)]%Z ;;;
      HashMap.HashMap_of_list hash_int 0%Z 2%positive [(2, 20)]%Z ;;;
      HashMap.operator_assign hash_int 0%Z 1%positive 2%positive ;;;
      b <- HashMap.object_at 2%positive ;;
      equal <- HashMap.on 1%positive (HashMap.operator_eq b) ;;
      stale <- HashMap.on 1%positive (HashMap.valueOf hash_int plus_int 1%Z) ;;
      n <- HashMap.on 1%positive HashMap.getSize ;;
      ret (equal, stale, n)) ∅)
  = Returned (false, 10%Z, 1%Z)
  ∧ (TreeMap.TreeMap_of_list Z.lt 0%Z 1%positive [(5, 50); (3, 30); (8, 80)]%Z ;;;
     TreeMap.TreeMap_of_list Z.lt 0%Z 2%positive [(2, 20)]%Z ;;;
     TreeMap.operator_assign Z.lt 0%Z 1%positive 2%positive) (TreeMap.mkWorld ∅ ∅)
    = Undefined
  ∧ outcome_of
      ((TreeMap.TreeMap_of_list Z.lt 0%Z 1%positive [(3, 30); (2, 20)]%Z ;;;
        TreeMap.TreeMap_of_list Z.lt 0%Z 2%positive [(7, 70)]%Z ;;;
        TreeMap.operator_assign Z.lt 0%Z 1%positive 2%positive ;;;
        l <- TreeMap.traverse 1%positive ;;
        equal <- TreeMap.operator_eq Z.lt 1%positive 2%positive ;;
        ret (l, equal)) (TreeMap.mkWorld ∅ ∅))
    = Returned ([(7, 70)%Z], true)
  ∧ outcome_of
      ((HashMap.HashMap_of_list hash_int 0%Z 2%positive [(2, 20); (13, 30); (5, 1)]%Z ;;;
        HashMap.HashMap_copy hash_int 0%Z 1%positive 2%positive ;;;
        b <- HashMap.object_at 2%positive ;;
        equal <- HashMap.on 1%positive (HashMap.operator_eq b) ;;
        n <- HashMap.on 1%positive HashMap.getSize ;;
        ret (equal, n)) ∅)
    = Returned (true, 3%Z)
  ∧ outcome_of
      ((TreeMap.TreeMap_of_list Z.lt 0%Z 2%positive [(5, 50); (3, 30); (8, 80)]%Z ;;;
        TreeMap.TreeMap_copy Z.lt 0%Z 1%positive 2%positive ;;;
        l <- TreeMap.traverse 1%positive ;;
        equal <- TreeMap.operator_eq Z.lt 1%positive 2%positive ;;
        ret (l, equal)) (TreeMap.mkWorld ∅ ∅))
    = Returned ([(3, 30); (5, 50); (8, 80)]%Z, true).
Proof. repeat split; vm_compute; reflexivity. Qed.

(** * What else holds of the code *)

(** X1: the invariant of the ordered map. Every method that changes a
    well-formed TreeMap ([operator[]], a store through the reference it
    returned, [remove] of a key it holds) returns and leaves it well formed,
    and in every well-formed TreeMap the forward iteration returns the pairs
    with strictly increasing keys. *)
Theorem wf_is_kept_and_orders_the_iteration
    {K V : Type} `{!EqDecision K, !EqDecision V}
    (lt : relation K) `{!RelDecision lt, !StrictOrder lt, !Trichotomy lt}
    (default_value : V) (this : loc) (w : @TreeMap.world K V) (t : TreeMap.tree) (sz : Z) :
  TreeMap.wf lt w this t →
  TreeMap.objects w !! this = Some (TreeMap.mkTreeMap (TreeMap.root_ptr t) sz) →
  TreeMap.traverse this w = Ok (TreeMap.entries t) w
  ∧ StronglySorted lt (TreeMap.keys t)
  ∧ (∀ k, ∃ p w' t',
       TreeMap.operator_index lt default_value this k w = Ok p w'
       ∧ TreeMap.wf lt w' this t'
       ∧ ∀ k', k' ∈ TreeMap.keys t' ↔ k' = k ∨ k' ∈ TreeMap.keys t)
  ∧ (∀ p n x, TreeMap.nodes w !! p = Some n → p ∈ TreeMap.ptrs t →
       ∃ w', TreeMap.store p x w = Ok tt w'
             ∧ TreeMap.wf lt w' this (TreeMap.update_tree p x t)
             ∧ TreeMap.keys (TreeMap.update_tree p x t) = TreeMap.keys t)
  ∧ (∀ k, k ∈ TreeMap.keys t →
       ∃ w' t',
         TreeMap.remove lt this k w = Ok tt w'
         ∧ TreeMap.wf lt w' this t'
         ∧ ∀ k', k' ∈ TreeMap.keys t' → k' ∈ TreeMap.keys t ∧ k' ≠ k).
Proof.
  intros Hwf Hobj. pose proof Hwf as (_ & Ht & Hnd & Hb). split_and!.
  - by apply (TreeMapFacts.traverse_spec lt).
  - by apply (TreeMapFacts.bst_sorted lt).
  - intros k.
    destruct (TreeMapFacts.operator_index_spec lt default_value w this t k sz Hwf Hobj)
      as (p & w' & t' & n & Hrun & Hwf' & _ & _ & _ & _ & Hnew & Hold).
    exists p, w', t'. split; [done|]. split; [done|]. intros k'.
    destruct (decide (k ∈ TreeMap.keys t)) as [Hk|Hk].
    + destruct (Hold Hk) as [_ ->]. set_solver.
    + destruct (Hnew Hk) as (_ & _ & Hperm). unfold TreeMap.keys.
      rewrite Hperm, fmap_cons. set_solver.
  - intros p n x Hn Hp.
    destruct (TreeMapFacts.store_spec lt w this t p n x Hwf Hn Hp) as (w' & Hrun & Hwf' & _).
    exists w'. split; [done|]. split; [done|]. apply TreeMapFacts.keys_update_tree.
  - intros k Hk.
    destruct (TreeMapFacts.keys_subtree t k Hnd Hk) as (a & l & kv & r & Hsub & <-).
    destruct (TreeMapFacts.remove_spec lt w this t sz a l kv r Hwf Hobj Hsub)
      as (w' & Hrun & Hwf' & _).
    exists w', (TreeMap.remove_tree a t). split; [done|]. split; [done|].
    by apply (TreeMapFacts.remove_tree_loses_key lt a t l kv r).
Qed.

Lemma wf_is_kept_and_orders_the_iteration_witness :
  TreeMap.traverse 1%positive (int_tree_world [(5, 50); (3, 30); (8, 80)]%Z)
  = Ok (TreeMap.entries tree_5_3_8) (int_tree_world [(5, 50); (3, 30); (8, 80)]%Z)
  ∧ StronglySorted Z.lt (TreeMap.keys tree_5_3_8)
  ∧ (∀ k, ∃ p w' t',
       TreeMap.operator_index Z.lt 0%Z 1%positive k
         (int_tree_world [(5, 50); (3, 30); (8, 80)]%Z) = Ok p w'
       ∧ TreeMap.wf Z.lt w' 1%positive t'
       ∧ ∀ k', k' ∈ TreeMap.keys t' ↔ k' = k ∨ k' ∈ TreeMap.keys tree_5_3_8)
  ∧ (∀ p n x,
       TreeMap.nodes (int_tree_world [(5, 50); (3, 30); (8, 80)]%Z) !! p = Some n →
       p ∈ TreeMap.ptrs tree_5_3_8 →
       ∃ w', TreeMap.store p x (int_tree_world [(5, 50); (3, 30); (8, 80)]%Z) = Ok tt w'
             ∧ TreeMap.wf Z.lt w' 1%positive (TreeMap.update_tree p x tree_5_3_8)
             ∧ TreeMap.keys (TreeMap.update_tree p x tree_5_3_8) = TreeMap.keys tree_5_3_8)
  ∧ (∀ k, k ∈ TreeMap.keys tree_5_3_8 →
       ∃ w' t',
         TreeMap.remove Z.lt 1%positive k (int_tree_world [(5, 50); (3, 30); (8, 80)]%Z)
         = Ok tt w'
         ∧ TreeMap.wf Z.lt w' 1%positive t'
         ∧ ∀ k', k' ∈ TreeMap.keys t' → k' ∈ TreeMap.keys tree_5_3_8 ∧ k' ≠ k).
Proof.
  apply (wf_is_kept_and_orders_the_iteration Z.lt 0%Z 1%positive
           (int_tree_world [(5, 50); (3, 30); (8, 80)]%Z) tree_5_3_8 3%Z).
  - exact wf_tree_5_3_8.
  - reflexivity.
Defined.

(** X2: [remove(key)] on any well-formed TreeMap, for the key of the node at [a]
    whose subtrees are [l] and [r]: the call returns, the map is well formed
    again and [size] is decremented. The pairs that remain are those of the
    tree without the pair of the node and, when the node has a right
    subtree, without those of the left one: their keys, found before, are
    not found afterwards. With at most one child nothing else is lost. *)
Theorem remove_promotes_one_branch
    {K V : Type} `{!EqDecision K, !EqDecision V}
    (lt : relation K) `{!RelDecision lt, !StrictOrder lt}
    (this : loc) (w : @TreeMap.world K V) (t : TreeMap.tree) (sz : Z)
    (a : TreeMap.node_pointer) (l r : TreeMap.tree) (kv : K * V) :
  TreeMap.wf lt w this t →
  TreeMap.objects w !! this = Some (TreeMap.mkTreeMap (TreeMap.root_ptr t) sz) →
  TreeMap.subtree a t = Some (TreeMap.Node l a kv r) →
  ∃ w' pre post,
    TreeMap.remove lt this kv.1 w = Ok tt w'
    ∧ TreeMap.wf lt w' this (TreeMap.remove_tree a t)
    ∧ TreeMap.getSize this w' = Ok (size_t_wrap (sz - 1)) w'
    ∧ TreeMap.entries t = pre ++ TreeMap.entries l ++ kv :: TreeMap.entries r ++ post
    ∧ TreeMap.traverse this w'
      = Ok (pre ++ TreeMap.entries (if bool_decide (r = TreeMap.Leaf) then l else r) ++ post) w'
    ∧ (r ≠ TreeMap.Leaf → ∀ k v, (k, v) ∈ TreeMap.entries l →
         TreeMap.valueOf lt this k w = Ok v w
         ∧ TreeMap.valueOf lt this k w'
           = Throw (out_of_range Iterator_out_of_range) w').
Proof.
  intros Hwf Hobj Hsub. pose proof Hwf as (_ & Ht & Hnd & Hb).
  destruct (TreeMapFacts.remove_spec lt w this t sz a l kv r Hwf Hobj Hsub)
    as (w' & Hrun & Hwf' & Hobj').
  destruct (TreeMapFacts.entries_remove_tree a t l kv r Hnd Hsub)
    as (pre & post & Hent & Hent').
  exists w', pre, post. split_and!; try done.
  - unfold TreeMap.getSize.
    by erewrite bind_Ok; [|by apply TreeMapFacts.this_map_Some].
  - rewrite <- Hent'. by apply (TreeMapFacts.traverse_spec lt).
  - intros Hr k v Hin. split.
    { apply (TreeMapFacts.valueOf_present lt _ _ t); [done|]. rewrite Hent. set_solver. }
    eapply TreeMapFacts.valueOf_absent; [exact Hwf'|].
    eapply (TreeMapFacts.remove_tree_loses_left lt a t l kv r k); try done.
    unfold TreeMap.keys. by apply (list_elem_of_fmap_2 fst _ (k, v)).
Qed.

Lemma remove_promotes_one_branch_witness :
  ∃ w' pre post,
    TreeMap.remove Z.lt 1%positive 5%Z (int_tree_world [(5, 50); (3, 30); (8, 80)]%Z) = Ok tt w'
    ∧ TreeMap.wf Z.lt w' 1%positive (TreeMap.remove_tree 1%positive tree_5_3_8)
    ∧ TreeMap.getSize 1%positive w' = Ok (size_t_wrap (3 - 1)) w'
    ∧ TreeMap.entries tree_5_3_8
      = pre ++ [(3, 30)%Z] ++ (5, 50)%Z :: [(8, 80)%Z] ++ post
    ∧ TreeMap.traverse 1%positive w' = Ok (pre ++ [(8, 80)%Z] ++ post) w'
    ∧ (TreeMap.Node TreeMap.Leaf 3%positive (8, 80)%Z TreeMap.Leaf ≠ TreeMap.Leaf →
       ∀ k v, (k, v) ∈ [(3, 30)%Z] →
         TreeMap.valueOf Z.lt 1%positive k (int_tree_world [(5, 50); (3, 30); (8, 80)]%Z)
         = Ok v (int_tree_world [(5, 50); (3, 30); (8, 80)]%Z)
         ∧ TreeMap.valueOf Z.lt 1%positive k w'
           = Throw (out_of_range Iterator_out_of_range) w').
Proof.
  apply (remove_promotes_one_branch Z.lt 1%positive
           (int_tree_world [(5, 50); (3, 30); (8, 80)]%Z) tree_5_3_8 3%Z 1%positive
           (TreeMap.Node TreeMap.Leaf 2%positive (3, 30)%Z TreeMap.Leaf)
           (TreeMap.Node TreeMap.Leaf 3%positive (8, 80)%Z TreeMap.Leaf) (5, 50)%Z).
  - exact wf_tree_5_3_8.
  - reflexivity.
  - reflexivity.
Defined.

(** X3: [operator==] of HashMap is exact when no two keys of a map collide.
    For two maps whose keys are in their own buckets and whose buckets hold
    at most one pair each, it returns [true] exactly when the sizes are equal
    and the maps hold the same pairs, whatever the order of insertion. *)
Theorem hash_equality_is_exact_without_collisions
    {K V : Type} `{!EqDecision K, !EqDecision V} (hash : K → N)
    (m other : @HashMap.HashMap K V) :
  HashMap.wf hash m → HashMap.wf hash other →
  Forall (λ l, length l ≤ 1) (HashMap.buckets m) →
  Forall (λ l, length l ≤ 1) (HashMap.buckets other) →
  ∃ b, HashMap.operator_eq other m = Ok b m
       ∧ (b = true ↔ HashMap.size m = HashMap.size other
                     ∧ ∀ kv, kv ∈ HashMap.entries m ↔ kv ∈ HashMap.entries other).
Proof.
  intros Hwf1 Hwf2 H1 H2.
  exists (bool_decide (HashMap.size m = HashMap.size other
                       ∧ HashMap.buckets m = HashMap.buckets other)). split.
  { unfold HashMap.operator_eq, bind, get, ret. repeat case_bool_decide; naive_solver. }
  rewrite bool_decide_eq_true. split.
  - intros [Hs Hb]. split; [done|]. intros kv. unfold HashMap.entries. by rewrite Hb.
  - intros [Hs Hsame]. split; [done|]. by eapply HashMapFacts.single_buckets_equal.
Qed.

Lemma hash_equality_is_exact_without_collisions_witness :
  ∃ b, HashMap.operator_eq (int_hash_map [(7, 70); (1, 10)]%Z) (int_hash_map [(1, 10); (7, 70)]%Z)
       = Ok b (int_hash_map [(1, 10); (7, 70)]%Z)
       ∧ (b = true ↔ HashMap.size (int_hash_map [(1, 10); (7, 70)]%Z)
                     = HashMap.size (int_hash_map [(7, 70); (1, 10)]%Z)
                     ∧ ∀ kv, kv ∈ HashMap.entries (int_hash_map [(1, 10); (7, 70)]%Z)
                             ↔ kv ∈ HashMap.entries (int_hash_map [(7, 70); (1, 10)]%Z)).
Proof.
  apply (hash_equality_is_exact_without_collisions hash_int).
  - apply wf_int_hash_map.
  - apply wf_int_hash_map.
  - apply (bool_decide_unpack _). by vm_compute.
  - apply (bool_decide_unpack _). by vm_compute.
Defined.

(** X4: the iterator bounds that do hold. In a TreeMap, incrementing [end()]
    throws, and so does decrementing [begin()], of a map that holds a pair as
    of an empty one, where [begin() == end()]. In a HashMap, incrementing
    [end()] throws; when every bucket is empty, [begin() == end()] and
    decrementing it throws. *)
Theorem iterator_bounds_that_hold
    {K V : Type} `{!EqDecision K, !EqDecision V}
    (lt : relation K) `{!RelDecision lt}
    (this : loc) (w : @TreeMap.world K V) (t : TreeMap.tree) (sz : Z)
    (m : @HashMap.HashMap K V) :
  TreeMap.wf lt w this t →
  TreeMap.objects w !! this = Some (TreeMap.mkTreeMap (TreeMap.root_ptr t) sz) →
  t ≠ TreeMap.Leaf ∨ sz = 0%Z →
  length (HashMap.buckets m) = HashMap.MAP_SIZE →
  (e <- TreeMap.cend this ;; TreeMap.operator_inc e) w
  = Throw (out_of_range Iterator_out_of_range) w
  ∧ (b <- TreeMap.cbegin this ;; TreeMap.operator_dec b) w
    = Throw (out_of_range Iterator_out_of_range) w
  ∧ (t = TreeMap.Leaf →
     (b <- TreeMap.cbegin this ;; e <- TreeMap.cend this ;; ret (TreeMap.iterator_eq b e)) w
     = Ok true w)
  ∧ (e <- HashMap.cend ;; run_local (HashMap.operator_inc (HashMap.buckets m)) e) m
    = Throw (out_of_range Index_out_of_range) m
  ∧ (HashMap.buckets m = replicate HashMap.MAP_SIZE [] →
     (b <- HashMap.cbegin ;; e <- HashMap.cend ;; ret (HashMap.iterator_eq b e)) m = Ok true m
     ∧ (b <- HashMap.cbegin ;; run_local (HashMap.operator_dec (HashMap.buckets m)) b) m
       = Throw (out_of_range Iterator_out_of_range) m).
Proof.
  intros Hwf Hobj Hne Hlen. split_and!.
  - done.
  - by eapply TreeMapFacts.decrement_begin_throws.
  - intros ->. by erewrite bind_Ok; [|by apply (TreeMapFacts.cbegin_spec lt)].
  - destruct m as [bs s]. cbn [HashMap.buckets] in Hlen |- *.
    do 11 (destruct bs as [|? bs]; [done|]). by destruct bs.
  - intros Hb. destruct m as [bs s]. simpl in Hb. subst bs. split; reflexivity.
Qed.

Lemma iterator_bounds_that_hold_witness :
  (e <- TreeMap.cend 1%positive ;; TreeMap.operator_inc e)
    (int_tree_world [(5, 50); (3, 30); (8, 80)]%Z)
  = Throw (out_of_range Iterator_out_of_range) (int_tree_world [(5, 50); (3, 30); (8, 80)]%Z)
  ∧ (b <- TreeMap.cbegin 1%positive ;; TreeMap.operator_dec b)
      (int_tree_world [(5, 50); (3, 30); (8, 80)]%Z)
    = Throw (out_of_range Iterator_out_of_range) (int_tree_world [(5, 50); (3, 30); (8, 80)]%Z)
  ∧ (tree_5_3_8 = TreeMap.Leaf →
     (b <- TreeMap.cbegin 1%positive ;; e <- TreeMap.cend 1%positive ;;
      ret (TreeMap.iterator_eq b e)) (int_tree_world [(5, 50); (3, 30); (8, 80)]%Z)
     = Ok true (int_tree_world [(5, 50); (3, 30); (8, 80)]%Z))
  ∧ (e <- HashMap.cend ;;
     run_local (HashMap.operator_inc (HashMap.buckets (int_hash_map [(1, 10); (12, 20)]%Z))) e)
      (int_hash_map [(1, 10); (12, 20)]%Z)
    = Throw (out_of_range Index_out_of_range) (int_hash_map [(1, 10); (12, 20)]%Z)
  ∧ (HashMap.buckets (int_hash_map [(1, 10); (12, 20)]%Z) = replicate HashMap.MAP_SIZE [] →
     (b <- HashMap.cbegin ;; e <- HashMap.cend ;; ret (HashMap.iterator_eq b e))
       (int_hash_map [(1, 10); (12, 20)]%Z)
     = Ok true (int_hash_map [(1, 10); (12, 20)]%Z)
     ∧ (b <- HashMap.cbegin ;;
        run_local (HashMap.operator_dec (HashMap.buckets (int_hash_map [(1, 10); (12, 20)]%Z))) b)
         (int_hash_map [(1, 10); (12, 20)]%Z)
       = Throw (out_of_range Iterator_out_of_range) (int_hash_map [(1, 10); (12, 20)]%Z)).
Proof.
  apply (iterator_bounds_that_hold Z.lt 1%positive
           (int_tree_world [(5, 50); (3, 30); (8, 80)]%Z) tree_5_3_8 3%Z
           (int_hash_map [(1, 10); (12, 20)]%Z)).
  - exact wf_tree_5_3_8.
  - reflexivity.
  - by left.
  - reflexivity.
Defined.

(** X5: whatever the hash function, two different keys that fall into the same
    bucket make [operator==] depend on the order of insertion: the two maps
    hold the same values for the same keys and have the same size, and
    compare different. *)
Theorem hash_equality_fails_for_colliding_keys
    {K V : Type} `{!EqDecision K, !EqDecision V}
    (hash : K → N) (plus_key : string → K → option string) (default_value : V)
    (k1 k2 : K) (x1 x2 : V) :
  k1 ≠ k2 → HashMap.findBucket hash k1 = HashMap.findBucket hash k2 →
  ∃ a b,
    HashMap.insert_list hash default_value [(k1, x1); (k2, x2)] HashMap.HashMap_new = Ok tt a
    ∧ HashMap.insert_list hash default_value [(k2, x2); (k1, x1)] HashMap.HashMap_new = Ok tt b
    ∧ HashMap.size a = HashMap.size b
    ∧ HashMap.valueOf hash plus_key k1 a = Ok x1 a
    ∧ HashMap.valueOf hash plus_key k1 b = Ok x1 b
    ∧ HashMap.valueOf hash plus_key k2 a = Ok x2 a
    ∧ HashMap.valueOf hash plus_key k2 b = Ok x2 b
    ∧ HashMap.operator_eq b a = Ok false a.
Proof.
  intros Hne Hb. pose proof (HashMapFacts.findBucket_lt hash k1) as Hlt.
  assert (k2 ≠ k1) as Hne' by done.
  assert (∀ l : list (K * V),
    <[HashMap.findBucket hash k1 := l]> (replicate HashMap.MAP_SIZE [])
      !! HashMap.findBucket hash k1 = Some l) as Hlook.
  { intros l. apply list_lookup_insert_eq. by rewrite length_replicate. }
  eexists _, _. split; [by apply HashMapFacts.insert_two_colliding|].
  split; [rewrite HashMapFacts.insert_two_colliding by done; by rewrite <- Hb|].
  split; [done|]. split_and!.
  - apply (HashMapFacts.valueOf_Ok hash plus_key _ _ [(k1, x1); (k2, x2)] 0); [apply Hlook| |done].
    simpl. by rewrite bool_decide_eq_true_2.
  - apply (HashMapFacts.valueOf_Ok hash plus_key _ _ [(k2, x2); (k1, x1)] 1); [apply Hlook| |done].
    simpl. by rewrite bool_decide_eq_false_2, bool_decide_eq_true_2.
  - apply (HashMapFacts.valueOf_Ok hash plus_key _ _ [(k1, x1); (k2, x2)] 1);
      [rewrite <- Hb; apply Hlook| |done].
    simpl. by rewrite bool_decide_eq_false_2, bool_decide_eq_true_2.
  - apply (HashMapFacts.valueOf_Ok hash plus_key _ _ [(k2, x2); (k1, x1)] 0);
      [rewrite <- Hb; apply Hlook| |done].
    simpl. by rewrite bool_decide_eq_true_2.
  - unfold HashMap.operator_eq, bind, get, ret. cbn [HashMap.size HashMap.buckets].
    rewrite bool_decide_eq_false_2 by (by intros []).
    rewrite bool_decide_eq_false_2; [done|].
    intros Heq. pose proof (Hlook [(k1, x1); (k2, x2)]) as H1.
    rewrite Heq, Hlook in H1. by injection H1.
Qed.

Lemma hash_equality_fails_for_colliding_keys_witness :
  ∃ a b,
    HashMap.insert_list hash_int 0%Z [(0, 1); (11, 2)]%Z HashMap.HashMap_new = Ok tt a
    ∧ HashMap.insert_list hash_int 0%Z [(11, 2); (0, 1)]%Z HashMap.HashMap_new = Ok tt b
    ∧ HashMap.size a = HashMap.size b
    ∧ HashMap.valueOf hash_int plus_int 0%Z a = Ok 1%Z a
    ∧ HashMap.valueOf hash_int plus_int 0%Z b = Ok 1%Z b
    ∧ HashMap.valueOf hash_int plus_int 11%Z a = Ok 2%Z a
    ∧ HashMap.valueOf hash_int plus_int 11%Z b = Ok 2%Z b
    ∧ HashMap.operator_eq b a = Ok false a.
Proof.
  apply (hash_equality_fails_for_colliding_keys hash_int plus_int 0%Z 0%Z 11%Z 1%Z 2%Z).
  - done.
  - reflexivity.
Defined.

(** X6: a move constructor, and HashMap's move assignment, give the destination
    the pairs and the size of the source, and leave the source without pairs
    but with its size. *)
Theorem move_transfers_the_content
    {K V : Type} `{!EqDecision K, !EqDecision V}
    (lt : relation K) `{!RelDecision lt}
    (this other : loc) (w : @TreeMap.world K V) (t : TreeMap.tree) (sz : Z)
    (hw : gmap loc (@HashMap.HashMap K V)) (o x : @HashMap.HashMap K V) :
  this ≠ other →
  TreeMap.wf lt w other t →
  TreeMap.objects w !! other = Some (TreeMap.mkTreeMap (TreeMap.root_ptr t) sz) →
  hw !! other = Some o → hw !! this = Some x →
  (∃ w', TreeMap.TreeMap_move this other w = Ok tt w'
     ∧ TreeMap.wf lt w' this t
     ∧ TreeMap.objects w' !! this = Some (TreeMap.mkTreeMap (TreeMap.root_ptr t) sz)
     ∧ TreeMap.objects w' !! other = Some (TreeMap.mkTreeMap None sz)
     ∧ TreeMap.nodes w' = TreeMap.nodes w)
  ∧ (∃ hw', HashMap.HashMap_move this other hw = Ok tt hw'
       ∧ hw' !! this = Some (HashMap.mkHashMap (HashMap.buckets o) (HashMap.size o))
       ∧ hw' !! other
         = Some (HashMap.mkHashMap ((λ _, []) <$> HashMap.buckets o) (HashMap.size o)))
  ∧ (∃ hw', HashMap.operator_move_assign this other hw = Ok tt hw'
       ∧ hw' !! this = Some (HashMap.mkHashMap (HashMap.buckets o) (HashMap.size o))
       ∧ hw' !! other
         = Some (HashMap.mkHashMap ((λ _, []) <$> HashMap.buckets o) (HashMap.size o))).
Proof.
  intros Hne Hwf Hobj Ho Hx. split; [by apply TreeMapFacts.TreeMap_move_spec|]. split.
  - destruct (HashMapFacts.HashMap_move_spec hw this other o Hne Ho) as (hw' & ? & ? & ? & _).
    by exists hw'.
  - destruct (HashMapFacts.operator_move_assign_spec hw this other o x Hne Ho Hx)
      as (hw' & ? & ? & ? & _).
    by exists hw'.
Qed.

Lemma move_transfers_the_content_witness :
  (∃ w', TreeMap.TreeMap_move 2%positive 1%positive
           (int_tree_world [(5, 50); (3, 30); (8, 80)]%Z) = Ok tt w'
     ∧ TreeMap.wf Z.lt w' 2%positive tree_5_3_8
     ∧ TreeMap.objects w' !! 2%positive
       = Some (TreeMap.mkTreeMap (TreeMap.root_ptr tree_5_3_8) 3%Z)
     ∧ TreeMap.objects w' !! 1%positive = Some (TreeMap.mkTreeMap None 3%Z)
     ∧ TreeMap.nodes w' = TreeMap.nodes (int_tree_world [(5, 50); (3, 30); (8, 80)]%Z))
  ∧ (∃ hw', HashMap.HashMap_move 2%positive 1%positive
              (<[2%positive := HashMap.HashMap_new]> {[1%positive := int_hash_map [(1, 10)]%Z]})
            = Ok tt hw'
       ∧ hw' !! 2%positive
         = Some (HashMap.mkHashMap (HashMap.buckets (int_hash_map [(1, 10)]%Z))
                                   (HashMap.size (int_hash_map [(1, 10)]%Z)))
       ∧ hw' !! 1%positive
         = Some (HashMap.mkHashMap ((λ _, []) <$> HashMap.buckets (int_hash_map [(1, 10)]%Z))
                                   (HashMap.size (int_hash_map [(1, 10)]%Z))))
  ∧ (∃ hw', HashMap.operator_move_assign 2%positive 1%positive
              (<[2%positive := HashMap.HashMap_new]> {[1%positive := int_hash_map [(1, 10)]%Z]})
            = Ok tt hw'
       ∧ hw' !! 2%positive
         = Some (HashMap.mkHashMap (HashMap.buckets (int_hash_map [(1, 10)]%Z))
                                   (HashMap.size (int_hash_map [(1, 10)]%Z)))
       ∧ hw' !! 1%positive
         = Some (HashMap.mkHashMap ((λ _, []) <$> HashMap.buckets (int_hash_map [(1, 10)]%Z))
                                   (HashMap.size (int_hash_map [(1, 10)]%Z)))).
Proof.
  apply (move_transfers_the_content Z.lt 2%positive 1%positive
           (int_tree_world [(5, 50); (3, 30); (8, 80)]%Z) tree_5_3_8 3%Z
           (<[2%positive := HashMap.HashMap_new]> {[1%positive := int_hash_map [(1, 10)]%Z]})
           (int_hash_map [(1, 10)]%Z) HashMap.HashMap_new).
  - done.
  - exact wf_tree_5_3_8.
  - reflexivity.
  - reflexivity.
  - reflexivity.
Defined.

(** X7: in a HashMap with its 11 buckets the forward iteration from
    [begin()] to [end()] returns and visits the pairs bucket after bucket in
    the order of the array, each bucket in the order of its list. The copy
    constructor walks the source so and inserts what it meets: when the keys
    of the source are in their own buckets and occur once, the new map has
    the buckets of the source, the number of its pairs as size, and the
    source is as it was; the maps compare equal when the size of the source
    is the number of its pairs. *)
Theorem hash_iteration_order_and_copy
    {K V : Type} `{!EqDecision K, !EqDecision V}
    (hash : K → N) (default_value : V) (this other : loc)
    (hw : gmap loc (@HashMap.HashMap K V)) (o : @HashMap.HashMap K V) :
  this ≠ other → hw !! other = Some o →
  HashMap.wf hash o → NoDup (HashMap.keys o) →
  HashMap.traverse o = Ok (HashMap.entries o) o
  ∧ ∃ hw' copy,
      HashMap.HashMap_copy hash default_value this other hw = Ok tt hw'
      ∧ hw' !! other = Some o
      ∧ hw' !! this = Some copy
      ∧ HashMap.buckets copy = HashMap.buckets o
      ∧ HashMap.size copy = size_t_wrap (Z.of_nat (length (HashMap.entries o)))
      ∧ (HashMap.size o = size_t_wrap (Z.of_nat (length (HashMap.entries o))) →
         HashMap.operator_eq o copy = Ok true copy).
Proof.
  intros Hne Ho Hwf Hnd. split; [apply HashMapFacts.hash_traverse_spec, Hwf|].
  destruct (HashMapFacts.HashMap_copy_spec hash default_value hw this other o Hne Ho Hwf Hnd)
    as (hw' & Hrun & Hthis & Hother & _).
  eexists hw', _. split; [done|]. split; [done|]. split; [done|].
  split; [done|]. split; [done|]. intros Hsize.
  unfold HashMap.operator_eq, bind, get, ret. cbn [HashMap.size HashMap.buckets].
  rewrite bool_decide_eq_false_2 by (intros Hc; by apply Hc).
  by rewrite bool_decide_eq_true_2.
Qed.

Lemma hash_iteration_order_and_copy_witness :
  HashMap.traverse (int_hash_map [(12, 20); (1, 10); (5, 50)]%Z)
  = Ok (HashMap.entries (int_hash_map [(12, 20); (1, 10); (5, 50)]%Z))
       (int_hash_map [(12, 20); (1, 10); (5, 50)]%Z)
  ∧ ∃ hw' copy,
      HashMap.HashMap_copy hash_int 0%Z 2%positive 1%positive
        {[1%positive := int_hash_map [(12, 20); (1, 10); (5, 50)]%Z]} = Ok tt hw'
      ∧ hw' !! 1%positive = Some (int_hash_map [(12, 20); (1, 10); (5, 50)]%Z)
      ∧ hw' !! 2%positive = Some copy
      ∧ HashMap.buckets copy = HashMap.buckets (int_hash_map [(12, 20); (1, 10); (5, 50)]%Z)
      ∧ HashMap.size copy
        = size_t_wrap (Z.of_nat (length (HashMap.entries
                                           (int_hash_map [(12, 20); (1, 10); (5, 50)]%Z))))
      ∧ (HashMap.size (int_hash_map [(12, 20); (1, 10); (5, 50)]%Z)
         = size_t_wrap (Z.of_nat (length (HashMap.entries
                                            (int_hash_map [(12, 20); (1, 10); (5, 50)]%Z)))) →
         HashMap.operator_eq (int_hash_map [(12, 20); (1, 10); (5, 50)]%Z) copy = Ok true copy).
Proof.
  apply (hash_iteration_order_and_copy hash_int 0%Z 2%positive 1%positive
           {[1%positive := int_hash_map [(12, 20); (1, 10); (5, 50)]%Z]}
           (int_hash_map [(12, 20); (1, 10); (5, 50)]%Z)).
  - done.
  - reflexivity.
  - apply wf_int_hash_map.
  - apply (bool_decide_unpack _). by vm_compute.
Defined.

(** X8: [remove(key)] of a HashMap that holds the key in its own bucket
    erases the first pair of that key from the bucket, leaves the pairs
    before and after it in their order and the other buckets as they are,
    and decrements [size]; the bucket invariant holds again, and when the
    keys of the bucket occur once the key is no longer in the map. *)
Theorem hash_remove_keeps_the_order_of_the_bucket
    {K V : Type} `{!EqDecision K, !EqDecision V}
    (hash : K → N) (plus_key : string → K → option string)
    (m : @HashMap.HashMap K V) (k : K) :
  HashMap.wf hash m → k ∈ HashMap.keys m →
  ∃ pre v post m',
    HashMap.buckets m !! HashMap.findBucket hash k = Some (pre ++ (k, v) :: post)
    ∧ (k ∉ pre.*1)
    ∧ HashMap.remove hash plus_key k m = Ok tt m'
    ∧ HashMap.buckets m' = <[HashMap.findBucket hash k := pre ++ post]> (HashMap.buckets m)
    ∧ HashMap.size m' = size_t_wrap (HashMap.size m - 1)
    ∧ HashMap.wf hash m'
    ∧ (NoDup (HashMap.keys m) → k ∉ HashMap.keys m').
Proof.
  intros Hwf Hk.
  destruct (HashMapFacts.hash_remove_spec hash plus_key m k Hwf Hk)
    as (pre & v & post & Hl & Hrun & Hwf' & Hpre & Hgone).
  eexists pre, v, post, _. split; [done|]. split; [done|]. split; [done|].
  split; [done|]. split; [done|]. split; [done|].
  intros Hnd. apply Hgone. by eapply HashMapFacts.bucket_keys_NoDup.
Qed.

Lemma hash_remove_keeps_the_order_of_the_bucket_witness :
  ∃ pre v post m',
    HashMap.buckets (int_hash_map [(1, 10); (12, 20); (23, 30)]%Z)
      !! HashMap.findBucket hash_int 12%Z = Some (pre ++ (12%Z, v) :: post)
    ∧ (12%Z ∉ pre.*1)
    ∧ HashMap.remove hash_int plus_int 12%Z (int_hash_map [(1, 10); (12, 20); (23, 30)]%Z)
      = Ok tt m'
    ∧ HashMap.buckets m'
      = <[HashMap.findBucket hash_int 12%Z := pre ++ post]>
          (HashMap.buckets (int_hash_map [(1, 10); (12, 20); (23, 30)]%Z))
    ∧ HashMap.size m'
      = size_t_wrap (HashMap.size (int_hash_map [(1, 10); (12, 20); (23, 30)]%Z) - 1)
    ∧ HashMap.wf hash_int m'
    ∧ (NoDup (HashMap.keys (int_hash_map [(1, 10); (12, 20); (23, 30)]%Z)) →
       12%Z ∉ HashMap.keys m').
Proof.
  apply (hash_remove_keeps_the_order_of_the_bucket hash_int plus_int
           (int_hash_map [(1, 10); (12, 20); (23, 30)]%Z) 12%Z).
  - apply wf_int_hash_map.
  - apply (bool_decide_unpack _). by vm_compute.
Defined.

(** X9: [operator==] of two well-formed TreeMaps. With different sizes it
    returns [false]. With equal sizes it walks the pairs of [other] in
    order and looks each key up in [*this]: it returns [true] when every
    pair of [other] is a pair of [*this], and it leaves by the exception of
    [valueOf] at the first key of [other] that [*this] does not hold. A map
    compares equal to itself. *)
Theorem tree_equality_looks_up_the_keys_of_other
    {K V : Type} `{!EqDecision K, !EqDecision V}
    (lt : relation K) `{!RelDecision lt, !StrictOrder lt}
    (this other : loc) (w : @TreeMap.world K V) (t1 t2 : TreeMap.tree) (s1 s2 : Z) :
  TreeMap.wf lt w this t1 → TreeMap.wf lt w other t2 →
  TreeMap.objects w !! this = Some (TreeMap.mkTreeMap (TreeMap.root_ptr t1) s1) →
  TreeMap.objects w !! other = Some (TreeMap.mkTreeMap (TreeMap.root_ptr t2) s2) →
  TreeMap.operator_eq lt this other w
  = (if bool_decide (s1 ≠ s2) then Ok false w
     else unchanged (TreeMap.compare_pairs lt t1 (TreeMap.entries t2)) w)
  ∧ (s1 = s2 → (∀ kv, kv ∈ TreeMap.entries t2 → kv ∈ TreeMap.entries t1) →
     TreeMap.operator_eq lt this other w = Ok true w)
  ∧ (s1 = s2 → ∀ pre k v post,
       TreeMap.entries t2 = pre ++ (k, v) :: post →
       (∀ kv, kv ∈ pre → kv ∈ TreeMap.entries t1) → k ∉ TreeMap.keys t1 →
       TreeMap.operator_eq lt this other w = Throw (out_of_range Iterator_out_of_range) w)
  ∧ TreeMap.operator_eq lt this this w = Ok true w.
Proof.
  intros Hwf1 Hwf2 Hobj1 Hobj2.
  pose proof (TreeMapFacts.operator_eq_spec lt w this other t1 t2 s1 s2 Hwf1 Hwf2 Hobj1 Hobj2) as Heq.
  pose proof Hwf1 as (_ & _ & _ & Hb1).
  split; [done|]. split; [|split].
  - intros <- Hin. rewrite Heq, bool_decide_eq_false_2 by (by intros []).
    by rewrite (TreeMapFacts.compare_pairs_included lt).
  - intros <- pre k v post Hent Hpre Hk.
    rewrite Heq, bool_decide_eq_false_2 by (by intros []).
    by rewrite Hent, (TreeMapFacts.compare_pairs_missing lt).
  - rewrite (TreeMapFacts.operator_eq_spec lt w this this t1 t1 s1 s1) by done.
    rewrite bool_decide_eq_false_2 by (by intros []).
    by rewrite (TreeMapFacts.compare_pairs_included lt).
Qed.

Lemma tree_equality_looks_up_the_keys_of_other_witness :
  TreeMap.operator_eq Z.lt 1%positive 2%positive two_tree_world
  = (if bool_decide (3%Z ≠ 3%Z) then Ok false two_tree_world
     else unchanged (TreeMap.compare_pairs Z.lt tree_5_3_8 (TreeMap.entries tree_3_8_5)) two_tree_world)
  ∧ (3%Z = 3%Z →
     (∀ kv, kv ∈ TreeMap.entries tree_3_8_5 → kv ∈ TreeMap.entries tree_5_3_8) →
     TreeMap.operator_eq Z.lt 1%positive 2%positive two_tree_world = Ok true two_tree_world)
  ∧ (3%Z = 3%Z → ∀ pre k v post,
       TreeMap.entries tree_3_8_5 = pre ++ (k, v) :: post →
       (∀ kv, kv ∈ pre → kv ∈ TreeMap.entries tree_5_3_8) → k ∉ TreeMap.keys tree_5_3_8 →
       TreeMap.operator_eq Z.lt 1%positive 2%positive two_tree_world
       = Throw (out_of_range Iterator_out_of_range) two_tree_world)
  ∧ TreeMap.operator_eq Z.lt 1%positive 1%positive two_tree_world = Ok true two_tree_world.
Proof.
  apply (tree_equality_looks_up_the_keys_of_other Z.lt 1%positive 2%positive
           two_tree_world tree_5_3_8 tree_3_8_5 3%Z 3%Z).
  - exact (proj1 wf_two_tree_world).
  - exact (proj2 wf_two_tree_world).
  - reflexivity.
  - reflexivity.
Defined.

(** X10: the copy constructor of TreeMap, from a well-formed map at another
    address: it returns; the new map is well formed, shares no node with
    the source, and the iteration over it yields the pairs of the source in
    their order; its size is the number of those pairs. The source is as it
    was, [*this == other] holds when the size of the source is the number of
    its pairs, and an assignment [copy[k] = v] afterwards leaves the pairs
    of the source as they are. *)
Theorem tree_copy_constructor_is_deep
    {K V : Type} `{!EqDecision K, !EqDecision V}
    (lt : relation K) `{!RelDecision lt, !StrictOrder lt, !Trichotomy lt}
    (default_value : V) (this other : loc) (w : @TreeMap.world K V)
    (t2 : TreeMap.tree) (s2 : Z) :
  this ≠ other → TreeMap.wf lt w other t2 →
  TreeMap.objects w !! other = Some (TreeMap.mkTreeMap (TreeMap.root_ptr t2) s2) →
  ∃ w' t',
    TreeMap.TreeMap_copy lt default_value this other w = Ok tt w'
    ∧ TreeMap.wf lt w' other t2 ∧ TreeMap.wf lt w' this t'
    ∧ (∀ a, a ∈ TreeMap.ptrs t' → a ∉ TreeMap.ptrs t2)
    ∧ TreeMap.traverse this w' = Ok (TreeMap.entries t2) w'
    ∧ TreeMap.traverse other w' = Ok (TreeMap.entries t2) w'
    ∧ TreeMap.getSize this w' = Ok (size_t_wrap (Z.of_nat (length (TreeMap.entries t2)))) w'
    ∧ TreeMap.getSize other w' = Ok s2 w'
    ∧ (s2 = size_t_wrap (Z.of_nat (length (TreeMap.entries t2))) →
       TreeMap.operator_eq lt this other w' = Ok true w')
    ∧ (∀ k v, ∃ w'',
         (r <- TreeMap.operator_index lt default_value this k ;; TreeMap.store r v) w'
         = Ok tt w''
         ∧ TreeMap.traverse other w'' = Ok (TreeMap.entries t2) w'').
Proof.
  intros Hne Hwf2 Hobj2.
  destruct (TreeMapFacts.TreeMap_copy_spec lt default_value w this other t2 s2 Hne Hwf2 Hobj2)
    as (w' & t' & Hrun & Hwf2' & Hobj2' & Hwf' & Hent & Hobj' & Hdisj).
  exists w', t'. split; [done|]. split; [done|]. split; [done|]. split; [done|].
  split; [rewrite <- Hent; by apply (TreeMapFacts.traverse_spec lt)|].
  split; [by apply (TreeMapFacts.traverse_spec lt)|].
  split; [unfold TreeMap.getSize; by erewrite bind_Ok; [|by apply TreeMapFacts.this_map_Some]|].
  split; [unfold TreeMap.getSize; by erewrite bind_Ok; [|by apply TreeMapFacts.this_map_Some]|].
  split.
  - intros Hs2.
    rewrite (TreeMapFacts.operator_eq_spec lt w' this other t' t2 _ _ Hwf' Hwf2' Hobj' Hobj2').
    rewrite bool_decide_eq_false_2 by (intros Hc; by apply Hc).
    destruct Hwf' as (_ & _ & _ & Hb).
    rewrite (TreeMapFacts.compare_pairs_included lt); [done|done|]. by rewrite Hent.
  - intros k v.
    destruct (TreeMapFacts.assign_frame lt default_value w' this other t2 t' _ k v Hne Hwf2' Hwf' Hobj' Hdisj)
      as (w'' & t'' & Hrun' & Hwf2'' & _).
    exists w''. split; [done|]. by apply (TreeMapFacts.traverse_spec lt).
Qed.

Lemma tree_copy_constructor_is_deep_witness :
  ∃ w' t',
    TreeMap.TreeMap_copy Z.lt 0%Z 2%positive 1%positive
      (int_tree_world [(5, 50); (3, 30); (8, 80)]%Z) = Ok tt w'
    ∧ TreeMap.wf Z.lt w' 1%positive tree_5_3_8 ∧ TreeMap.wf Z.lt w' 2%positive t'
    ∧ (∀ a, a ∈ TreeMap.ptrs t' → a ∉ TreeMap.ptrs tree_5_3_8)
    ∧ TreeMap.traverse 2%positive w' = Ok (TreeMap.entries tree_5_3_8) w'
    ∧ TreeMap.traverse 1%positive w' = Ok (TreeMap.entries tree_5_3_8) w'
    ∧ TreeMap.getSize 2%positive w'
      = Ok (size_t_wrap (Z.of_nat (length (TreeMap.entries tree_5_3_8)))) w'
    ∧ TreeMap.getSize 1%positive w' = Ok 3%Z w'
    ∧ (3%Z = size_t_wrap (Z.of_nat (length (TreeMap.entries tree_5_3_8))) →
       TreeMap.operator_eq Z.lt 2%positive 1%positive w' = Ok true w')
    ∧ (∀ k v, ∃ w'',
         (r <- TreeMap.operator_index Z.lt 0%Z 2%positive k ;; TreeMap.store r v) w'
         = Ok tt w''
         ∧ TreeMap.traverse 1%positive w'' = Ok (TreeMap.entries tree_5_3_8) w'').
Proof.
  apply (tree_copy_constructor_is_deep Z.lt 0%Z 2%positive 1%positive
           (int_tree_world [(5, 50); (3, 30); (8, 80)]%Z) tree_5_3_8 3%Z).
  - done.
  - exact wf_tree_5_3_8.
  - reflexivity.
Defined.

(** X11: two TreeMaps built at two addresses from the same pairs with
    distinct keys, given in two orders: both constructors return, and each
    of the two maps compares equal to the other. *)
Theorem tree_equality_ignores_the_insertion_order
    {K V : Type} `{!EqDecision K, !EqDecision V}
    (lt : relation K) `{!RelDecision lt, !StrictOrder lt, !Trichotomy lt}
    (default_value : V) (this other : loc) (w : @TreeMap.world K V)
    (l1 l2 : list (K * V)) :
  this ≠ other → NoDup l1.*1 → l1 ≡ₚ l2 →
  ∃ w',
    (TreeMap.TreeMap_of_list lt default_value this l1 ;;;
     TreeMap.TreeMap_of_list lt default_value other l2) w = Ok tt w'
    ∧ TreeMap.operator_eq lt this other w' = Ok true w'
    ∧ TreeMap.operator_eq lt other this w' = Ok true w'.
Proof.
  intros Hne Hnd Hperm.
  exact (TreeMapFacts.TreeMap_of_lists_equal lt default_value w this other l1 l2 Hne Hnd Hperm).
Qed.

Lemma tree_equality_ignores_the_insertion_order_witness :
  ∃ w',
    (TreeMap.TreeMap_of_list Z.lt 0%Z 1%positive [(5, 50); (3, 30); (8, 80)]%Z ;;;
     TreeMap.TreeMap_of_list Z.lt 0%Z 2%positive [(3, 30); (8, 80); (5, 50)]%Z)
      (TreeMap.mkWorld ∅ ∅) = Ok tt w'
    ∧ TreeMap.operator_eq Z.lt 1%positive 2%positive w' = Ok true w'
    ∧ TreeMap.operator_eq Z.lt 2%positive 1%positive w' = Ok true w'.
Proof.
  apply (tree_equality_ignores_the_insertion_order Z.lt 0%Z 1%positive 2%positive).
  - done.
  - apply (bool_decide_unpack _). by vm_compute.
  - apply (Permutation_cons_app [(3, 30); (8, 80)]%Z []). by rewrite app_nil_r.
Defined.

(** X12: [find(key)] of a HashMap with its keys in their own buckets. For a
    key the map holds it returns the iterator at the first pair of the key.
    For a key the map does not hold, the constructor of the iterator moves
    on from the end of the key's bucket: [find] returns [end()] only when
    every later bucket is empty, and otherwise the iterator at the first
    pair of the next bucket that is not empty, a pair of another key. *)
Theorem hash_find_of_an_absent_key
    {K V : Type} `{!EqDecision K, !EqDecision V}
    (hash : K → N) (m : @HashMap.HashMap K V) (k : K) :
  HashMap.wf hash m →
  HashMap.cend m = Ok HashMap.end_iterator m
  ∧ (k ∈ HashMap.keys m →
     ∃ i v,
       HashMap.find hash k m = Ok (HashMap.at_pair (HashMap.findBucket hash k) i) m
       ∧ HashMap.operator_deref (HashMap.buckets m)
           (HashMap.at_pair (HashMap.findBucket hash k) i)
         = Ok (k, v) (HashMap.at_pair (HashMap.findBucket hash k) i))
  ∧ (k ∉ HashMap.keys m →
     ((∀ i l, HashMap.findBucket hash k < i → HashMap.buckets m !! i = Some l → l = []) →
      HashMap.find hash k m = Ok HashMap.end_iterator m)
     ∧ (∀ i v l,
          HashMap.findBucket hash k < i → HashMap.buckets m !! i = Some (v :: l) →
          (∀ j lj, HashMap.findBucket hash k < j < i →
                   HashMap.buckets m !! j = Some lj → lj = []) →
          HashMap.find hash k m = Ok (HashMap.at_pair i 0) m
          ∧ HashMap.at_pair i 0 ≠ HashMap.end_iterator
          ∧ HashMap.operator_deref (HashMap.buckets m) (HashMap.at_pair i 0)
            = Ok v (HashMap.at_pair i 0)
          ∧ v.1 ≠ k)).
Proof.
  intros Hwf. pose proof Hwf as [Hlen Hown]. split; [by apply HashMapFacts.cend_end|]. split.
  - intros Hk. destruct (HashMapFacts.bucket_exists hash m k Hlen) as [l Hl].
    pose proof (HashMapFacts.keys_own_bucket hash m k l Hwf Hl Hk) as Hkl.
    destruct (HashMap.find_if (λ v, bool_decide (v.1 = k)) l) as [i|] eqn:Hfind.
    2:{ by apply HashMapFacts.find_if_None in Hfind. }
    destruct (HashMapFacts.find_if_Some _ _ _ Hfind) as [v Hv].
    exists i, v. split; [by eapply HashMapFacts.find_present|].
    by eapply HashMapFacts.deref_pair.
  - intros Hk. split; [by apply HashMapFacts.find_absent_end|].
    intros i v l Hi Hl Hempty.
    split; [by eapply HashMapFacts.find_absent_later|]. split; [done|].
    split; [by eapply HashMapFacts.deref_pair|].
    intros <-. apply Hk. eapply (HashMapFacts.keys_bucket m i (v :: l)); [done|].
    set_solver.
Qed.

Lemma hash_find_of_an_absent_key_witness :
  HashMap.cend hash_1_12_5 = Ok HashMap.end_iterator hash_1_12_5
  ∧ (3%Z ∈ HashMap.keys hash_1_12_5 →
     ∃ i v,
       HashMap.find hash_int 3%Z hash_1_12_5
       = Ok (HashMap.at_pair (HashMap.findBucket hash_int 3%Z) i) hash_1_12_5
       ∧ HashMap.operator_deref (HashMap.buckets hash_1_12_5)
           (HashMap.at_pair (HashMap.findBucket hash_int 3%Z) i)
         = Ok (3%Z, v) (HashMap.at_pair (HashMap.findBucket hash_int 3%Z) i))
  ∧ (3%Z ∉ HashMap.keys hash_1_12_5 →
     ((∀ i l, HashMap.findBucket hash_int 3%Z < i →
              HashMap.buckets hash_1_12_5 !! i = Some l → l = []) →
      HashMap.find hash_int 3%Z hash_1_12_5 = Ok HashMap.end_iterator hash_1_12_5)
     ∧ (∀ i v l,
          HashMap.findBucket hash_int 3%Z < i →
          HashMap.buckets hash_1_12_5 !! i = Some (v :: l) →
          (∀ j lj, HashMap.findBucket hash_int 3%Z < j < i →
                   HashMap.buckets hash_1_12_5 !! j = Some lj → lj = []) →
          HashMap.find hash_int 3%Z hash_1_12_5 = Ok (HashMap.at_pair i 0) hash_1_12_5
          ∧ HashMap.at_pair i 0 ≠ HashMap.end_iterator
          ∧ HashMap.operator_deref (HashMap.buckets hash_1_12_5) (HashMap.at_pair i 0)
            = Ok v (HashMap.at_pair i 0)
          ∧ v.1 ≠ 3%Z)).
Proof.
  apply (hash_find_of_an_absent_key hash_int hash_1_12_5 3%Z).
  apply wf_int_hash_map.
Defined.

(** X13: [remove(it)] of a HashMap throws for [end()] and leaves the map as
    it is; for the iterator at a pair it erases that pair from its bucket,
    keeps the order of the others and decrements [size]. For a key of the
    map, [remove(find(key))] does what [remove(key)] does; for a key the map
    does not hold and a later bucket that is not empty, [remove(find(key))]
    erases the first pair of that bucket. *)
Theorem hash_remove_by_iterator
    {K V : Type} `{!EqDecision K, !EqDecision V}
    (hash : K → N) (plus_key : string → K → option string)
    (m : @HashMap.HashMap K V) (k : K) :
  HashMap.wf hash m → NoDup (HashMap.keys m) →
  HashMap.remove_at HashMap.end_iterator m = Throw (out_of_range Iterator_out_of_range) m
  ∧ (∀ b j l kv,
       HashMap.buckets m !! b = Some l → l !! j = Some kv →
       ∃ m',
         HashMap.remove_at (HashMap.at_pair b j) m = Ok tt m'
         ∧ HashMap.buckets m' = <[b := delete j l]> (HashMap.buckets m)
         ∧ HashMap.size m' = size_t_wrap (HashMap.size m - 1)
         ∧ HashMap.wf hash m' ∧ NoDup (HashMap.keys m')
         ∧ ∀ kv', kv' ∈ HashMap.entries m' ↔ kv' ∈ HashMap.entries m ∧ kv'.1 ≠ kv.1)
  ∧ (k ∈ HashMap.keys m →
     (it <- HashMap.find hash k ;; HashMap.remove_at it) m = HashMap.remove hash plus_key k m)
  ∧ (k ∉ HashMap.keys m →
     ∀ i v l,
       HashMap.findBucket hash k < i → HashMap.buckets m !! i = Some (v :: l) →
       (∀ j lj, HashMap.findBucket hash k < j < i →
                HashMap.buckets m !! j = Some lj → lj = []) →
       (it <- HashMap.find hash k ;; HashMap.remove_at it) m
       = Ok tt (HashMap.mkHashMap (<[i := l]> (HashMap.buckets m))
                                  (size_t_wrap (HashMap.size m - 1)))).
Proof.
  intros Hwf Hnd. pose proof Hwf as [Hlen Hown].
  split; [by apply HashMapFacts.remove_at_end|]. split; [|split].
  - intros b j l kv Hl Hkv.
    assert (j < length l) as Hj by (by eapply lookup_lt_Some).
    destruct (HashMapFacts.erase_entries hash m b l j kv
                (size_t_wrap (HashMap.size m - 1)) Hwf Hnd Hl Hkv) as (Hwf' & Hnd' & _ & Hin).
    eexists. split; [by apply HashMapFacts.remove_at_pair|]. done.
  - intros Hk. destruct (HashMapFacts.bucket_exists hash m k Hlen) as [l Hl].
    pose proof (HashMapFacts.keys_own_bucket hash m k l Hwf Hl Hk) as Hkl.
    destruct (HashMap.find_if (λ v, bool_decide (v.1 = k)) l) as [i|] eqn:Hfind.
    2:{ by apply HashMapFacts.find_if_None in Hfind. }
    destruct (HashMapFacts.find_if_Some _ _ _ Hfind) as [v Hv].
    erewrite bind_Ok; [|by eapply HashMapFacts.find_present].
    rewrite (HashMapFacts.remove_present hash plus_key m k l i) by done.
    apply HashMapFacts.remove_at_pair; [done|done|by eapply lookup_lt_Some].
  - intros Hk i v l Hi Hl Hempty.
    erewrite bind_Ok; [|by eapply HashMapFacts.find_absent_later].
    rewrite (HashMapFacts.remove_at_pair m i 0 (v :: l)); [done|done|done|simpl; lia].
Qed.

Lemma hash_remove_by_iterator_witness :
  HashMap.remove_at HashMap.end_iterator hash_1_12_5
  = Throw (out_of_range Iterator_out_of_range) hash_1_12_5
  ∧ (∀ b j l kv,
       HashMap.buckets hash_1_12_5 !! b = Some l → l !! j = Some kv →
       ∃ m',
         HashMap.remove_at (HashMap.at_pair b j) hash_1_12_5 = Ok tt m'
         ∧ HashMap.buckets m' = <[b := delete j l]> (HashMap.buckets hash_1_12_5)
         ∧ HashMap.size m' = size_t_wrap (HashMap.size hash_1_12_5 - 1)
         ∧ HashMap.wf hash_int m' ∧ NoDup (HashMap.keys m')
         ∧ ∀ kv', kv' ∈ HashMap.entries m' ↔ kv' ∈ HashMap.entries hash_1_12_5 ∧ kv'.1 ≠ kv.1)
  ∧ (3%Z ∈ HashMap.keys hash_1_12_5 →
     (it <- HashMap.find hash_int 3%Z ;; HashMap.remove_at it) hash_1_12_5
     = HashMap.remove hash_int plus_int 3%Z hash_1_12_5)
  ∧ (3%Z ∉ HashMap.keys hash_1_12_5 →
     ∀ i v l,
       HashMap.findBucket hash_int 3%Z < i →
       HashMap.buckets hash_1_12_5 !! i = Some (v :: l) →
       (∀ j lj, HashMap.findBucket hash_int 3%Z < j < i →
                HashMap.buckets hash_1_12_5 !! j = Some lj → lj = []) →
       (it <- HashMap.find hash_int 3%Z ;; HashMap.remove_at it) hash_1_12_5
       = Ok tt (HashMap.mkHashMap (<[i := l]> (HashMap.buckets hash_1_12_5))
                                  (size_t_wrap (HashMap.size hash_1_12_5 - 1)))).
Proof.
  apply (hash_remove_by_iterator hash_int plus_int hash_1_12_5 3%Z).
  - apply wf_int_hash_map.
  - apply (bool_decide_unpack _). by vm_compute.
Defined.

(** X14: [operator--] of the HashMap iterator. Inside a bucket it steps to
    the pair before. At the first pair of a bucket it does not leave the
    bucket: it goes to its last pair. From [end()] it goes to the last pair
    of the last bucket that is not empty, and throws when all are empty. *)
Theorem hash_decrement_stays_in_the_bucket
    {K V : Type} `{!EqDecision K, !EqDecision V} (bs : list (list (K * V))) :
  length bs = HashMap.MAP_SIZE →
  (∀ b j l, bs !! b = Some l → S j < length l →
     HashMap.operator_dec bs (HashMap.at_pair b (S j)) = Ok tt (HashMap.at_pair b j))
  ∧ (∀ b v l, bs !! b = Some (v :: l) →
       HashMap.operator_dec bs (HashMap.at_pair b 0) = Ok tt (HashMap.at_pair b (length l)))
  ∧ (∀ b v l, bs !! b = Some (v :: l) →
       (∀ j lj, b < j → bs !! j = Some lj → lj = []) →
       HashMap.operator_dec bs HashMap.end_iterator = Ok tt (HashMap.at_pair b (length l)))
  ∧ ((∀ j lj, bs !! j = Some lj → lj = []) →
     HashMap.operator_dec bs HashMap.end_iterator
     = Throw (out_of_range Iterator_out_of_range)
         (HashMap.mkConstIterator 0 (HashMap.list_end (HashMap.MAP_SIZE - 1)))).
Proof.
  intros Hlen. split_and!.
  - intros b j l. apply HashMapFacts.dec_pair_previous.
  - intros b v l. apply HashMapFacts.dec_pair_first.
  - intros b v l. by apply HashMapFacts.dec_end_last.
  - by apply HashMapFacts.dec_end_empty.
Qed.

Lemma hash_decrement_stays_in_the_bucket_witness :
  (∀ b j l, HashMap.buckets hash_1_12_5 !! b = Some l → S j < length l →
     HashMap.operator_dec (HashMap.buckets hash_1_12_5) (HashMap.at_pair b (S j))
     = Ok tt (HashMap.at_pair b j))
  ∧ (∀ b v l, HashMap.buckets hash_1_12_5 !! b = Some (v :: l) →
       HashMap.operator_dec (HashMap.buckets hash_1_12_5) (HashMap.at_pair b 0)
       = Ok tt (HashMap.at_pair b (length l)))
  ∧ (∀ b v l, HashMap.buckets hash_1_12_5 !! b = Some (v :: l) →
       (∀ j lj, b < j → HashMap.buckets hash_1_12_5 !! j = Some lj → lj = []) →
       HashMap.operator_dec (HashMap.buckets hash_1_12_5) HashMap.end_iterator
       = Ok tt (HashMap.at_pair b (length l)))
  ∧ ((∀ j lj, HashMap.buckets hash_1_12_5 !! j = Some lj → lj = []) →
     HashMap.operator_dec (HashMap.buckets hash_1_12_5) HashMap.end_iterator
     = Throw (out_of_range Iterator_out_of_range)
         (HashMap.mkConstIterator 0 (HashMap.list_end (HashMap.MAP_SIZE - 1)))).
Proof.
  apply (hash_decrement_stays_in_the_bucket (HashMap.buckets hash_1_12_5)).
  reflexivity.
Defined.

(** X15: the invariant of the unordered map: 11 buckets, every key in its
    own bucket and only once, [size] the number of pairs. An assignment
    [m[k] = x] and [remove(k)] of a key of the map return and keep it; after
    the assignment [valueOf(k)] is [x], after the removal the key is gone
    and one pair less is held, and [valueOf] of every other key does what it
    did before. *)
Theorem hash_invariant_is_kept
    {K V : Type} `{!EqDecision K, !EqDecision V}
    (hash : K → N) (plus_key : string → K → option string) (default_value : V)
    (m : @HashMap.HashMap K V) :
  HashMap.wf hash m → NoDup (HashMap.keys m) →
  HashMap.size m = size_t_wrap (Z.of_nat (length (HashMap.entries m))) →
  (∀ k x, ∃ m',
     (r <- HashMap.operator_index hash default_value k ;; HashMap.store r x) m = Ok tt m'
     ∧ HashMap.wf hash m' ∧ NoDup (HashMap.keys m')
     ∧ HashMap.size m' = size_t_wrap (Z.of_nat (length (HashMap.entries m')))
     ∧ HashMap.valueOf hash plus_key k m' = Ok x m'
     ∧ ∀ k', k' ≠ k →
         outcome_of (HashMap.valueOf hash plus_key k' m')
         = outcome_of (HashMap.valueOf hash plus_key k' m))
  ∧ (∀ k, k ∈ HashMap.keys m → ∃ m',
       HashMap.remove hash plus_key k m = Ok tt m'
       ∧ HashMap.wf hash m' ∧ NoDup (HashMap.keys m')
       ∧ HashMap.size m' = size_t_wrap (Z.of_nat (length (HashMap.entries m')))
       ∧ length (HashMap.entries m) = S (length (HashMap.entries m'))
       ∧ (k ∉ HashMap.keys m')
       ∧ ∀ k', k' ≠ k →
           outcome_of (HashMap.valueOf hash plus_key k' m')
           = outcome_of (HashMap.valueOf hash plus_key k' m)).
Proof.
  intros Hwf Hnd Hsize. pose proof Hwf as [Hlen Hown]. split.
  - intros k x.
    destruct (HashMapFacts.assign_spec hash default_value m k x Hwf Hnd)
      as (m' & Hrun & Hwf' & Hnd' & Hin & Hold & Hnew).
    exists m'. split; [done|]. split; [done|]. split; [done|]. split_and!.
    + destruct (decide (k ∈ HashMap.keys m)) as [Hk|Hk].
      * destruct (Hold Hk) as [-> ->]. done.
      * destruct (Hnew Hk) as [-> ->]. rewrite Hsize. apply size_increment.
    + apply (HashMapFacts.valueOf_entry hash plus_key); [done|done|]. apply Hin. by left.
    + intros k' Hne. apply (HashMapFacts.valueOf_outcome_ext hash plus_key); try done.
      intros v. rewrite Hin. naive_solver.
  - intros k Hk. destruct (HashMapFacts.bucket_exists hash m k Hlen) as [l Hl].
    pose proof (HashMapFacts.keys_own_bucket hash m k l Hwf Hl Hk) as Hkl.
    destruct (HashMap.find_if (λ v, bool_decide (v.1 = k)) l) as [i|] eqn:Hfind.
    2:{ by apply HashMapFacts.find_if_None in Hfind. }
    destruct (HashMapFacts.find_if_Some _ _ _ Hfind) as [v Hv].
    destruct (HashMapFacts.erase_entries hash m _ l i (k, v)
                (size_t_wrap (HashMap.size m - 1)) Hwf Hnd Hl Hv)
      as (Hwf' & Hnd' & Hcount & Hin).
    eexists. split; [by eapply HashMapFacts.remove_present|].
    split; [done|]. split; [done|]. split_and!.
    + cbn [HashMap.size]. rewrite Hsize, Hcount. apply size_decrement.
    + done.
    + intros (kv & Hkv & Hin')%list_elem_of_fmap. apply Hin in Hin' as [_ Hne]. done.
    + intros k' Hne. apply (HashMapFacts.valueOf_outcome_ext hash plus_key); try done.
      intros v'. rewrite Hin. cbn [fst]. naive_solver.
Qed.

Lemma hash_invariant_is_kept_witness :
  (∀ k x, ∃ m',
     (r <- HashMap.operator_index hash_int 0%Z k ;; HashMap.store r x) hash_1_12_5 = Ok tt m'
     ∧ HashMap.wf hash_int m' ∧ NoDup (HashMap.keys m')
     ∧ HashMap.size m' = size_t_wrap (Z.of_nat (length (HashMap.entries m')))
     ∧ HashMap.valueOf hash_int plus_int k m' = Ok x m'
     ∧ ∀ k', k' ≠ k →
         outcome_of (HashMap.valueOf hash_int plus_int k' m')
         = outcome_of (HashMap.valueOf hash_int plus_int k' hash_1_12_5))
  ∧ (∀ k, k ∈ HashMap.keys hash_1_12_5 → ∃ m',
       HashMap.remove hash_int plus_int k hash_1_12_5 = Ok tt m'
       ∧ HashMap.wf hash_int m' ∧ NoDup (HashMap.keys m')
       ∧ HashMap.size m' = size_t_wrap (Z.of_nat (length (HashMap.entries m')))
       ∧ length (HashMap.entries hash_1_12_5) = S (length (HashMap.entries m'))
       ∧ (k ∉ HashMap.keys m')
       ∧ ∀ k', k' ≠ k →
           outcome_of (HashMap.valueOf hash_int plus_int k' m')
           = outcome_of (HashMap.valueOf hash_int plus_int k' hash_1_12_5)).
Proof.
  apply (hash_invariant_is_kept hash_int plus_int 0%Z hash_1_12_5).
  - apply wf_int_hash_map.
  - apply (bool_decide_unpack _). by vm_compute.
  - reflexivity.
Defined.

(** X16: the constructor of HashMap from a list of pairs, with keys that may
    repeat: it returns a map with the invariant of X15 whose keys are those
    of the list, each with the value of its last pair in the list. *)
Theorem hash_list_constructor_last_value_wins
    {K V : Type} `{!EqDecision K, !EqDecision V}
    (hash : K → N) (plus_key : string → K → option string) (default_value : V)
    (this : loc) (hw : gmap loc (@HashMap.HashMap K V)) (l : list (K * V)) :
  ∃ m',
    HashMap.HashMap_of_list hash default_value this l hw = Ok tt (<[this := m']> hw)
    ∧ HashMap.wf hash m' ∧ NoDup (HashMap.keys m')
    ∧ HashMap.size m' = size_t_wrap (Z.of_nat (length (HashMap.entries m')))
    ∧ (∀ k, k ∈ HashMap.keys m' ↔ k ∈ l.*1)
    ∧ (∀ k v, (k, v) ∈ HashMap.entries m' ↔ last_value l k = Some v)
    ∧ (∀ k v, last_value l k = Some v → HashMap.valueOf hash plus_key k m' = Ok v m')
    ∧ (∀ pre k v post, l = pre ++ (k, v) :: post → k ∉ post.*1 →
         HashMap.valueOf hash plus_key k m' = Ok v m').
Proof.
  destruct (HashMapFacts.HashMap_of_list_spec hash default_value hw this l)
    as (m' & Hrun & Hwf & Hnd & Hsize & Hin).
  assert (∀ k v, last_value l k = Some v → HashMap.valueOf hash plus_key k m' = Ok v m')
    as Hvalue.
  { intros k v Hlast. apply (HashMapFacts.valueOf_entry hash plus_key); [done|done|].
    by apply Hin. }
  exists m'. split; [done|]. split; [done|]. split; [done|]. split; [done|]. split_and!.
  - intros k. split.
    + intros ([k0 v] & -> & Hkv)%list_elem_of_fmap. apply Hin in Hkv.
      apply last_value_Some_elem in Hkv. by apply (list_elem_of_fmap_2 fst _ (k0, v)).
    + intros Hk. destruct (last_value l k) as [v|] eqn:Hlast.
      * apply Hin in Hlast. by apply (list_elem_of_fmap_2 fst _ (k, v)).
      * by apply last_value_None in Hlast.
  - done.
  - done.
  - intros pre k v post -> Hk. apply Hvalue. by apply last_value_app.
Qed.

(** X17: the constructor of HashMap from a list of pairs with distinct keys
    puts into each bucket the pairs of its keys in the order of the list;
    [size] is the length of the list and the iteration yields the buckets
    one after the other. *)
Theorem hash_buckets_keep_the_insertion_order
    {K V : Type} `{!EqDecision K, !EqDecision V}
    (hash : K → N) (default_value : V)
    (this : loc) (hw : gmap loc (@HashMap.HashMap K V)) (l : list (K * V)) :
  NoDup l.*1 →
  ∃ m',
    HashMap.HashMap_of_list hash default_value this l hw = Ok tt (<[this := m']> hw)
    ∧ HashMap.buckets m'
      = (λ b, filter (λ kv, HashMap.findBucket hash kv.1 = b) l) <$> seq 0 HashMap.MAP_SIZE
    ∧ HashMap.size m' = size_t_wrap (Z.of_nat (length l))
    ∧ HashMap.traverse m' = Ok (concat (HashMap.buckets m')) m'.
Proof.
  intros Hnd.
  exists (HashMap.mkHashMap
            ((λ b, filter (λ kv, HashMap.findBucket hash kv.1 = b) l) <$> seq 0 HashMap.MAP_SIZE)
            (size_t_wrap (Z.of_nat (length l)))).
  split; [|split; [reflexivity|split; [reflexivity|]]].
  - unfold HashMap.HashMap_of_list, HashMap.new_at. erewrite bind_Ok; [|reflexivity].
    erewrite HashMapFacts.on_Ok;
      [|apply lookup_insert_eq|by apply HashMapFacts.insert_list_new_buckets].
    by rewrite insert_insert_eq.
  - apply HashMapFacts.hash_traverse_spec. cbn [HashMap.buckets].
    by rewrite length_fmap, length_seq.
Qed.

Lemma hash_buckets_keep_the_insertion_order_witness :
  ∃ m',
    HashMap.HashMap_of_list hash_int 0%Z 1%positive [(23, 1); (5, 2); (1, 3); (12, 4)]%Z ∅
    = Ok tt (<[1%positive := m']> ∅)
    ∧ HashMap.buckets m'
      = (λ b, filter (λ kv, HashMap.findBucket hash_int kv.1 = b)
                [(23, 1); (5, 2); (1, 3); (12, 4)]%Z) <$> seq 0 HashMap.MAP_SIZE
    ∧ HashMap.size m' = size_t_wrap (Z.of_nat (length [(23, 1); (5, 2); (1, 3); (12, 4)]%Z))
    ∧ HashMap.traverse m' = Ok (concat (HashMap.buckets m')) m'.
Proof.
  apply (hash_buckets_keep_the_insertion_order hash_int 0%Z 1%positive ∅
           [(23, 1); (5, 2); (1, 3); (12, 4)]%Z).
  apply (bool_decide_unpack _). by vm_compute.
Defined.

(** X18: the copy assignment of HashMap, between two maps with the invariant
    of the buckets, returns and leaves [other] as it is. Afterwards [*this]
    holds the pairs of [other] and also every pair it held before under a
    key that [other] does not hold, and [size] counts only the pairs that
    were added. The result has the buckets and the number of pairs of
    [other] when [*this] held no pair. *)
Theorem hash_copy_assignment_keeps_old_pairs
    {K V : Type} `{!EqDecision K, !EqDecision V}
    (hash : K → N) (plus_key : string → K → option string) (default_value : V)
    (this other : loc) (hw : gmap loc (@HashMap.HashMap K V))
    (a o : @HashMap.HashMap K V) :
  this ≠ other → hw !! this = Some a → hw !! other = Some o →
  HashMap.wf hash a → NoDup (HashMap.keys a) →
  HashMap.wf hash o → NoDup (HashMap.keys o) →
  ∃ a',
    HashMap.operator_assign hash default_value this other hw = Ok tt (<[this := a']> hw)
    ∧ HashMap.wf hash a' ∧ NoDup (HashMap.keys a')
    ∧ (∀ k v, (k, v) ∈ HashMap.entries a'
              ↔ (k, v) ∈ HashMap.entries o
                ∨ ((k ∉ HashMap.keys o) ∧ (k, v) ∈ HashMap.entries a))
    ∧ HashMap.size a'
      = size_t_wrap (Z.of_nat (length (HashMap.entries a') - length (HashMap.entries a)))
    ∧ (∀ k v, (k, v) ∈ HashMap.entries o → HashMap.valueOf hash plus_key k a' = Ok v a')
    ∧ (∀ k v, k ∉ HashMap.keys o → (k, v) ∈ HashMap.entries a →
         HashMap.valueOf hash plus_key k a' = Ok v a')
    ∧ (HashMap.entries a = [] →
       HashMap.buckets a' = HashMap.buckets o
       ∧ HashMap.size a' = size_t_wrap (Z.of_nat (length (HashMap.entries o)))).
Proof.
  intros Hne Ha Ho Hwfa Hnda Hwfo Hndo.
  destruct (HashMapFacts.hash_operator_assign_spec hash default_value hw this other a o
              Hne Ha Ho Hwfa Hnda Hwfo Hndo)
    as (a' & Hrun & Hwf' & Hnd' & Hin & Hle & Hsize).
  exists a'. split; [done|]. split; [done|]. split; [done|]. split; [done|].
  split; [done|]. split_and!.
  - intros k v Hkv. apply (HashMapFacts.valueOf_entry hash plus_key); [done|done|].
    apply Hin. by left.
  - intros k v Hk Hkv. apply (HashMapFacts.valueOf_entry hash plus_key); [done|done|].
    apply Hin. by right.
  - intros Hempty.
    assert (HashMap.buckets a = replicate HashMap.MAP_SIZE []) as Hbs.
    { destruct Hwfa as [<- _]. by apply concat_nil_replicate. }
    pose proof (HashMapFacts.insert_list_entries hash default_value o Hwfo Hndo) as Hcopy.
    pose proof Hwfo as [Hlen _].
    assert (HashMap.operator_assign hash default_value this other hw
            = Ok tt (<[this := HashMap.mkHashMap (HashMap.buckets o)
                         (size_t_wrap (Z.of_nat (length (HashMap.entries o))))]> hw)) as Hrun'.
    { unfold HashMap.operator_assign. rewrite bool_decide_eq_false_2 by done.
      erewrite bind_Ok; [|eapply HashMapFacts.on_Ok; [exact Ha|reflexivity]].
      rewrite Hbs. change (HashMap.mkHashMap (replicate HashMap.MAP_SIZE []) 0)
        with (@HashMap.HashMap_new K V).
      assert (<[this := HashMap.HashMap_new]> hw !! other = Some o) as Ho'
        by (by rewrite lookup_insert_ne).
      erewrite bind_Ok;
        [|eapply HashMapFacts.on_Ok; [exact Ho'|by apply HashMapFacts.cbegin_first]].
      rewrite (insert_id _ _ _ Ho').
      erewrite bind_Ok;
        [|eapply HashMapFacts.on_Ok; [exact Ho'|by apply HashMapFacts.cend_end]].
      rewrite (insert_id _ _ _ Ho').
      unfold HashMap.fill. erewrite bind_Ok; [|by apply HashMapFacts.object_at_Some].
      erewrite (HashMapFacts.for_each_walk hash default_value _ _ this other o
                  HashMap.HashMap_new);
        [by rewrite insert_insert_eq|done|done|apply lookup_insert_eq| |exact Hcopy|].
      - by apply HashMapFacts.walk_begin.
      - unfold HashMap.entries. lia. }
    rewrite Hrun' in Hrun. injection Hrun as Heq.
    assert (<[this := a']> hw !! this = Some a') as Hthis by apply lookup_insert_eq.
    rewrite <- Heq, lookup_insert_eq in Hthis. by injection Hthis as <-.
Qed.

Lemma hash_copy_assignment_keeps_old_pairs_witness :
  ∃ a',
    HashMap.operator_assign hash_int 0%Z 1%positive 2%positive two_hash_maps
    = Ok tt (<[1%positive := a']> two_hash_maps)
    ∧ HashMap.wf hash_int a' ∧ NoDup (HashMap.keys a')
    ∧ (∀ k v, (k, v) ∈ HashMap.entries a'
              ↔ (k, v) ∈ HashMap.entries (int_hash_map [(1, 11); (12, 20)]%Z)
                ∨ ((k ∉ HashMap.keys (int_hash_map [(1, 11); (12, 20)]%Z))
                   ∧ (k, v) ∈ HashMap.entries (int_hash_map [(1, 10); (7, 70)]%Z)))
    ∧ HashMap.size a'
      = size_t_wrap (Z.of_nat (length (HashMap.entries a')
                               - length (HashMap.entries (int_hash_map [(1, 10); (7, 70)]%Z))))
    ∧ (∀ k v, (k, v) ∈ HashMap.entries (int_hash_map [(1, 11); (12, 20)]%Z) →
         HashMap.valueOf hash_int plus_int k a' = Ok v a')
    ∧ (∀ k v, k ∉ HashMap.keys (int_hash_map [(1, 11); (12, 20)]%Z) →
         (k, v) ∈ HashMap.entries (int_hash_map [(1, 10); (7, 70)]%Z) →
         HashMap.valueOf hash_int plus_int k a' = Ok v a')
    ∧ (HashMap.entries (int_hash_map [(1, 10); (7, 70)]%Z) = [] →
       HashMap.buckets a' = HashMap.buckets (int_hash_map [(1, 11); (12, 20)]%Z)
       ∧ HashMap.size a'
         = size_t_wrap (Z.of_nat (length (HashMap.entries
                                            (int_hash_map [(1, 11); (12, 20)]%Z))))).
Proof.
  apply (hash_copy_assignment_keeps_old_pairs hash_int plus_int 0%Z 1%positive 2%positive
           two_hash_maps (int_hash_map [(1, 10); (7, 70)]%Z)
           (int_hash_map [(1, 11); (12, 20)]%Z)).
  - done.
  - reflexivity.
  - reflexivity.
  - apply wf_int_hash_map.
  - apply (bool_decide_unpack _). by vm_compute.
  - apply wf_int_hash_map.
  - apply (bool_decide_unpack _). by vm_compute.
Defined.

(** X19: [find(key)] of a well-formed TreeMap returns the iterator at the
    node of the key, which differs from [end()] and dereferences to the pair
    of the key, and returns [end()] for a key the map does not hold. *)
Theorem tree_find_returns_the_node_or_end
    {K V : Type} `{!EqDecision K, !EqDecision V}
    (lt : relation K) `{!RelDecision lt, !StrictOrder lt}
    (this : loc) (w : @TreeMap.world K V) (t : TreeMap.tree) (k : K) :
  TreeMap.wf lt w this t →
  (∀ v, (k, v) ∈ TreeMap.entries t →
     ∃ p, TreeMap.find lt this k w = Ok (TreeMap.mkConstIterator this (Some p)) w
          ∧ TreeMap.operator_deref (TreeMap.mkConstIterator this (Some p)) w = Ok (k, v) w
          ∧ (it <- TreeMap.find lt this k ;; e <- TreeMap.cend this ;;
             ret (TreeMap.iterator_eq it e)) w = Ok false w)
  ∧ (k ∉ TreeMap.keys t →
     TreeMap.find lt this k w = Ok (TreeMap.mkConstIterator this None) w
     ∧ (it <- TreeMap.find lt this k ;; e <- TreeMap.cend this ;;
        ret (TreeMap.iterator_eq it e)) w = Ok true w).
Proof.
  intros Hwf. pose proof Hwf as (_ & Ht & Hnd & Hb).
  pose proof (TreeMapFacts.find_spec lt w this t k Hwf) as Hfind. split.
  - intros v Hkv.
    destruct (TreeMapFacts.lookup_tree_bst lt _ _ _ _ _ Ht Hb Hkv) as (p & Hp & _ & n & Hn & Hval).
    rewrite Hp in Hfind. exists p. split; [done|]. split.
    + unfold TreeMap.operator_deref. cbn [TreeMap.currentNode].
      erewrite bind_Ok; [|by apply TreeMapFacts.node_at_Some]. by rewrite <- Hval.
    + by erewrite bind_Ok; [|exact Hfind].
  - intros Hk. rewrite (TreeMapFacts.lookup_tree_None lt k t Hk) in Hfind.
    split; [done|]. by erewrite bind_Ok; [|exact Hfind].
Qed.

Lemma tree_find_returns_the_node_or_end_witness :
  (∀ v, (8%Z, v) ∈ TreeMap.entries tree_5_3_8 →
     ∃ p, TreeMap.find Z.lt 1%positive 8%Z (int_tree_world [(5, 50); (3, 30); (8, 80)]%Z)
          = Ok (TreeMap.mkConstIterator 1%positive (Some p))
               (int_tree_world [(5, 50); (3, 30); (8, 80)]%Z)
          ∧ TreeMap.operator_deref (TreeMap.mkConstIterator 1%positive (Some p))
              (int_tree_world [(5, 50); (3, 30); (8, 80)]%Z)
            = Ok (8%Z, v) (int_tree_world [(5, 50); (3, 30); (8, 80)]%Z)
          ∧ (it <- TreeMap.find Z.lt 1%positive 8%Z ;; e <- TreeMap.cend 1%positive ;;
             ret (TreeMap.iterator_eq it e)) (int_tree_world [(5, 50); (3, 30); (8, 80)]%Z)
            = Ok false (int_tree_world [(5, 50); (3, 30); (8, 80)]%Z))
  ∧ (8%Z ∉ TreeMap.keys tree_5_3_8 →
     TreeMap.find Z.lt 1%positive 8%Z (int_tree_world [(5, 50); (3, 30); (8, 80)]%Z)
     = Ok (TreeMap.mkConstIterator 1%positive None)
          (int_tree_world [(5, 50); (3, 30); (8, 80)]%Z)
     ∧ (it <- TreeMap.find Z.lt 1%positive 8%Z ;; e <- TreeMap.cend 1%positive ;;
        ret (TreeMap.iterator_eq it e)) (int_tree_world [(5, 50); (3, 30); (8, 80)]%Z)
       = Ok true (int_tree_world [(5, 50); (3, 30); (8, 80)]%Z)).
Proof.
  apply (tree_find_returns_the_node_or_end Z.lt 1%positive
           (int_tree_world [(5, 50); (3, 30); (8, 80)]%Z) tree_5_3_8 8%Z).
  exact wf_tree_5_3_8.
Defined.

(** X20: in a well-formed TreeMap whose [size] is not 0, the backward
    iteration from [end()] to [begin()] returns the pairs in decreasing
    order of the keys; [--end()] is the last node, and between two
    neighbours [operator--] undoes [operator++]. *)
Theorem tree_backward_iteration_is_decreasing
    {K V : Type} `{!EqDecision K, !EqDecision V}
    (lt : relation K) `{!RelDecision lt, !StrictOrder lt}
    (this : loc) (w : @TreeMap.world K V) (t : TreeMap.tree) (sz : Z) :
  TreeMap.wf lt w this t →
  TreeMap.objects w !! this = Some (TreeMap.mkTreeMap (TreeMap.root_ptr t) sz) →
  sz ≠ 0%Z →
  TreeMap.traverse_back this w = Ok (reverse (TreeMap.entries t)) w
  ∧ StronglySorted (flip lt) (reverse (TreeMap.keys t))
  ∧ TreeMap.operator_dec (TreeMap.mkConstIterator this None) w
    = Ok (TreeMap.mkConstIterator this (last (TreeMap.ptrs t))) w
  ∧ (∀ i c c', TreeMap.ptrs t !! i = Some c → TreeMap.ptrs t !! S i = Some c' →
       TreeMap.operator_inc (TreeMap.mkConstIterator this (Some c)) w
       = Ok (TreeMap.mkConstIterator this (Some c')) w
       ∧ TreeMap.operator_dec (TreeMap.mkConstIterator this (Some c')) w
         = Ok (TreeMap.mkConstIterator this (Some c)) w).
Proof.
  intros Hwf Hobj Hsz. pose proof Hwf as (_ & Ht & Hnd & Hb). split_and!.
  - apply (TreeMapFacts.traverse_back_spec lt w this t sz); auto.
  - apply TreeMapFacts.StronglySorted_reverse. by apply (TreeMapFacts.bst_sorted lt).
  - by eapply TreeMapFacts.dec_end.
  - intros i c c' Hc Hc'. split.
    + eapply TreeMapFacts.chain_lookup; [by apply (TreeMapFacts.chain_wf lt)|done|done].
    + eapply TreeMapFacts.chain_back_lookup; [by eapply TreeMapFacts.chain_back_wf|done|done].
Qed.

Lemma tree_backward_iteration_is_decreasing_witness :
  TreeMap.traverse_back 1%positive (int_tree_world [(5, 50); (3, 30); (8, 80)]%Z)
  = Ok (reverse (TreeMap.entries tree_5_3_8)) (int_tree_world [(5, 50); (3, 30); (8, 80)]%Z)
  ∧ StronglySorted (flip Z.lt) (reverse (TreeMap.keys tree_5_3_8))
  ∧ TreeMap.operator_dec (TreeMap.mkConstIterator 1%positive None)
      (int_tree_world [(5, 50); (3, 30); (8, 80)]%Z)
    = Ok (TreeMap.mkConstIterator 1%positive (last (TreeMap.ptrs tree_5_3_8)))
         (int_tree_world [(5, 50); (3, 30); (8, 80)]%Z)
  ∧ (∀ i c c', TreeMap.ptrs tree_5_3_8 !! i = Some c → TreeMap.ptrs tree_5_3_8 !! S i = Some c' →
       TreeMap.operator_inc (TreeMap.mkConstIterator 1%positive (Some c))
         (int_tree_world [(5, 50); (3, 30); (8, 80)]%Z)
       = Ok (TreeMap.mkConstIterator 1%positive (Some c'))
            (int_tree_world [(5, 50); (3, 30); (8, 80)]%Z)
       ∧ TreeMap.operator_dec (TreeMap.mkConstIterator 1%positive (Some c'))
           (int_tree_world [(5, 50); (3, 30); (8, 80)]%Z)
         = Ok (TreeMap.mkConstIterator 1%positive (Some c))
              (int_tree_world [(5, 50); (3, 30); (8, 80)]%Z)).
Proof.
  apply (tree_backward_iteration_is_decreasing Z.lt 1%positive
           (int_tree_world [(5, 50); (3, 30); (8, 80)]%Z) tree_5_3_8 3%Z).
  - exact wf_tree_5_3_8.
  - reflexivity.
  - done.
Defined.

(** X21: [clear()] deletes each node after the iterator has left it. In a
    well-formed TreeMap no node of which has a right child, [clear()] and
    the destructor return and free exactly the nodes of the map. When some
    node has a right child the iterator later reads a freed node: [clear()],
    the destructor and both assignments to this map have undefined
    behaviour. *)
Theorem tree_clear_frees_a_left_spine_only
    {K V : Type} `{!EqDecision K, !EqDecision V}
    (lt : relation K) `{!RelDecision lt} (default_value : V)
    (this : loc) (w : @TreeMap.world K V) (t : TreeMap.tree) (sz : Z) :
  TreeMap.wf lt w this t →
  TreeMap.objects w !! this = Some (TreeMap.mkTreeMap (TreeMap.root_ptr t) sz) →
  (TreeMap.right_free t = true →
   ∃ h',
     TreeMap.clear this w
     = Ok tt (TreeMap.mkWorld h' (<[this := TreeMap.mkTreeMap None 0]> (TreeMap.objects w)))
     ∧ TreeMap.TreeMap_destructor this w
       = Ok tt (TreeMap.mkWorld h' (delete this (TreeMap.objects w)))
     ∧ (∀ b, b ∈ TreeMap.ptrs t → h' !! b = None)
     ∧ (∀ b, b ∉ TreeMap.ptrs t → h' !! b = TreeMap.nodes w !! b))
  ∧ (TreeMap.right_free t = false →
     TreeMap.clear this w = Undefined
     ∧ TreeMap.TreeMap_destructor this w = Undefined
     ∧ ∀ other, this ≠ other →
         TreeMap.operator_assign lt default_value this other w = Undefined
         ∧ TreeMap.operator_move_assign this other w = Undefined)
  ∧ (∀ a l kv r, TreeMap.subtree a t = Some (TreeMap.Node l a kv r) → r ≠ TreeMap.Leaf →
       TreeMap.right_free t = false).
Proof.
  intros Hwf Hobj. split_and!.
  - intros Hfree.
    destruct (TreeMapFacts.clear_spec lt w this t sz Hwf Hobj Hfree)
      as (h' & Hrun & Hdel & Hkeep).
    destruct (TreeMapFacts.destructor_spec lt w this t sz Hwf Hobj Hfree)
      as (h'' & Hrun' & _).
    exists h'. split; [done|]. split; [|done].
    rewrite Hrun'. unfold TreeMap.TreeMap_destructor in Hrun'.
    erewrite bind_Ok in Hrun'; [|exact Hrun]. by injection Hrun' as <-.
  - intros Hfree.
    pose proof (TreeMapFacts.clear_undefined lt w this t Hwf Hfree) as Hclear.
    split; [done|]. split; [by apply bind_Undefined|].
    intros other Hne. unfold TreeMap.operator_assign, TreeMap.operator_move_assign.
    rewrite !bool_decide_eq_false_2 by done. split; by apply bind_Undefined.
  - intros a l kv r. apply TreeMapFacts.right_free_subtree.
Qed.

Lemma tree_clear_frees_a_left_spine_only_witness :
  (TreeMap.right_free tree_5_3_8 = true →
   ∃ h',
     TreeMap.clear 1%positive (int_tree_world [(5, 50); (3, 30); (8, 80)]%Z)
     = Ok tt (TreeMap.mkWorld h'
                (<[1%positive := TreeMap.mkTreeMap None 0]>
                   (TreeMap.objects (int_tree_world [(5, 50); (3, 30); (8, 80)]%Z))))
     ∧ TreeMap.TreeMap_destructor 1%positive (int_tree_world [(5, 50); (3, 30); (8, 80)]%Z)
       = Ok tt (TreeMap.mkWorld h'
                  (delete 1%positive
                     (TreeMap.objects (int_tree_world [(5, 50); (3, 30); (8, 80)]%Z))))
     ∧ (∀ b, b ∈ TreeMap.ptrs tree_5_3_8 → h' !! b = None)
     ∧ (∀ b, b ∉ TreeMap.ptrs tree_5_3_8 →
          h' !! b = TreeMap.nodes (int_tree_world [(5, 50); (3, 30); (8, 80)]%Z) !! b))
  ∧ (TreeMap.right_free tree_5_3_8 = false →
     TreeMap.clear 1%positive (int_tree_world [(5, 50); (3, 30); (8, 80)]%Z) = Undefined
     ∧ TreeMap.TreeMap_destructor 1%positive (int_tree_world [(5, 50); (3, 30); (8, 80)]%Z)
       = Undefined
     ∧ ∀ other, 1%positive ≠ other →
         TreeMap.operator_assign Z.lt 0%Z 1%positive other
           (int_tree_world [(5, 50); (3, 30); (8, 80)]%Z) = Undefined
         ∧ TreeMap.operator_move_assign 1%positive other
             (int_tree_world [(5, 50); (3, 30); (8, 80)]%Z) = Undefined)
  ∧ (∀ a l kv r, TreeMap.subtree a tree_5_3_8 = Some (TreeMap.Node l a kv r) →
       r ≠ TreeMap.Leaf → TreeMap.right_free tree_5_3_8 = false).
Proof.
  apply (tree_clear_frees_a_left_spine_only Z.lt 0%Z 1%positive
           (int_tree_world [(5, 50); (3, 30); (8, 80)]%Z) tree_5_3_8 3%Z).
  - exact wf_tree_5_3_8.
  - reflexivity.
Defined.

Lemma wf_spine_and_tree_world :
  TreeMap.wf Z.lt spine_and_tree_world 1%positive tree_5_3
  ∧ TreeMap.wf Z.lt spine_and_tree_world 2%positive tree_3_8_5_b.
Proof.
  split; (split; [|split; [|split]]).
  - by exists 2%Z.
  - by vm_compute.
  - apply (bool_decide_unpack _). by vm_compute.
  - simpl. unfold TreeMap.keys. simpl. repeat split; repeat constructor; lia.
  - by exists 3%Z.
  - by vm_compute.
  - apply (bool_decide_unpack _). by vm_compute.
  - simpl. unfold TreeMap.keys. simpl. repeat split; repeat constructor; lia.
Qed.

(** X22: the assignments to a well-formed TreeMap without right children
    (an empty one, or a left spine) from another well-formed map that shares
    no node with it. The copy assignment gives [*this] new nodes with the
    pairs of [other] in their order and the number of pairs as [size], and
    leaves [other] as it is; the move assignment frees the nodes of [*this],
    gives it the nodes and the [size] of [other], and leaves [other] without
    root but with its [size]. *)
Theorem tree_assignment_onto_a_left_spine
    {K V : Type} `{!EqDecision K, !EqDecision V}
    (lt : relation K) `{!RelDecision lt, !StrictOrder lt, !Trichotomy lt}
    (default_value : V) (this other : loc) (w : @TreeMap.world K V)
    (t t2 : TreeMap.tree) (sz s2 : Z) :
  this ≠ other → TreeMap.wf lt w this t → TreeMap.wf lt w other t2 →
  TreeMap.objects w !! this = Some (TreeMap.mkTreeMap (TreeMap.root_ptr t) sz) →
  TreeMap.objects w !! other = Some (TreeMap.mkTreeMap (TreeMap.root_ptr t2) s2) →
  (∀ a, a ∈ TreeMap.ptrs t → a ∉ TreeMap.ptrs t2) →
  TreeMap.right_free t = true →
  (∃ w' t',
     TreeMap.operator_assign lt default_value this other w = Ok tt w'
     ∧ TreeMap.wf lt w' other t2 ∧ TreeMap.wf lt w' this t'
     ∧ (∀ a, a ∈ TreeMap.ptrs t' → a ∉ TreeMap.ptrs t2)
     ∧ TreeMap.traverse this w' = Ok (TreeMap.entries t2) w'
     ∧ TreeMap.traverse other w' = Ok (TreeMap.entries t2) w'
     ∧ TreeMap.getSize this w' = Ok (size_t_wrap (Z.of_nat (length (TreeMap.entries t2)))) w'
     ∧ TreeMap.getSize other w' = Ok s2 w')
  ∧ (∃ w',
       TreeMap.operator_move_assign this other w = Ok tt w'
       ∧ TreeMap.wf lt w' this t2
       ∧ TreeMap.traverse this w' = Ok (TreeMap.entries t2) w'
       ∧ TreeMap.getSize this w' = Ok s2 w'
       ∧ TreeMap.objects w' !! other = Some (TreeMap.mkTreeMap None s2)
       ∧ (∀ b, b ∈ TreeMap.ptrs t → TreeMap.nodes w' !! b = None)
       ∧ (∀ b, b ∉ TreeMap.ptrs t → TreeMap.nodes w' !! b = TreeMap.nodes w !! b)).
Proof.
  intros Hne Hwf Hwf2 Hobj Hobj2 Hdisj Hfree. split.
  - destruct (TreeMapFacts.tree_operator_assign_spec lt default_value w this other t t2 sz s2
                Hne Hwf Hwf2 Hobj Hobj2 Hdisj Hfree)
      as (w' & t' & Hrun & Hwf2' & Hobj2' & Hwf' & Hent & Hobj' & Hdisj').
    exists w', t'. split; [done|]. split; [done|]. split; [done|]. split; [done|].
    split; [rewrite <- Hent; by apply (TreeMapFacts.traverse_spec lt)|].
    split; [by apply (TreeMapFacts.traverse_spec lt)|].
    split; unfold TreeMap.getSize; by erewrite bind_Ok; [|by apply TreeMapFacts.this_map_Some].
  - destruct (TreeMapFacts.tree_operator_move_assign_spec lt w this other t t2 sz s2
                Hne Hwf Hwf2 Hobj Hobj2 Hdisj Hfree)
      as (w' & Hrun & Hwf' & Hobj' & Hother & Hdel & Hkeep).
    exists w'. split; [done|]. split; [done|].
    split; [by apply (TreeMapFacts.traverse_spec lt)|].
    split; [unfold TreeMap.getSize; by erewrite bind_Ok; [|by apply TreeMapFacts.this_map_Some]|].
    done.
Qed.

Lemma tree_assignment_onto_a_left_spine_witness :
  (∃ w' t',
     TreeMap.operator_assign Z.lt 0%Z 1%positive 2%positive spine_and_tree_world = Ok tt w'
     ∧ TreeMap.wf Z.lt w' 2%positive tree_3_8_5_b ∧ TreeMap.wf Z.lt w' 1%positive t'
     ∧ (∀ a, a ∈ TreeMap.ptrs t' → a ∉ TreeMap.ptrs tree_3_8_5_b)
     ∧ TreeMap.traverse 1%positive w' = Ok (TreeMap.entries tree_3_8_5_b) w'
     ∧ TreeMap.traverse 2%positive w' = Ok (TreeMap.entries tree_3_8_5_b) w'
     ∧ TreeMap.getSize 1%positive w'
       = Ok (size_t_wrap (Z.of_nat (length (TreeMap.entries tree_3_8_5_b)))) w'
     ∧ TreeMap.getSize 2%positive w' = Ok 3%Z w')
  ∧ (∃ w',
       TreeMap.operator_move_assign 1%positive 2%positive spine_and_tree_world = Ok tt w'
       ∧ TreeMap.wf Z.lt w' 1%positive tree_3_8_5_b
       ∧ TreeMap.traverse 1%positive w' = Ok (TreeMap.entries tree_3_8_5_b) w'
       ∧ TreeMap.getSize 1%positive w' = Ok 3%Z w'
       ∧ TreeMap.objects w' !! 2%positive = Some (TreeMap.mkTreeMap None 3%Z)
       ∧ (∀ b, b ∈ TreeMap.ptrs tree_5_3 → TreeMap.nodes w' !! b = None)
       ∧ (∀ b, b ∉ TreeMap.ptrs tree_5_3 →
            TreeMap.nodes w' !! b = TreeMap.nodes spine_and_tree_world !! b)).
Proof.
  apply (tree_assignment_onto_a_left_spine Z.lt 0%Z 1%positive 2%positive
           spine_and_tree_world tree_5_3 tree_3_8_5_b 2%Z 3%Z).
  - done.
  - exact (proj1 wf_spine_and_tree_world).
  - exact (proj2 wf_spine_and_tree_world).
  - reflexivity.
  - reflexivity.
  - apply Forall_forall. apply (bool_decide_unpack _). by vm_compute.
  - reflexivity.
Defined.

(** X23: the constructor of TreeMap from a list of pairs, with keys that may
    repeat: it returns a well-formed map whose keys are those of the list,
    each with the value of its last pair in the list; [size] is the number
    of pairs of the map, and [valueOf] of any other key throws. *)
Theorem tree_list_constructor_last_value_wins
    {K V : Type} `{!EqDecision K, !EqDecision V}
    (lt : relation K) `{!RelDecision lt, !StrictOrder lt, !Trichotomy lt}
    (default_value : V) (this : loc) (w : @TreeMap.world K V) (l : list (K * V)) :
  ∃ w' t,
    TreeMap.TreeMap_of_list lt default_value this l w = Ok tt w'
    ∧ TreeMap.wf lt w' this t
    ∧ TreeMap.getSize this w' = Ok (size_t_wrap (Z.of_nat (length (TreeMap.entries t)))) w'
    ∧ (∀ k, k ∈ TreeMap.keys t ↔ k ∈ l.*1)
    ∧ (∀ k v, (k, v) ∈ TreeMap.entries t ↔ last_value l k = Some v)
    ∧ (∀ k v, last_value l k = Some v → TreeMap.valueOf lt this k w' = Ok v w')
    ∧ (∀ pre k v post, l = pre ++ (k, v) :: post → k ∉ post.*1 →
         TreeMap.valueOf lt this k w' = Ok v w')
    ∧ (∀ k, k ∉ l.*1 →
         TreeMap.valueOf lt this k w' = Throw (out_of_range Iterator_out_of_range) w').
Proof.
  destruct (TreeMapFacts.TreeMap_of_list_values lt default_value w this l)
    as (w' & t & Hrun & Hwf & Hin & Hobj).
  assert (∀ k v, last_value l k = Some v → TreeMap.valueOf lt this k w' = Ok v w') as Hvalue.
  { intros k v Hlast. apply (TreeMapFacts.valueOf_present lt _ _ t); [done|]. by apply Hin. }
  assert (∀ k, k ∈ TreeMap.keys t ↔ k ∈ l.*1) as Hkeys.
  { intros k. split.
    - intros ([k0 v] & -> & Hkv)%list_elem_of_fmap. apply Hin in Hkv.
      apply last_value_Some_elem in Hkv. by apply (list_elem_of_fmap_2 fst _ (k0, v)).
    - intros Hk. destruct (last_value l k) as [v|] eqn:Hlast.
      + apply Hin in Hlast. by apply (list_elem_of_fmap_2 fst _ (k, v)).
      + by apply last_value_None in Hlast. }
  exists w', t. split; [done|]. split; [done|]. split_and!; try done.
  - unfold TreeMap.getSize. by erewrite bind_Ok; [|by apply TreeMapFacts.this_map_Some].
  - intros pre k v post -> Hk. apply Hvalue. by apply last_value_app.
  - intros k Hk. apply (TreeMapFacts.valueOf_absent lt _ _ t); [done|]. by rewrite Hkeys.
Qed.

Lemma tree_list_constructor_last_value_wins_witness :
  ∃ w' t,
    TreeMap.TreeMap_of_list Z.lt 0%Z 1%positive [(5, 50); (3, 30); (5, 51)]%Z
      (TreeMap.mkWorld ∅ ∅) = Ok tt w'
    ∧ TreeMap.wf Z.lt w' 1%positive t
    ∧ TreeMap.getSize 1%positive w'
      = Ok (size_t_wrap (Z.of_nat (length (TreeMap.entries t)))) w'
    ∧ (∀ k, k ∈ TreeMap.keys t ↔ k ∈ [(5, 50); (3, 30); (5, 51)]%Z.*1)
    ∧ (∀ k v, (k, v) ∈ TreeMap.entries t ↔ last_value [(5, 50); (3, 30); (5, 51)]%Z k = Some v)
    ∧ (∀ k v, last_value [(5, 50); (3, 30); (5, 51)]%Z k = Some v →
         TreeMap.valueOf Z.lt 1%positive k w' = Ok v w')
    ∧ (∀ pre k v post, [(5, 50); (3, 30); (5, 51)]%Z = pre ++ (k, v) :: post → k ∉ post.*1 →
         TreeMap.valueOf Z.lt 1%positive k w' = Ok v w')
    ∧ (∀ k, k ∉ [(5, 50); (3, 30); (5, 51)]%Z.*1 →
         TreeMap.valueOf Z.lt 1%positive k w'
         = Throw (out_of_range Iterator_out_of_range) w').
Proof.
  exact (tree_list_constructor_last_value_wins Z.lt 0%Z 1%positive (TreeMap.mkWorld ∅ ∅)
           [(5, 50); (3, 30); (5, 51)]%Z).
Defined.

(** X24: in a well-formed TreeMap, an assignment [m[k] = x] and a removal
    free and rewrite no node but the one they are about. After [m[k] = x]
    every node other than the one the reference designates is still
    allocated and an iterator at it dereferences to the same pair. After
    [remove] of a node, by iterator or by key, the iterator at that node
    designates freed memory, every iterator at another node dereferences to
    the same pair, and when the node had a right child the nodes of its left
    subtree are still allocated although the map no longer holds them. *)
Theorem tree_iterators_stay_valid {K V : Type} `{!EqDecision K, !EqDecision V}
    (lt : relation K) `{!RelDecision lt, !StrictOrder lt, !Trichotomy lt}
    (default_value : V) (this : loc) (w : TreeMap.world) (t : TreeMap.tree) (sz : Z) :
  TreeMap.wf lt w this t →
  TreeMap.objects w !! this = Some (TreeMap.mkTreeMap (TreeMap.root_ptr t) sz) →
  (∀ k x, ∃ r w1 w',
     TreeMap.operator_index lt default_value this k w = Ok r w1
     ∧ TreeMap.store r x w1 = Ok tt w'
     ∧ ∀ c n, c ≠ r → TreeMap.nodes w !! c = Some n →
         TreeMap.operator_deref (TreeMap.mkConstIterator this (Some c)) w'
         = Ok (TreeMap.val n) w')
  ∧ (∀ a l kv r, TreeMap.subtree a t = Some (TreeMap.Node l a kv r) →
     ∃ w',
       TreeMap.remove_at this (TreeMap.mkConstIterator this (Some a)) w = Ok tt w'
       ∧ TreeMap.remove lt this kv.1 w = Ok tt w'
       ∧ TreeMap.operator_deref (TreeMap.mkConstIterator this (Some a)) w' = Undefined
       ∧ (∀ c n, c ≠ a → TreeMap.nodes w !! c = Some n →
            TreeMap.operator_deref (TreeMap.mkConstIterator this (Some c)) w'
            = Ok (TreeMap.val n) w')
       ∧ (r ≠ TreeMap.Leaf → ∀ c, c ∈ TreeMap.ptrs l →
            (c ∉ TreeMap.ptrs (TreeMap.remove_tree a t))
            ∧ is_Some (TreeMap.nodes w' !! c))).
Proof.
  intros Hwf Hobj. pose proof Hwf as (_ & Ht & Hnd & Hb). split.
  - intros k x.
    destruct (TreeMapFacts.tree_assign_spec lt default_value w this t sz k x Hwf Hobj)
      as (w' & t' & Hrun & _).
    apply bind_Ok_inv in Hrun as (r & w1 & Hidx & Hst). exists r, w1, w'.
    split; [done|]. split; [done|]. intros c n Hc Hn.
    destruct (TreeMapFacts.operator_index_kept lt default_value _ _ _ _ _ Hidx c n) as (n1 & Hn1 & E1);
      [done|done|].
    destruct (TreeMapFacts.store_kept _ _ _ _ Hst c n1) as (n2 & Hn2 & E2); [congruence|done|].
    unfold TreeMap.operator_deref. simpl.
    erewrite bind_Ok; [|by apply TreeMapFacts.node_at_Some]. unfold ret. congruence.
  - intros a l kv r Hsub.
    destruct (TreeMapFacts.remove_at_spec lt w this t sz a l kv r Hwf Hobj Hsub)
      as (w' & Hrun & _).
    destruct (TreeMapFacts.remove_at_kept _ _ _ _ Hrun) as (Hfreed & Hkept).
    exists w'. split; [done|]. split; [|split; [|split]].
    + unfold TreeMap.remove. erewrite bind_Ok; [|by apply TreeMapFacts.find_spec].
      by erewrite TreeMapFacts.lookup_tree_subtree.
    + unfold TreeMap.operator_deref, TreeMap.node_at, bind, get, deref. simpl.
      by rewrite Hfreed.
    + intros c n Hc Hn. destruct (Hkept c n) as (n' & Hn' & E); [congruence|done|].
      unfold TreeMap.operator_deref. simpl.
      erewrite bind_Ok; [|by apply TreeMapFacts.node_at_Some]. unfold ret. congruence.
    + intros Hr c Hc.
      destruct (TreeMapFacts.dropped_subtree a t l kv r c Hnd Hsub Hr Hc) as (Hct & Hca & Hout).
      split; [done|].
      destruct (TreeMapFacts.is_tree_allocated _ _ _ _ Ht Hct) as [n Hn].
      destruct (Hkept c n) as (n' & Hn' & _); [congruence|done|]. by exists n'.
Qed.

Lemma tree_iterators_stay_valid_witness :
  (∀ k x, ∃ r w1 w',
     TreeMap.operator_index Z.lt 0%Z 1%positive k
       (int_tree_world [(5, 50); (3, 30); (8, 80)]%Z) = Ok r w1
     ∧ TreeMap.store r x w1 = Ok tt w'
     ∧ ∀ c n, c ≠ r →
         TreeMap.nodes (int_tree_world [(5, 50); (3, 30); (8, 80)]%Z) !! c = Some n →
         TreeMap.operator_deref (TreeMap.mkConstIterator 1%positive (Some c)) w'
         = Ok (TreeMap.val n) w')
  ∧ (∀ a l kv r, TreeMap.subtree a tree_5_3_8 = Some (TreeMap.Node l a kv r) →
     ∃ w',
       TreeMap.remove_at 1%positive (TreeMap.mkConstIterator 1%positive (Some a))
         (int_tree_world [(5, 50); (3, 30); (8, 80)]%Z) = Ok tt w'
       ∧ TreeMap.remove Z.lt 1%positive kv.1
           (int_tree_world [(5, 50); (3, 30); (8, 80)]%Z) = Ok tt w'
       ∧ TreeMap.operator_deref (TreeMap.mkConstIterator 1%positive (Some a)) w' = Undefined
       ∧ (∀ c n, c ≠ a →
            TreeMap.nodes (int_tree_world [(5, 50); (3, 30); (8, 80)]%Z) !! c = Some n →
            TreeMap.operator_deref (TreeMap.mkConstIterator 1%positive (Some c)) w'
            = Ok (TreeMap.val n) w')
       ∧ (r ≠ TreeMap.Leaf → ∀ c, c ∈ TreeMap.ptrs l →
            (c ∉ TreeMap.ptrs (TreeMap.remove_tree a tree_5_3_8))
            ∧ is_Some (TreeMap.nodes w' !! c))).
Proof.
  apply (tree_iterators_stay_valid Z.lt 0%Z 1%positive
           (int_tree_world [(5, 50); (3, 30); (8, 80)]%Z) tree_5_3_8 3%Z).
  - exact wf_tree_5_3_8.
  - reflexivity.
Defined.

(** X25: in a HashMap with its 11 buckets an assignment [m[k] = x] moves no
    pair. The reference that [operator[]] returns designates the place where
    an iterator then reads [(k, x)], and every other place of a pair holds
    the same pair as before, so iterators obtained before the assignment
    still dereference to their pairs. *)
Theorem hash_assignment_keeps_the_places {K V : Type} `{!EqDecision K, !EqDecision V}
    (hash : K → N) (default_value : V) (m : HashMap.HashMap) (k : K) (x : V) :
  length (HashMap.buckets m) = HashMap.MAP_SIZE →
  ∃ r m1 m',
    HashMap.operator_index hash default_value k m = Ok r m1
    ∧ HashMap.store r x m1 = Ok tt m'
    ∧ HashMap.ref_bucket r = HashMap.findBucket hash k
    ∧ HashMap.operator_deref (HashMap.buckets m')
        (HashMap.at_pair (HashMap.ref_bucket r) (HashMap.ref_offset r))
      = Ok (k, x) (HashMap.at_pair (HashMap.ref_bucket r) (HashMap.ref_offset r))
    ∧ ∀ b j l kv,
        HashMap.buckets m !! b = Some l → l !! j = Some kv →
        (b, j) ≠ (HashMap.ref_bucket r, HashMap.ref_offset r) →
        HashMap.operator_deref (HashMap.buckets m') (HashMap.at_pair b j)
        = Ok kv (HashMap.at_pair b j).
Proof.
  intros Hlen. destruct (HashMapFacts.bucket_exists hash m k Hlen) as [l0 Hl0].
  pose proof (lookup_lt_Some _ _ _ Hl0) as Hfb.
  destruct (HashMap.find_if (λ v, bool_decide (v.1 = k)) l0) as [i|] eqn:Hfind.
  - destruct (HashMapFacts.find_if_Some k l0 i Hfind) as [v Hv].
    pose proof (lookup_lt_Some _ _ _ Hv) as Hi.
    eexists _, _, _. split; [by eapply HashMapFacts.operator_index_present|].
    split; [by eapply (HashMapFacts.store_Ok m (HashMap.mkReference _ i))|].
    cbn [HashMap.ref_bucket HashMap.ref_offset HashMap.buckets fst].
    split; [done|]. split.
    + eapply HashMapFacts.deref_pair; [by apply list_lookup_insert_eq|].
      by apply list_lookup_insert_eq.
    + intros b j l kv Hl Hkv Hne. destruct (decide (b = HashMap.findBucket hash k)) as [->|Hb].
      * rewrite Hl0 in Hl. injection Hl as <-.
        eapply HashMapFacts.deref_pair; [by apply list_lookup_insert_eq|].
        rewrite list_lookup_insert_ne; [done|]. congruence.
      * eapply HashMapFacts.deref_pair; [|exact Hkv].
        by rewrite list_lookup_insert_ne.
  - apply HashMapFacts.find_if_None in Hfind.
    eexists _, _, _. split; [by eapply HashMapFacts.operator_index_absent|].
    split.
    { eapply (HashMapFacts.store_Ok _ (HashMap.mkReference _ (length l0))
                (l0 ++ [(k, default_value)]) (k, default_value)).
      - cbn [HashMap.ref_bucket HashMap.buckets]. by apply list_lookup_insert_eq.
      - cbn [HashMap.ref_offset]. by rewrite lookup_app_r, Nat.sub_diag. }
    cbn [HashMap.ref_bucket HashMap.ref_offset HashMap.buckets fst].
    rewrite list_insert_insert_eq.
    assert (<[length l0 := (k, x)]> (l0 ++ [(k, default_value)]) = l0 ++ [(k, x)]) as ->.
    { rewrite insert_app_r_alt, Nat.sub_diag by done. done. }
    split; [done|]. split.
    + eapply HashMapFacts.deref_pair; [by apply list_lookup_insert_eq|].
      by rewrite lookup_app_r, Nat.sub_diag.
    + intros b j l kv Hl Hkv Hne. destruct (decide (b = HashMap.findBucket hash k)) as [->|Hb].
      * rewrite Hl0 in Hl. injection Hl as <-.
        eapply HashMapFacts.deref_pair; [by apply list_lookup_insert_eq|].
        by apply lookup_app_l_Some.
      * eapply HashMapFacts.deref_pair; [|exact Hkv].
        by rewrite list_lookup_insert_ne.
Qed.

Lemma hash_assignment_keeps_the_places_witness :
  ∃ r m1 m',
    HashMap.operator_index hash_int 0%Z 23%Z hash_1_12_5 = Ok r m1
    ∧ HashMap.store r 7%Z m1 = Ok tt m'
    ∧ HashMap.ref_bucket r = HashMap.findBucket hash_int 23%Z
    ∧ HashMap.operator_deref (HashMap.buckets m')
        (HashMap.at_pair (HashMap.ref_bucket r) (HashMap.ref_offset r))
      = Ok (23, 7)%Z (HashMap.at_pair (HashMap.ref_bucket r) (HashMap.ref_offset r))
    ∧ ∀ b j l kv,
        HashMap.buckets hash_1_12_5 !! b = Some l → l !! j = Some kv →
        (b, j) ≠ (HashMap.ref_bucket r, HashMap.ref_offset r) →
        HashMap.operator_deref (HashMap.buckets m') (HashMap.at_pair b j)
        = Ok kv (HashMap.at_pair b j).
Proof.
  apply (hash_assignment_keeps_the_places hash_int 0%Z hash_1_12_5 23%Z 7%Z).
  reflexivity.
Defined.
